(** * Logiflet: circuit graph, simulation engine, boolean-expression engine
      and netlist synthesizer, embedded from the Python sources.

    Layout of the development:
    - [PyStr]            Python [str] values and the string / [re] primitives
                         the sources call;
    - [PyEval]           the fragment of Python expressions reached by
                         [eval] in [BooleanExpression.evaluate];
    - [BooleanAlgebra]   [utils/boolean_algebra.py];
    - [CircuitModel]     [circuit_model.py] over an explicit object store;
    - [Components]       [components/*.py];
    - [SimulationEngine] [simulation_engine.py];
    - [CircuitFromForm]  [utils/circuit_from_form.py];
    - the statements of the properties ([CircuitSpec] to [Canonical]);
    - the theorems: wires ([WireFacts]), the engine ([EngineFacts],
      [StepFacts], [ClockFacts]), the circuit graph ([CircuitFacts]), the
      synthesizer ([SynthFacts]), the normal forms ([TableFacts],
      [FormsExamples]) and their re-evaluation ([StrFacts] to
      [RoundTripFacts]). *)

From Stdlib Require Import ZArith NArith List String Ascii Bool Lia.
From stdpp Require Import base tactics option list sets.
Import ListNotations.

Set Default Proof Using "Type".
Set Warnings "-register-all,-clear-no-such-hyp".

(* ===================================================================== *)
(** * Python strings *)
(* ===================================================================== *)

Module PyStr.

(** A Python [str] is a sequence of Unicode code points. *)
Definition char := N.
Definition str := list char.

Definition ch (a : ascii) : char := N_of_ascii a.

(** ** Literals: the [.py] sources are UTF-8, so are the literals here. *)

Definition cont (b : N) : N := N.land b 63.

Fixpoint utf8_decode (bs : list N) : str :=
  match bs with
  | [] => []
  | b0 :: r0 =>
    if (b0 <? 128)%N then b0 :: utf8_decode r0
    else if (b0 <? 224)%N then
      match r0 with
      | b1 :: r1 =>
          (N.shiftl (N.land b0 31) 6 + cont b1)%N :: utf8_decode r1
      | _ => []
      end
    else if (b0 <? 240)%N then
      match r0 with
      | b1 :: b2 :: r2 =>
          (N.shiftl (N.land b0 15) 12 + N.shiftl (cont b1) 6 + cont b2)%N
            :: utf8_decode r2
      | _ => []
      end
    else
      match r0 with
      | b1 :: b2 :: b3 :: r3 =>
          (N.shiftl (N.land b0 7) 18 + N.shiftl (cont b1) 12
           + N.shiftl (cont b2) 6 + cont b3)%N :: utf8_decode r3
      | _ => []
      end
  end.

Definition py (s : string) : str :=
  utf8_decode (map N_of_ascii (list_ascii_of_string s)).
Arguments py s%_string.

(** A one-character literal. *)
Definition sym (s : string) : char := hd 0%N (py s).
Arguments sym s%_string.

(** ** Character classes.

    [str.isspace] and the [re] class [\s] agree on [str] patterns. *)
Definition isspace (c : char) : bool :=
  ((9 <=? c) && (c <=? 13) || (28 <=? c) && (c <=? 32)
   || (c =? 133) || (c =? 160) || (c =? 5760)
   || (8192 <=? c) && (c <=? 8202)
   || (c =? 8232) || (c =? 8233) || (c =? 8239) || (c =? 8287)
   || (c =? 12288))%N.

Definition ascii_isalpha (c : char) : bool :=
  ((65 <=? c) && (c <=? 90) || (97 <=? c) && (c <=? 122))%N.

Definition ascii_isdigit (c : char) : bool := ((48 <=? c) && (c <=? 57))%N.

(** The non-ASCII operator symbols of the expression engine:
    [¬ • ↑ → ↓ ∧ ∨ ≡ ⊕]; none of them is a letter or a digit, and no
    white-space character is one either. *)
Definition operator_symbols : list char :=
  [172; 8226; 8593; 8594; 8595; 8743; 8744; 8801; 8853]%N.

Definition is_operator_symbol (c : char) : bool :=
  existsb (N.eqb c) operator_symbols.

Section Classes.
(** The Unicode character database is not part of the repository: the
    classification of the remaining code points above 127 is a
    parameter ([str.isalpha] and [str.isalnum] there). *)
Variable uni_isalpha : char -> bool.
Variable uni_isalnum : char -> bool.

Definition isalpha (c : char) : bool :=
  if (c <? 128)%N then ascii_isalpha c
  else if is_operator_symbol c then false
  else uni_isalpha c.

(** [\w] of [re] on [str] patterns: alphanumeric or underscore. *)
Definition isword (c : char) : bool :=
  if (c <? 128)%N then ascii_isalpha c || ascii_isdigit c || (c =? 95)%N
  else if is_operator_symbol c || isspace c then false
  else uni_isalnum c.
End Classes.

(** ** Comparison ([==] and [<] on [str]). *)

Definition eqb (a b : str) : bool :=
  if decide (a = b) then true else false.

Fixpoint ltb (a b : str) : bool :=
  match a, b with
  | [], [] => false
  | [], _ :: _ => true
  | _ :: _, [] => false
  | x :: a', y :: b' =>
      if (x <? y)%N then true else if (y <? x)%N then false else ltb a' b'
  end.

(** ** [str] methods. *)

Fixpoint startswith (p s : str) : bool :=
  match p, s with
  | [], _ => true
  | _ :: _, [] => false
  | x :: p', y :: s' => (x =? y)%N && startswith p' s'
  end.

(** [old in s]. *)
Fixpoint contains (old s : str) : bool :=
  startswith old s ||
  match s with
  | [] => false
  | _ :: t => contains old t
  end.

(** [s.replace(old, new)] for a non-empty [old]: left to right, without
    overlap.  [skip] counts the characters of the occurrence just replaced
    that are still to be dropped. *)
Fixpoint replace_from (old new : str) (skip : nat) (s : str) : str :=
  match s with
  | [] => []
  | c :: t =>
    match skip with
    | S k => replace_from old new k t
    | O =>
      if startswith old s
      then new ++ replace_from old new (length old - 1) t
      else c :: replace_from old new 0 t
    end
  end.

(** With an empty [old], [new] is inserted around every character. *)
Definition replace (old new s : str) : str :=
  match old with
  | [] => new ++ flat_map (fun c => c :: new) s
  | _ :: _ => replace_from old new 0 s
  end.

Fixpoint lstrip_by (f : char -> bool) (s : str) : str :=
  match s with
  | c :: t => if f c then lstrip_by f t else s
  | [] => []
  end.

Definition rstrip_by (f : char -> bool) (s : str) : str :=
  rev (lstrip_by f (rev s)).

Definition strip_by (f : char -> bool) (s : str) : str :=
  rstrip_by f (lstrip_by f s).

(** [s.strip()] and [s.strip(chars)]. *)
Definition strip (s : str) : str := strip_by isspace s.
Definition strip_chars (chars s : str) : str :=
  strip_by (fun c => existsb (N.eqb c) chars) s.

(** [s.split()]: the maximal runs of non-whitespace characters. *)
Fixpoint split_ws_go (cur : str) (s : str) : list str :=
  match s with
  | [] => match cur with [] => [] | _ => [rev cur] end
  | c :: t =>
    if isspace c
    then match cur with
         | [] => split_ws_go [] t
         | _ => rev cur :: split_ws_go [] t
         end
    else split_ws_go (c :: cur) t
  end.

Definition split_ws (s : str) : list str := split_ws_go [] s.

(** [sep.join(parts)]. *)
Fixpoint join (sep : str) (parts : list str) : str :=
  match parts with
  | [] => []
  | [p] => p
  | p :: rest => p ++ sep ++ join sep rest
  end.

(** [str(n)] for a natural number. *)
Fixpoint digits_go (fuel : nat) (n : N) (acc : str) : str :=
  match fuel with
  | O => acc
  | S f =>
    let acc' := (48 + n mod 10)%N :: acc in
    if (n <? 10)%N then acc' else digits_go f (n / 10)%N acc'
  end.

Definition of_N (n : N) : str := digits_go (S (N.to_nat (N.log2 n))) n [].
Definition of_nat (n : nat) : str := of_N (N.of_nat n).

End PyStr.


(* ===================================================================== *)
(** * The [re] calls of the sources *)
(* ===================================================================== *)

Module PyRe.
Import PyStr.

Section Patterns.
Variable uni_isalnum : char -> bool.
Local Abbreviation isword := (PyStr.isword uni_isalnum).

(** The longest prefix of characters satisfying [f], and what follows. *)
Fixpoint span (f : char -> bool) (s : str) : str * str :=
  match s with
  | c :: t => if f c then let '(a, r) := span f t in (c :: a, r) else ([], s)
  | [] => ([], [])
  end.

Definition head_isword (s : str) : bool :=
  match s with
  | c :: _ => isword c
  | [] => false
  end.

(** [\b var \b] at the start of [s], the character before [s] being a
    word character or not ([prevw]); [var] is matched literally, as
    [re.escape] makes it. *)
Definition word_match_at (prevw : bool) (var s : str) : bool :=
  xorb prevw (head_isword s)
  && startswith var s
  && xorb (head_isword (rev var)) (head_isword (drop (length var) s)).

Fixpoint sub_word_from (var lit : str) (prevw : bool) (skip : nat) (s : str)
  : str :=
  match s with
  | [] => []
  | c :: t =>
    match skip with
    | S k => sub_word_from var lit (isword c) k t
    | O =>
      if word_match_at prevw var s
      then lit ++ sub_word_from var lit (isword c) (length var - 1) t
      else c :: sub_word_from var lit (isword c) 0 t
    end
  end.

(** [re.sub(r'\b' + re.escape(var) + r'\b', lit, s)], [var] not empty. *)
Definition sub_word (var lit s : str) : str := sub_word_from var lit false 0 s.

(** One attempt of [(\w+|True|False)\s*OP\s*(\w+|True|False)] at the
    start of [s]: both groups are maximal runs of word characters (the
    alternatives [True] and [False] are such runs themselves), and no
    shorter first group can be followed by [OP]. The result is the two
    groups and the text after the match. *)
Definition binop_match_at (op : char) (s : str) : option (str * str * str) :=
  let '(a, r1) := span isword s in
  match a with
  | [] => None
  | _ :: _ =>
    match lstrip_by isspace r1 with
    | c :: r2 =>
      if (c =? op)%N then
        let '(b, r3) := span isword (lstrip_by isspace r2) in
        match b with
        | [] => None
        | _ :: _ => Some (a, b, r3)
        end
      else None
    | [] => None
    end
  end.

(** [re.search] of that pattern: the leftmost position with a match;
    the result is [expr[:match.start()]], the groups, [expr[match.end():]]. *)
Fixpoint search_binop (op : char) (s : str) : option (str * str * str * str) :=
  match binop_match_at op s with
  | Some (a, b, post) => Some ([], a, b, post)
  | None =>
    match s with
    | [] => None
    | c :: t =>
      match search_binop op t with
      | Some (pre, a, b, post) => Some (c :: pre, a, b, post)
      | None => None
      end
    end
  end.

(** [re.split(r'\s*SEP\s*', s)]: [cur] is the piece being read, [ws] the
    white space read since its last other character (both reversed);
    [skip] holds right after a separator, while its trailing white space
    is consumed. *)
Fixpoint split_sep_go (sep : char) (skip : bool) (cur ws : str) (s : str)
  : list str :=
  match s with
  | [] => [rev (ws ++ cur)]
  | c :: t =>
    if (c =? sep)%N then rev cur :: split_sep_go sep true [] [] t
    else if isspace c then
      if skip then split_sep_go sep true cur ws t
      else split_sep_go sep false cur (c :: ws) t
    else split_sep_go sep false (c :: ws ++ cur) [] t
  end.

Definition split_sep (sep : char) (s : str) : list str :=
  split_sep_go sep false [] [] s.
End Patterns.

End PyRe.

(* ===================================================================== *)
(** * The expressions handed to [eval] *)
(* ===================================================================== *)

(** What a call returns: a value, a raised exception, or a behaviour
    that lies outside the modelled fragment of Python. *)
Inductive result (A : Type) : Type :=
| Ret (a : A)
| Raises
| Unmodelled.
Arguments Ret {A} a.
Arguments Raises {A}.
Arguments Unmodelled {A}.

(** Sequencing, for [result] and for the state-passing code below. *)
Class Bind (M : Type -> Type) :=
  bind : forall {A B : Type}, M A -> (A -> M B) -> M B.

Notation "'do' x <- r ; k" := (bind r (fun x => k))
  (at level 10, x name, r at level 100, k at level 200, only parsing).

#[global] Instance result_bind : Bind result := fun A B r k =>
  match r with
  | Ret a => k a
  | Raises => Raises
  | Unmodelled => Unmodelled
  end.

Module PyEval.
Import PyStr.

(** [BooleanExpression.evaluate] hands [eval] a string built from the
    words [True], [False], [and], [or], [not], the operator [!=],
    parentheses and spaces, plus whatever else the user typed. The
    fragment modelled here is the Python expression grammar over those
    tokens, the integer literals [0] and [1] and the six comparison
    operators; on any other input the outcome is [Unmodelled]. *)

Inductive cmpop := Eq | Ne | Lt | Gt | Le | Ge.

Inductive token :=
| TConst (z : Z)   (* True, False, 0, 1: [bool] is a subclass of [int] *)
| TAnd | TOr | TNot
| TLPar | TRPar
| TCmp (op : cmpop).

Definition classify (w : str) : option token :=
  if eqb w (py "True") then Some (TConst 1)
  else if eqb w (py "False") then Some (TConst 0)
  else if eqb w (py "1") then Some (TConst 1)
  else if eqb w (py "0") then Some (TConst 0)
  else if eqb w (py "and") then Some TAnd
  else if eqb w (py "or") then Some TOr
  else if eqb w (py "not") then Some TNot
  else None.

(** The word read so far ([cur], reversed) ends here. *)
Definition flush (cur : str) (rest : option (list token)) : option (list token) :=
  match cur with
  | [] => rest
  | _ :: _ =>
    match classify (rev cur), rest with
    | Some t, Some ts => Some (t :: ts)
    | _, _ => None
    end
  end.

Definition ascii_isword (c : char) : bool :=
  ascii_isalpha c || ascii_isdigit c || (c =? 95)%N.

(** The tokenizer; [None] when a character or a word lies outside the
    fragment. Operators are read greedily, as Python does. *)
Fixpoint lex (cur : str) (s : str) : option (list token) :=
  match s with
  | [] => flush cur (Some [])
  | c :: t =>
    if ascii_isword c then lex (c :: cur) t
    else flush cur
      (if (c =? 32)%N then lex [] t
       else if (c =? 40)%N then cons TLPar <$> lex [] t
       else if (c =? 41)%N then cons TRPar <$> lex [] t
       else if (c =? 33)%N then           (* ! *)
         match t with
         | c' :: t' => if (c' =? 61)%N then cons (TCmp Ne) <$> lex [] t' else None
         | [] => None
         end
       else if (c =? 61)%N then           (* = *)
         match t with
         | c' :: t' => if (c' =? 61)%N then cons (TCmp Eq) <$> lex [] t' else None
         | [] => None
         end
       else if (c =? 60)%N then           (* < *)
         match t with
         | c' :: t' =>
           if (c' =? 61)%N then cons (TCmp Le) <$> lex [] t'
           else if (c' =? 60)%N || (c' =? 62)%N then None
           else cons (TCmp Lt) <$> lex [] t
         | [] => cons (TCmp Lt) <$> lex [] t
         end
       else if (c =? 62)%N then           (* > *)
         match t with
         | c' :: t' =>
           if (c' =? 61)%N then cons (TCmp Ge) <$> lex [] t'
           else if (c' =? 62)%N then None
           else cons (TCmp Gt) <$> lex [] t
         | [] => cons (TCmp Gt) <$> lex [] t
         end
       else None)
  end.

Definition tokenize (s : str) : option (list token) := lex [] s.

(** Over these tokens Python's grammar has two more productions than the
    one parsed below: the call [f(...)] and the empty tuple [()]. A token
    list in which one of them could occur is left [Unmodelled]. *)
Definition ends_atom (t : token) : bool :=
  match t with
  | TConst _ | TRPar => true
  | _ => false
  end.

Fixpoint may_call (ts : list token) : bool :=
  match ts with
  | a :: (b :: _) as r =>
      match a, b with
      | TLPar, TRPar => true
      | _, TLPar => ends_atom a || may_call r
      | _, _ => may_call r
      end
  | _ => false
  end.

(** The syntax tree:
<<
   or_test    ::= and_test ('or' and_test)*
   and_test   ::= not_test ('and' not_test)*
   not_test   ::= 'not' not_test | comparison
   comparison ::= atom (cmpop atom)*
   atom       ::= True | False | 0 | 1 | '(' or_test ')'
>> *)
Inductive expr :=
| EConst (z : Z)
| ENot (e : expr)
| EAnd (a b : expr)
| EOr (a b : expr)
| ECmp (e : expr) (rest : list (cmpop * expr)).

(** The outcome of a parsing function. *)
Inductive parsed (A : Type) :=
| POk (a : A) (rest : list token)
| PSyntaxError
| PFuel.
Arguments POk {A} a rest.
Arguments PSyntaxError {A}.
Arguments PFuel {A}.

Definition pbind {A B} (p : parsed A) (k : A -> list token -> parsed B) : parsed B :=
  match p with
  | POk a rest => k a rest
  | PSyntaxError => PSyntaxError
  | PFuel => PFuel
  end.

Fixpoint parse_or (fuel : nat) (ts : list token) : parsed expr :=
  match fuel with
  | O => PFuel
  | S f =>
    pbind (parse_and f ts) (fun a rest =>
      match rest with
      | TOr :: rest' => pbind (parse_or f rest') (fun b r => POk (EOr a b) r)
      | _ => POk a rest
      end)
  end
with parse_and (fuel : nat) (ts : list token) : parsed expr :=
  match fuel with
  | O => PFuel
  | S f =>
    pbind (parse_not f ts) (fun a rest =>
      match rest with
      | TAnd :: rest' => pbind (parse_and f rest') (fun b r => POk (EAnd a b) r)
      | _ => POk a rest
      end)
  end
with parse_not (fuel : nat) (ts : list token) : parsed expr :=
  match fuel with
  | O => PFuel
  | S f =>
    match ts with
    | TNot :: rest => pbind (parse_not f rest) (fun e r => POk (ENot e) r)
    | _ =>
      pbind (parse_atom f ts) (fun e rest =>
        pbind (parse_chain f rest) (fun c r =>
          match c with
          | [] => POk e r
          | _ :: _ => POk (ECmp e c) r
          end))
    end
  end
with parse_chain (fuel : nat) (ts : list token) : parsed (list (cmpop * expr)) :=
  match fuel with
  | O => PFuel
  | S f =>
    match ts with
    | TCmp op :: rest =>
      pbind (parse_atom f rest) (fun e rest' =>
        pbind (parse_chain f rest') (fun c r => POk ((op, e) :: c) r))
    | _ => POk [] ts
    end
  end
with parse_atom (fuel : nat) (ts : list token) : parsed expr :=
  match fuel with
  | O => PFuel
  | S f =>
    match ts with
    | TConst z :: rest => POk (EConst z) rest
    | TLPar :: rest =>
      pbind (parse_or f rest) (fun e rest' =>
        match rest' with
        | TRPar :: r => POk e r
        | _ => PSyntaxError
        end)
    | _ => PSyntaxError
    end
  end.

(** Values are integers ([True] is 1); [and] and [or] return one of
    their operands, comparisons and [not] return a [bool]. The right
    operands are side-effect free and cannot raise in this fragment, so
    short-circuit evaluation is not observable. *)
Definition truthy (z : Z) : bool := negb (z =? 0)%Z.
Definition of_bool (b : bool) : Z := if b then 1%Z else 0%Z.

Definition cmp (op : cmpop) (a b : Z) : bool :=
  match op with
  | Eq => (a =? b)%Z
  | Ne => negb (a =? b)%Z
  | Lt => (a <? b)%Z
  | Gt => (b <? a)%Z
  | Le => (a <=? b)%Z
  | Ge => (b <=? a)%Z
  end.

Fixpoint eval_expr (e : expr) : Z :=
  match e with
  | EConst z => z
  | ENot a => of_bool (negb (truthy (eval_expr a)))
  | EAnd a b => let x := eval_expr a in if truthy x then eval_expr b else x
  | EOr a b => let x := eval_expr a in if truthy x then x else eval_expr b
  | ECmp a rest =>
      of_bool
        ((fix chain (x : Z) (l : list (cmpop * expr)) : bool :=
            match l with
            | [] => true
            | (op, b) :: l' =>
                let y := eval_expr b in cmp op x y && chain y l'
            end) (eval_expr a) rest)
  end.

(** [bool(eval(s))]. *)
Definition eval_bool (s : str) : result bool :=
  match tokenize s with
  | None => Unmodelled
  | Some ts =>
    if may_call ts then Unmodelled
    else
      match parse_or (6 * length ts + 6) ts with
      | POk e [] => Ret (truthy (eval_expr e))
      | POk _ (_ :: _) => Raises
      | PSyntaxError => Raises
      | PFuel => Unmodelled
      end
  end.

End PyEval.

(* ===================================================================== *)
(** * Python dictionaries *)
(* ===================================================================== *)

(** A [dict] keeps its keys in insertion order; assigning to a key that
    is present keeps its place. *)
Module PyDict.
Import PyStr.

Section Dict.
Context {V : Type}.

Definition dict := list (str * V).

Fixpoint get (k : str) (d : dict) : option V :=
  match d with
  | [] => None
  | (k', v) :: r => if eqb k k' then Some v else get k r
  end.

Definition mem (k : str) (d : dict) : bool :=
  match get k d with Some _ => true | None => false end.

(** [d[k] = v] *)
Fixpoint set (k : str) (v : V) (d : dict) : dict :=
  match d with
  | [] => [(k, v)]
  | (k', v') :: r => if eqb k k' then (k, v) :: r else (k', v') :: set k v r
  end.

(** [del d[k]], for a key that is present *)
Fixpoint del (k : str) (d : dict) : dict :=
  match d with
  | [] => []
  | (k', v') :: r => if eqb k k' then r else (k', v') :: del k r
  end.

Definition keys (d : dict) : list str := map fst d.
Definition values (d : dict) : list V := map snd d.

(** [dict(pairs)] *)
Definition of_pairs (l : list (str * V)) : dict :=
  fold_left (fun d kv => set (fst kv) (snd kv) d) l [].
End Dict.
Arguments dict V : clear implicits.

End PyDict.

(* ===================================================================== *)
(** * [utils/boolean_algebra.py] *)
(* ===================================================================== *)

Module BooleanAlgebra.
Import PyStr.

(** ** [TruthTableRow], [TruthTable] *)

Record TruthTableRow := {
  inputs : PyDict.dict bool;
  output : bool
}.

Module TruthTable.
Record t := {
  variables : list str;
  rows : list TruthTableRow
}.

Definition get_minterms (self : t) : list TruthTableRow :=
  List.filter (fun row => output row) (rows self).

Definition get_maxterms (self : t) : list TruthTableRow :=
  List.filter (fun row => negb (output row)) (rows self).
End TruthTable.

(** ** [BooleanExpression] *)

Module BooleanExpression.

Definition AND_OPS := map py ["&"; "•"; "∧"; "*"; "and"; "AND"]%string.
Definition OR_OPS := map py ["|"; "∨"; "+"; "or"; "OR"]%string.
Definition NOT_OPS := map py ["!"; "¬"; "~"; "not"; "NOT"]%string.
Definition XOR_OPS := map py ["^"; "⊕"; "xor"; "XOR"]%string.
Definition IMPL_OPS := map py ["->"; "→"; "=>"; "impl"; "IMPL"]%string.
Definition EQ_OPS := map py ["="; "≡"; "~"; "<->"; "<=>"; "eq"; "EQ"]%string.
Definition NAND_OPS := map py ["↑"; "nand"; "NAND"]%string.
Definition NOR_OPS := map py ["↓"; "nor"; "NOR"]%string.

Record t := {
  original : str;
  normalized : str;
  variables : list str
}.

(** [for op in ops: if cond(op): expr = expr.replace(op, target)] *)
Definition replace_each (ops : list str) (cond : str -> bool) (target : str)
    (expr : str) : str :=
  fold_left (fun e op => if cond op then replace op target e else e) ops expr.

Definition _normalize (expr : str) : str :=
  let expr := strip expr in
  let expr := replace_each IMPL_OPS (fun op => 1 <? length op) (py "→") expr in
  let expr := replace_each EQ_OPS (fun op => 1 <? length op) (py "≡") expr in
  let expr := replace_each AND_OPS (fun op => negb (eqb op (py "&"))) (py "&") expr in
  let expr := replace_each OR_OPS (fun op => negb (eqb op (py "|"))) (py "|") expr in
  let expr := replace_each NOT_OPS (fun op => negb (eqb op (py "!"))) (py "!") expr in
  let expr := replace_each XOR_OPS (fun op => negb (eqb op (py "^"))) (py "^") expr in
  let expr := replace_each NAND_OPS (fun op => negb (eqb op (py "↑"))) (py "↑") expr in
  let expr := replace_each NOR_OPS (fun op => negb (eqb op (py "↓"))) (py "↓") expr in
  expr.

(** [sorted(list(variables))] for a set of strings: the distinct
    elements in increasing order. *)
Fixpoint insert_sorted (x : str) (l : list str) : list str :=
  match l with
  | [] => [x]
  | y :: r =>
    if eqb x y then l
    else if ltb x y then x :: l
    else y :: insert_sorted x r
  end.

Definition sorted_set (l : list str) : list str := fold_right insert_sorted [] l.

Definition delimiters : list str :=
  map py ["&"; "|"; "!"; "^"; "→"; "≡"; "↑"; "↓"; "("; ")"; " "]%string.

Section Methods.
Variable uni_isalpha : char -> bool.
Variable uni_isalnum : char -> bool.

Definition starts_alpha (token : str) : bool :=
  match token with
  | c :: _ => isalpha uni_isalpha c
  | [] => false
  end.

Definition _extract_variables (normalized : str) : list str :=
  let cleaned :=
    fold_left (fun c op => replace op (py " ") c) delimiters normalized in
  sorted_set (List.filter starts_alpha (split_ws cleaned)).

(** [BooleanExpression(expression)] *)
Definition new (expression : str) : t :=
  let n := _normalize expression in
  {| original := expression;
     normalized := n;
     variables := _extract_variables n |}.

Definition bool_word (val : bool) : str :=
  if val then py "True" else py "False".

(** [while OP in expr: match = re.search(...); if match: rewrite else: break].
    Every rewrite removes one [OP], so [length expr] rounds are enough. *)
Fixpoint rewrite_binop (fuel : nat) (op : char) (mk : str -> str -> str)
    (expr : str) : str :=
  match fuel with
  | O => expr
  | S f =>
    if existsb (N.eqb op) expr then
      match PyRe.search_binop uni_isalnum op expr with
      | Some (pre, a, b, post) => rewrite_binop f op mk (pre ++ mk a b ++ post)
      | None => expr
      end
    else expr
  end.


Definition evaluate (self : t) (values : PyDict.dict bool) : result bool :=
  if existsb (fun kv => eqb (fst kv) []) values then Unmodelled else
  let expr := normalized self in
  let expr :=
    fold_left (fun e kv => PyRe.sub_word uni_isalnum (fst kv) (bool_word (snd kv)) e)
              values expr in
  let expr := replace (py "&") (py " and ") expr in
  let expr := replace (py "|") (py " or ") expr in
  let expr := replace (py "!") (py " not ") expr in
  let expr := replace (py "^") (py " != ") expr in
  let expr := rewrite_binop (length expr) (sym "→")
    (fun a b => py "(not " ++ a ++ py " or " ++ b ++ py ")") expr in
  let expr := rewrite_binop (length expr) (sym "≡")
    (fun a b => py "((" ++ a ++ py " and " ++ b ++ py ") or (not " ++ a
                ++ py " and not " ++ b ++ py "))") expr in
  let expr := rewrite_binop (length expr) (sym "↑")
    (fun a b => py "not (" ++ a ++ py " and " ++ b ++ py ")") expr in
  let expr := rewrite_binop (length expr) (sym "↓")
    (fun a b => py "not (" ++ a ++ py " or " ++ b ++ py ")") expr in
  PyEval.eval_bool expr.
End Methods.

End BooleanExpression.

Section Functions.
Variable uni_isalpha : char -> bool.
Variable uni_isalnum : char -> bool.

(** [itertools.product([False, True], repeat=n)] *)
Fixpoint product (n : nat) : list (list bool) :=
  match n with
  | O => [[]]
  | S k => map (cons false) (product k) ++ map (cons true) (product k)
  end.

Fixpoint mapM {A B} (f : A -> result B) (l : list A) : result (list B) :=
  match l with
  | [] => Ret []
  | a :: r => do b <- f a; do bs <- mapM f r; Ret (b :: bs)
  end.

Definition generate_truth_table (expression : str) : result TruthTable.t :=
  let bool_expr := BooleanExpression.new uni_isalpha expression in
  let variables := BooleanExpression.variables bool_expr in
  match variables with
  | [] => Raises
  | _ :: _ =>
    do rows <- mapM (fun combination =>
                   let values := PyDict.of_pairs (combine variables combination) in
                   do output <- BooleanExpression.evaluate uni_isalnum bool_expr values;
                   Ret {| inputs := values; output := output |})
                (product (length variables));
    Ret {| TruthTable.variables := variables; TruthTable.rows := rows |}
  end.
End Functions.

(** [row.inputs[var]] raises [KeyError] on a missing key. *)
Definition lookup_input (row : TruthTableRow) (var : str) : result bool :=
  match PyDict.get var (inputs row) with
  | Some b => Ret b
  | None => Raises
  end.

Definition calculate_pdnf (truth_table : TruthTable.t) : result str :=
  let minterms := TruthTable.get_minterms truth_table in
  match minterms with
  | [] => Ret (py "0")
  | _ :: _ =>
    do terms <- mapM (fun row : TruthTableRow =>
        do literals <- mapM (fun var : str =>
            do b <- lookup_input row var;
            Ret (if b : bool then var else py "!" ++ var))
          (TruthTable.variables truth_table);
        Ret (py "(" ++ join (py "&") literals ++ py ")"))
      minterms;
    Ret (join (py " | ") terms)
  end.

Definition calculate_pcnf (truth_table : TruthTable.t) : result str :=
  let maxterms := TruthTable.get_maxterms truth_table in
  match maxterms with
  | [] => Ret (py "1")
  | _ :: _ =>
    do terms <- mapM (fun row : TruthTableRow =>
        do literals <- mapM (fun var : str =>
            do b <- lookup_input row var;
            Ret (if b : bool then py "!" ++ var else var))
          (TruthTable.variables truth_table);
        Ret (py "(" ++ join (py "|") literals ++ py ")"))
      maxterms;
    Ret (join (py " & ") terms)
  end.

(** [[(prev_row[j] + prev_row[j + 1]) % 2 for j in range(len(prev_row) - 1)]] *)
Fixpoint xor_adjacent (prev_row : list Z) : list Z :=
  match prev_row with
  | a :: (b :: _) as r => ((a + b) mod 2)%Z :: xor_adjacent r
  | _ => []
  end.

(** [for i in range(n): triangle.append(new_row of triangle[-1])] *)
Fixpoint build_triangle (n : nat) (last : list Z) : list (list Z) :=
  match n with
  | O => [last]
  | S k => last :: build_triangle k (xor_adjacent last)
  end.

Definition first_entry (row : list Z) : result Z :=
  match row with
  | x :: _ => Ret x
  | [] => Raises                  (* IndexError *)
  end.

(** [[j for j in range(n) if (i >> j) & 1]] *)
Definition var_indices (n i : nat) : list nat :=
  List.filter (fun j => N.testbit (N.of_nat i) (N.of_nat j)) (seq 0 n).

Definition monomial (variables : list str) (i : nat) : list str :=
  match i with
  | O => [py "1"]
  | S _ =>
    match var_indices (length variables) i with
    | [] => []
    | js => [join (py "&") (map (fun j => nth j variables []) js)]
    end
  end.

Definition calculate_zhegalkin (truth_table : TruthTable.t) : result str :=
  let outputs := map (fun row => if output row then 1%Z else 0%Z)
                     (TruthTable.rows truth_table) in
  let n := length (TruthTable.variables truth_table) in
  let triangle := build_triangle n outputs in
  do coefficients <- mapM first_entry triangle;
  let terms :=
    concat (imap (fun i coef =>
                    if (coef =? 1)%Z
                    then monomial (TruthTable.variables truth_table) i
                    else [])
                 coefficients) in
  match terms with
  | [] => Ret (py "0")
  | _ :: _ => Ret (join (py " ⊕ ") terms)
  end.

(** The dictionary returned by [analyze_boolean_function]. *)
Record Analysis := {
  expression : str;
  variables : list str;
  truth_table : list (PyDict.dict bool);
  pdnf : str;
  pcnf : str;
  zhegalkin : str
}.

(** [TruthTableRow.to_dict]: [{**self.inputs, 'F': self.output}] *)
Definition to_dict (row : TruthTableRow) : PyDict.dict bool :=
  PyDict.set (py "F") (output row) (inputs row).

Section Analyze.
Variable uni_isalpha : char -> bool.
Variable uni_isalnum : char -> bool.

Definition analyze_boolean_function (expression : str) : result Analysis :=
  do truth_table <- generate_truth_table uni_isalpha uni_isalnum expression;
  do pdnf <- calculate_pdnf truth_table;
  do pcnf <- calculate_pcnf truth_table;
  do zhegalkin <- calculate_zhegalkin truth_table;
  Ret {| expression := expression;
         variables := TruthTable.variables truth_table;
         truth_table := map to_dict (TruthTable.rows truth_table);
         pdnf := pdnf; pcnf := pcnf; zhegalkin := zhegalkin |}.
End Analyze.

End BooleanAlgebra.

(* ===================================================================== *)
(** * [circuit_model.py] *)
(* ===================================================================== *)

(** Pins, wires and components are objects that are shared by reference:
    a wire holds its two pins, a pin lists the wires on it, a component
    maps names to its pins, the circuit maps ids to components and wires.
    The embedding keeps the three kinds of objects in a store and lets
    every reference be an index into it.

    Layout and presentation attributes ([position], [points],
    [selected], [properties]) take no part in the operations below and
    are left out. *)

Module CircuitModel.
Import PyStr.

(** The four members of [SignalState]; their values come from
    [utils/constants.py] and are taken to be pairwise distinct. *)
Inductive SignalState := LOW | HIGH | UNKNOWN | HIGHZ.

#[global] Instance SignalState_eq_dec : EqDecision SignalState.
Proof. solve_decision. Defined.

Module Signal.
Record t := mk {
  state : SignalState;
  bit_width : Z;
  value : Z
}.

(** [Signal()] *)
Definition default : t := mk UNKNOWN 1 0.

(** [Signal(state)] *)
Definition of_state (s : SignalState) : t := mk s 1 0.

Definition __bool__ (self : t) : bool :=
  if decide (state self = HIGH) then true else false.

Definition __int__ (self : t) : Z :=
  match state self with
  | HIGH => 1
  | LOW => 0
  | _ => (-1)
  end.

Definition from_bool (value : bool) : t :=
  mk (if value then HIGH else LOW) 1 (if value then 1 else 0).

Definition from_int (value : Z) (bit_width : Z) : t :=
  if (value =? 0)%Z then mk LOW bit_width 0 else mk HIGH bit_width value.
End Signal.

#[global] Instance Signal_inhabited : Inhabited Signal.t := populate Signal.default.

Inductive PinType := INPUT | OUTPUT | INOUT.

#[global] Instance PinType_eq_dec : EqDecision PinType.
Proof. solve_decision. Defined.

(** References into the store. *)
Abbreviation pin_ref := nat.
Abbreviation wire_ref := nat.
Abbreviation comp_ref := nat.

Module Pin.
Record t := mk {
  name : str;
  pin_type : PinType;
  signal : Signal.t;
  bit_width : Z;
  connected_wires : list wire_ref
}.

(** [Pin(name, pin_type, position)] *)
Definition new (name : str) (pin_type : PinType) : t :=
  mk name pin_type Signal.default 1 [].

Definition with_signal (s : Signal.t) (self : t) : t :=
  mk (name self) (pin_type self) s (bit_width self) (connected_wires self).

Definition with_connected_wires (l : list wire_ref) (self : t) : t :=
  mk (name self) (pin_type self) (signal self) (bit_width self) l.
End Pin.

#[global] Instance Pin_inhabited : Inhabited Pin.t :=
  populate (Pin.new [] INOUT).

Module Wire.
Record t := mk {
  wire_id : str;
  start_pin : pin_ref;
  end_pin : pin_ref;
  signal : Signal.t
}.

(** [Wire(wire_id, start_pin, end_pin)] *)
Definition new (wire_id : str) (start_pin end_pin : pin_ref) : t :=
  mk wire_id start_pin end_pin Signal.default.

Definition with_signal (s : Signal.t) (self : t) : t :=
  mk (wire_id self) (start_pin self) (end_pin self) s.

Definition with_wire_id (i : str) (self : t) : t :=
  mk i (start_pin self) (end_pin self) (signal self).
End Wire.

#[global] Instance Wire_inhabited : Inhabited Wire.t :=
  populate (Wire.new [] 0 0).

(** The classes of [components/*.py] with the instance attributes each
    adds to [Component]; [BaseComponent] is [Component] itself. *)
Inductive Kind :=
| BaseComponent
| ANDGate (num_inputs : nat)
| ORGate (num_inputs : nat)
| NOTGate (num_inputs : nat)
| XORGate (num_inputs : nat)
| NANDGate (num_inputs : nat)
| NORGate (num_inputs : nat)
| XNORGate (num_inputs : nat)
| BufferGate (num_inputs : nat)
| Switch (state : bool)
| Button (pressed : bool)
| LED (lit : bool)
| InputPin (value : bool)
| OutputPin (value : bool)
| Clock (state : bool) (tick_count : Z) (frequency : Z)
| DFlipFlop (state : bool) (last_clock : bool)
| JKFlipFlop (state : bool) (last_clock : bool)
| SRLatch (state : bool)
| Register (bit_width : nat) (value : Z) (last_clock : bool)
| Multiplexer (num_inputs : nat) (num_select : nat)
| Decoder (num_inputs : nat) (num_outputs : nat)
| HalfAdder
| FullAdder
| Comparator (bit_width : nat).

Module Component.
Record t := mk {
  id : str;
  label : str;
  pins : PyDict.dict pin_ref;
  kind : Kind
}.

Definition with_id (i : str) (self : t) : t :=
  mk i (label self) (pins self) (kind self).

Definition with_pins (p : PyDict.dict pin_ref) (self : t) : t :=
  mk (id self) (label self) p (kind self).

Definition with_kind (k : Kind) (self : t) : t :=
  mk (id self) (label self) (pins self) k.

Definition get_pin (self : t) (name : str) : option pin_ref :=
  PyDict.get name (pins self).
End Component.

#[global] Instance Component_inhabited : Inhabited Component.t :=
  populate (Component.mk [] [] [] BaseComponent).

(** The object store. *)
Record Store := mkStore {
  pin_heap : list Pin.t;
  wire_heap : list Wire.t;
  comp_heap : list Component.t
}.

Definition empty_store : Store := mkStore [] [] [].

Definition pin_at (st : Store) (p : pin_ref) : Pin.t := pin_heap st !!! p.
Definition wire_at (st : Store) (w : wire_ref) : Wire.t := wire_heap st !!! w.
Definition comp_at (st : Store) (c : comp_ref) : Component.t := comp_heap st !!! c.

Definition update_pin (p : pin_ref) (f : Pin.t -> Pin.t) (st : Store) : Store :=
  mkStore (alter f p (pin_heap st)) (wire_heap st) (comp_heap st).

Definition update_wire (w : wire_ref) (f : Wire.t -> Wire.t) (st : Store) : Store :=
  mkStore (pin_heap st) (alter f w (wire_heap st)) (comp_heap st).

Definition update_comp (c : comp_ref) (f : Component.t -> Component.t) (st : Store)
  : Store :=
  mkStore (pin_heap st) (wire_heap st) (alter f c (comp_heap st)).

(** Object creation. *)
Definition alloc_pin (p : Pin.t) (st : Store) : pin_ref * Store :=
  (length (pin_heap st), mkStore (pin_heap st ++ [p]) (wire_heap st) (comp_heap st)).

Definition alloc_wire (w : Wire.t) (st : Store) : wire_ref * Store :=
  (length (wire_heap st), mkStore (pin_heap st) (wire_heap st ++ [w]) (comp_heap st)).

Definition alloc_comp (c : Component.t) (st : Store) : comp_ref * Store :=
  (length (comp_heap st), mkStore (pin_heap st) (wire_heap st) (comp_heap st ++ [c])).

(** [pin.signal = signal] and [pin.set_signal(signal)] *)
Definition set_signal (p : pin_ref) (s : Signal.t) (st : Store) : Store :=
  update_pin p (Pin.with_signal s) st.

Definition signal_of (st : Store) (p : pin_ref) : Signal.t := Pin.signal (pin_at st p).

(** [Component.add_pin] *)
Definition add_pin (self : comp_ref) (pin : pin_ref) (st : Store) : Store :=
  update_comp self
    (fun c => Component.with_pins (PyDict.set (Pin.name (pin_at st pin)) pin (Component.pins c)) c)
    st.

(** [Component.get_input_pins], [Component.get_output_pins] *)
Definition pins_of_type (ty : PinType) (st : Store) (self : comp_ref) : list pin_ref :=
  List.filter (fun p => if decide (Pin.pin_type (pin_at st p) = ty) then true else false)
              (PyDict.values (Component.pins (comp_at st self))).

Definition get_input_pins := pins_of_type INPUT.
Definition get_output_pins := pins_of_type OUTPUT.

(** [Wire.propagate] *)
Definition propagate (self : wire_ref) (st : Store) : Store :=
  let w := wire_at st self in
  if decide (Pin.pin_type (pin_at st (Wire.start_pin w)) = OUTPUT) then
    let s := signal_of st (Wire.start_pin w) in
    let st := update_wire self (Wire.with_signal s) st in
    set_signal (Wire.end_pin w) s st
  else if decide (Pin.pin_type (pin_at st (Wire.end_pin w)) = OUTPUT) then
    let s := signal_of st (Wire.end_pin w) in
    let st := update_wire self (Wire.with_signal s) st in
    set_signal (Wire.start_pin w) s st
  else st.

(** ** [Circuit] *)

Module Circuit.
Record t := mk {
  name : str;
  components : PyDict.dict comp_ref;
  wires : PyDict.dict wire_ref;
  _next_component_id : nat;
  _next_wire_id : nat
}.

(** [Circuit(name)] *)
Definition new (name : str) : t := mk name [] [] 0 0.
End Circuit.

Section CircuitMethods.
(** [x in container] and [list.remove(x)] try identity first and the
    [==] of the elements next. For [Pin] and [Wire] that is the
    structural comparison generated by [@dataclass]; it is a parameter
    here, taken to return. *)
Variable pin_eq : Store -> pin_ref -> pin_ref -> bool.
Variable wire_eq : Store -> wire_ref -> wire_ref -> bool.

Definition pin_in (st : Store) (x : pin_ref) (l : list pin_ref) : bool :=
  existsb (fun v => Nat.eqb v x || pin_eq st v x) l.

Definition wire_in (st : Store) (x : wire_ref) (l : list wire_ref) : bool :=
  existsb (fun v => Nat.eqb v x || wire_eq st v x) l.

Fixpoint list_remove (st : Store) (x : wire_ref) (l : list wire_ref) : list wire_ref :=
  match l with
  | [] => []
  | v :: r => if Nat.eqb v x || wire_eq st v x then r else v :: list_remove st x r
  end.

Definition add_component (self : Circuit.t) (component : comp_ref) (st : Store)
  : str * Circuit.t * Store :=
  let '(self, st) :=
    match Component.id (comp_at st component) with
    | [] =>
        (Circuit.mk (Circuit.name self) (Circuit.components self) (Circuit.wires self)
                    (S (Circuit._next_component_id self)) (Circuit._next_wire_id self),
         update_comp component
           (Component.with_id (py "comp_" ++ of_nat (Circuit._next_component_id self))) st)
    | _ :: _ => (self, st)
    end in
  let id := Component.id (comp_at st component) in
  (id,
   Circuit.mk (Circuit.name self) (PyDict.set id component (Circuit.components self))
              (Circuit.wires self) (Circuit._next_component_id self)
              (Circuit._next_wire_id self),
   st).

(** [wire.PIN.connected_wires.remove(wire)] when [wire in] that list *)
Definition detach (wire : wire_ref) (pin : pin_ref) (st : Store) : Store :=
  if wire_in st wire (Pin.connected_wires (pin_at st pin))
  then update_pin pin
         (fun p => Pin.with_connected_wires (list_remove st wire (Pin.connected_wires p)) p)
         st
  else st.

Definition remove_wire (self : Circuit.t) (wire_id : str) (st : Store)
  : Circuit.t * Store :=
  match PyDict.get wire_id (Circuit.wires self) with
  | Some wire =>
    let st := detach wire (Wire.start_pin (wire_at st wire)) st in
    let st := detach wire (Wire.end_pin (wire_at st wire)) st in
    (Circuit.mk (Circuit.name self) (Circuit.components self)
                (PyDict.del wire_id (Circuit.wires self))
                (Circuit._next_component_id self) (Circuit._next_wire_id self),
     st)
  | None => (self, st)
  end.

(** The wires of the circuit with an end among the pins of [component]. *)
Definition wires_to_remove (self : Circuit.t) (component : comp_ref) (st : Store)
  : list str :=
  let own := PyDict.values (Component.pins (comp_at st component)) in
  map fst
    (List.filter
       (fun kv =>
          pin_in st (Wire.start_pin (wire_at st (snd kv))) own
          || pin_in st (Wire.end_pin (wire_at st (snd kv))) own)
       (Circuit.wires self)).

Definition remove_component (self : Circuit.t) (component_id : str) (st : Store)
  : Circuit.t * Store :=
  match PyDict.get component_id (Circuit.components self) with
  | Some component =>
    let '(self, st) :=
      fold_left (fun acc wire_id => remove_wire (fst acc) wire_id (snd acc))
                (wires_to_remove self component st) (self, st) in
    (Circuit.mk (Circuit.name self)
                (PyDict.del component_id (Circuit.components self))
                (Circuit.wires self)
                (Circuit._next_component_id self) (Circuit._next_wire_id self),
     st)
  | None => (self, st)
  end.

Definition add_wire (self : Circuit.t) (wire : wire_ref) (st : Store)
  : str * Circuit.t * Store :=
  let '(self, st) :=
    match Wire.wire_id (wire_at st wire) with
    | [] =>
        (Circuit.mk (Circuit.name self) (Circuit.components self) (Circuit.wires self)
                    (Circuit._next_component_id self) (S (Circuit._next_wire_id self)),
         update_wire wire
           (Wire.with_wire_id (py "wire_" ++ of_nat (Circuit._next_wire_id self))) st)
    | _ :: _ => (self, st)
    end in
  let w := wire_at st wire in
  let self :=
    Circuit.mk (Circuit.name self) (Circuit.components self)
               (PyDict.set (Wire.wire_id w) wire (Circuit.wires self))
               (Circuit._next_component_id self) (Circuit._next_wire_id self) in
  let append p := Pin.with_connected_wires (Pin.connected_wires p ++ [wire]) p in
  let st := update_pin (Wire.start_pin w) append st in
  let st := update_pin (Wire.end_pin w) append st in
  (Wire.wire_id w, self, st).

Definition get_component (self : Circuit.t) (component_id : str) : option comp_ref :=
  PyDict.get component_id (Circuit.components self).

Definition clear (self : Circuit.t) : Circuit.t :=
  Circuit.mk (Circuit.name self) [] [] 0 0.
End CircuitMethods.

End CircuitModel.

(* ===================================================================== *)
(** * [components/*.py] *)
(* ===================================================================== *)

Module Components.
Import PyStr CircuitModel.

(** Methods of components run on the store and may raise: the store as
    it is when the exception leaves the method is kept. *)
Definition Exec (A : Type) : Type := Store -> option A * Store.

Definition ret {A} (a : A) : Exec A := fun st => (Some a, st).
Definition raise {A} : Exec A := fun st => (None, st).

#[global] Instance Exec_bind : Bind Exec := fun A B m k st =>
  match m st with
  | (Some a, st') => k a st'
  | (None, st') => (None, st')
  end.

Definition is_high (s : Signal.t) : bool :=
  if decide (Signal.state s = HIGH) then true else false.

(** [pin.signal] and [pin.set_signal(s)] on the result of [get_pin],
    which is [None] for a missing name ([AttributeError]). *)
Definition read_signal (pin : option pin_ref) : Exec Signal.t :=
  match pin with
  | Some p => fun st => (Some (signal_of st p), st)
  | None => raise
  end.

Definition write_signal (pin : option pin_ref) (s : Signal.t) : Exec unit :=
  match pin with
  | Some p => fun st => (Some tt, set_signal p s st)
  | None => raise
  end.

Definition read_high (pin : option pin_ref) : Exec bool :=
  do s <- read_signal pin; ret (is_high s).

(** Assignment to the instance attributes of [self]. *)
Definition set_kind (self : comp_ref) (k : Kind) : Exec unit :=
  fun st => (Some tt, update_comp self (Component.with_kind k) st).

(** [f"{prefix}{i}"] *)
Definition indexed (prefix : string) (i : nat) : str := py prefix ++ of_nat i.
Arguments indexed prefix%_string i%_nat.

(** ** Constructors: [__init__] and [_setup_pins] *)

Definition numbered (prefix : string) (ty : PinType) (n : nat) : list (str * PinType) :=
  map (fun i => (indexed prefix i, ty)) (seq 0 n).
Arguments numbered prefix%_string ty n%_nat.

(** The pins each class creates, in creation order. *)
Definition _setup_pins (k : Kind) : list (str * PinType) :=
  match k with
  | BaseComponent => []
  | ANDGate n | ORGate n | NOTGate n | XORGate n
  | NANDGate n | NORGate n | XNORGate n | BufferGate n =>
      numbered "in" INPUT n ++ [(py "out", OUTPUT)]
  | Switch _ | Button _ | InputPin _ | Clock _ _ _ => [(py "out", OUTPUT)]
  | LED _ | OutputPin _ => [(py "in", INPUT)]
  | DFlipFlop _ _ =>
      [(py "D", INPUT); (py "CLK", INPUT); (py "Q", OUTPUT); (py "Q'", OUTPUT)]
  | JKFlipFlop _ _ =>
      [(py "J", INPUT); (py "K", INPUT); (py "CLK", INPUT);
       (py "Q", OUTPUT); (py "Q'", OUTPUT)]
  | SRLatch _ =>
      [(py "S", INPUT); (py "R", INPUT); (py "Q", OUTPUT); (py "Q'", OUTPUT)]
  | Register bw _ _ =>
      numbered "D" INPUT bw ++ [(py "CLK", INPUT)] ++ numbered "Q" OUTPUT bw
  | Multiplexer n s =>
      numbered "D" INPUT n ++ numbered "S" INPUT s ++ [(py "OUT", OUTPUT)]
  | Decoder n o => numbered "I" INPUT n ++ numbered "O" OUTPUT o
  | HalfAdder =>
      [(py "A", INPUT); (py "B", INPUT); (py "SUM", OUTPUT); (py "CARRY", OUTPUT)]
  | FullAdder =>
      [(py "A", INPUT); (py "B", INPUT); (py "CIN", INPUT);
       (py "SUM", OUTPUT); (py "COUT", OUTPUT)]
  | Comparator bw =>
      numbered "A" INPUT bw ++ numbered "B" INPUT bw
      ++ [(py "EQ", OUTPUT); (py "GT", OUTPUT); (py "LT", OUTPUT)]
  end.

(** [cls(component_id, label, position, ...)]: a new component object
    with the attributes of [k] and its freshly created pins. *)
Definition new (k : Kind) (component_id label : str) (st : Store) : comp_ref * Store :=
  let '(self, st) := alloc_comp (Component.mk component_id label [] k) st in
  (self,
   fold_left (fun st spec =>
                let '(pin, st) := alloc_pin (Pin.new (fst spec) (snd spec)) st in
                add_pin self pin st)
             (_setup_pins k) st).

(** [(num_inputs - 1).bit_length()] *)
Definition select_bits (num_inputs : nat) : nat :=
  match num_inputs with
  | O => 1
  | S O => 0
  | S m => S (N.to_nat (N.log2 (N.of_nat m)))
  end.

(** ** [evaluate] *)

(** [self.get_pin("name")] *)
Definition get_pin (c : Component.t) (name : string) : option pin_ref :=
  Component.get_pin c (py name).
Arguments get_pin c name%_string.

(** [BaseGate.get_input_values] *)
Definition get_input_values (st : Store) (c : Component.t) (num_inputs : nat) : list bool :=
  map (fun i =>
         match Component.get_pin c (indexed "in" i) with
         | Some pin => is_high (signal_of st pin)
         | None => false
         end)
      (seq 0 num_inputs).

Definition sum (inputs : list bool) : Z :=
  fold_right (fun (b : bool) acc => ((if b then 1 else 0) + acc)%Z) 0%Z inputs.

(** The result of each gate on its input values. *)
Definition gate_result (k : Kind) (inputs : list bool) : bool :=
  match k, inputs with
  | ANDGate _, [] => false
  | ANDGate _, _ => forallb id inputs
  | ORGate _, [] => false
  | ORGate _, _ => existsb id inputs
  | NOTGate _, [] => true
  | NOTGate _, x :: _ => negb x
  | XORGate _, [] => false
  | XORGate _, _ => (sum inputs mod 2 =? 1)%Z
  | NANDGate _, [] => true
  | NANDGate _, _ => negb (forallb id inputs)
  | NORGate _, [] => true
  | NORGate _, _ => negb (existsb id inputs)
  | XNORGate _, [] => true
  | XNORGate _, _ => (sum inputs mod 2 =? 0)%Z
  | BufferGate _, [] => false
  | BufferGate _, x :: _ => x
  | _, _ => false
  end.

(** [value = 0; for i in range(n): if PREFIX{i} is HIGH: value |= 1 << i],
    [assign] storing each intermediate value where the source keeps it
    in an attribute. *)
Fixpoint read_bits (c : Component.t) (prefix : string) (assign : Z -> Exec unit)
    (indices : list nat) (value : Z) : Exec Z :=
  match indices with
  | [] => ret value
  | i :: r =>
    do b <- read_high (Component.get_pin c (indexed prefix i));
    let value' := if b : bool then Z.lor value (Z.shiftl 1 (Z.of_nat i)) else value in
    do _ <- (if b : bool then assign value' else ret tt);
    read_bits c prefix assign r value'
  end.

Fixpoint for_each {A} (f : A -> Exec unit) (l : list A) : Exec unit :=
  match l with
  | [] => ret tt
  | a :: r => do _ <- f a; for_each f r
  end.

Definition write_q (c : Component.t) (state : bool) : Exec unit :=
  do _ <- write_signal (get_pin c "Q") (Signal.from_bool state);
  write_signal (get_pin c "Q'") (Signal.from_bool (negb state)).

Definition evaluate (self : comp_ref) : Exec unit := fun st =>
  let c := comp_at st self in
  (match Component.kind c with
   | BaseComponent => raise            (* NotImplementedError *)
   | ANDGate n | ORGate n | NOTGate n | XORGate n
   | NANDGate n | NORGate n | XNORGate n | BufferGate n =>
       write_signal (get_pin c "out")
         (Signal.from_bool (gate_result (Component.kind c) (get_input_values st c n)))
   | Switch state => write_signal (get_pin c "out") (Signal.from_bool state)
   | Button pressed => write_signal (get_pin c "out") (Signal.from_bool pressed)
   | InputPin value => write_signal (get_pin c "out") (Signal.from_bool value)
   | LED _ => do b <- read_high (get_pin c "in"); set_kind self (LED b)
   | OutputPin _ => do b <- read_high (get_pin c "in"); set_kind self (OutputPin b)
   | Clock state tick_count frequency =>
       let tick_count := (tick_count + 1)%Z in
       let '(state, tick_count) :=
         if (frequency <=? tick_count)%Z then (negb state, 0%Z)
         else (state, tick_count) in
       do _ <- set_kind self (Clock state tick_count frequency);
       write_signal (get_pin c "out") (Signal.from_bool state)
   | DFlipFlop state last_clock =>
       do clock <- read_high (get_pin c "CLK");
       let rising := negb last_clock && clock in
       do _ <- set_kind self (DFlipFlop state clock);
       do state <- (if rising
                    then do d <- read_high (get_pin c "D");
                         do _ <- set_kind self (DFlipFlop d clock);
                         ret d
                    else ret state);
       write_q c state
   | JKFlipFlop state last_clock =>
       do j <- read_high (get_pin c "J");
       do k <- read_high (get_pin c "K");
       do clock <- read_high (get_pin c "CLK");
       let rising := negb last_clock && clock in
       let state' :=
         if rising then
           if j && k then negb state
           else if j then true
           else if k then false
           else state
         else state in
       do _ <- set_kind self (JKFlipFlop state' clock);
       write_q c state'
   | SRLatch state =>
       do s <- read_high (get_pin c "S");
       do r <- read_high (get_pin c "R");
       let state' :=
         if s && negb r then true
         else if r && negb s then false
         else state in
       do _ <- set_kind self (SRLatch state');
       write_q c state'
   | Register bit_width value last_clock =>
       do clock <- read_high (get_pin c "CLK");
       let rising := negb last_clock && clock in
       do _ <- set_kind self (Register bit_width value clock);
       do value <- (if rising
                    then do _ <- set_kind self (Register bit_width 0 clock);
                         read_bits c "D"
                           (fun v => set_kind self (Register bit_width v clock))
                           (seq 0 bit_width) 0
                    else ret value);
       for_each (fun i =>
                   write_signal (Component.get_pin c (indexed "Q" i))
                     (Signal.from_bool (Z.testbit value (Z.of_nat i))))
                (seq 0 bit_width)
   | Multiplexer num_inputs num_select =>
       do select_value <- read_bits c "S" (fun _ => ret tt) (seq 0 num_select) 0;
       if (select_value <? Z.of_nat num_inputs)%Z then
         let d_pin := Component.get_pin c (indexed "D" (Z.to_nat select_value)) in
         match get_pin c "OUT" with
         | None => raise
         | Some _ =>
           do s <- read_signal d_pin;
           write_signal (get_pin c "OUT") s
         end
       else write_signal (get_pin c "OUT") (Signal.from_bool false)
   | Decoder num_inputs num_outputs =>
       do input_value <- read_bits c "I" (fun _ => ret tt) (seq 0 num_inputs) 0;
       for_each (fun i =>
                   write_signal (Component.get_pin c (indexed "O" i))
                     (Signal.from_bool (Z.of_nat i =? input_value)%Z))
                (seq 0 num_outputs)
   | HalfAdder =>
       do a <- read_high (get_pin c "A");
       do b <- read_high (get_pin c "B");
       do _ <- write_signal (get_pin c "SUM") (Signal.from_bool (xorb a b));
       write_signal (get_pin c "CARRY") (Signal.from_bool (a && b))
   | FullAdder =>
       do a <- read_high (get_pin c "A");
       do b <- read_high (get_pin c "B");
       do cin <- read_high (get_pin c "CIN");
       do _ <- write_signal (get_pin c "SUM") (Signal.from_bool (xorb (xorb a b) cin));
       write_signal (get_pin c "COUT") (Signal.from_bool ((a && b) || (cin && xorb a b)))
   | Comparator bit_width =>
       do a_value <- read_bits c "A" (fun _ => ret tt) (seq 0 bit_width) 0;
       do b_value <- read_bits c "B" (fun _ => ret tt) (seq 0 bit_width) 0;
       do _ <- write_signal (get_pin c "EQ") (Signal.from_bool (a_value =? b_value)%Z);
       do _ <- write_signal (get_pin c "GT") (Signal.from_bool (b_value <? a_value)%Z);
       write_signal (get_pin c "LT") (Signal.from_bool (a_value <? b_value)%Z)
   end) st.

(** [Switch.set_state], [Switch.toggle] *)
Definition set_state (self : comp_ref) (state : bool) : Exec unit :=
  do _ <- set_kind self (Switch state); evaluate self.

Definition toggle (self : comp_ref) : Exec unit := fun st =>
  match Component.kind (comp_at st self) with
  | Switch state => set_state self (negb state) st
  | _ => raise st
  end.

(** ** [components/registry.py] *)

(** [str.lower]: the two code points above 127 whose lower case has an
    ASCII letter are mapped as Python maps them; any other one stays
    outside ASCII and is left as it is. *)
Definition lower (s : str) : str :=
  flat_map (fun c : char =>
              if ((65 <=? c) && (c <=? 90))%N then [(c + 32)%N]
              else if (c =? 8490)%N then [107%N]
              else if (c =? 304)%N then [105%N; 775%N]
              else [c]) s.

(** The registered names with the attributes each class starts from. *)
Definition _registry : PyDict.dict Kind :=
  map (fun kv => (py (fst kv), snd kv))
  [ ("and", ANDGate 2); ("or", ORGate 2); ("not", NOTGate 1); ("xor", XORGate 2);
    ("nand", NANDGate 2); ("nor", NORGate 2); ("xnor", XNORGate 2);
    ("buffer", BufferGate 1);
    ("switch", Switch false); ("button", Button false); ("led", LED false);
    ("inputpin", InputPin false); ("outputpin", OutputPin false);
    ("clock", Clock false 0 1);
    ("dflipflop", DFlipFlop false false); ("jkflipflop", JKFlipFlop false false);
    ("srlatch", SRLatch false); ("register", Register 4 0 false);
    ("multiplexer", Multiplexer 4 (select_bits 4)); ("mux", Multiplexer 4 (select_bits 4));
    ("decoder", Decoder 2 (2 ^ 2)); ("halfadder", HalfAdder);
    ("fulladder", FullAdder); ("comparator", Comparator 4) ]%string.

(** [ComponentRegistry.create(component_type, component_id, label, position)] *)
Definition create (component_type component_id label : str) : Exec comp_ref :=
  match PyDict.get (lower component_type) _registry with
  | None => raise                       (* ValueError *)
  | Some k =>
    let label := match label with [] => component_type | _ :: _ => label end in
    fun st => let '(c, st) := new k component_id label st in (Some c, st)
  end.

End Components.

(* ===================================================================== *)
(** * [simulation_engine.py] *)
(* ===================================================================== *)

Module SimulationEngine.
Import PyStr CircuitModel.

(** The engine's own attributes; the circuit it refers to is passed to
    each method, since the engine never replaces it. *)
Record t := mk {
  running : bool;
  tick_count : Z;
  propagation_queue : list str;
  evaluated_components : list str
}.

(** [SimulationEngine(circuit)] *)
Definition new : t := mk false 0 [] [].

(** What the engine prints; the text of a caught exception is not
    modelled. *)
Inductive printed :=
| ErrorEvaluatingComponent (component_id : str)
| WarningNotConverged (max_iterations : Z).

Definition unknown : Signal.t := Signal.of_state UNKNOWN.

Definition reset_pins (st : Store) (component : comp_ref) : Store :=
  fold_left (fun st pin => set_signal pin unknown st)
            (PyDict.values (Component.pins (comp_at st component))) st.

Definition reset (self : t) (circuit : Circuit.t) (st : Store) : t * Store :=
  let self := mk (running self) 0 [] [] in
  let st := fold_left reset_pins (PyDict.values (Circuit.components circuit)) st in
  let st := fold_left (fun st wire => update_wire wire (Wire.with_signal unknown) st)
                      (PyDict.values (Circuit.wires circuit)) st in
  (self, st).

Definition start (self : t) (circuit : Circuit.t) (st : Store) : t * Store :=
  reset (mk true (tick_count self) (propagation_queue self) (evaluated_components self))
        circuit st.

Definition stop (self : t) : t :=
  mk false (tick_count self) (propagation_queue self) (evaluated_components self).

Definition _propagate_signals (circuit : Circuit.t) (st : Store) : Store :=
  fold_left (fun st wire => propagate wire st) (PyDict.values (Circuit.wires circuit)) st.

(** [{pin.name: pin.signal.state for pin in component.get_output_pins()}] *)
Definition output_states (st : Store) (component : comp_ref) : PyDict.dict SignalState :=
  PyDict.of_pairs
    (map (fun pin => (Pin.name (pin_at st pin), Signal.state (signal_of st pin)))
         (get_output_pins st component)).

(** [any(old_outputs.get(pin.name) != pin.signal.state for pin in outputs)] *)
Definition outputs_changed (old_outputs : PyDict.dict SignalState) (st : Store)
    (component : comp_ref) : bool :=
  existsb (fun pin =>
             if decide (PyDict.get (Pin.name (pin_at st pin)) old_outputs
                        = Some (Signal.state (signal_of st pin)))
             then false else true)
          (get_output_pins st component).

(** The body of the [for component in ...] loop, with its [try]. *)
Definition evaluate_component (component : comp_ref) (st : Store)
  : bool * list printed * Store :=
  let old_outputs := output_states st component in
  match Components.evaluate component st with
  | (Some _, st') => (outputs_changed old_outputs st' component, [], st')
  | (None, st') =>
      (false, [ErrorEvaluatingComponent (Component.id (comp_at st' component))], st')
  end.

(** One pass over [self.circuit.components.values()]. *)
Fixpoint evaluate_all (components : list comp_ref) (changed : bool) (st : Store)
  : bool * list printed * Store :=
  match components with
  | [] => (changed, [], st)
  | component :: rest =>
    let '(c, out, st) := evaluate_component component st in
    let '(changed, out', st) := evaluate_all rest (changed || c) st in
    (changed, out ++ out', st)
  end.

Definition pass (circuit : Circuit.t) (st : Store) : bool * list printed * Store :=
  evaluate_all (PyDict.values (Circuit.components circuit)) false st.

Section Engine.
(** [utils/constants.py] is not part of the sources at hand. *)
Variable SIM_MAX_PROPAGATION_DEPTH : Z.

(** [while iteration < max_iterations: ...]; the loop is entered at most
    [max_iterations] times, which is what [fuel] starts from. *)
Fixpoint evaluate_loop (fuel : nat) (circuit : Circuit.t) (iteration : Z) (st : Store)
  : Z * list printed * Store :=
  match fuel with
  | O => (iteration, [], st)
  | S f =>
    if (iteration <? SIM_MAX_PROPAGATION_DEPTH)%Z then
      let '(changed, out, st) := pass circuit st in
      let iteration := (iteration + 1)%Z in
      if negb changed then (iteration, out, st)
      else
        let '(iteration, out', st) := evaluate_loop f circuit iteration st in
        (iteration, out ++ out', st)
    else (iteration, [], st)
  end.

Definition _evaluate_circuit (circuit : Circuit.t) (st : Store) : list printed * Store :=
  let max_iterations := SIM_MAX_PROPAGATION_DEPTH in
  let '(iteration, out, st) :=
    evaluate_loop (Z.to_nat max_iterations) circuit 0 st in
  (out ++ (if (max_iterations <=? iteration)%Z
           then [WarningNotConverged max_iterations] else []),
   st).

Definition step (self : t) (circuit : Circuit.t) (st : Store)
  : t * list printed * Store :=
  let self := mk (running self) (tick_count self + 1) (propagation_queue self) [] in
  let st := _propagate_signals circuit st in
  let '(out, st) := _evaluate_circuit circuit st in
  let st := _propagate_signals circuit st in
  (self, out, st).
End Engine.

Definition input_pin (circuit : Circuit.t) (st : Store) (component_id pin_name : str)
  : option pin_ref :=
  match get_component circuit component_id with
  | Some component =>
    match Component.get_pin (comp_at st component) pin_name with
    | Some pin =>
        if decide (Pin.pin_type (pin_at st pin) = INPUT) then Some pin else None
    | None => None
    end
  | None => None
  end.

Definition set_input (circuit : Circuit.t) (component_id pin_name : str) (value : bool)
    (st : Store) : Store :=
  match input_pin circuit st component_id pin_name with
  | Some pin => set_signal pin (Signal.from_bool value) st
  | None => st
  end.

Definition get_output (circuit : Circuit.t) (component_id pin_name : str) (st : Store)
  : Signal.t :=
  match get_component circuit component_id with
  | Some component =>
    match Component.get_pin (comp_at st component) pin_name with
    | Some pin => signal_of st pin
    | None => unknown
    end
  | None => unknown
  end.

Definition toggle_input (circuit : Circuit.t) (component_id pin_name : str) (st : Store)
  : Store :=
  match input_pin circuit st component_id pin_name with
  | Some pin =>
      set_signal pin (Signal.from_bool (negb (Components.is_high (signal_of st pin)))) st
  | None => st
  end.

End SimulationEngine.

(* ===================================================================== *)
(** * [utils/circuit_from_form.py] *)
(* ===================================================================== *)

Module CircuitFromForm.
Import PyStr CircuitModel.

(** The builder works on its circuit and on the store, and may raise. *)
Definition Build (A : Type) : Type :=
  Circuit.t * Store -> option A * (Circuit.t * Store).

Definition ret {A} (a : A) : Build A := fun s => (Some a, s).
Definition raise {A} : Build A := fun s => (None, s).

#[global] Instance Build_bind : Bind Build := fun A B m k s =>
  match m s with
  | (Some a, s') => k a s'
  | (None, s') => (None, s')
  end.

Definition literal : Type := str * bool.

Definition negation_marks : list str := map py ["!"; "~"; "¬"]%string.

(** The body of [for lit in literals] *)
Definition parse_literal (lit : str) : literal :=
  let lit := strip lit in
  if existsb (fun m => startswith m lit) negation_marks
  then (strip (drop 1 lit), false)
  else (lit, true).

Definition _parse_dnf_terms (dnf : str) : list (list literal) :=
  let term_strings := PyRe.split_sep (sym "|") dnf in
  List.filter (fun term => negb (match term with [] => true | _ => false end))
    (map (fun term_str =>
            let term_str := strip_chars (py "()") (strip term_str) in
            map parse_literal (PyRe.split_sep (sym "&") term_str))
         term_strings).

Definition _parse_cnf_clauses (cnf : str) : list (list literal) :=
  let clause_strings := PyRe.split_sep (sym "&") cnf in
  List.filter (fun clause => negb (match clause with [] => true | _ => false end))
    (map (fun clause_str =>
            let clause_str := strip_chars (py "()") (strip clause_str) in
            map parse_literal (PyRe.split_sep (sym "|") clause_str))
         clause_strings).

(** [ComponentRegistry.create(kind, label=label, position=...)] followed
    by [self.circuit.add_component(...)] *)
Definition create_and_add (component_type : string) (label : str) : Build comp_ref :=
  fun s =>
    match Components.create (py component_type) [] label (snd s) with
    | (Some c, st) =>
        let '(_, circuit, st) := add_component (fst s) c st in
        (Some c, (circuit, st))
    | (None, st) => (None, (fst s, st))
    end.
Arguments create_and_add component_type%_string label.

(** [component.get_pin(name)] *)
Definition pin_of (component : comp_ref) (name : str) : Build (option pin_ref) :=
  fun s => (Some (Component.get_pin (comp_at (snd s) component) name), s).

(** [wire = Wire("", a, b); self.circuit.add_wire(wire)] *)
Definition connect (a b : pin_ref) : Build unit := fun s =>
  let '(wire, st) := alloc_wire (Wire.new [] a b) (snd s) in
  let '(_, circuit, st) := add_wire (fst s) wire st in
  (Some tt, (circuit, st)).

(** The same without the guard [if source_pin and dest_pin]: a missing
    pin makes [add_wire] raise. No gate built here lacks these pins. *)
Definition connect_pins (a b : option pin_ref) : Build unit :=
  match a, b with
  | Some a, Some b => connect a b
  | _, _ => raise
  end.

(** [d[key]], which raises [KeyError] *)
Definition item (d : PyDict.dict comp_ref) (key : str) : Build comp_ref :=
  match PyDict.get key d with
  | Some c => ret c
  | None => raise
  end.

Fixpoint _create_input_switches_from (variables : list str) (switches : PyDict.dict comp_ref)
  : Build (PyDict.dict comp_ref) :=
  match variables with
  | [] => ret switches
  | var :: rest =>
    do switch <- create_and_add "switch" var;
    _create_input_switches_from rest (PyDict.set var switch switches)
  end.

Definition _create_input_switches (variables : list str) : Build (PyDict.dict comp_ref) :=
  _create_input_switches_from variables [].

Fixpoint _create_not_gates_from (variables : list str) (input_switches : PyDict.dict comp_ref)
    (not_gates : PyDict.dict comp_ref) : Build (PyDict.dict comp_ref) :=
  match variables with
  | [] => ret not_gates
  | var :: rest =>
    do not_gate <- create_and_add "not" (py "NOT_" ++ var);
    do switch <- item input_switches var;
    do switch_pin <- pin_of switch (py "out");
    do not_pin <- pin_of not_gate (py "in0");
    do _ <- match switch_pin, not_pin with
            | Some a, Some b => connect a b
            | _, _ => ret tt
            end;
    _create_not_gates_from rest input_switches (PyDict.set var not_gate not_gates)
  end.

Definition _create_not_gates (variables : list str) (input_switches : PyDict.dict comp_ref)
  : Build (PyDict.dict comp_ref) :=
  _create_not_gates_from variables input_switches [].

(** [for i, (var, is_positive) in enumerate(term): if i >= 2: break ...] *)
Fixpoint wire_term_inputs (gate : comp_ref) (input_switches not_gates : PyDict.dict comp_ref)
    (guarded : bool) (i : nat) (term : list literal) : Build unit :=
  match term with
  | [] => ret tt
  | (var, is_positive) :: rest =>
    if 2 <=? i then ret tt
    else
      do source_component <-
        item (if is_positive : bool then input_switches else not_gates) var;
      do source_pin <- pin_of source_component (py "out");
      do dest_pin <- pin_of gate (Components.indexed "in" i);
      do _ <- (if guarded
               then match source_pin, dest_pin with
                    | Some a, Some b => connect a b
                    | _, _ => ret tt
                    end
               else connect_pins source_pin dest_pin);
      wire_term_inputs gate input_switches not_gates guarded (S i) rest
  end.

Definition _create_term_and_gate (term : list literal) (variables : list str)
    (input_switches not_gates : PyDict.dict comp_ref) (term_index : nat)
  : Build comp_ref :=
  do and_gate <- create_and_add "and" (py "AND" ++ of_nat (term_index + 1));
  do _ <- wire_term_inputs and_gate input_switches not_gates true 0 term;
  ret and_gate.

Definition _create_clause_or_gate (clause : list literal) (variables : list str)
    (input_switches not_gates : PyDict.dict comp_ref) (clause_index : nat)
  : Build comp_ref :=
  do or_gate <- create_and_add "or" (py "OR" ++ of_nat (clause_index + 1));
  do _ <- wire_term_inputs or_gate input_switches not_gates false 0 clause;
  ret or_gate.

(** [for i, gate in enumerate(gates[:2]): wire gate.out to final.in{i}] *)
Fixpoint wire_final_inputs (final : comp_ref) (i : nat) (gates : list comp_ref)
  : Build unit :=
  match gates with
  | [] => ret tt
  | gate :: rest =>
    do a <- pin_of gate (py "out");
    do b <- pin_of final (Components.indexed "in" i);
    do _ <- connect_pins a b;
    wire_final_inputs final (S i) rest
  end.

Definition _create_final_or_gate (and_gates : list comp_ref) : Build comp_ref :=
  do final_or <- create_and_add "or" (py "OR_FINAL");
  do _ <- wire_final_inputs final_or 0 (take 2 and_gates);
  ret final_or.

Definition _create_final_and_gate (or_gates : list comp_ref) : Build comp_ref :=
  do final_and <- create_and_add "and" (py "AND_FINAL");
  do _ <- wire_final_inputs final_and 0 (take 2 or_gates);
  ret final_and.

Definition _create_output_led (final_gate : comp_ref) : Build unit :=
  do led <- create_and_add "led" (py "Output");
  do a <- pin_of final_gate (py "out");
  do b <- pin_of led (py "in");
  connect_pins a b.

(** [for i, term in enumerate(terms): gates.append(create(term, ..., i))] *)
Fixpoint create_gates
    (create : list literal -> nat -> Build comp_ref)
    (i : nat) (terms : list (list literal)) : Build (list comp_ref) :=
  match terms with
  | [] => ret []
  | term :: rest =>
    do gate <- create term i;
    do gates <- create_gates create (S i) rest;
    ret (gate :: gates)
  end.

(** [try: ... return True / except Exception: return False] *)
Definition try_build (body : Build bool) (s : Circuit.t * Store)
  : bool * (Circuit.t * Store) :=
  match body s with
  | (Some b, s') => (b, s')
  | (None, s') => (false, s')
  end.

Definition build_from_pdnf (pdnf : str) (variables : list str)
  : Circuit.t * Store -> bool * (Circuit.t * Store) :=
  try_build
    (let terms := _parse_dnf_terms pdnf in
     match terms with
     | [] => ret false
     | _ :: _ =>
       do input_switches <- _create_input_switches variables;
       do not_gates <- _create_not_gates variables input_switches;
       do and_gates <-
         create_gates (fun term i =>
                         _create_term_and_gate term variables input_switches not_gates i)
                      0 terms;
       match and_gates with
       | [] => ret false
       | [g] => do _ <- _create_output_led g; ret true
       | _ :: _ :: _ =>
         do final_or <- _create_final_or_gate and_gates;
         do _ <- _create_output_led final_or;
         ret true
       end
     end).

Definition build_from_pcnf (pcnf : str) (variables : list str)
  : Circuit.t * Store -> bool * (Circuit.t * Store) :=
  try_build
    (let clauses := _parse_cnf_clauses pcnf in
     match clauses with
     | [] => ret false
     | _ :: _ =>
       do input_switches <- _create_input_switches variables;
       do not_gates <- _create_not_gates variables input_switches;
       do or_gates <-
         create_gates (fun clause i =>
                         _create_clause_or_gate clause variables input_switches not_gates i)
                      0 clauses;
       match or_gates with
       | [] => ret false
       | [g] => do _ <- _create_output_led g; ret true
       | _ :: _ :: _ =>
         do final_and <- _create_final_and_gate or_gates;
         do _ <- _create_output_led final_and;
         ret true
       end
     end).

End CircuitFromForm.

(* ===================================================================== *)
(** * Statements used by the theorems *)
(* ===================================================================== *)

Module CircuitSpec.
Import PyStr CircuitModel.

(** The pins of the components listed in the circuit, and its wires. *)
Definition circuit_pins (circuit : Circuit.t) (st : Store) : list pin_ref :=
  flat_map (fun c => PyDict.values (Component.pins (comp_at st c)))
           (PyDict.values (Circuit.components circuit)).

Definition circuit_wires (circuit : Circuit.t) : list wire_ref :=
  PyDict.values (Circuit.wires circuit).

End CircuitSpec.

(** Concrete circuits, built through the operations of the sources. *)
Module Scenarios.
Import PyStr CircuitModel.


End Scenarios.

Module EngineSpec.
Import PyStr CircuitModel SimulationEngine.

(** One full evaluation pass, as the specification words it: [evaluate]
    is invoked on each component in the order of the component map; an
    exception is swallowed and leaves the store as it was when raised. *)
Definition full_pass (circuit : Circuit.t) (st : Store) : Store :=
  fold_left (fun st component => snd (Components.evaluate component st))
            (PyDict.values (Circuit.components circuit)) st.

(** The store after [k] passes. *)
Fixpoint passes (k : nat) (circuit : Circuit.t) (st : Store) : Store :=
  match k with
  | O => st
  | S k' => passes k' circuit (full_pass circuit st)
  end.

(** Whether a pass from [st] changes the state of some output pin: some
    component, evaluated at its turn without raising, has an output pin
    whose state differs from the one recorded just before. *)
Definition component_changed (component : comp_ref) (st : Store) : bool :=
  match Components.evaluate component st with
  | (Some _, st') => outputs_changed (output_states st component) st' component
  | (None, _) => false
  end.

Fixpoint some_changed (components : list comp_ref) (st : Store) : bool :=
  match components with
  | [] => false
  | component :: rest =>
      component_changed component st
      || some_changed rest (snd (Components.evaluate component st))
  end.

Definition pass_changed (circuit : Circuit.t) (st : Store) : bool :=
  some_changed (PyDict.values (Circuit.components circuit)) st.

(** What the passes print: the components whose evaluation raised. *)
Fixpoint errors (components : list comp_ref) (st : Store) : list printed :=
  match components with
  | [] => []
  | component :: rest =>
      match Components.evaluate component st with
      | (Some _, st') => errors rest st'
      | (None, st') =>
          ErrorEvaluatingComponent (Component.id (comp_at st' component))
            :: errors rest st'
      end
  end.

Fixpoint passes_log (k : nat) (circuit : Circuit.t) (st : Store) : list printed :=
  match k with
  | O => []
  | S k' =>
      errors (PyDict.values (Circuit.components circuit)) st
      ++ passes_log k' circuit (full_pass circuit st)
  end.

(** The number of passes run from [st] under the bound [n]: passes are
    repeated until one changes nothing or [n] of them have run. *)
Fixpoint passes_run (n : nat) (circuit : Circuit.t) (st : Store) : nat :=
  match n with
  | O => O
  | S n' =>
      if pass_changed circuit st
      then S (passes_run n' circuit (full_pass circuit st))
      else 1
  end.

End EngineSpec.

Module FrameSpec.
Import PyStr CircuitModel.
(** What a method of the component [self] may change when the pins it
    reaches are among [P]: the attributes of [self] added by its class,
    and the signals of pins in [P]. *)
Definition touches_only (self : comp_ref) (P : list pin_ref) (st st' : Store) : Prop :=
  wire_heap st' = wire_heap st
  /\ length (comp_heap st') = length (comp_heap st)
  /\ length (pin_heap st') = length (pin_heap st)
  /\ (forall c, c <> self -> comp_at st' c = comp_at st c)
  /\ (exists k, comp_at st' self = Component.with_kind k (comp_at st self))
  /\ (forall q, (q ∉ P) -> pin_at st' q = pin_at st q)
  /\ (forall q, exists s, pin_at st' q = Pin.with_signal s (pin_at st q)).

Definition preserves {A} (self : comp_ref) (P : list pin_ref) (m : Components.Exec A) : Prop :=
  forall st, touches_only self P st (snd (m st)).
End FrameSpec.


Module ClockSpec.
Import PyStr CircuitModel.

(** The clock [clk], with output pin [p] and stored state [s], is ready
    to be stepped in [circuit]: it is listed once; it is a [Clock] of
    frequency 1 built by its constructor (a single pin, [out], typed
    OUTPUT) with a non-negative tick count; its pin belongs to no other
    listed component; and the pin does not show the state the clock is
    about to take. *)
Definition clock_inv (clk : comp_ref) (p : pin_ref) (others : list comp_ref)
    (s : bool) (st : Store) : Prop :=
  clk < length (comp_heap st) /\ p < length (pin_heap st)
  /\ Component.pins (comp_at st clk) = [(py "out", p)]
  /\ (exists tc, Component.kind (comp_at st clk) = Clock s tc 1 /\ (0 <= tc)%Z)
  /\ Pin.pin_type (pin_at st p) = OUTPUT
  /\ (forall c, c ∈ others -> p ∉ PyDict.values (Component.pins (comp_at st c))).

Definition pending (p : pin_ref) (s : bool) (st : Store) : Prop :=
  Signal.state (signal_of st p) <> Signal.state (Signal.from_bool (negb s)).

Definition clock_ready (circuit : Circuit.t) (clk : comp_ref) (p : pin_ref)
    (s : bool) (st : Store) : Prop :=
  exists l1 l2,
    PyDict.values (Circuit.components circuit) = l1 ++ clk :: l2
    /\ (clk ∉ l1 ++ l2)
    /\ clock_inv clk p (l1 ++ l2) s st
    /\ pending p s st.

(** No wire of the circuit drives [p]: a wire that ends at [p] does not
    start at an OUTPUT-typed pin. *)
Definition not_driven (circuit : Circuit.t) (p : pin_ref) (st : Store) : Prop :=
  forall w, w ∈ PyDict.values (Circuit.wires circuit) ->
    Wire.end_pin (wire_at st w) = p ->
    Pin.pin_type (pin_at st (Wire.start_pin (wire_at st w))) <> OUTPUT.

(** [st'] differs from [st] at most in the signals of wires and of pins
    other than [p]. *)
Definition untouched (p : pin_ref) (st st' : Store) : Prop :=
  comp_heap st' = comp_heap st
  /\ length (pin_heap st') = length (pin_heap st)
  /\ (forall q, exists s, pin_at st' q = Pin.with_signal s (pin_at st q))
  /\ (forall w, exists s, wire_at st' w = Wire.with_signal s (wire_at st w))
  /\ pin_at st' p = pin_at st p.

End ClockSpec.

Module ClockScenarios.
Import PyStr CircuitModel.

(** A closed switch and a clock, with a wire from the output pin of the
    switch to the output pin of the clock. *)
Definition driven_clock : Circuit.t * Store :=
  let '(sw, st) := Components.new (Switch false) (py "s1") (py "A") empty_store in
  let '(clk, st) := Components.new (Clock false 0 1) (py "c1") (py "Clock") st in
  let st := snd (Components.set_state sw true st) in
  let '(_, c, st) := add_component (Circuit.new (py "c")) sw st in
  let '(_, c, st) := add_component c clk st in
  let '(w, st) := alloc_wire (Wire.new (py "w1") 0 1) st in
  let '(_, c, st) := add_wire c w st in
  (c, st).

(** A clock wired to an LED. *)
Definition clock_and_led : Circuit.t * Store :=
  let '(clk, st) := Components.new (Clock false 0 1) (py "c1") (py "Clock") empty_store in
  let '(led, st) := Components.new (LED false) (py "l1") (py "LED") st in
  let '(_, c, st) := add_component (Circuit.new (py "c")) clk st in
  let '(_, c, st) := add_component c led st in
  let '(w, st) := alloc_wire (Wire.new (py "w1") 0 1) st in
  let '(_, c, st) := add_wire c w st in
  (c, st).

End ClockScenarios.

Module InvariantSpec.
Import PyStr CircuitModel CircuitSpec.

(** A Python [dict] has no two entries with the same key. *)
Definition dict_ok {V} (d : PyDict.dict V) : Prop := NoDup (PyDict.keys d).

(** Both ends of the wire are pins of components listed in the circuit. *)
Definition wire_ok (circuit : Circuit.t) (st : Store) (w : wire_ref) : Prop :=
  Wire.start_pin (wire_at st w) ∈ circuit_pins circuit st
  /\ Wire.end_pin (wire_at st w) ∈ circuit_pins circuit st.

(** The invariant of the data model: every pin referenced by a wire of
    the circuit belongs to a component currently in the circuit. *)
Definition invariant (circuit : Circuit.t) (st : Store) : Prop :=
  Forall (wire_ok circuit st) (circuit_wires circuit).

Definition well_formed (circuit : Circuit.t) (st : Store) : Prop :=
  dict_ok (Circuit.components circuit) /\ dict_ok (Circuit.wires circuit)
  /\ invariant circuit st.

(** The wire touches a pin of the component. *)
Definition touches (st : Store) (component : comp_ref) (w : wire_ref) : Prop :=
  Wire.start_pin (wire_at st w) ∈ PyDict.values (Component.pins (comp_at st component))
  \/ Wire.end_pin (wire_at st w) ∈ PyDict.values (Component.pins (comp_at st component)).

End InvariantSpec.

Module InvariantScenarios.
Import PyStr CircuitModel.

(** A switch and an LED that are not added to the circuit, and a wire
    between their pins that is. *)
Definition foreign_wire : Circuit.t * wire_ref * Store :=
  let '(sw, st) := Components.new (Switch false) (py "s1") (py "A") empty_store in
  let '(led, st) := Components.new (LED false) (py "l1") (py "LED") st in
  let '(w, st) := alloc_wire (Wire.new [] 0 1) st in
  (Circuit.new (py "c"), w, st).

(** A switch wired to an LED, both in the circuit. *)
Definition switch_and_led : Circuit.t * Store :=
  let '(sw, st) := Components.new (Switch false) (py "s1") (py "A") empty_store in
  let '(led, st) := Components.new (LED false) (py "l1") (py "LED") st in
  let '(_, c, st) := add_component (Circuit.new (py "c")) sw st in
  let '(_, c, st) := add_component c led st in
  let '(w, st) := alloc_wire (Wire.new [] 0 1) st in
  let '(_, c, st) := add_wire c w st in
  (c, st).

End InvariantScenarios.

Module SynthSpec.
Import PyStr CircuitModel.

(** The components of the circuit, in order: label and class. *)
Definition parts (circuit : Circuit.t) (st : Store) : list (str * Kind) :=
  map (fun c => (Component.label (comp_at st c), Component.kind (comp_at st c)))
      (PyDict.values (Circuit.components circuit)).

(** The component of the circuit that owns the pin: its label, and the
    name of the pin in it. *)
Definition owner (circuit : Circuit.t) (st : Store) (p : pin_ref) : option (str * str) :=
  head (flat_map
          (fun c => map (fun kv => (Component.label (comp_at st c), fst kv))
                        (List.filter (fun kv => Nat.eqb (snd kv) p)
                                     (Component.pins (comp_at st c))))
          (PyDict.values (Circuit.components circuit))).

(** The wires of the circuit, in order, each as (source, destination). *)
Definition netlist (circuit : Circuit.t) (st : Store)
  : list (option (str * str) * option (str * str)) :=
  map (fun w => (owner circuit st (Wire.start_pin (wire_at st w)),
                 owner circuit st (Wire.end_pin (wire_at st w))))
      (PyDict.values (Circuit.wires circuit)).

(** [output.pin], for the statements below. *)
Definition at_pin (label pin : string) : option (str * str) := Some (py label, py pin).
Arguments at_pin label%_string pin%_string.

(** Synthesis of [(A&B)] over [A], [B] into a fresh circuit. *)
Definition and_circuit : bool * (Circuit.t * Store) :=
  CircuitFromForm.build_from_pdnf (py "(A&B)") [py "A"; py "B"]
    (Circuit.new (py "Untitled"), empty_store).

Definition and_net : Circuit.t := fst (snd and_circuit).

(** Both switches closed. *)
Definition and_circuit_on : Store :=
  let st := snd (snd and_circuit) in
  let st := snd (Components.set_state 0 true st) in
  snd (Components.set_state 1 true st).

(** [n] successive calls of [step]. *)
Fixpoint steps (max : Z) (n : nat) (self : SimulationEngine.t) (circuit : Circuit.t)
    (st : Store) : SimulationEngine.t * Store :=
  match n with
  | 0 => (self, st)
  | S m =>
    let r := SimulationEngine.step max self circuit st in
    steps max m (fst (fst r)) circuit (snd r)
  end.

(** The store after a call of [step] whose loop runs [k] passes. *)
Definition step_with (k : nat) (circuit : Circuit.t) (st : Store) : Store :=
  SimulationEngine._propagate_signals circuit
    (EngineSpec.passes k circuit (SimulationEngine._propagate_signals circuit st)).

(** The synthesised circuit after one and after two such steps. *)
Definition and_circuit_1 : Store :=
  step_with 1 and_net and_circuit_on.
Definition and_circuit_2 : Store :=
  step_with 1 and_net and_circuit_1.

End SynthSpec.

Module FormsSpec.
Import PyStr BooleanAlgebra.

(** The value of a variable in a row (false when the row has none). *)
Definition value (row : TruthTableRow) (var : str) : bool :=
  default false (PyDict.get var (inputs row)).

(** One parenthesised AND-term: each variable as it is when true in the
    row, with [!] in front otherwise. *)
Definition and_term (variables : list str) (row : TruthTableRow) : str :=
  py "(" ++ join (py "&")
              (map (fun var => if value row var then var else py "!" ++ var) variables)
         ++ py ")".

(** Dually, one parenthesised OR-clause. *)
Definition or_clause (variables : list str) (row : TruthTableRow) : str :=
  py "(" ++ join (py "|")
              (map (fun var => if value row var then py "!" ++ var else var) variables)
         ++ py ")".

(** The PDNF string, as the specification words it; the terms are
    joined by the OR sign between two spaces. *)
Definition pdnf_spec (tt : TruthTable.t) : str :=
  match List.filter (fun row => output row) (TruthTable.rows tt) with
  | [] => py "0"
  | true_rows => join (py " | ") (map (and_term (TruthTable.variables tt)) true_rows)
  end.

(** The PCNF string; the clauses are joined by the AND sign between two
    spaces. *)
Definition pcnf_spec (tt : TruthTable.t) : str :=
  match List.filter (fun row => negb (output row)) (TruthTable.rows tt) with
  | [] => py "1"
  | false_rows => join (py " & ") (map (or_clause (TruthTable.variables tt)) false_rows)
  end.

(** Every row gives a value to every variable of the table. *)
Definition defined_rows (tt : TruthTable.t) : bool :=
  forallb (fun row => forallb (fun var => PyDict.mem var (inputs row))
                              (TruthTable.variables tt))
          (TruthTable.rows tt).

(** The truth table of a function of [A] and [B] with the given output
    column. *)
Definition table_AB (o00 o01 o10 o11 : bool) : TruthTable.t :=
  let row a b o :=
    {| inputs := [(py "A", a); (py "B", b)]; output := o |} in
  {| TruthTable.variables := [py "A"; py "B"];
     TruthTable.rows := [row false false o00; row false true o01;
                         row true false o10; row true true o11] |}.

(** A Zhegalkin polynomial string evaluated as the XOR of its monomials:
    the monomials are separated by [⊕]; [1] is true, [0] is false, any
    other monomial is the AND of its variables, separated by [&]. *)
Fixpoint split_on (sep : char) (cur : str) (s : str) : list str :=
  match s with
  | [] => [rev cur]
  | c :: t =>
    if (c =? sep)%N then rev cur :: split_on sep [] t
    else split_on sep (c :: cur) t
  end.

Definition eval_monomial (values : PyDict.dict bool) (m : str) : bool :=
  if eqb m (py "1") then true
  else if eqb m (py "0") then false
  else forallb (fun var => default false (PyDict.get var values))
               (split_on (sym "&") [] m).

Definition eval_polynomial (values : PyDict.dict bool) (p : str) : bool :=
  fold_right xorb false
    (map (fun m => eval_monomial values (strip m)) (split_on (sym "⊕") [] p)).

End FormsSpec.

(** The canonical forms seen as words and separators, the replacements
    of [_normalize] as a list of steps, and the tokens and syntax trees
    [eval] reads from a form once the variables have their values. *)
Module Canonical.
Import PyStr BooleanAlgebra FormsSpec.

(** ** The replacements of [_normalize], in the order they are made *)

Definition steps_of (ops : list str) (cond : str -> bool) (target : str)
  : list (str * str) :=
  map (fun op => (op, target)) (List.filter cond ops).

Definition normalize_steps : list (str * str) :=
  let other target := fun op => negb (eqb op target) in
  steps_of BooleanExpression.IMPL_OPS (fun op => 1 <? length op) (py "→")
  ++ steps_of BooleanExpression.EQ_OPS (fun op => 1 <? length op) (py "≡")
  ++ steps_of BooleanExpression.AND_OPS (other (py "&")) (py "&")
  ++ steps_of BooleanExpression.OR_OPS (other (py "|")) (py "|")
  ++ steps_of BooleanExpression.NOT_OPS (other (py "!")) (py "!")
  ++ steps_of BooleanExpression.XOR_OPS (other (py "^")) (py "^")
  ++ steps_of BooleanExpression.NAND_OPS (other (py "↑")) (py "↑")
  ++ steps_of BooleanExpression.NOR_OPS (other (py "↓")) (py "↓").

Definition run_steps (steps : list (str * str)) (s : str) : str :=
  fold_left (fun s step => replace (fst step) (snd step) s) steps s.

(** The step replaces a non-empty pattern by one character, which the
    pattern [p] does not have. *)
Definition fresh_for (p : str) (step : str * str) : bool :=
  match fst step, snd step with
  | _ :: _, [c] => negb (existsb (N.eqb c) p)
  | _, _ => false
  end.

(** Every step is fresh for its own pattern and for the patterns of the
    steps before it. *)
Fixpoint steps_ok (steps : list (str * str)) : bool :=
  match steps with
  | [] => true
  | step :: rest => forallb (fresh_for (fst step)) (step :: rest) && steps_ok rest
  end.

(** Strictly increasing for [<] on [str]. *)
Fixpoint increasing (l : list str) : Prop :=
  match l with
  | [] => True
  | x :: r => Forall (fun y => ltb x y = true) r /\ increasing r
  end.

(** Every character is kept or turned into a space. *)
Definition blanked (s s' : str) : Prop :=
  Forall2 (fun a b => b = a \/ b = sym " ") s s'.

(** ** Strings as words and separators *)

Inductive piece :=
| Word (w : str)
| Sep (c : char).

Definition render1 (p : piece) : str :=
  match p with
  | Word w => w
  | Sep c => [c]
  end.

Definition render (l : list piece) : str := flat_map render1 l.

(** [sep.join(parts)] over any lists. *)
Fixpoint joinl {A} (sep : list A) (parts : list (list A)) : list A :=
  match parts with
  | [] => []
  | [p] => p
  | p :: rest => p ++ sep ++ joinl sep rest
  end.

Definition starts_sep (l : list piece) : bool :=
  match l with
  | Word _ :: _ => false
  | _ => true
  end.

(** The words are non-empty runs of word characters, the separators are
    not word characters, and no two words are adjacent. *)
Fixpoint wf (isword : char -> bool) (l : list piece) : bool :=
  match l with
  | [] => true
  | Sep c :: r => negb (isword c) && wf isword r
  | Word w :: r =>
      negb (eqb w []) && forallb isword w && starts_sep r && wf isword r
  end.

(** The characters of the canonical forms other than the variables. *)
Definition structural (c : char) : bool := existsb (N.eqb c) (py "()&|! ").

Definition structural_seps (l : list piece) : bool :=
  forallb (fun p => match p with Sep c => structural c | Word _ => true end) l.

Definition words (l : list piece) : list str :=
  flat_map (fun p => match p with Word w => [w] | Sep _ => [] end) l.

Definition word_ok (isword : char -> bool) (w : str) : bool :=
  negb (eqb w []) && forallb isword w.

(** A pattern with a character that is neither a word character nor
    structural. *)
Definition foreign (isword : char -> bool) (p : str) : bool :=
  existsb (fun x => negb (isword x) && negb (structural x)) p.

(** A key of the dictionary of values: made of word characters, and
    neither of the two words written for the values. *)
Definition key_ok (isword : char -> bool) (kv : str * bool) : bool :=
  word_ok isword (fst kv)
  && negb (eqb (py "True") (fst kv)) && negb (eqb (py "False") (fst kv)).

(** One substitution, and all the substitutions of a dictionary. *)
Definition subst1 (var lit : str) (p : piece) : piece :=
  match p with
  | Word w => Word (if eqb w var then lit else w)
  | Sep c => Sep c
  end.

Definition assign (values : PyDict.dict bool) (p : piece) : piece :=
  match p with
  | Word w =>
      Word (match PyDict.get w values with
            | Some b => BooleanExpression.bool_word b
            | None => w
            end)
  | Sep c => Sep c
  end.

(** ** The canonical forms as pieces *)

Definition literal_pieces (negated : bool) (var : str) : list piece :=
  if negated then [Sep (sym "!"); Word var] else [Word var].

Definition term_pieces (variables : list str) (row : TruthTableRow) : list piece :=
  Sep (sym "(")
  :: joinl [Sep (sym "&")]
           (map (fun var => literal_pieces (negb (value row var)) var) variables)
  ++ [Sep (sym ")")].

Definition clause_pieces (variables : list str) (row : TruthTableRow) : list piece :=
  Sep (sym "(")
  :: joinl [Sep (sym "|")]
           (map (fun var => literal_pieces (value row var) var) variables)
  ++ [Sep (sym ")")].

Definition pdnf_pieces (tt : TruthTable.t) : list piece :=
  match List.filter (fun row => output row) (TruthTable.rows tt) with
  | [] => [Word (py "0")]
  | true_rows =>
      joinl [Sep (sym " "); Sep (sym "|"); Sep (sym " ")]
            (map (term_pieces (TruthTable.variables tt)) true_rows)
  end.

Definition pcnf_pieces (tt : TruthTable.t) : list piece :=
  match List.filter (fun row => negb (output row)) (TruthTable.rows tt) with
  | [] => [Word (py "1")]
  | false_rows =>
      joinl [Sep (sym " "); Sep (sym "&"); Sep (sym " ")]
            (map (clause_pieces (TruthTable.variables tt)) false_rows)
  end.

(** ** What [evaluate] writes for the operators, and the tokens *)

Definition python_operator (x : char) : str :=
  if (x =? sym "&")%N then py " and "
  else if (x =? sym "|")%N then py " or "
  else if (x =? sym "!")%N then py " not "
  else if (x =? sym "^")%N then py " != "
  else [x].

Definition piece_tokens (p : piece) : list PyEval.token :=
  match p with
  | Word w =>
      match PyEval.classify w with
      | Some t => [t]
      | None => []
      end
  | Sep c =>
      if (c =? sym "(")%N then [PyEval.TLPar]
      else if (c =? sym ")")%N then [PyEval.TRPar]
      else if (c =? sym "&")%N then [PyEval.TAnd]
      else if (c =? sym "|")%N then [PyEval.TOr]
      else if (c =? sym "!")%N then [PyEval.TNot]
      else []
  end.

(** The words left after the substitutions. *)
Definition constants : list str := map py ["True"; "False"; "0"; "1"]%string.

Definition const_pieces (l : list piece) : bool :=
  forallb (fun p => match p with
                    | Word w => existsb (eqb w) constants
                    | Sep c => structural c
                    end) l.

(** What [lex] meets after a word. *)
Definition boundary (s : str) : bool :=
  match s with
  | [] => true
  | c :: _ => negb (PyEval.ascii_isword c)
  end.

(** [bool(eval(...))] on the tokens. *)
Definition eval_tokens (ts : list PyEval.token) : result bool :=
  if PyEval.may_call ts then Unmodelled
  else
    match PyEval.parse_or (6 * length ts + 6) ts with
    | PyEval.POk e [] => Ret (PyEval.truthy (PyEval.eval_expr e))
    | PyEval.POk _ (_ :: _) => Raises
    | PyEval.PSyntaxError => Raises
    | PyEval.PFuel => Unmodelled
    end.

(** ** The tokens and the syntax trees of the canonical forms *)

Definition literal_tokens (negated b : bool) : list PyEval.token :=
  if negated then [PyEval.TNot; PyEval.TConst (PyEval.of_bool b)]
  else [PyEval.TConst (PyEval.of_bool b)].

Definition literal_expr (negated b : bool) : PyEval.expr :=
  if negated then PyEval.ENot (PyEval.EConst (PyEval.of_bool b))
  else PyEval.EConst (PyEval.of_bool b).

Fixpoint and_chain (es : list PyEval.expr) : PyEval.expr :=
  match es with
  | [] => PyEval.EConst 1
  | [e] => e
  | e :: r => PyEval.EAnd e (and_chain r)
  end.

Fixpoint or_chain (es : list PyEval.expr) : PyEval.expr :=
  match es with
  | [] => PyEval.EConst 0
  | [e] => e
  | e :: r => PyEval.EOr e (or_chain r)
  end.

(** The literals of the term or clause of [row], valued in [at_row]. *)
Definition term_literals (variables : list str) (at_row row : TruthTableRow)
  : list (bool * bool) :=
  map (fun var => (negb (value row var), value at_row var)) variables.

Definition clause_literals (variables : list str) (at_row row : TruthTableRow)
  : list (bool * bool) :=
  map (fun var => (value row var, value at_row var)) variables.

Definition chain_tokens (op : PyEval.token) (literals : list (bool * bool))
  : list PyEval.token :=
  joinl [op] (map (fun l => literal_tokens (fst l) (snd l)) literals).

Definition chain_exprs (literals : list (bool * bool)) : list PyEval.expr :=
  map (fun l => literal_expr (fst l) (snd l)) literals.

Definition parens (ts : list PyEval.token) : list PyEval.token :=
  PyEval.TLPar :: ts ++ [PyEval.TRPar].

Definition pdnf_tokens (tt : TruthTable.t) (at_row : TruthTableRow) : list PyEval.token :=
  match List.filter (fun row => output row) (TruthTable.rows tt) with
  | [] => [PyEval.TConst 0]
  | true_rows =>
      joinl [PyEval.TOr]
        (map (fun row => parens (chain_tokens PyEval.TAnd
                                   (term_literals (TruthTable.variables tt) at_row row)))
             true_rows)
  end.

Definition pdnf_expr (tt : TruthTable.t) (at_row : TruthTableRow) : PyEval.expr :=
  or_chain
    (map (fun row => and_chain (chain_exprs
                                  (term_literals (TruthTable.variables tt) at_row row)))
         (List.filter (fun row => output row) (TruthTable.rows tt))).

Definition pcnf_tokens (tt : TruthTable.t) (at_row : TruthTableRow) : list PyEval.token :=
  match List.filter (fun row => negb (output row)) (TruthTable.rows tt) with
  | [] => [PyEval.TConst 1]
  | false_rows =>
      joinl [PyEval.TAnd]
        (map (fun row => parens (chain_tokens PyEval.TOr
                                   (clause_literals (TruthTable.variables tt) at_row row)))
             false_rows)
  end.

Definition pcnf_expr (tt : TruthTable.t) (at_row : TruthTableRow) : PyEval.expr :=
  and_chain
    (map (fun row => or_chain (chain_exprs
                                 (clause_literals (TruthTable.variables tt) at_row row)))
         (List.filter (fun row => negb (output row)) (TruthTable.rows tt))).

(** The two rows give the same values to the variables. *)
Definition agrees (variables : list str) (row row' : TruthTableRow) : bool :=
  forallb (fun var => Bool.eqb (value row' var) (value row var)) variables.

(** What may follow an operand. *)
Definition no_cmp (ts : list PyEval.token) : bool :=
  match ts with PyEval.TCmp _ :: _ => false | _ => true end.
Definition no_and (ts : list PyEval.token) : bool :=
  match ts with PyEval.TAnd :: _ => false | _ => true end.
Definition no_or (ts : list PyEval.token) : bool :=
  match ts with PyEval.TOr :: _ => false | _ => true end.

(** With fuel [k] or more, the tokens [ts] are parsed as [e] by
    [parse_not], [parse_and], [parse_or], whatever follows them. *)
Definition not_parses (k : nat) (ts : list PyEval.token) (e : PyEval.expr) : Prop :=
  forall fuel rest, k <= fuel -> no_cmp rest = true ->
    PyEval.parse_not fuel (ts ++ rest) = PyEval.POk e rest.

Definition and_parses (k : nat) (ts : list PyEval.token) (e : PyEval.expr) : Prop :=
  forall fuel rest, k <= fuel -> no_cmp rest = true -> no_and rest = true ->
    PyEval.parse_and fuel (ts ++ rest) = PyEval.POk e rest.

Definition or_parses (k : nat) (ts : list PyEval.token) (e : PyEval.expr) : Prop :=
  forall fuel rest, k <= fuel ->
    no_cmp rest = true -> no_and rest = true -> no_or rest = true ->
    PyEval.parse_or fuel (ts ++ rest) = PyEval.POk e rest.

(** Neither a parenthesis. *)
Definition flat (t : PyEval.token) : bool :=
  match t with
  | PyEval.TLPar | PyEval.TRPar => false
  | _ => true
  end.

(** A variable name made of word characters that is not one of the two
    words [evaluate] writes for the values. *)
Definition plain_name (isword : char -> bool) (var : str) : bool :=
  forallb isword var
  && negb (eqb (py "True") var) && negb (eqb (py "False") var).

(** The expression [A< A]: its second variable is [A<]. *)
Definition odd_table : TruthTable.t :=
  let row a b :=
    {| inputs := [(py "A", a); (py "A<", b)]; output := false |} in
  {| TruthTable.variables := [py "A"; py "A<"];
     TruthTable.rows := [row false false; row false true;
                         row true false; row true true] |}.

End Canonical.

(** The rows of a generated truth table, and strings without white
    space at their ends. *)
Module TableSpec.
Import PyStr.

(** The value row number [i] of a table over [n] variables gives to
    variable number [j]: the binary digits of [i], the first variable
    being the most significant. *)
Definition row_bit (n i j : nat) : bool := Nat.odd (i / 2 ^ (n - 1 - j)).

Definition assignment (n i : nat) : list bool := map (row_bit n i) (seq 0 n).

(** Neither the first nor the last character is white space. *)
Definition trimmed (s : str) : Prop :=
  lstrip_by isspace s = s /\ lstrip_by isspace (rev s) = rev s.

End TableSpec.

(** [components/io.py]: the methods of the input components that the
    user interface calls. *)
Module InputComponents.
Import PyStr CircuitModel Components.

(** [Button.press], [Button.release] *)
Definition press (self : comp_ref) : Exec unit :=
  do _ <- set_kind self (Button true); evaluate self.

Definition release (self : comp_ref) : Exec unit :=
  do _ <- set_kind self (Button false); evaluate self.

(** [InputPin.set_value] *)
Definition set_value (self : comp_ref) (value : bool) : Exec unit :=
  do _ <- set_kind self (InputPin value); evaluate self.

End InputComponents.

(** What the components compute, in terms of the signals on their
    named pins. *)
Module ComponentSpec.
Import PyStr CircuitModel Components.

(** The component has every pin its class creates. *)
Definition has_pins (c : Component.t) : bool :=
  forallb (fun spec => PyDict.mem (fst spec) (Component.pins c))
          (_setup_pins (Component.kind c)).

(** The pin of that name exists and is HIGH. *)
Definition pin_high (st : Store) (c : Component.t) (name : str) : bool :=
  match Component.get_pin c name with
  | Some p => is_high (signal_of st p)
  | None => false
  end.

(** The number whose binary digit [i] is HIGH on pin [PREFIXi]. *)
Definition weights (st : Store) (c : Component.t) (prefix : string)
    (indices : list nat) : Z :=
  fold_right (fun i acc =>
                ((if pin_high st c (indexed prefix i) then 2 ^ Z.of_nat i else 0) + acc)%Z)
             0%Z indices.

Definition unsigned (st : Store) (c : Component.t) (prefix : string) (n : nat) : Z :=
  weights st c prefix (seq 0 n).

(** The signal on the pin of that name. *)
Definition pin_signal (st : Store) (c : Component.t) (name : str) : Signal.t :=
  match Component.get_pin c name with
  | Some p => signal_of st p
  | None => Signal.default
  end.

(** The component has the pins of its class, distinct objects of the
    store, as every constructed component has. *)
Definition well_formed (st : Store) (c : Component.t) : bool :=
  has_pins c
  && bool_decide (NoDup (PyDict.values (Component.pins c)))
  && forallb (fun p => p <? length (pin_heap st)) (PyDict.values (Component.pins c)).

(** The number a string of decimal digits denotes. *)
Definition decimal_value (s : str) : N :=
  fold_left (fun a d => (10 * a + (d - 48))%N) s 0%N.

(** The dictionary of pins a constructor builds, the pins being
    created one after the other from reference [base] on. *)
Fixpoint pins_dict (base : nat) (specs : list (str * PinType))
    (d : PyDict.dict pin_ref) : PyDict.dict pin_ref :=
  match specs with
  | [] => d
  | spec :: rest => pins_dict (S base) rest (PyDict.set (fst spec) base d)
  end.

(** The call returns, whatever the store. *)
Definition returns {A} (m : Exec A) : Prop := forall st, is_Some (fst (m st)).

(** A series of assignments to pin signals. *)
Definition write_all (l : list (pin_ref * Signal.t)) (st : Store) : Store :=
  fold_left (fun st w => set_signal (fst w) (snd w) st) l st.

End ComponentSpec.

(** [utils/circuit_from_form.py]: building from a truth table, and the
    literals of the rows of a table. *)
Module FromTable.
Import PyStr BooleanAlgebra CircuitModel CircuitFromForm FormsSpec.

(** [build_circuit_from_truth_table(circuit, truth_table, use_pdnf)] *)
Definition build_circuit_from_truth_table (truth_table : TruthTable.t) (use_pdnf : bool)
    (s : Circuit.t * Store) : result (bool * (Circuit.t * Store)) :=
  if use_pdnf then
    do pdnf <- calculate_pdnf truth_table;
    Ret (build_from_pdnf pdnf (TruthTable.variables truth_table) s)
  else
    do pcnf <- calculate_pcnf truth_table;
    Ret (build_from_pcnf pcnf (TruthTable.variables truth_table) s).

(** The literals of a row: each variable with its value, or with the
    negation of its value. *)
Definition row_literals (negated : bool) (variables : list str) (row : TruthTableRow)
  : list literal :=
  map (fun var => (var, xorb negated (value row var))) variables.

(** A name that the forms print and the builder reads back unchanged:
    not empty, not starting with a negation mark, without white space,
    [|], [&] or a parenthesis. *)
Definition form_name (var : str) : bool :=
  match var with
  | [] => false
  | c :: _ => negb (existsb (fun m => startswith m var) negation_marks)
  end
  && forallb (fun c => negb (isspace c) && negb (existsb (N.eqb c) (py "|&()"))) var.

(** The number of occurrences of a character. *)
Definition count (c : char) (s : str) : nat := length (List.filter (N.eqb c) s).

End FromTable.

(** The types of the pins of a component. *)
Module PinTypes.
Import PyStr CircuitModel Components.

(** Every pin name of the class is bound to a pin of the type the class
    gives it. *)
Definition typed (st : Store) (c : Component.t) : bool :=
  forallb (fun spec =>
             match Component.get_pin c (fst spec) with
             | Some p => bool_decide (Pin.pin_type (pin_at st p) = snd spec)
             | None => false
             end)
          (_setup_pins (Component.kind c)).

End PinTypes.

(** [step], as the specification words it. *)
Module StepSpec.
Import PyStr CircuitModel EngineSpec.

(** The signal of the pin [src] is put on the wire and on the pin
    [dst]; nothing else changes. *)
Definition copy_signal (wire : wire_ref) (src dst : pin_ref) (st : Store) : Store :=
  let s := Pin.signal (pin_at st src) in
  let w := wire_at st wire in
  let d := pin_at st dst in
  mkStore
    (<[dst := Pin.mk (Pin.name d) (Pin.pin_type d) s (Pin.bit_width d)
                     (Pin.connected_wires d)]> (pin_heap st))
    (<[wire := Wire.mk (Wire.wire_id w) (Wire.start_pin w) (Wire.end_pin w) s]>
       (wire_heap st))
    (comp_heap st).

(** One propagation of a wire: its OUTPUT-typed end drives the other
    end, the start pin being looked at first; a wire with no OUTPUT-typed
    end is left alone. *)
Definition propagate_wire (wire : wire_ref) (st : Store) : Store :=
  let w := wire_at st wire in
  if decide (Pin.pin_type (pin_at st (Wire.start_pin w)) = OUTPUT)
  then copy_signal wire (Wire.start_pin w) (Wire.end_pin w) st
  else if decide (Pin.pin_type (pin_at st (Wire.end_pin w)) = OUTPUT)
  then copy_signal wire (Wire.end_pin w) (Wire.start_pin w) st
  else st.

(** One propagation over all wires, in the order of the wire map. *)
Definition propagation (circuit : Circuit.t) (st : Store) : Store :=
  fold_left (fun st wire => propagate_wire wire st)
            (PyDict.values (Circuit.wires circuit)) st.

(** Some OUTPUT-typed pin of [component] is in another state in [st']
    than in [st]. *)
Definition output_state_differs (component : comp_ref) (st st' : Store) : bool :=
  existsb (fun pin =>
             bool_decide (Pin.pin_type (pin_at st pin) = OUTPUT)
             && negb (bool_decide (Signal.state (Pin.signal (pin_at st' pin))
                                   = Signal.state (Pin.signal (pin_at st pin)))))
          (PyDict.values (Component.pins (comp_at st component))).

(** A pass from [st] over [components] changes the state of an output
    pin: the evaluation of some component, at its turn, returns and
    leaves one of the component's output pins in another state than it
    found it. *)
Fixpoint changes (components : list comp_ref) (st : Store) : bool :=
  match components with
  | [] => false
  | component :: rest =>
      let r := Components.evaluate component st in
      (match fst r with
       | Some _ => output_state_differs component st (snd r)
       | None => false
       end)
      || changes rest (snd r)
  end.

Definition pass_changes (circuit : Circuit.t) (st : Store) : bool :=
  changes (PyDict.values (Circuit.components circuit)) st.

(** The number of passes run from [st] under the bound [n]: a pass is
    run, and another one after it as long as the pass just run changed
    the state of an output pin and fewer than [n] have run. *)
Fixpoint passes_until_stable (n : nat) (circuit : Circuit.t) (st : Store) : nat :=
  match n with
  | O => O
  | S n' =>
      if pass_changes circuit st
      then S (passes_until_stable n' circuit (full_pass circuit st))
      else 1
  end.

(** The pins of [component] are stored under their own names, as
    [Component.add_pin] stores them, and no name is used twice. *)
Definition named_pins (st : Store) (component : comp_ref) : bool :=
  bool_decide (NoDup (PyDict.keys (Component.pins (comp_at st component))))
  && forallb (fun kp => bool_decide (Pin.name (pin_at st (snd kp)) = fst kp))
             (Component.pins (comp_at st component)).

Definition named (circuit : Circuit.t) (st : Store) : bool :=
  forallb (named_pins st) (PyDict.values (Circuit.components circuit)).

(** [st'] has the components and pins of [st], with the names, the
    types and the pin maps they have in [st]. *)
Definition same_shape (st st' : Store) : Prop :=
  (forall c, Component.pins (comp_at st' c) = Component.pins (comp_at st c))
  /\ (forall q, Pin.name (pin_at st' q) = Pin.name (pin_at st q)
                /\ Pin.pin_type (pin_at st' q) = Pin.pin_type (pin_at st q)).

End StepSpec.

(** A circuit with a stored bit. *)
Module ResetScenarios.
Import PyStr CircuitModel.

(** A D flip-flop that has captured a HIGH input on a rising edge, and
    an LED wired to its output [Q], after one propagation of the wire. *)
Definition latched : Circuit.t * Store :=
  let '(ff, st) := Components.new (DFlipFlop false false) (py "ff") (py "FF") empty_store in
  let '(led, st) := Components.new (LED false) (py "l1") (py "LED") st in
  let st := set_signal 0 (Signal.from_bool true) st in
  let st := set_signal 1 (Signal.from_bool true) st in
  let st := snd (Components.evaluate ff st) in
  let '(_, c, st) := add_component (Circuit.new (py "c")) ff st in
  let '(_, c, st) := add_component c led st in
  let '(w, st) := alloc_wire (Wire.new [] 2 4) st in
  let '(_, c, st) := add_wire c w st in
  (c, propagate w st).

End ResetScenarios.

(* ===================================================================== *)
(** * Theorems *)
(* ===================================================================== *)

Module StoreFacts.
Import PyStr CircuitModel CircuitSpec.

Lemma set_signal_pin_heap p s st q :
  pin_heap (set_signal p s st) !! q
  = if decide (p = q) then Pin.with_signal s <$> pin_heap st !! q else pin_heap st !! q.
Proof.
  unfold set_signal, update_pin; simpl. rewrite list_lookup_alter.
  case_decide; subst; reflexivity.
Qed.

Lemma update_wire_wire_heap w f st v :
  wire_heap (update_wire w f st) !! v
  = if decide (w = v) then f <$> wire_heap st !! v else wire_heap st !! v.
Proof.
  unfold update_wire; simpl. rewrite list_lookup_alter.
  case_decide; subst; reflexivity.
Qed.

Lemma pin_at_lookup st p x : pin_heap st !! p = Some x -> pin_at st p = x.
Proof. intros H. unfold pin_at. by apply list_lookup_total_correct. Qed.

Lemma wire_at_lookup st w x : wire_heap st !! w = Some x -> wire_at st w = x.
Proof. intros H. unfold wire_at. by apply list_lookup_total_correct. Qed.

End StoreFacts.

Module WireFacts.
Import PyStr CircuitModel StoreFacts.


End WireFacts.

Module EngineFacts.
Import PyStr CircuitModel StoreFacts CircuitSpec SimulationEngine.

Lemma with_signal_idem s p : Pin.with_signal s (Pin.with_signal s p) = Pin.with_signal s p.
Proof. done. Qed.

Lemma fold_set_signal (l : list pin_ref) s st :
  let st' := fold_left (fun st pin => set_signal pin s st) l st in
  comp_heap st' = comp_heap st /\ wire_heap st' = wire_heap st
  /\ forall q, pin_heap st' !! q
       = if decide (q ∈ l) then Pin.with_signal s <$> pin_heap st !! q
         else pin_heap st !! q.
Proof.
  revert st. induction l as [|p l IH]; intros st; simpl.
  - by split_and!.
  - destruct (IH (set_signal p s st)) as (Hc & Hw & Hp). split_and!; [done..|].
    intros q. rewrite Hp, set_signal_pin_heap.
    repeat case_decide; subst; try done;
      try (by destruct (pin_heap st !! q)); exfalso; set_solver.
Qed.

Lemma fold_reset_pins (cs : list comp_ref) st :
  let st' := fold_left reset_pins cs st in
  comp_heap st' = comp_heap st /\ wire_heap st' = wire_heap st
  /\ forall q, pin_heap st' !! q
       = if decide (q ∈ flat_map (fun c => PyDict.values (Component.pins (comp_at st c))) cs)
         then Pin.with_signal unknown <$> pin_heap st !! q
         else pin_heap st !! q.
Proof.
  revert st. induction cs as [|c cs IH]; intros st; simpl.
  - by split_and!.
  - destruct (IH (reset_pins st c)) as (Hc & Hw & Hp).
    destruct (fold_set_signal (PyDict.values (Component.pins (comp_at st c))) unknown st)
      as (Hc1 & Hw1 & Hp1).
    fold (reset_pins st c) in Hc1, Hw1, Hp1.
    split_and!; [congruence..|].
    intros q. rewrite Hp, Hp1.
    assert (Heq : forall c', comp_at (reset_pins st c) c' = comp_at st c')
      by (intros; unfold comp_at; by rewrite Hc1).
    rewrite (flat_map_ext _ (fun c => PyDict.values (Component.pins (comp_at st c))))
      by (intros; by rewrite Heq).
    repeat case_decide; try done;
      try (by destruct (pin_heap st !! q)); exfalso; set_solver.
Qed.

Lemma fold_reset_wires (ws : list wire_ref) st :
  let st' := fold_left (fun st wire => update_wire wire (Wire.with_signal unknown) st) ws st in
  comp_heap st' = comp_heap st /\ pin_heap st' = pin_heap st
  /\ forall v, wire_heap st' !! v
       = if decide (v ∈ ws) then Wire.with_signal unknown <$> wire_heap st !! v
         else wire_heap st !! v.
Proof.
  revert st. induction ws as [|w ws IH]; intros st; simpl.
  - by split_and!.
  - destruct (IH (update_wire w (Wire.with_signal unknown) st)) as (Hc & Hw & Hp).
    split_and!; [done..|].
    intros q. rewrite Hp, update_wire_wire_heap.
    repeat case_decide; subst; try done;
      try (by destruct (wire_heap st !! q)); exfalso; set_solver.
Qed.

(** [reset] on the engine and on the three heaps: the pins of the
    components of the circuit and the wires of the circuit go through
    the signal assignment, nothing else is written. *)
Lemma reset_heaps (self : t) (circuit : Circuit.t) (st : Store) :
  let self' := fst (reset self circuit st) in
  let st' := snd (reset self circuit st) in
  tick_count self' = 0%Z
  /\ propagation_queue self' = [] /\ evaluated_components self' = []
  /\ running self' = running self
  /\ (forall p, pin_heap st' !! p
        = if decide (p ∈ circuit_pins circuit st)
          then Pin.with_signal unknown <$> pin_heap st !! p
          else pin_heap st !! p)
  /\ (forall w, wire_heap st' !! w
        = if decide (w ∈ circuit_wires circuit)
          then Wire.with_signal unknown <$> wire_heap st !! w
          else wire_heap st !! w)
  /\ comp_heap st' = comp_heap st.
Proof.
  unfold reset; simpl.
  destruct (fold_reset_pins (PyDict.values (Circuit.components circuit)) st)
    as (Hc & Hw & Hp).
  destruct (fold_reset_wires (PyDict.values (Circuit.wires circuit))
              (fold_left reset_pins (PyDict.values (Circuit.components circuit)) st))
    as (Hc' & Hp' & Hw').
  split_and!; try done.
  - intros p. rewrite Hp'. apply Hp.
  - intros w. rewrite Hw', Hw. done.
  - congruence.
Qed.
End EngineFacts.

Module StepFacts.
Import PyStr CircuitModel SimulationEngine EngineSpec.

Lemma evaluate_all_spec (cs : list comp_ref) (changed : bool) (st : Store) :
  evaluate_all cs changed st
  = (changed || some_changed cs st, errors cs st,
     fold_left (fun st c => snd (Components.evaluate c st)) cs st).
Proof.
  revert changed st. induction cs as [|c cs IH]; intros changed st; simpl.
  - by rewrite orb_false_r.
  - unfold evaluate_component, component_changed.
    destruct (Components.evaluate c st) as [[[]|] st'] eqn:He; simpl;
      rewrite IH; simpl; f_equal; f_equal;
      rewrite ?orb_false_r, ?orb_assoc; reflexivity.
Qed.

Lemma pass_spec (circuit : Circuit.t) (st : Store) :
  pass circuit st
  = (pass_changed circuit st,
     errors (PyDict.values (Circuit.components circuit)) st,
     full_pass circuit st).
Proof. unfold pass. by rewrite evaluate_all_spec. Qed.

Lemma evaluate_loop_spec (max : Z) (f : nat) (circuit : Circuit.t) (it : Z) (st : Store) :
  (it + Z.of_nat f = max)%Z ->
  evaluate_loop max f circuit it st
  = ((it + Z.of_nat (passes_run f circuit st))%Z,
     passes_log (passes_run f circuit st) circuit st,
     passes (passes_run f circuit st) circuit st).
Proof.
  revert it st. induction f as [|f IH]; intros it st Hit; simpl.
  - by rewrite Z.add_0_r.
  - assert (Hlt : (it <? max)%Z = true) by (apply Z.ltb_lt; lia).
    rewrite Hlt, pass_spec.
    destruct (pass_changed circuit st); simpl.
    + rewrite IH by lia.
      set (r := passes_run f circuit (full_pass circuit st)).
      replace (it + 1 + Z.of_nat r)%Z with (it + Z.of_nat (S r))%Z by lia. done.
    + rewrite app_nil_r. done.
Qed.

Lemma passes_run_le n circuit st : passes_run n circuit st <= n.
Proof.
  revert st. induction n as [|n IH]; intros st; simpl; [lia|].
  destruct (pass_changed circuit st); [|lia]. specialize (IH (full_pass circuit st)). lia.
Qed.

Lemma passes_run_changed n circuit st i :
  S i < passes_run n circuit st -> pass_changed circuit (passes i circuit st) = true.
Proof.
  revert st i. induction n as [|n IH]; intros st i; simpl; [lia|].
  destruct (pass_changed circuit st) eqn:Hc; [|lia].
  destruct i as [|i]; simpl; [done|]. intros H. apply IH. lia.
Qed.

Lemma passes_run_stable n circuit st :
  passes_run n circuit st < n ->
  exists j, passes_run n circuit st = S j
            /\ pass_changed circuit (passes j circuit st) = false.
Proof.
  revert st. induction n as [|n IH]; intros st; simpl; [lia|].
  destruct (pass_changed circuit st) eqn:Hc.
  - intros H. destruct (IH (full_pass circuit st)) as (j & Hj & Hs); [lia|].
    exists (S j). by rewrite Hj.
  - intros _. by exists 0.
Qed.

(** [step] in one equation: the engine, what is printed, the store. *)
Lemma step_eq (max : Z) (self : t) (circuit : Circuit.t) (st : Store) :
  let st1 := _propagate_signals circuit st in
  let n := Z.to_nat max in
  let k := passes_run n circuit st1 in
  step max self circuit st
  = (mk (running self) (tick_count self + 1) (propagation_queue self) [],
     passes_log k circuit st1
     ++ (if decide (k = n) then [WarningNotConverged max] else []),
     _propagate_signals circuit (passes k circuit st1)).
Proof.
  intros st1 n k.
  unfold step, _evaluate_circuit. fold st1.
  destruct (Z.le_gt_cases max 0) as [Hle|Hgt].
  - assert (Hn : n = 0) by (subst n; lia). subst k. rewrite Hn. simpl.
    fold n. rewrite Hn. simpl.
    assert ((max <=? 0)%Z = true) as -> by (apply Z.leb_le; lia). done.
  - rewrite evaluate_loop_spec by (subst n; lia). fold n. fold k. simpl.
    rewrite ?Z.add_0_l.
    pose proof (passes_run_le n circuit st1) as Hk. fold k in Hk.
    destruct (decide (k = n)) as [Heq|Hne].
    + assert ((max <=? Z.of_nat k)%Z = true) as -> by (apply Z.leb_le; subst n; lia).
      done.
    + assert ((max <=? Z.of_nat k)%Z = false) as -> by (apply Z.leb_gt; subst n; lia).
      done.
Qed.

End StepFacts.

Module FrameFacts.
Import PyStr CircuitModel Components FrameSpec.

Lemma pin_at_update_pin p f st q :
  pin_at (update_pin p f st) q
  = match pin_heap st !! q with
    | Some x => if decide (p = q) then f x else x
    | None => inhabitant
    end.
Proof.
  unfold pin_at, update_pin; simpl. rewrite list_lookup_total_alt, list_lookup_alter.
  case_decide; subst; destruct (pin_heap st !! q); done.
Qed.

Lemma comp_at_update_comp c f st d :
  comp_at (update_comp c f st) d
  = match comp_heap st !! d with
    | Some x => if decide (c = d) then f x else x
    | None => inhabitant
    end.
Proof.
  unfold comp_at, update_comp; simpl. rewrite list_lookup_total_alt, list_lookup_alter.
  case_decide; subst; destruct (comp_heap st !! d); done.
Qed.

Lemma pin_at_alt st q : pin_at st q = default inhabitant (pin_heap st !! q).
Proof. apply list_lookup_total_alt. Qed.

Lemma comp_at_alt st c : comp_at st c = default inhabitant (comp_heap st !! c).
Proof. apply list_lookup_total_alt. Qed.

Lemma with_signal_eta x : Pin.with_signal (Pin.signal x) x = x.
Proof. by destruct x. Qed.

Lemma with_kind_eta x : Component.with_kind (Component.kind x) x = x.
Proof. by destruct x. Qed.

Lemma touches_only_refl self P st : touches_only self P st st.
Proof.
  split_and!; try done.
  - exists (Component.kind (comp_at st self)). by rewrite with_kind_eta.
  - intros q. exists (Pin.signal (pin_at st q)). by rewrite with_signal_eta.
Qed.

Lemma touches_only_trans self P st1 st2 st3 :
  touches_only self P st1 st2 -> touches_only self P st2 st3 ->
  touches_only self P st1 st3.
Proof.
  intros (Hw & Hlc & Hlp & Hc & [k Hk] & Hp & Hs) (Hw' & Hlc' & Hlp' & Hc' & [k' Hk'] & Hp' & Hs').
  split_and!; try congruence.
  - intros c Hne. rewrite Hc', Hc; done.
  - exists k'. rewrite Hk', Hk. done.
  - intros q Hq. rewrite Hp', Hp; done.
  - intros q. destruct (Hs q) as [s Hq], (Hs' q) as [s' Hq'].
    exists s'. rewrite Hq', Hq. done.
Qed.

Lemma touches_only_set_signal self P p s st :
  p ∈ P -> touches_only self P st (set_signal p s st).
Proof.
  intros Hin. unfold set_signal. split_and!; try done.
  - simpl. by rewrite length_alter.
  - exists (Component.kind (comp_at st self)). by rewrite with_kind_eta.
  - intros q Hq. rewrite pin_at_update_pin, pin_at_alt.
    destruct (pin_heap st !! q); [|done]. rewrite decide_False; [done|]. by intros ->.
  - intros q. rewrite pin_at_update_pin, pin_at_alt.
    destruct (pin_heap st !! q) as [x|]; simpl.
    + case_decide; [by exists s|]. exists (Pin.signal x). by rewrite with_signal_eta.
    + by exists Signal.default.
Qed.

Lemma touches_only_set_kind self P k st :
  touches_only self P st (update_comp self (Component.with_kind k) st).
Proof.
  split_and!; try done.
  - simpl. by rewrite length_alter.
  - intros c Hne. rewrite comp_at_update_comp, comp_at_alt.
    destruct (comp_heap st !! c); [|done]. by rewrite decide_False.
  - rewrite comp_at_update_comp, comp_at_alt.
    destruct (comp_heap st !! self) as [x|]; simpl.
    + rewrite decide_True by done. by exists k.
    + by exists BaseComponent.
  - intros q. exists (Pin.signal (pin_at st q)). by rewrite with_signal_eta.
Qed.

Lemma preserves_ret {A} self P (a : A) : preserves self P (ret a).
Proof. intros st. apply touches_only_refl. Qed.

Lemma preserves_raise {A} self P : preserves self P (@raise A).
Proof. intros st. apply touches_only_refl. Qed.

Lemma preserves_bind {A B} self P (m : Exec A) (k : A -> Exec B) :
  preserves self P m -> (forall a, preserves self P (k a)) ->
  preserves self P (bind m k).
Proof.
  intros Hm Hk st. unfold bind, Exec_bind. specialize (Hm st).
  destruct (m st) as [[a|] st1]; simpl in *; [|done].
  eapply touches_only_trans; [exact Hm|apply Hk].
Qed.

Lemma get_in_values {V} (k : str) (d : PyDict.dict V) v :
  PyDict.get k d = Some v -> v ∈ PyDict.values d.
Proof.
  induction d as [|[k' v'] d IH]; simpl; [done|].
  destruct (eqb k k'); [intros [= ->]; left|intros H; right; auto].
Qed.

Lemma preserves_read_signal self P pin : preserves self P (read_signal pin).
Proof. destruct pin; intros st; apply touches_only_refl. Qed.

Lemma preserves_read_high self P pin : preserves self P (read_high pin).
Proof.
  apply preserves_bind; [apply preserves_read_signal|intros; apply preserves_ret].
Qed.

Lemma preserves_write_signal self (c : Component.t) name s :
  preserves self (PyDict.values (Component.pins c))
            (write_signal (Component.get_pin c name) s).
Proof.
  unfold Component.get_pin.
  destruct (PyDict.get name (Component.pins c)) as [p|] eqn:Hg; intros st; simpl.
  - apply touches_only_set_signal. by eapply get_in_values.
  - apply touches_only_refl.
Qed.

Lemma preserves_write_signal_some self (c : Component.t) name p s :
  Component.get_pin c name = Some p ->
  preserves self (PyDict.values (Component.pins c)) (write_signal (Some p) s).
Proof. intros <-. apply preserves_write_signal. Qed.

Lemma preserves_set_kind self P k : preserves self P (set_kind self k).
Proof. intros st. apply touches_only_set_kind. Qed.

Lemma preserves_read_bits self P c prefix assign indices value :
  (forall v, preserves self P (assign v)) ->
  preserves self P (read_bits c prefix assign indices value).
Proof.
  intros Ha. revert value. induction indices as [|i r IH]; intros value; simpl.
  - apply preserves_ret.
  - apply preserves_bind; [apply preserves_read_high|]. intros b.
    apply preserves_bind; [destruct b; [apply Ha|apply preserves_ret]|].
    intros _. apply IH.
Qed.

Lemma preserves_for_each {A} self P (f : A -> Exec unit) l :
  (forall a, preserves self P (f a)) -> preserves self P (for_each f l).
Proof.
  intros Hf. induction l as [|a l IH]; simpl; [apply preserves_ret|].
  apply preserves_bind; [apply Hf|intros _; apply IH].
Qed.

Lemma preserves_write_q self c state :
  preserves self (PyDict.values (Component.pins c)) (write_q c state).
Proof.
  unfold write_q, get_pin.
  apply preserves_bind; [apply preserves_write_signal|intros _; apply preserves_write_signal].
Qed.

Ltac frame :=
  repeat first
    [ apply preserves_ret | apply preserves_raise
    | apply preserves_read_high | apply preserves_read_signal
    | apply preserves_write_signal | apply preserves_set_kind
    | apply preserves_write_q
    | apply preserves_read_bits; intros
    | apply preserves_for_each; intros
    | apply preserves_bind; [|intros]
    | match goal with
      | |- preserves _ _ (write_signal (Some _) _) =>
          eapply preserves_write_signal_some; eassumption
      | |- preserves _ _ (match ?o with Some _ => _ | None => _ end) => destruct o eqn:?
      | |- preserves _ _ (if ?b then _ else _) => destruct b
      | |- preserves _ _ (let '(_, _) := ?x in _) => destruct x
      end ].

(** [evaluate] changes nothing but the class attributes of [self] and
    the signals of its own pins. *)
Lemma evaluate_touches_only (self : comp_ref) (st : Store) :
  touches_only self (PyDict.values (Component.pins (comp_at st self)))
               st (snd (evaluate self st)).
Proof.
  unfold evaluate. set (c := comp_at st self).
  destruct (Component.kind c) eqn:Hk;
    lazymatch goal with
    | |- touches_only _ ?P _ (snd (?m _)) =>
        let H := fresh in assert (H : preserves self P m); [unfold get_pin; frame|apply H]
    end.
Qed.
End FrameFacts.

Module ClockFacts.
Import PyStr CircuitModel Components FrameSpec FrameFacts ClockSpec.
Import SimulationEngine EngineSpec StepFacts.

Lemma wire_at_update_wire w f st v :
  wire_at (update_wire w f st) v
  = match wire_heap st !! v with
    | Some x => if decide (w = v) then f x else x
    | None => inhabitant
    end.
Proof.
  unfold wire_at, update_wire; simpl. rewrite list_lookup_total_alt, list_lookup_alter.
  case_decide; subst; destruct (wire_heap st !! v); done.
Qed.

Lemma wire_at_alt st w : wire_at st w = default inhabitant (wire_heap st !! w).
Proof. apply list_lookup_total_alt. Qed.

Lemma pin_at_valid st q : q < length (pin_heap st) -> pin_heap st !! q = Some (pin_at st q).
Proof. intros H. unfold pin_at. by apply list_lookup_lookup_total_lt. Qed.

Lemma comp_at_valid st c : c < length (comp_heap st) -> comp_heap st !! c = Some (comp_at st c).
Proof. intros H. unfold comp_at. by apply list_lookup_lookup_total_lt. Qed.

Lemma comp_at_set_signal p s st c : comp_at (set_signal p s st) c = comp_at st c.
Proof. done. Qed.

Lemma pin_at_update_comp c f st q : pin_at (update_comp c f st) q = pin_at st q.
Proof. done. Qed.

(** ** One evaluation of the clock *)

Lemma evaluate_clock clk p others s st :
  clock_inv clk p others s st ->
  evaluate clk st
  = (Some tt,
     set_signal p (Signal.from_bool (negb s))
       (update_comp clk (Component.with_kind (Clock (negb s) 0 1)) st)).
Proof.
  intros (Hc & Hp & Hpins & (tc & Hk & Htc) & Hty & Hoth).
  unfold evaluate. rewrite Hk.
  assert ((1 <=? tc + 1)%Z = true) as -> by (apply Z.leb_le; lia).
  unfold get_pin, Component.get_pin. rewrite Hpins. reflexivity.
Qed.

Lemma clock_inv_after_evaluate clk p others s st :
  clk ∉ others ->
  clock_inv clk p others s st ->
  let st' := snd (evaluate clk st) in
  clock_inv clk p others (negb s) st'
  /\ signal_of st' p = Signal.from_bool (negb s)
  /\ Component.kind (comp_at st' clk) = Clock (negb s) 0 1.
Proof.
  intros Hno Hinv. rewrite (evaluate_clock _ _ _ _ _ Hinv). simpl.
  destruct Hinv as (Hc & Hp & Hpins & (tc & Hk & Htc) & Hty & Hoth).
  assert (Hcomp : forall c, comp_at (set_signal p (Signal.from_bool (negb s))
            (update_comp clk (Component.with_kind (Clock (negb s) 0 1)) st)) c
          = if decide (clk = c) then Component.with_kind (Clock (negb s) 0 1) (comp_at st c)
            else comp_at st c).
  { intros c. rewrite comp_at_set_signal, comp_at_update_comp, comp_at_alt.
    destruct (comp_heap st !! c) eqn:E; simpl; [done|].
    case_decide; [subst|done]. apply lookup_ge_None in E. lia. }
  assert (Hpin : pin_at (set_signal p (Signal.from_bool (negb s))
            (update_comp clk (Component.with_kind (Clock (negb s) 0 1)) st)) p
          = Pin.with_signal (Signal.from_bool (negb s)) (pin_at st p)).
  { unfold set_signal. rewrite pin_at_update_pin. simpl.
    rewrite (pin_at_valid st p Hp), decide_True by done. done. }
  split; [unfold clock_inv; split_and!|split].
  - unfold set_signal, update_pin, update_comp; simpl. by rewrite ?length_alter.
  - unfold set_signal, update_pin, update_comp; simpl. by rewrite ?length_alter.
  - rewrite Hcomp, decide_True by done. done.
  - exists 0%Z. rewrite Hcomp, decide_True by done. simpl. split; [done|lia].
  - rewrite Hpin. done.
  - intros c Hin. rewrite Hcomp. case_decide; [subst; done|]. by apply Hoth.
  - unfold signal_of. by rewrite Hpin.
  - rewrite Hcomp, decide_True by done. done.
Qed.

Lemma clock_inv_after_other clk p others s st c :
  clk ∉ others -> c ∈ others ->
  clock_inv clk p others s st ->
  let st' := snd (evaluate c st) in
  clock_inv clk p others s st' /\ pin_at st' p = pin_at st p.
Proof.
  intros Hno Hin (Hc & Hp & Hpins & (tc & Hk & Htc) & Hty & Hoth) st'.
  destruct (evaluate_touches_only c st)
    as (Hw & Hlc & Hlp & Hcs & [k Hself] & Hps & Hsig).
  fold st' in Hw, Hlc, Hlp, Hcs, Hself, Hps, Hsig.
  assert (Hne : clk <> c) by (intros ->; done).
  assert (Hpp : pin_at st' p = pin_at st p) by (apply Hps, Hoth, Hin).
  assert (Hpins' : forall d, Component.pins (comp_at st' d) = Component.pins (comp_at st d)).
  { intros d. destruct (decide (d = c)) as [->|Hd]; [by rewrite Hself|by rewrite Hcs]. }
  split; [|done]. unfold clock_inv. split_and!.
  - by rewrite Hlc.
  - by rewrite Hlp.
  - rewrite Hcs by done. done.
  - exists tc. rewrite Hcs by done. done.
  - by rewrite Hpp.
  - intros d Hd. rewrite Hpins'. by apply Hoth.
Qed.

Lemma fold_others clk p others s st cs :
  clk ∉ others -> cs ⊆ others ->
  clock_inv clk p others s st ->
  let st' := fold_left (fun st c => snd (evaluate c st)) cs st in
  clock_inv clk p others s st' /\ pin_at st' p = pin_at st p.
Proof.
  intros Hno. revert st. induction cs as [|c cs IH]; intros st Hsub Hinv; simpl; [done|].
  destruct (clock_inv_after_other clk p others s st c) as [Hinv' Hp']; [done| |done|].
  { apply Hsub. by left. }
  destruct (IH (snd (evaluate c st))) as [Hinv'' Hp'']; [|done|].
  { intros x Hx. apply Hsub. by right. }
  split; [done|congruence].
Qed.

Lemma comp_at_after_others clk cs st :
  clk ∉ cs ->
  comp_at (fold_left (fun st c => snd (evaluate c st)) cs st) clk = comp_at st clk.
Proof.
  revert st. induction cs as [|c cs IH]; intros st Hno; simpl; [done|].
  rewrite IH by set_solver.
  destruct (evaluate_touches_only c st) as (_ & _ & _ & Hcs & _).
  apply Hcs. set_solver.
Qed.

Lemma some_changed_app cs1 cs2 st :
  some_changed (cs1 ++ cs2) st
  = some_changed cs1 st
    || some_changed cs2 (fold_left (fun st c => snd (evaluate c st)) cs1 st).
Proof.
  revert st. induction cs1 as [|c cs1 IH]; intros st; simpl; [done|].
  by rewrite IH, orb_assoc.
Qed.

Lemma clock_changes clk p others s st :
  clock_inv clk p others s st -> pending p s st ->
  component_changed clk st = true.
Proof.
  intros Hinv Hpend. unfold component_changed.
  rewrite (evaluate_clock _ _ _ _ _ Hinv).
  destruct Hinv as (Hc & Hp & Hpins & (tc & Hk & Htc) & Hty & Hoth).
  set (st' := set_signal _ _ _).
  assert (Hout : forall s0, (forall d, Component.pins (comp_at s0 d) = Component.pins (comp_at st d))
            -> Pin.pin_type (pin_at s0 p) = OUTPUT -> get_output_pins s0 clk = [p]).
  { intros s0 Hd Ht. unfold get_output_pins, pins_of_type. rewrite Hd, Hpins. simpl.
    by rewrite decide_True. }
  assert (Hpin : pin_at st' p = Pin.with_signal (Signal.from_bool (negb s)) (pin_at st p)).
  { subst st'. unfold set_signal. rewrite pin_at_update_pin. simpl.
    rewrite (pin_at_valid st p Hp), decide_True by done. done. }
  unfold outputs_changed, output_states.
  rewrite (Hout st) by done. rewrite (Hout st').
  - simpl. unfold signal_of. rewrite Hpin. simpl.
    unfold PyStr.eqb. rewrite (decide_True (P := Pin.name _ = Pin.name _)) by done.
    case_decide as E; [|done]. exfalso. apply Hpend. unfold signal_of.
    injection E as E. by rewrite E.
  - intros d. subst st'. rewrite comp_at_set_signal, comp_at_update_comp, comp_at_alt.
    destruct (comp_heap st !! d); simpl; [|done]. by case_decide.
  - rewrite Hpin. done.
Qed.

Lemma pending_flip p s st :
  signal_of st p = Signal.from_bool (negb s) -> pending p (negb s) st.
Proof. intros H. unfold pending. rewrite H. by destruct s. Qed.

(** ** One pass, and the loop *)

Lemma pass_with_clock circuit clk p s st :
  clock_ready circuit clk p s st ->
  pass_changed circuit st = true
  /\ clock_ready circuit clk p (negb s) (full_pass circuit st)
  /\ Component.kind (comp_at (full_pass circuit st) clk) = Clock (negb s) 0 1.
Proof.
  intros (l1 & l2 & Hcs & Hno & Hinv & Hpend).
  unfold pass_changed, full_pass. rewrite Hcs.
  destruct (fold_others clk p (l1 ++ l2) s st l1) as [Hinv1 Hp1]; [done|set_solver|done|].
  set (st1 := fold_left _ l1 st) in *.
  assert (Hpend1 : pending p s st1) by (unfold pending, signal_of; by rewrite Hp1).
  destruct (clock_inv_after_evaluate clk p (l1 ++ l2) s st1) as (Hinv2 & Hsig2 & Hk2);
    [done..|].
  set (st2 := snd (evaluate clk st1)) in *.
  destruct (fold_others clk p (l1 ++ l2) (negb s) st2 l2) as [Hinv3 Hp3];
    [done|set_solver|done|].
  split_and!.
  - rewrite some_changed_app. simpl. fold st1.
    rewrite (clock_changes clk p (l1 ++ l2) s st1) by done. apply orb_true_r.
  - exists l1, l2. rewrite fold_left_app. simpl. fold st1. fold st2.
    split_and!; try done. apply pending_flip. unfold signal_of in *. by rewrite Hp3.
  - rewrite fold_left_app. simpl. fold st1. fold st2.
    rewrite comp_at_after_others by set_solver. done.
Qed.

Lemma passes_with_clock circuit clk p s st i :
  clock_ready circuit clk p s st ->
  clock_ready circuit clk p (Nat.iter i negb s) (passes i circuit st)
  /\ pass_changed circuit (passes i circuit st) = true
  /\ Component.kind (comp_at (passes (S i) circuit st) clk)
     = Clock (Nat.iter (S i) negb s) 0 1.
Proof.
  revert s st. induction i as [|i IH]; intros s st Hr.
  - simpl. destruct (pass_with_clock _ _ _ _ _ Hr) as (Hc & _ & Hk). done.
  - destruct (pass_with_clock _ _ _ _ _ Hr) as (_ & Hr' & _).
    destruct (IH _ _ Hr') as (H1 & H2 & H3).
    rewrite <- !Nat.iter_succ_r in H1, H3. done.
Qed.

Lemma passes_run_with_clock circuit clk p s st n :
  clock_ready circuit clk p s st -> passes_run n circuit st = n.
Proof.
  revert s st. induction n as [|n IH]; intros s st Hr; simpl; [done|].
  destruct (pass_with_clock _ _ _ _ _ Hr) as (-> & Hr' & _).
  by rewrite (IH _ _ Hr').
Qed.

(** ** Propagation does not reach the pin *)

Lemma untouched_refl p st : untouched p st st.
Proof.
  unfold untouched. split_and!; try done.
  - intros q. exists (Pin.signal (pin_at st q)). by rewrite with_signal_eta.
  - intros w. exists (Wire.signal (wire_at st w)). by destruct (wire_at st w).
Qed.

Lemma untouched_trans p st1 st2 st3 :
  untouched p st1 st2 -> untouched p st2 st3 -> untouched p st1 st3.
Proof.
  intros (Hc & Hl & Hp & Hw & Hpp) (Hc' & Hl' & Hp' & Hw' & Hpp').
  unfold untouched. split_and!; try congruence.
  - intros q. destruct (Hp q) as [s Hs], (Hp' q) as [s' Hs'].
    exists s'. by rewrite Hs', Hs.
  - intros w. destruct (Hw w) as [s Hs], (Hw' w) as [s' Hs'].
    exists s'. by rewrite Hs', Hs.
Qed.

Lemma untouched_write p q s w st :
  q <> p ->
  untouched p st (set_signal q s (update_wire w (Wire.with_signal s) st)).
Proof.
  intros Hne. unfold untouched, set_signal. split_and!.
  - done.
  - simpl. by rewrite length_alter.
  - intros r. rewrite pin_at_update_pin. simpl. rewrite pin_at_alt.
    destruct (pin_heap st !! r) as [x|]; simpl.
    + case_decide; [by exists s|]. exists (Pin.signal x). by rewrite with_signal_eta.
    + by exists Signal.default.
  - intros v. change (exists s0, wire_at (update_wire w (Wire.with_signal s) st) v
                                 = Wire.with_signal s0 (wire_at st v)).
    rewrite wire_at_update_wire, wire_at_alt.
    destruct (wire_heap st !! v) as [x|]; simpl.
    + case_decide; [by exists s|]. exists (Wire.signal x). by destruct x.
    + by exists Signal.default.
  - rewrite pin_at_update_pin. simpl. rewrite pin_at_alt.
    destruct (pin_heap st !! p); simpl; [|done]. by rewrite decide_False.
Qed.

Lemma propagate_untouched p w st :
  Pin.pin_type (pin_at st p) = OUTPUT ->
  (Wire.end_pin (wire_at st w) = p ->
   Pin.pin_type (pin_at st (Wire.start_pin (wire_at st w))) <> OUTPUT) ->
  untouched p st (propagate w st).
Proof.
  intros Hty Hnd. unfold propagate.
  destruct (decide (Pin.pin_type (pin_at st (Wire.start_pin (wire_at st w))) = OUTPUT))
    as [Hs|Hs].
  - apply untouched_write. intros He. by apply Hnd.
  - case_decide as He; [|apply untouched_refl].
    apply untouched_write. intros Heq. apply Hs. by rewrite Heq.
Qed.

Lemma not_driven_untouched circuit p st st' :
  untouched p st st' -> not_driven circuit p st -> not_driven circuit p st'.
Proof.
  intros (Hc & Hl & Hp & Hw & Hpp) Hnd w Hin.
  destruct (Hw w) as [s Hs]. rewrite Hs. simpl.
  destruct (Hp (Wire.start_pin (wire_at st w))) as [s' Hs']. rewrite Hs'. simpl.
  by apply Hnd.
Qed.

Lemma propagate_all_untouched p ws st :
  Pin.pin_type (pin_at st p) = OUTPUT ->
  (forall w, w ∈ ws -> Wire.end_pin (wire_at st w) = p ->
             Pin.pin_type (pin_at st (Wire.start_pin (wire_at st w))) <> OUTPUT) ->
  untouched p st (fold_left (fun st w => propagate w st) ws st).
Proof.
  revert st. induction ws as [|w ws IH]; intros st Hty Hnd; simpl; [apply untouched_refl|].
  assert (Hu : untouched p st (propagate w st)).
  { apply propagate_untouched; [done|]. apply Hnd. by left. }
  eapply untouched_trans; [exact Hu|].
  destruct Hu as (Hc & Hl & Hp & Hw & Hpp).
  apply IH; [by rewrite Hpp|].
  intros v Hv. destruct (Hw v) as [s Hs]. rewrite Hs. simpl.
  destruct (Hp (Wire.start_pin (wire_at st v))) as [s' Hs']. rewrite Hs'. simpl.
  apply Hnd. by right.
Qed.

Lemma clock_ready_untouched circuit clk p s st st' :
  untouched p st st' -> clock_ready circuit clk p s st -> clock_ready circuit clk p s st'.
Proof.
  intros (Hc & Hl & Hp & Hw & Hpp) (l1 & l2 & Hcs & Hno & Hinv & Hpend).
  assert (Hcomp : forall c, comp_at st' c = comp_at st c)
    by (intros; unfold comp_at; by rewrite Hc).
  exists l1, l2. split_and!; try done.
  - destruct Hinv as (H1 & H2 & H3 & H4 & H5 & H6). unfold clock_inv.
    rewrite Hc, Hl, !Hcomp, Hpp. split_and!; try done.
    intros c Hin. rewrite Hcomp. by apply H6.
  - unfold pending, signal_of in *. by rewrite Hpp.
Qed.

Lemma clock_ready_type circuit clk p s st :
  clock_ready circuit clk p s st -> Pin.pin_type (pin_at st p) = OUTPUT.
Proof. by intros (l1 & l2 & _ & _ & (_ & _ & _ & _ & H & _) & _). Qed.

(** C10, as amended. With frequency 1 and a non-negative tick count,
    one call of [Clock.evaluate] negates the stored state, zeroes the
    tick count and writes the new state to the output pin. For a clock
    that is listed once in the circuit, whose output pin belongs to no
    other listed component, is not the end of a wire starting at an
    OUTPUT-typed pin, and does not already show the state the clock is
    about to take: every evaluation pass of [step] changes an output
    pin state, so the loop runs the maximum number of passes and the
    warning is printed, and the clock's state is negated once per pass
    (not once per call of [step]). *)
Theorem clock_step (max : Z) (self : SimulationEngine.t) (circuit : Circuit.t)
    (clk : comp_ref) (p : pin_ref) (s : bool) (st : Store) :
  clock_ready circuit clk p s st ->
  not_driven circuit p st ->
  let n := Z.to_nat max in
  let st1 := _propagate_signals circuit st in
  (let st' := snd (evaluate clk st) in
   fst (evaluate clk st) = Some tt
   /\ Component.kind (comp_at st' clk) = Clock (negb s) 0 1
   /\ signal_of st' p = Signal.from_bool (negb s))
  /\ (forall i, pass_changed circuit (passes i circuit st1) = true)
  /\ passes_run n circuit st1 = n
  /\ snd (fst (step max self circuit st))
     = passes_log n circuit st1 ++ [WarningNotConverged max]
  /\ (forall i, Component.kind (comp_at (passes (S i) circuit st1) clk)
                = Clock (Nat.iter (S i) negb s) 0 1)
  /\ comp_at (snd (step max self circuit st)) clk = comp_at (passes n circuit st1) clk.
Proof.
  intros Hr Hnd n st1.
  assert (Hu : untouched p st st1).
  { apply propagate_all_untouched; [by eapply clock_ready_type|]. intros w Hw. by apply Hnd. }
  assert (Hr1 : clock_ready circuit clk p s st1) by (by eapply clock_ready_untouched).
  assert (Hrun : passes_run n circuit st1 = n) by (by eapply passes_run_with_clock).
  pose proof (step_eq max self circuit st) as Hstep. cbv zeta in Hstep.
  fold st1 in Hstep. fold n in Hstep. rewrite Hrun in Hstep.
  rewrite decide_True in Hstep by done.
  split_and!.
  - destruct Hr as (l1 & l2 & Hcs & Hno & Hinv & Hpend).
    destruct (clock_inv_after_evaluate clk p (l1 ++ l2) s st Hno Hinv) as (_ & Hsig & Hk).
    rewrite (evaluate_clock _ _ _ _ _ Hinv) in *. done.
  - intros i. by destruct (passes_with_clock circuit clk p s st1 i Hr1) as (_ & H & _).
  - done.
  - by rewrite Hstep.
  - intros i. by destruct (passes_with_clock circuit clk p s st1 i Hr1) as (_ & _ & H).
  - rewrite Hstep. simpl.
    set (st2 := passes n circuit st1).
    unfold _propagate_signals, comp_at.
    assert (Hc : forall ws s0, comp_heap (fold_left (fun st w => propagate w st) ws s0)
                               = comp_heap s0).
    { induction ws as [|w ws IH]; intros s0; simpl; [done|]. rewrite IH.
      unfold propagate. repeat case_decide; done. }
    by rewrite Hc.
Qed.
End ClockFacts.

Module ClockExamples.
Import PyStr CircuitModel Components ClockSpec ClockScenarios.
Import SimulationEngine EngineSpec ClockFacts.

(** C10 as stated fails. In [driven_clock] the component [1] is a
    [Clock] of frequency 1; the first propagation of [step] copies HIGH
    from the switch to the clock's output pin, [Clock.evaluate] then
    writes HIGH again, so the pin state does not toggle, the first pass
    is change-free, one pass is run out of 10 and no warning is printed. *)
Lemma clock_pass_without_change :
  let circuit := fst driven_clock in
  let st := snd driven_clock in
  let st1 := _propagate_signals circuit st in
  Component.kind (comp_at st 1) = Clock false 0 1
  /\ PyDict.values (Circuit.components circuit) = [0; 1]
  /\ Signal.state (signal_of st1 1) = HIGH
  /\ Signal.state (signal_of (snd (evaluate 1 st1)) 1) = HIGH
  /\ pass_changed circuit st1 = false
  /\ passes_run (Z.to_nat 10) circuit st1 = 1
  /\ snd (fst (step 10 SimulationEngine.new circuit st)) = [].
Proof. vm_compute. done. Qed.

Lemma clock_step_witness :
  let circuit := fst clock_and_led in
  let st := snd clock_and_led in
  clock_ready circuit 0 0 false st
  /\ not_driven circuit 0 st
  /\ passes_run (Z.to_nat 3) circuit (_propagate_signals circuit st) = 3
  /\ snd (fst (step 3 SimulationEngine.new circuit st))
     = [WarningNotConverged 3].
Proof.
  intros circuit st.
  assert (Hr : clock_ready circuit 0 0 false st).
  { exists [], [1]. split_and!.
    - reflexivity.
    - intros [H|H]%elem_of_cons; [discriminate|by apply elem_of_nil in H].
    - unfold clock_inv. split_and!.
      + vm_compute. lia.
      + vm_compute. lia.
      + reflexivity.
      + exists 0%Z. split; [reflexivity|lia].
      + reflexivity.
      + intros c [->|H]%elem_of_cons; [|by apply elem_of_nil in H].
        vm_compute. intros [H|H]%elem_of_cons; [discriminate|by apply elem_of_nil in H].
    - vm_compute. discriminate. }
  assert (Hnd : not_driven circuit 0 st).
  { intros w [->|H]%elem_of_cons; [|by apply elem_of_nil in H]. vm_compute. discriminate. }
  destruct (clock_step 3 SimulationEngine.new circuit 0 0 false st Hr Hnd)
    as (_ & _ & Hrun & Hout & _).
  split_and!; [exact Hr|exact Hnd|exact Hrun|].
  rewrite Hout. reflexivity.
Defined.

End ClockExamples.

Module DictFacts.
Import PyStr.

Lemma eqb_eq (a b : str) : eqb a b = true <-> a = b.
Proof. unfold eqb. case_decide; split; done. Qed.

Lemma eqb_refl (a : str) : eqb a a = true.
Proof. by apply eqb_eq. Qed.

Lemma eqb_neq (a b : str) : eqb a b = false <-> a <> b.
Proof. unfold eqb. case_decide; split; done. Qed.

Section Dict.
Context {V : Type}.
Implicit Types (d : PyDict.dict V) (k : str) (v : V).

Lemma get_Some_elem k d v : PyDict.get k d = Some v -> (k, v) ∈ d.
Proof.
  induction d as [|[k' v'] d IH]; simpl; [done|].
  destruct (eqb k k') eqn:E.
  - apply eqb_eq in E as ->. intros [= ->]. left.
  - intros H. right. auto.
Qed.

Lemma elem_keys k v d : (k, v) ∈ d -> k ∈ PyDict.keys d.
Proof. intros H. unfold PyDict.keys. apply (list_elem_of_fmap_2 fst) in H. done. Qed.

Lemma elem_values k v d : (k, v) ∈ d -> v ∈ PyDict.values d.
Proof. intros H. unfold PyDict.values. apply (list_elem_of_fmap_2 snd) in H. done. Qed.

Lemma values_elem v d : v ∈ PyDict.values d -> exists k, (k, v) ∈ d.
Proof.
  unfold PyDict.values. intros ([k v'] & -> & H)%list_elem_of_fmap. by exists k.
Qed.

Lemma get_None_keys k d : PyDict.get k d = None <-> k ∉ PyDict.keys d.
Proof.
  induction d as [|[k' v'] d IH]; simpl.
  - split; [intros _; apply not_elem_of_nil|done].
  - destruct (eqb k k') eqn:E.
    + apply eqb_eq in E as ->. split; [done|]. intros H. exfalso. apply H. left.
    + apply eqb_neq in E. rewrite IH, not_elem_of_cons. naive_solver.
Qed.

Lemma elem_get k v d : NoDup (PyDict.keys d) -> (k, v) ∈ d -> PyDict.get k d = Some v.
Proof.
  induction d as [|[k' v'] d IH]; simpl; [by intros _ ?%elem_of_nil|].
  intros [Hk Hnd]%NoDup_cons [[= -> ->]|Hin]%elem_of_cons.
  - by rewrite eqb_refl.
  - destruct (eqb k k') eqn:E; [|auto].
    apply eqb_eq in E as ->. exfalso. apply Hk. by eapply elem_keys.
Qed.

Lemma del_elem k k' v d :
  (k', v) ∈ PyDict.del k d -> (k', v) ∈ d.
Proof.
  induction d as [|[k0 v0] d IH]; simpl; [done|].
  destruct (eqb k k0); [by right|].
  intros [->|H]%elem_of_cons; [left|right; auto].
Qed.

Lemma del_elem_ne k k' v d :
  NoDup (PyDict.keys d) -> (k', v) ∈ PyDict.del k d -> k' <> k.
Proof.
  induction d as [|[k0 v0] d IH]; simpl; [by intros _ ?%elem_of_nil|].
  intros [Hk Hnd]%NoDup_cons. destruct (eqb k k0) eqn:E.
  - apply eqb_eq in E as ->. intros H ->. apply Hk. by eapply elem_keys.
  - apply eqb_neq in E. intros [[= -> ->]|H]%elem_of_cons; [done|auto].
Qed.

Lemma elem_del k k' v d : k' <> k -> (k', v) ∈ d -> (k', v) ∈ PyDict.del k d.
Proof.
  intros Hne. induction d as [|[k0 v0] d IH]; simpl; [done|].
  destruct (eqb k k0) eqn:E.
  - apply eqb_eq in E as ->. intros [[= -> ->]|H]%elem_of_cons; done.
  - intros [->|H]%elem_of_cons; [left|right; auto].
Qed.

Lemma del_keys_sub k d x : x ∈ PyDict.keys (PyDict.del k d) -> x ∈ PyDict.keys d.
Proof.
  induction d as [|[k0 v0] d IH]; simpl; [done|].
  destruct (eqb k k0); [by right|].
  simpl. intros [->|H]%elem_of_cons; [left|right; auto].
Qed.

Lemma del_ok k d : NoDup (PyDict.keys d) -> NoDup (PyDict.keys (PyDict.del k d)).
Proof.
  induction d as [|[k0 v0] d IH]; simpl; [done|].
  intros [Hk Hnd]%NoDup_cons. destruct (eqb k k0); [done|].
  simpl. apply NoDup_cons. split; [|auto]. intros H. apply Hk. by eapply del_keys_sub.
Qed.

Lemma del_absent k d : PyDict.get k d = None -> PyDict.del k d = d.
Proof.
  induction d as [|[k0 v0] d IH]; simpl; [done|].
  destruct (eqb k k0); [done|]. intros H. by rewrite IH.
Qed.

Lemma set_elem k v k' v' d :
  (k', v') ∈ PyDict.set k v d -> (k' = k /\ v' = v) \/ (k', v') ∈ d.
Proof.
  induction d as [|[k0 v0] d IH]; simpl.
  - intros [[= -> ->]|H]%elem_of_cons; [by left|by apply elem_of_nil in H].
  - destruct (eqb k k0) eqn:E.
    + intros [[= -> ->]|H]%elem_of_cons; [by left|right; by right].
    + intros [->|H]%elem_of_cons; [right; left|].
      destruct (IH H) as [?|?]; [by left|right; by right].
Qed.

Lemma set_absent k v d : PyDict.get k d = None -> PyDict.set k v d = d ++ [(k, v)].
Proof.
  induction d as [|[k0 v0] d IH]; simpl; [done|].
  destruct (eqb k k0); [done|]. intros H. by rewrite IH.
Qed.

Lemma set_keys_sub k v d x : x ∈ PyDict.keys (PyDict.set k v d) -> x = k \/ x ∈ PyDict.keys d.
Proof.
  induction d as [|[k0 v0] d IH]; simpl.
  - intros [->|H]%elem_of_cons; [by left|by apply elem_of_nil in H].
  - destruct (eqb k k0) eqn:E; simpl.
    + intros [->|H]%elem_of_cons; [by left|right; by right].
    + intros [->|H]%elem_of_cons; [right; left|].
      destruct (IH H) as [?|?]; [by left|right; by right].
Qed.

Lemma set_ok k v d : NoDup (PyDict.keys d) -> NoDup (PyDict.keys (PyDict.set k v d)).
Proof.
  induction d as [|[k0 v0] d IH]; simpl.
  - intros _. apply NoDup_singleton.
  - intros [Hk Hnd]%NoDup_cons. destruct (eqb k k0) eqn:E; simpl.
    + apply eqb_eq in E as ->. apply NoDup_cons. done.
    + apply eqb_neq in E. apply NoDup_cons. split; [|auto].
      intros [->|H]%set_keys_sub; done.
Qed.
End Dict.
End DictFacts.

Module CircuitFacts.
Import PyStr CircuitModel CircuitSpec InvariantSpec DictFacts FrameFacts ClockFacts.

Section Methods.
Variable pin_eq : Store -> pin_ref -> pin_ref -> bool.
Variable wire_eq : Store -> wire_ref -> wire_ref -> bool.

Local Abbreviation remove_wire := (CircuitModel.remove_wire wire_eq).
Local Abbreviation remove_component := (CircuitModel.remove_component pin_eq wire_eq).

Lemma detach_heaps wire pin st :
  comp_heap (detach wire_eq wire pin st) = comp_heap st
  /\ wire_heap (detach wire_eq wire pin st) = wire_heap st.
Proof. unfold detach. by case_match. Qed.

(** [remove_wire] drops the key from the wire map and leaves the
    components and the wire objects as they are. *)
Lemma remove_wire_spec (self : Circuit.t) (wire_id : str) (st : Store) :
  let r := remove_wire self wire_id st in
  Circuit.wires (fst r) = PyDict.del wire_id (Circuit.wires self)
  /\ Circuit.components (fst r) = Circuit.components self
  /\ comp_heap (snd r) = comp_heap st
  /\ wire_heap (snd r) = wire_heap st.
Proof.
  unfold CircuitModel.remove_wire.
  destruct (PyDict.get wire_id (Circuit.wires self)) as [wire|] eqn:Hg; simpl.
  - split_and!; try done.
    + destruct (detach_heaps wire (Wire.end_pin (wire_at
        (detach wire_eq wire (Wire.start_pin (wire_at st wire)) st) wire))
        (detach wire_eq wire (Wire.start_pin (wire_at st wire)) st)) as [-> _].
      by destruct (detach_heaps wire (Wire.start_pin (wire_at st wire)) st) as [-> _].
    + destruct (detach_heaps wire (Wire.end_pin (wire_at
        (detach wire_eq wire (Wire.start_pin (wire_at st wire)) st) wire))
        (detach wire_eq wire (Wire.start_pin (wire_at st wire)) st)) as [_ ->].
      by destruct (detach_heaps wire (Wire.start_pin (wire_at st wire)) st) as [_ ->].
  - by rewrite del_absent.
Qed.

Lemma remove_wires_spec (ids : list str) (self : Circuit.t) (st : Store) :
  let r := fold_left (fun acc wire_id => remove_wire (fst acc) wire_id (snd acc))
                     ids (self, st) in
  Circuit.wires (fst r) = fold_left (fun d k => PyDict.del k d) ids (Circuit.wires self)
  /\ Circuit.components (fst r) = Circuit.components self
  /\ comp_heap (snd r) = comp_heap st
  /\ wire_heap (snd r) = wire_heap st.
Proof.
  revert self st. induction ids as [|k ids IH]; intros self st; simpl; [done|].
  destruct (remove_wire_spec self k st) as (Hw & Hc & Hch & Hwh).
  destruct (remove_wire self k st) as [self' st'] eqn:E. simpl in *.
  destruct (IH self' st') as (Hw' & Hc' & Hch' & Hwh').
  split_and!; congruence.
Qed.

Lemma fold_del_elem {V} (ids : list str) (d : PyDict.dict V) k v :
  NoDup (PyDict.keys d) ->
  (k, v) ∈ fold_left (fun d k => PyDict.del k d) ids d ->
  (k, v) ∈ d /\ k ∉ ids.
Proof.
  revert d. induction ids as [|i ids IH]; intros d Hnd; simpl.
  - intros H. split; [done|apply not_elem_of_nil].
  - intros H. destruct (IH _ (del_ok _ _ Hnd) H) as [Hin Hno].
    split; [by eapply del_elem|].
    apply not_elem_of_cons. split; [|done]. by eapply del_elem_ne.
Qed.

Lemma fold_del_ok {V} (ids : list str) (d : PyDict.dict V) :
  NoDup (PyDict.keys d) -> NoDup (PyDict.keys (fold_left (fun d k => PyDict.del k d) ids d)).
Proof.
  revert d. induction ids as [|i ids IH]; intros d Hnd; simpl; [done|].
  apply IH. by apply del_ok.
Qed.

Lemma pin_in_false st x l : pin_in pin_eq st x l = false -> x ∉ l.
Proof.
  unfold pin_in. intros H Hin.
  assert (existsb (fun v => Nat.eqb v x || pin_eq st v x) l = true); [|congruence].
  apply existsb_exists. exists x. split; [by apply list_elem_of_In|].
  by rewrite Nat.eqb_refl.
Qed.

Lemma circuit_pins_elem circuit st p :
  p ∈ circuit_pins circuit st <->
  exists k c, (k, c) ∈ Circuit.components circuit
              /\ p ∈ PyDict.values (Component.pins (comp_at st c)).
Proof.
  unfold circuit_pins. rewrite list_elem_of_In, in_flat_map. split.
  - intros (c & Hc & Hp). apply list_elem_of_In in Hc, Hp.
    destruct (values_elem _ _ Hc) as [k Hk]. by exists k, c.
  - intros (k & c & Hk & Hp). exists c. rewrite <- !list_elem_of_In.
    split; [by eapply elem_values|done].
Qed.

Lemma same_comps_pins circuit circuit' st st' :
  Circuit.components circuit' = Circuit.components circuit ->
  comp_heap st' = comp_heap st ->
  circuit_pins circuit' st' = circuit_pins circuit st.
Proof.
  intros Hc Hh. unfold circuit_pins. rewrite Hc. apply flat_map_ext.
  intros c. unfold comp_at. by rewrite Hh.
Qed.

Lemma wire_at_same st st' w : wire_heap st' = wire_heap st -> wire_at st' w = wire_at st w.
Proof. intros H. unfold wire_at. by rewrite H. Qed.

Lemma comp_at_same st st' c : comp_heap st' = comp_heap st -> comp_at st' c = comp_at st c.
Proof. intros H. unfold comp_at. by rewrite H. Qed.

Lemma remove_wire_well_formed (self : Circuit.t) (wire_id : str) (st : Store) :
  well_formed self st ->
  well_formed (fst (remove_wire self wire_id st)) (snd (remove_wire self wire_id st)).
Proof.
  intros (Hdc & Hdw & Hinv).
  destruct (remove_wire_spec self wire_id st) as (Hw & Hc & Hch & Hwh).
  unfold well_formed. split_and!.
  - by rewrite Hc.
  - rewrite Hw. by apply del_ok.
  - unfold invariant, circuit_wires in *. rewrite Forall_forall in *.
    intros w Hin. rewrite Hw in Hin. apply values_elem in Hin as [k Hk].
    apply del_elem in Hk. apply elem_values in Hk.
    unfold wire_ok. rewrite (same_comps_pins _ _ _ _ Hc Hch), (wire_at_same _ _ _ Hwh).
    by apply Hinv.
Qed.

Lemma wires_to_remove_elem self component st k w :
  (k, w) ∈ Circuit.wires self ->
  k ∉ wires_to_remove pin_eq self component st ->
  ~ touches st component w.
Proof.
  intros Hin Hno [Ht|Ht]; apply Hno; unfold wires_to_remove;
    apply (list_elem_of_fmap_2 fst _ (k, w)), list_elem_of_In, filter_In;
    (split; [by apply list_elem_of_In|]); simpl; apply orb_true_iff.
  - left. destruct (pin_in _ _ _ _) eqn:E; [done|]. by apply pin_in_false in E.
  - right. destruct (pin_in pin_eq st (Wire.end_pin _) _) eqn:E; [done|].
    by apply pin_in_false in E.
Qed.

Lemma remove_component_spec (self : Circuit.t) (component_id : str) (st : Store) :
  well_formed self st ->
  let r := remove_component self component_id st in
  well_formed (fst r) (snd r)
  /\ (forall component, PyDict.get component_id (Circuit.components self) = Some component ->
        Circuit.components (fst r) = PyDict.del component_id (Circuit.components self)
        /\ Forall (fun w => ~ touches st component w) (circuit_wires (fst r)))
  /\ comp_heap (snd r) = comp_heap st /\ wire_heap (snd r) = wire_heap st.
Proof.
  intros (Hdc & Hdw & Hinv). unfold CircuitModel.remove_component.
  destruct (PyDict.get component_id (Circuit.components self)) as [component|] eqn:Hg;
    simpl; [|done].
  destruct (remove_wires_spec (wires_to_remove pin_eq self component st) self st)
    as (Hw & Hc & Hch & Hwh).
  destruct (fold_left _ (wires_to_remove pin_eq self component st) (self, st))
    as [self' st'] eqn:E. simpl in *.
  assert (Hrem : forall w, w ∈ PyDict.values (Circuit.wires self') ->
            w ∈ PyDict.values (Circuit.wires self) /\ ~ touches st component w).
  { intros w [k Hk]%values_elem. rewrite Hw in Hk.
    apply fold_del_elem in Hk as [Hk Hno]; [|done].
    split; [by eapply elem_values|by eapply wires_to_remove_elem]. }
  split; [unfold well_formed; simpl; split_and!|split_and!; try done].
  - rewrite Hc. by apply del_ok.
  - rewrite Hw. by apply fold_del_ok.
  - unfold invariant, circuit_wires in *. simpl. rewrite Forall_forall in *.
    intros w Hin. destruct (Hrem w Hin) as [Hold Hnt].
    specialize (Hinv w Hold). unfold wire_ok in *.
    rewrite (wire_at_same _ _ _ Hwh).
    assert (Hkeep : forall p, p ∈ circuit_pins self st ->
              p ∉ PyDict.values (Component.pins (comp_at st component)) ->
              p ∈ circuit_pins (Circuit.mk (Circuit.name self')
                     (PyDict.del component_id (Circuit.components self'))
                     (Circuit.wires self') (Circuit._next_component_id self')
                     (Circuit._next_wire_id self')) st').
    { intros p (k & c & Hk & Hp)%circuit_pins_elem Hnot.
      apply circuit_pins_elem. exists k, c. simpl. rewrite Hc.
      rewrite (comp_at_same _ _ _ Hch). split; [|done].
      apply elem_del; [|done]. intros ->.
      rewrite (elem_get _ _ _ Hdc Hk) in Hg. injection Hg as ->. done. }
    split; apply Hkeep; try apply Hinv; intros Hp; apply Hnt; [by left|by right].
  - intros c [= <-]. split; [by rewrite Hc|].
    unfold circuit_wires. simpl. rewrite Forall_forall. intros w Hin. by apply Hrem.
Qed.

Lemma add_component_spec (self : Circuit.t) (component : comp_ref) (st : Store) :
  well_formed self st ->
  let r := add_component self component st in
  PyDict.get (fst (fst r)) (Circuit.components self) = None ->
  well_formed (snd (fst r)) (snd r).
Proof.
  intros (Hdc & Hdw & Hinv). unfold add_component.
  set (r0 := match Component.id (comp_at st component) with
             | [] => _ | _ :: _ => _ end).
  assert (H0 : Circuit.components (fst r0) = Circuit.components self
               /\ Circuit.wires (fst r0) = Circuit.wires self
               /\ wire_heap (snd r0) = wire_heap st
               /\ forall c, Component.pins (comp_at (snd r0) c) = Component.pins (comp_at st c)).
  { subst r0. destruct (Component.id (comp_at st component)); simpl; [|done].
    split_and!; try done. intros c.
    rewrite comp_at_update_comp, comp_at_alt.
    destruct (comp_heap st !! c); [|done]. by case_decide. }
  destruct r0 as [self0 st0]. simpl in *. destruct H0 as (Hc & Hw & Hwh & Hp).
  intros Hfresh. unfold well_formed. split_and!; simpl.
  - rewrite Hc. by apply set_ok.
  - by rewrite Hw.
  - unfold invariant, circuit_wires in *. simpl. rewrite Forall_forall in *.
    rewrite Hw. intros w Hin. specialize (Hinv w Hin). unfold wire_ok in *.
    rewrite (wire_at_same _ _ _ Hwh).
    assert (Hkeep : forall p, p ∈ circuit_pins self st ->
              p ∈ circuit_pins (Circuit.mk (Circuit.name self0)
                     (PyDict.set (Component.id (comp_at st0 component)) component
                                 (Circuit.components self0))
                     (Circuit.wires self0) (Circuit._next_component_id self0)
                     (Circuit._next_wire_id self0)) st0).
    { intros p (k & c & Hk & Hpin)%circuit_pins_elem.
      apply circuit_pins_elem. exists k, c. simpl. rewrite Hc, Hp. split; [|done].
      rewrite set_absent by done. apply elem_of_app. by left. }
    split; apply Hkeep; apply Hinv.
Qed.

Lemma add_wire_spec (self : Circuit.t) (wire : wire_ref) (st : Store) :
  well_formed self st ->
  wire_ok self st wire ->
  let r := add_wire self wire st in
  well_formed (snd (fst r)) (snd r).
Proof.
  intros (Hdc & Hdw & Hinv) Hok. unfold add_wire.
  set (r0 := match Wire.wire_id (wire_at st wire) with
             | [] => _ | _ :: _ => _ end).
  assert (H0 : Circuit.components (fst r0) = Circuit.components self
               /\ Circuit.wires (fst r0) = Circuit.wires self
               /\ comp_heap (snd r0) = comp_heap st
               /\ (forall w, Wire.start_pin (wire_at (snd r0) w) = Wire.start_pin (wire_at st w))
               /\ (forall w, Wire.end_pin (wire_at (snd r0) w) = Wire.end_pin (wire_at st w))).
  { subst r0. destruct (Wire.wire_id (wire_at st wire)); simpl; [|done].
    split_and!; try done; intros w; rewrite wire_at_update_wire, wire_at_alt;
      (destruct (wire_heap st !! w); [|done]); by case_decide. }
  destruct r0 as [self0 st0]. simpl in *. destruct H0 as (Hc & Hw & Hch & Hstart & Hend).
  unfold well_formed. split_and!; simpl.
  - by rewrite Hc.
  - rewrite Hw. by apply set_ok.
  - unfold invariant, circuit_wires in *. simpl. rewrite Forall_forall in *.
    assert (Hpins : forall c, circuit_pins
              (Circuit.mk (Circuit.name self0) (Circuit.components self0)
                 (PyDict.set (Wire.wire_id (wire_at st0 wire)) wire (Circuit.wires self0))
                 (Circuit._next_component_id self0) (Circuit._next_wire_id self0)) c
              = circuit_pins self0 c) by done.
    intros w [k Hk]%values_elem. rewrite Hw in Hk.
    assert (Hold : wire_ok self st w).
    { apply set_elem in Hk as [[_ ->]|Hk]; [done|]. apply Hinv. by eapply elem_values. }
    unfold wire_ok in *.
    set (st1 := update_pin _ _ (update_pin _ _ st0)).
    assert (Hst1 : comp_heap st1 = comp_heap st /\ wire_heap st1 = wire_heap st0) by done.
    destruct Hst1 as [Hc1 Hw1].
    rewrite (wire_at_same _ _ _ Hw1).
    rewrite Hstart, Hend.
    rewrite Hpins, (same_comps_pins self self0 st st1 Hc Hc1). done.
Qed.

(** C4, as amended. With [well_formed] the invariant of the data model
    (every pin referenced by a wire of the circuit belongs to a listed
    component) together with the uniqueness of dictionary keys:
    [remove_component], [remove_wire] and [clear] preserve it;
    [remove_component] leaves no wire touching a pin of the component
    removed; both removals leave the circuit and the store unchanged on
    an unknown id; [add_component] preserves it when no component is
    yet stored under the id it ends up with; [add_wire] preserves it
    when both ends of the wire are pins of listed components. *)
Theorem circuit_invariant_preserved (circuit : Circuit.t) (st : Store) :
  well_formed circuit st ->
  (forall component_id,
     let r := remove_component circuit component_id st in
     well_formed (fst r) (snd r)
     /\ (forall component,
           PyDict.get component_id (Circuit.components circuit) = Some component ->
           Circuit.components (fst r) = PyDict.del component_id (Circuit.components circuit)
           /\ Forall (fun w => ~ touches st component w) (circuit_wires (fst r)))
     /\ (PyDict.get component_id (Circuit.components circuit) = None ->
         r = (circuit, st)))
  /\ (forall wire_id,
        let r := remove_wire circuit wire_id st in
        well_formed (fst r) (snd r)
        /\ (PyDict.get wire_id (Circuit.wires circuit) = None -> r = (circuit, st)))
  /\ well_formed (clear circuit) st
  /\ (forall component,
        let r := add_component circuit component st in
        PyDict.get (fst (fst r)) (Circuit.components circuit) = None ->
        well_formed (snd (fst r)) (snd r))
  /\ (forall wire,
        wire_ok circuit st wire ->
        let r := add_wire circuit wire st in
        well_formed (snd (fst r)) (snd r)).
Proof.
  intros Hwf. split_and!.
  - intros component_id r.
    destruct (remove_component_spec circuit component_id st Hwf) as (H1 & H2 & _).
    split_and!; [done|done|].
    intros Hg. subst r. unfold CircuitModel.remove_component. by rewrite Hg.
  - intros wire_id r. split; [by apply remove_wire_well_formed|].
    intros Hg. subst r. unfold CircuitModel.remove_wire. by rewrite Hg.
  - unfold well_formed, dict_ok, invariant, circuit_wires, clear. simpl.
    split_and!; constructor.
  - intros component. by apply add_component_spec.
  - intros wire Hok. by apply add_wire_spec.
Qed.
End Methods.

End CircuitFacts.

Module CircuitExamples.
Import PyStr CircuitModel CircuitSpec InvariantSpec InvariantScenarios CircuitFacts.

Ltac decide_it :=
  unfold well_formed, dict_ok, invariant, wire_ok, touches;
  lazymatch goal with
  | |- ?P => apply (bool_decide_unpack P); vm_compute; exact I
  end.

(** C4 as stated fails for [add_wire]: the empty circuit satisfies the
    invariant, and adding a wire between the pins of two components
    that are not in the circuit is accepted and breaks it. *)
Lemma add_wire_breaks_invariant :
  let circuit := fst (fst foreign_wire) in
  let wire := snd (fst foreign_wire) in
  let st := snd foreign_wire in
  let r := add_wire circuit wire st in
  well_formed circuit st
  /\ circuit_wires (snd (fst r)) = [wire]
  /\ circuit_pins (snd (fst r)) (snd r) = []
  /\ ~ invariant (snd (fst r)) (snd r).
Proof.
  intros circuit wire st r. split_and!.
  - decide_it.
  - reflexivity.
  - reflexivity.
  - decide_it.
Qed.

Lemma circuit_invariant_preserved_witness :
  let circuit := fst switch_and_led in
  let st := snd switch_and_led in
  let same := fun (_ : Store) (_ _ : nat) => false in
  let r := remove_component same same circuit (py "s1") st in
  well_formed circuit st
  /\ well_formed (fst r) (snd r)
  /\ Forall (fun w => ~ touches st 0 w) (circuit_wires (fst r)).
Proof.
  intros circuit st same r.
  assert (Hwf : well_formed circuit st) by decide_it.
  destruct (circuit_invariant_preserved same same circuit st Hwf) as (Hrc & _).
  destruct (Hrc (py "s1")) as (H1 & H2 & _).
  split_and!; [exact Hwf|exact H1|].
  destruct (H2 0 eq_refl) as [_ H3]. exact H3.
Defined.

End CircuitExamples.

Module SynthFacts.
Import PyStr CircuitModel Components CircuitFromForm SynthSpec.
Import SimulationEngine EngineSpec StepFacts.

Lemma wire_term_inputs_take gate input_switches not_gates guarded i term s :
  wire_term_inputs gate input_switches not_gates guarded i term s
  = wire_term_inputs gate input_switches not_gates guarded i (take (2 - i) term) s.
Proof.
  revert i s. induction term as [|[var is_positive] rest IH]; intros i s.
  - by rewrite take_nil.
  - destruct (Nat.leb_spec 2 i) as [Hle|Hlt].
    + replace (2 - i) with 0 by lia.
      cbn [wire_term_inputs take].
      destruct (Nat.leb_spec 2 i); [done|lia].
    + replace (2 - i) with (S (2 - S i)) by lia.
      cbn [wire_term_inputs take].
      destruct (Nat.leb_spec 2 i); [lia|].
      unfold bind, Build_bind.
      destruct (item _ var s) as [[c|] s1]; [|done].
      destruct (pin_of c (py "out") s1) as [[a|] s2]; [|done].
      destruct (pin_of gate (indexed "in" i) s2) as [[b|] s3]; [|done].
      match goal with
      | |- context [match ?f s3 with _ => _ end] =>
          destruct (f s3) as [[[]|] s4]; [|done]
      end.
      apply IH.
Qed.

Lemma step_store (max : Z) (self : SimulationEngine.t) (circuit : Circuit.t) (st : Store) :
  snd (step max self circuit st)
  = step_with (passes_run (Z.to_nat max) circuit (_propagate_signals circuit st))
              circuit st.
Proof. by rewrite step_eq. Qed.

Lemma passes_run_stable_at n circuit st :
  pass_changed circuit st = false -> passes_run (S n) circuit st = 1.
Proof. simpl. by intros ->. Qed.

Lemma passes_run_second n circuit st :
  pass_changed circuit st = true ->
  pass_changed circuit (full_pass circuit st) = false ->
  passes_run (S (S n)) circuit st = 2.
Proof. intros H1 H2. simpl. by rewrite H1, H2. Qed.

Lemma passes_run_single circuit st : passes_run 1 circuit st = 1.
Proof. simpl. by destruct (pass_changed circuit st). Qed.

(** The first step needs two passes when the bound allows them; the
    second pass changes nothing. *)
Lemma and_circuit_step_1 max self :
  (1 <= max)%Z -> snd (step max self and_net and_circuit_on) = and_circuit_1.
Proof.
  intros Hmax. rewrite step_store.
  destruct (Z.to_nat max) as [|[|n]] eqn:Hn; [lia| |].
  - rewrite passes_run_single. vm_compute. reflexivity.
  - rewrite passes_run_second by (vm_compute; reflexivity).
    vm_compute. reflexivity.
Qed.

Lemma and_circuit_step_2 max self :
  (1 <= max)%Z -> snd (step max self and_net and_circuit_1) = and_circuit_2.
Proof.
  intros Hmax. rewrite step_store.
  destruct (Z.to_nat max) as [|n] eqn:Hn; [lia|].
  rewrite passes_run_stable_at by (vm_compute; reflexivity).
  vm_compute. reflexivity.
Qed.

(** From the second step on nothing moves. *)
Lemma and_circuit_step_3 max self :
  (1 <= max)%Z -> snd (step max self and_net and_circuit_2) = and_circuit_2.
Proof.
  intros Hmax. rewrite step_store.
  destruct (Z.to_nat max) as [|n] eqn:Hn; [lia|].
  rewrite passes_run_stable_at by (vm_compute; reflexivity).
  vm_compute. reflexivity.
Qed.

Lemma and_circuit_settled max n self :
  (1 <= max)%Z -> snd (steps max n self and_net and_circuit_2) = and_circuit_2.
Proof.
  intros Hmax. revert self. induction n as [|n IH]; intros self; [done|].
  cbn [steps]. rewrite and_circuit_step_3 by done. apply IH.
Qed.

Lemma and_circuit_steps max n self :
  (1 <= max)%Z -> 2 <= n ->
  snd (steps max n self and_net and_circuit_on) = and_circuit_2.
Proof.
  intros Hmax Hn. destruct n as [|[|n]]; [lia..|].
  cbn [steps]. rewrite and_circuit_step_1 by done.
  rewrite and_circuit_step_2 by done. by apply and_circuit_settled.
Qed.

(** C6. Synthesis of [(A&B)] over the variables [A], [B] into a fresh
    circuit succeeds and yields exactly, in this order, the switches
    [A] and [B], a NOT gate for each variable, one AND gate and one
    LED, with exactly five wires: each switch to the input of its NOT
    gate, the two switches to the two inputs of the AND gate, the AND
    gate to the LED. With both switches closed, the LED is lit after
    two calls of [step] and stays lit at every later call (the
    iteration bound of the engine being at least 1). And for any term,
    only its first two literals are wired to its AND gate: the gate is
    built exactly as for the term cut after its second literal. *)
Theorem synthesize_and (max : Z) :
  (1 <= max)%Z ->
  let circuit := and_net in
  let st := snd (snd and_circuit) in
  fst and_circuit = true
  /\ parts circuit st
     = [ (py "A", Switch false); (py "B", Switch false);
         (py "NOT_A", NOTGate 1); (py "NOT_B", NOTGate 1);
         (py "AND1", ANDGate 2); (py "Output", LED false) ]
  /\ netlist circuit st
     = [ (at_pin "A" "out", at_pin "NOT_A" "in0");
         (at_pin "B" "out", at_pin "NOT_B" "in0");
         (at_pin "A" "out", at_pin "AND1" "in0");
         (at_pin "B" "out", at_pin "AND1" "in1");
         (at_pin "AND1" "out", at_pin "Output" "in") ]
  /\ parts circuit and_circuit_on
     = [ (py "A", Switch true); (py "B", Switch true);
         (py "NOT_A", NOTGate 1); (py "NOT_B", NOTGate 1);
         (py "AND1", ANDGate 2); (py "Output", LED false) ]
  /\ (forall n, 2 <= n ->
        parts circuit (snd (steps max n SimulationEngine.new circuit and_circuit_on))
        = [ (py "A", Switch true); (py "B", Switch true);
            (py "NOT_A", NOTGate 1); (py "NOT_B", NOTGate 1);
            (py "AND1", ANDGate 2); (py "Output", LED true) ])
  /\ (forall term variables input_switches not_gates term_index s,
        _create_term_and_gate term variables input_switches not_gates term_index s
        = _create_term_and_gate (take 2 term) variables input_switches not_gates
                                term_index s).
Proof.
  intros Hmax circuit st. split_and!.
  - vm_compute. reflexivity.
  - vm_compute. reflexivity.
  - vm_compute. reflexivity.
  - vm_compute. reflexivity.
  - intros n Hn. subst circuit. rewrite and_circuit_steps by done.
    vm_compute. reflexivity.
  - intros term variables input_switches not_gates term_index s.
    unfold _create_term_and_gate, bind, Build_bind.
    destruct (create_and_add "and" _ s) as [[g|] s1]; [|done].
    by rewrite wire_term_inputs_take.
Qed.

Lemma synthesize_and_witness :
  (1 <= 100)%Z
  /\ fst and_circuit = true
  /\ parts and_net
       (snd (steps 100 2 SimulationEngine.new and_net and_circuit_on))
     = [ (py "A", Switch true); (py "B", Switch true);
         (py "NOT_A", NOTGate 1); (py "NOT_B", NOTGate 1);
         (py "AND1", ANDGate 2); (py "Output", LED true) ].
Proof.
  assert (H : (1 <= 100)%Z) by lia.
  split; [exact H|].
  destruct (synthesize_and 100 H) as (Hok & _ & _ & _ & Hlit & _).
  split; [exact Hok|]. apply Hlit. lia.
Defined.

(** After a single call of [step] the LED is still dark: the value of
    the AND gate reaches the LED's pin only at the end of the second
    call. *)
Example and_circuit_one_step :
  parts and_net
        (snd (step 100 SimulationEngine.new and_net and_circuit_on))
  = [ (py "A", Switch true); (py "B", Switch true);
      (py "NOT_A", NOTGate 1); (py "NOT_B", NOTGate 1);
      (py "AND1", ANDGate 2); (py "Output", LED false) ].
Proof. rewrite and_circuit_step_1 by lia. vm_compute. reflexivity. Qed.

End SynthFacts.

(** ** The normal forms

    [mapM] on [result]. *)
Module ResultFacts.
Import BooleanAlgebra.

Lemma mapM_ret {A B} (f : A -> result B) (g : A -> B) (l : list A) :
  (forall a, a ∈ l -> f a = Ret (g a)) -> mapM f l = Ret (map g l).
Proof.
  induction l as [|a l IH]; intros H; simpl; [done|].
  rewrite (H a) by left. simpl.
  rewrite IH by (intros; apply H; by right). done.
Qed.

Lemma mapM_inv {A B} (f : A -> result B) (l : list A) (rs : list B) :
  mapM f l = Ret rs -> Forall2 (fun a r => f a = Ret r) l rs.
Proof.
  revert rs. induction l as [|a l IH]; intros rs; simpl.
  - intros [= <-]. constructor.
  - destruct (f a) as [b| |] eqn:Ha; simpl; [|done..].
    destruct (mapM f l) as [bs| |]; simpl; [|done..].
    intros [= <-]. constructor; [done|by apply IH].
Qed.

End ResultFacts.

Module TableFacts.
Import PyStr BooleanAlgebra FormsSpec DictFacts ResultFacts.

Lemma mem_set {V} k k' (v : V) d :
  PyDict.mem k (PyDict.set k' v d) = eqb k k' || PyDict.mem k d.
Proof.
  unfold PyDict.mem. induction d as [|[k0 v0] d IH]; simpl.
  - by destruct (eqb k k').
  - destruct (eqb k' k0) eqn:E; simpl.
    + apply eqb_eq in E as ->. by destruct (eqb k k0).
    + destruct (eqb k k0) eqn:E0; simpl; [by rewrite orb_true_r|done].
Qed.

Lemma mem_fold_set {V} k (l : list (str * V)) d :
  PyDict.mem k (fold_left (fun d kv => PyDict.set (fst kv) (snd kv) d) l d)
  = existsb (fun kv => eqb k (fst kv)) l || PyDict.mem k d.
Proof.
  revert d. induction l as [|[k0 v0] l IH]; intros d; simpl; [done|].
  rewrite IH, mem_set. simpl. by destruct (eqb k k0), (existsb _ l).
Qed.

Lemma mem_of_pairs {V} k (l : list (str * V)) :
  k ∈ map fst l -> PyDict.mem k (PyDict.of_pairs l) = true.
Proof.
  intros ([k' v] & -> & Hin)%list_elem_of_fmap. unfold PyDict.of_pairs.
  rewrite mem_fold_set. apply orb_true_intro. left.
  apply existsb_exists. exists (k', v). split; [by apply list_elem_of_In|].
  apply eqb_refl.
Qed.

Lemma fst_combine {A B} (l : list A) (k : list B) :
  length l <= length k -> map fst (combine l k) = l.
Proof.
  revert k. induction l as [|a l IH]; intros [|b k] Hlen; simpl in *; [done|done|lia|].
  rewrite IH by lia. done.
Qed.

Lemma product_length n comb : comb ∈ product n -> length comb = n.
Proof.
  revert comb. induction n as [|n IH]; intros comb; simpl.
  - by intros ->%list_elem_of_singleton.
  - intros [H|H]%elem_of_app; apply list_elem_of_fmap in H as (c & -> & Hc);
      simpl; by rewrite (IH c).
Qed.

Lemma lookup_input_value row var :
  PyDict.mem var (inputs row) = true -> lookup_input row var = Ret (value row var).
Proof.
  unfold PyDict.mem, lookup_input, value.
  by destruct (PyDict.get var (inputs row)).
Qed.

Section Generated.
Variable uni_isalpha : char -> bool.
Variable uni_isalnum : char -> bool.

(** What [generate_truth_table] returns: one row per combination, in
    the order of [product]. *)
Lemma generate_truth_table_inv expression tt :
  generate_truth_table uni_isalpha uni_isalnum expression = Ret tt ->
  let bool_expr := BooleanExpression.new uni_isalpha expression in
  TruthTable.variables tt = BooleanExpression.variables bool_expr
  /\ TruthTable.variables tt <> []
  /\ Forall2 (fun combination row =>
                inputs row = PyDict.of_pairs (combine (TruthTable.variables tt) combination)
                /\ BooleanExpression.evaluate uni_isalnum bool_expr (inputs row)
                   = Ret (output row))
             (product (length (TruthTable.variables tt))) (TruthTable.rows tt).
Proof.
  intros H. cbv zeta. unfold generate_truth_table in H. cbv zeta in H.
  set (bool_expr := BooleanExpression.new uni_isalpha expression) in *.
  destruct (BooleanExpression.variables bool_expr) as [|v vs] eqn:Hv; [done|].
  match type of H with
  | bind ?m _ = _ => destruct m as [rows| |] eqn:Hrows; simpl in H; [|done..]
  end.
  injection H as <-. simpl. split_and!; [done..|].
  apply mapM_inv in Hrows. eapply Forall2_impl; [exact Hrows|].
  intros combination row. simpl.
  destruct (BooleanExpression.evaluate _ _ _) as [o| |] eqn:Ho; simpl; [|done..].
  intros [= <-]. simpl. done.
Qed.

Lemma generated_rows_defined expression tt :
  generate_truth_table uni_isalpha uni_isalnum expression = Ret tt ->
  defined_rows tt = true.
Proof.
  intros (_ & _ & Hrows)%generate_truth_table_inv.
  unfold defined_rows. apply forallb_forall. intros row Hrow%list_elem_of_In.
  apply forallb_forall. intros var Hvar%list_elem_of_In.
  apply list_elem_of_lookup in Hrow as [i Hi].
  destruct (Forall2_lookup_r _ _ _ _ _ Hrows Hi) as (comb & Hc & Hin & _).
  rewrite Hin. apply mem_of_pairs.
  rewrite fst_combine; [done|].
  apply list_elem_of_lookup_2, product_length in Hc. lia.
Qed.

End Generated.

Lemma calculate_pdnf_spec tt :
  defined_rows tt = true -> calculate_pdnf tt = Ret (pdnf_spec tt).
Proof.
  intros Hdef. unfold calculate_pdnf, pdnf_spec, TruthTable.get_minterms.
  assert (Hsub : forall row, row ∈ List.filter (fun row => output row) (TruthTable.rows tt) ->
                             row ∈ TruthTable.rows tt).
  { intros row H%list_elem_of_In%filter_In. apply list_elem_of_In, H. }
  destruct (List.filter _ _) as [|r rs]; [done|].
  rewrite (mapM_ret _ (and_term (TruthTable.variables tt))); [done|].
  intros row Hrow%Hsub.
  rewrite (mapM_ret _ (fun var => if value row var then var else py "!" ++ var)); [done|].
  intros var Hvar. rewrite lookup_input_value; [done|].
  unfold defined_rows in Hdef.
  eapply forallb_forall in Hdef; [|by apply list_elem_of_In].
  eapply forallb_forall in Hdef; [done|by apply list_elem_of_In].
Qed.

Lemma calculate_pcnf_spec tt :
  defined_rows tt = true -> calculate_pcnf tt = Ret (pcnf_spec tt).
Proof.
  intros Hdef. unfold calculate_pcnf, pcnf_spec, TruthTable.get_maxterms.
  assert (Hsub : forall row,
             row ∈ List.filter (fun row => negb (output row)) (TruthTable.rows tt) ->
             row ∈ TruthTable.rows tt).
  { intros row H%list_elem_of_In%filter_In. apply list_elem_of_In, H. }
  destruct (List.filter _ _) as [|r rs]; [done|].
  rewrite (mapM_ret _ (or_clause (TruthTable.variables tt))); [done|].
  intros row Hrow%Hsub.
  rewrite (mapM_ret _ (fun var => if value row var then py "!" ++ var else var)); [done|].
  intros var Hvar. rewrite lookup_input_value; [done|].
  unfold defined_rows in Hdef.
  eapply forallb_forall in Hdef; [|by apply list_elem_of_In].
  eapply forallb_forall in Hdef; [done|by apply list_elem_of_In].
Qed.

(** C7 (amended). For every truth table whose rows give a value to
    every variable, as every generated table does, the PDNF string is
    the join, with the OR sign between two spaces, of one parenthesised
    AND-term per row whose output is true, each variable un-negated if
    true in that row and prefixed with [!] otherwise, and the constant
    [0] when no row is true; dually the PCNF string joins, with the AND
    sign between two spaces, one OR-clause per row whose output is
    false, and is [1] when there is none. For [A&B] this gives the PDNF
    [(A&B)] and the PCNF [(A|B) & (A|!B) & (!A|B)]. *)
Theorem normal_forms_spec (uni_isalpha uni_isalnum : char -> bool) :
  (forall tt, defined_rows tt = true ->
     calculate_pdnf tt = Ret (pdnf_spec tt) /\ calculate_pcnf tt = Ret (pcnf_spec tt))
  /\ (forall expression tt,
        generate_truth_table uni_isalpha uni_isalnum expression = Ret tt ->
        defined_rows tt = true)
  /\ (exists a,
        analyze_boolean_function uni_isalpha uni_isalnum (py "A&B") = Ret a
        /\ pdnf a = py "(A&B)"
        /\ pcnf a = py "(A|B) & (A|!B) & (!A|B)").
Proof.
  split_and!.
  - intros tt Hdef. split; [by apply calculate_pdnf_spec|by apply calculate_pcnf_spec].
  - apply generated_rows_defined.
  - eexists. split_and!; [vm_compute; reflexivity|vm_compute; reflexivity..].
Qed.

End TableFacts.

Module FormsExamples.
Import PyStr BooleanAlgebra FormsSpec.
Local Open Scope string_scope.

(** C7 as stated fails on its example: the clauses of the PCNF string
    of [A&B] are joined by the AND sign between two spaces. *)
Lemma pcnf_of_and_has_spaces :
  calculate_pcnf (table_AB false false false true)
  = Ret (py "(A|B) & (A|!B) & (!A|B)")
  /\ ~ (forall uni_isalpha uni_isalnum : char -> bool,
          exists a,
            analyze_boolean_function uni_isalpha uni_isalnum (py "A&B") = Ret a
            /\ pdnf a = py "(A&B)"
            /\ pcnf a = py "(A|B)&(A|!B)&(!A|B)").
Proof.
  split; [vm_compute; reflexivity|].
  intros H. destruct (H (fun _ => false) (fun _ => false)) as (a & Ha & _ & Hpcnf).
  vm_compute in Ha. injection Ha as <-.
  vm_compute in Hpcnf. discriminate Hpcnf.
Qed.

Lemma normal_forms_spec_witness :
  defined_rows (table_AB false false false true) = true
  /\ calculate_pdnf (table_AB false false false true) = Ret (py "(A&B)")
  /\ calculate_pcnf (table_AB false false false true)
     = Ret (py "(A|B) & (A|!B) & (!A|B)").
Proof.
  assert (H : defined_rows (table_AB false false false true) = true) by reflexivity.
  split; [exact H|].
  destruct (TableFacts.normal_forms_spec (fun _ => false) (fun _ => false))
    as (Hgen & _ & _).
  destruct (Hgen _ H) as [Hd Hc]. split.
  - rewrite Hd. vm_compute. reflexivity.
  - rewrite Hc. vm_compute. reflexivity.
Defined.

(** C1. For [A&B] the table is as expected, but the polynomial returned
    is [0]: the triangle is built for [|V|] rounds only, so that just
    the coefficients of index 0 to [|V|] are read. Evaluated as the XOR
    of its monomials at [A = B = true], it gives false where the table
    has true. *)
Theorem zhegalkin_of_and (uni_isalpha uni_isalnum : char -> bool) :
  exists a,
    analyze_boolean_function uni_isalpha uni_isalnum (py "A&B") = Ret a
    /\ variables a = [py "A"; py "B"]
    /\ truth_table a
       = map to_dict (TruthTable.rows (table_AB false false false true))
    /\ zhegalkin a = py "0"
    /\ zhegalkin a <> py "A&B"
    /\ eval_polynomial [(py "A", true); (py "B", true)] (zhegalkin a) = false
    /\ eval_polynomial [(py "A", true); (py "B", true)] (py "A&B") = true.
Proof.
  eexists. split_and!; [vm_compute; reflexivity| try (vm_compute; reflexivity)..].
  vm_compute. discriminate.
Qed.

(** The function [B] of the variables [A], [B]: the polynomial returned
    is [A], the bits of a monomial index being read in the order
    opposite to the one of the rows. *)
Example zhegalkin_of_second_variable (uni_isalpha uni_isalnum : char -> bool) :
  generate_truth_table uni_isalpha uni_isalnum (py "B|A&!A")
  = Ret (table_AB false true false true)
  /\ calculate_zhegalkin (table_AB false true false true) = Ret (py "A").
Proof. split; vm_compute; reflexivity. Qed.

(** C8. What [_normalize] makes of an operator between [A] and [B], for
    every spelling of the tables: the spellings [=], [<->], [<=>],
    [xor], [XOR], [nand], [NAND], [nor], [NOR] do not reach their
    canonical token ([->] and [=>] are replaced before [<->] and [<=>],
    [and] and [or] before [nand], [nor] and [xor], and the one-character
    spelling [=] is skipped). The table generated for [A=B] has the
    single variable [A=B], not the four rows of [A≡B]; for [A xor B],
    [A nand B], [A nor B] generation raises. *)
Theorem normalize_spellings (uni_isalpha uni_isalnum : char -> bool) :
  let norm := fun s => BooleanExpression._normalize (py s) in
  let table := fun s => generate_truth_table uni_isalpha uni_isalnum (py s) in
  (* spellings that reach the canonical token *)
  map norm ["A and B"; "A AND B"; "A*B"; "A•B"; "A∧B"]
    = map py ["A & B"; "A & B"; "A&B"; "A&B"; "A&B"]
  /\ map norm ["A or B"; "A OR B"; "A+B"; "A∨B"]
    = map py ["A | B"; "A | B"; "A|B"; "A|B"]
  /\ map norm ["not A"; "NOT A"; "~A"; "¬A"]
    = map py ["! A"; "! A"; "!A"; "!A"]
  /\ map norm ["A->B"; "A=>B"; "A impl B"; "A IMPL B"]
    = map py ["A→B"; "A→B"; "A → B"; "A → B"]
  /\ map norm ["A eq B"; "A EQ B"; "A ⊕ B"]
    = map py ["A ≡ B"; "A ≡ B"; "A ^ B"]
  (* spellings that do not *)
  /\ map norm ["A=B"; "A<->B"; "A<=>B"]
    = map py ["A=B"; "A<→B"; "A<→B"]
  /\ map norm ["A xor B"; "A XOR B"; "A nand B"; "A NAND B"; "A nor B"; "A NOR B"]
    = map py ["A x| B"; "A X| B"; "A n& B"; "A N& B"; "A n| B"; "A N| B"]
  (* and what evaluation gives *)
  /\ table "A≡B" = Ret (table_AB true false false true)
  /\ table "A=B"
     = Ret {| TruthTable.variables := [py "A=B"];
              TruthTable.rows :=
                [ {| inputs := [(py "A=B", false)]; output := false |};
                  {| inputs := [(py "A=B", true)]; output := true |} ] |}
  /\ table "A ^ B" = Ret (table_AB false true true false)
  /\ table "A xor B" = Raises
  /\ table "A↑B" = Ret (table_AB true true true false)
  /\ table "A nand B" = Raises
  /\ table "A↓B" = Ret (table_AB true false false false)
  /\ table "A nor B" = Raises.
Proof. intros norm table. split_and!; vm_compute; reflexivity. Qed.

End FormsExamples.

(** ** Re-evaluation of the normal forms

    [contains], [replace] and [strip]. *)
Module StrFacts.
Import PyStr.

Implicit Types (s t p old new : str) (c x : char).

Lemma startswith_nil s : startswith [] s = true.
Proof. by destruct s. Qed.

Lemma startswith_cons x p y s :
  startswith (x :: p) (y :: s) = (x =? y)%N && startswith p s.
Proof. done. Qed.

Lemma startswith_empty p : startswith p [] = true -> p = [].
Proof. by destruct p. Qed.

Lemma startswith_app p s t : startswith p s = true -> startswith p (s ++ t) = true.
Proof.
  revert s. induction p as [|x p IH]; intros [|y s]; simpl; try done.
  intros [-> H]%andb_true_iff. by rewrite IH.
Qed.

Lemma startswith_In p s x : startswith p s = true -> In x p -> In x s.
Proof.
  revert s. induction p as [|y p IH]; intros [|z s]; simpl; try done.
  intros [Hyz H]%andb_true_iff [->|Hin].
  - apply N.eqb_eq in Hyz. by left.
  - right. by apply IH.
Qed.

Lemma contains_cons p x s :
  contains p (x :: s) = startswith p (x :: s) || contains p s.
Proof. done. Qed.

Lemma contains_nil p : p <> [] -> contains p [] = false.
Proof. by destruct p. Qed.

Lemma contains_tail p x s : contains p s = true -> contains p (x :: s) = true.
Proof. intros H. rewrite contains_cons, H. apply orb_true_r. Qed.

Lemma contains_drop p n s : contains p (drop n s) = true -> contains p s = true.
Proof.
  revert n. induction s as [|x s IH]; intros [|n]; simpl drop; try done.
  intros H. apply contains_tail. by apply (IH n).
Qed.

Lemma contains_app_r p s t : contains p t = true -> contains p (s ++ t) = true.
Proof. intros H. induction s as [|x s IH]; [done|]. by apply contains_tail. Qed.

Lemma contains_app_l p s t : contains p s = true -> contains p (s ++ t) = true.
Proof.
  induction s as [|x s IH].
  - simpl. rewrite orb_false_r. intros ->%startswith_empty.
    destruct t; simpl; done.
  - rewrite <- app_comm_cons, !contains_cons.
    intros [H|H]%orb_true_iff.
    + apply orb_true_intro. left. exact (startswith_app p (x :: s) t H).
    + rewrite IH by done. apply orb_true_r.
Qed.

(** A pattern found in a factor of [s] is found in [s]. *)
Lemma contains_factor p pre v post :
  contains p v = true -> contains p (pre ++ v ++ post) = true.
Proof. intros H. by apply contains_app_r, contains_app_l. Qed.

Lemma contains_In p s x : contains p s = true -> In x p -> In x s.
Proof.
  induction s as [|y s IH].
  - simpl. rewrite orb_false_r. by intros ->%startswith_empty.
  - rewrite contains_cons. intros [H|H]%orb_true_iff Hin.
    + by apply (startswith_In p).
    + right. by apply IH.
Qed.

(** A pattern with a character that [s] does not have is not in [s]. *)
Lemma contains_foreign p s x :
  In x p -> ~ In x s -> contains p s = false.
Proof.
  intros Hp Hs. destruct (contains p s) eqn:E; [|done].
  destruct Hs. by apply (contains_In p).
Qed.

(** ** [str.replace] *)

Lemma replace_nonempty old new s :
  old <> [] -> replace old new s = replace_from old new 0 s.
Proof. by destruct old. Qed.

(** The text put in place of an occurrence is a single character [c]
    that the pattern [p] does not have: an occurrence of [p] in the
    result was there before. *)
Lemma startswith_replace_from old c p k s :
  existsb (N.eqb c) p = false ->
  startswith p (replace_from old [c] k s) = true ->
  startswith p (drop k s) = true.
Proof.
  revert k p. induction s as [|x s IH]; intros k p Hc.
  - simpl. intros ->%startswith_empty. by destruct k.
  - destruct k as [|k]; simpl replace_from; simpl drop; [|by apply IH].
    destruct p as [|y p]; [done|].
    simpl in Hc. apply orb_false_iff in Hc as [Hcy Hc].
    destruct (startswith old (x :: s)).
    + simpl. rewrite N.eqb_sym, Hcy. done.
    + rewrite !startswith_cons. intros [-> H]%andb_true_iff.
      by apply (IH 0) in H.
Qed.

Lemma contains_replace_from old c p k s :
  p <> [] -> existsb (N.eqb c) p = false ->
  contains p (replace_from old [c] k s) = true ->
  contains p (drop k s) = true.
Proof.
  intros Hp Hc. revert k. induction s as [|x s IH]; intros k.
  - simpl replace_from. by rewrite contains_nil.
  - destruct k as [|k]; simpl drop; [|by apply IH].
    pose proof (startswith_replace_from old c p 0 (x :: s) Hc) as Hsw.
    simpl replace_from in *. simpl drop in Hsw.
    destruct (startswith old (x :: s)).
    + simpl app. rewrite !contains_cons. intros [H|H]%orb_true_iff.
      * by rewrite (Hsw H).
      * rewrite (contains_drop _ (length old - 1) s); [apply orb_true_r|by apply IH].
    + rewrite !contains_cons. intros [H|H]%orb_true_iff.
      * by rewrite (Hsw H).
      * apply (IH 0) in H. rewrite drop_0 in H. rewrite H. apply orb_true_r.
Qed.

(** After the replacement of [old] by a character that [old] does not
    have, no occurrence of [old] is left. *)
Lemma replace_from_removes old c k s :
  old <> [] -> existsb (N.eqb c) old = false ->
  contains old (replace_from old [c] k s) = false.
Proof.
  intros Hold Hc. revert k. induction s as [|x s IH]; intros k.
  - simpl. by apply contains_nil.
  - destruct k as [|k]; simpl replace_from; [|by apply IH].
    pose proof (startswith_replace_from old c old 0 (x :: s) Hc) as Hsw.
    simpl replace_from in Hsw. simpl drop in Hsw.
    destruct (startswith old (x :: s)) eqn:E.
    + simpl app. rewrite contains_cons, IH, orb_false_r.
      destruct old as [|y old]; [done|].
      simpl in Hc. apply orb_false_iff in Hc as [Hcy _].
      simpl. by rewrite N.eqb_sym, Hcy.
    + rewrite contains_cons, IH, orb_false_r.
      destruct (startswith old (x :: replace_from old [c] 0 s)) eqn:E'; [|done].
      discriminate (Hsw eq_refl).
Qed.

(** Without an occurrence, nothing is replaced. *)
Lemma replace_from_absent old new s :
  contains old s = false -> replace_from old new 0 s = s.
Proof.
  induction s as [|x s IH]; [done|].
  rewrite contains_cons. intros [H1 H2]%orb_false_iff.
  simpl replace_from. rewrite H1, IH by done. done.
Qed.

(** The replacement of a one-character pattern works character by
    character. *)
Lemma replace_from_char d new s :
  replace_from [d] new 0 s
  = flat_map (fun x => if (x =? d)%N then new else [x]) s.
Proof.
  induction s as [|x s IH]; [done|].
  simpl replace_from. rewrite andb_true_r, N.eqb_sym, IH.
  simpl. by destruct (x =? d)%N.
Qed.

(** ** [str.strip] *)

Lemma lstrip_by_head (f : char -> bool) x s :
  f x = false -> lstrip_by f (x :: s) = x :: s.
Proof. simpl. by intros ->. Qed.

Lemma strip_by_ends (f : char -> bool) x s y :
  f x = false -> f y = false -> strip_by f (x :: s ++ [y]) = x :: s ++ [y].
Proof.
  intros Hx Hy. unfold strip_by, rstrip_by. rewrite lstrip_by_head by done.
  assert (Hr : rev (x :: s ++ [y]) = y :: rev (x :: s)).
  { rewrite app_comm_cons, rev_app_distr. done. }
  rewrite Hr, lstrip_by_head by done. rewrite <- Hr. apply rev_involutive.
Qed.

End StrFacts.

(** [_normalize] as a sequence of replacements. *)
Module NormFacts.
Import PyStr BooleanAlgebra Canonical StrFacts DictFacts.

Lemma replace_each_steps ops cond target s :
  BooleanExpression.replace_each ops cond target s
  = run_steps (steps_of ops cond target) s.
Proof.
  unfold BooleanExpression.replace_each, run_steps, steps_of.
  revert s. induction ops as [|op ops IH]; intros s; [done|].
  simpl. destruct (cond op); simpl; apply IH.
Qed.

Lemma run_steps_app l1 l2 s : run_steps (l1 ++ l2) s = run_steps l2 (run_steps l1 s).
Proof. unfold run_steps. apply fold_left_app. Qed.

Lemma _normalize_steps expr :
  BooleanExpression._normalize expr = run_steps normalize_steps (strip expr).
Proof.
  unfold BooleanExpression._normalize, normalize_steps.
  rewrite !replace_each_steps, !run_steps_app. done.
Qed.

Lemma fresh_for_inv p step :
  fresh_for p step = true ->
  exists c, fst step <> [] /\ snd step = [c] /\ existsb (N.eqb c) p = false.
Proof.
  unfold fresh_for. destruct (fst step) as [|x old]; [done|].
  destruct (snd step) as [|c [|? ?]]; [done| |done].
  intros H%negb_true_iff. by exists c.
Qed.

(** A pattern absent from [s] stays absent through steps that are fresh
    for it. *)
Lemma run_steps_keeps_absent p steps s :
  p <> [] -> forallb (fresh_for p) steps = true ->
  contains p s = false -> contains p (run_steps steps s) = false.
Proof.
  intros Hp. revert s. induction steps as [|step steps IH]; intros s Hf Hs; [done|].
  simpl in Hf. apply andb_true_iff in Hf as [Hstep Hf].
  apply fresh_for_inv in Hstep as (c & Hold & Hnew & Hc).
  simpl. apply IH; [done|]. rewrite Hnew, replace_nonempty by done.
  destruct (contains p (replace_from _ _ _ _)) eqn:E; [|done].
  apply contains_replace_from in E; [|done..]. rewrite drop_0 in E. congruence.
Qed.

(** After the steps, the pattern of none of them is left. *)
Lemma run_steps_removes steps s step :
  steps_ok steps = true -> In step steps ->
  contains (fst step) (run_steps steps s) = false.
Proof.
  revert s. induction steps as [|st steps IH]; intros s Hok Hin; [done|].
  simpl in Hok. apply andb_true_iff in Hok as [Hok Hrest].
  apply andb_true_iff in Hok as [Hown Hlater].
  destruct Hin as [->|Hin]; [|by apply IH].
  pose proof Hown as (c & Hold & Hnew & Hc)%fresh_for_inv.
  simpl. apply run_steps_keeps_absent; [done..|].
  rewrite Hnew, replace_nonempty by done. by apply replace_from_removes.
Qed.

Lemma normalize_steps_ok : steps_ok normalize_steps = true.
Proof. vm_compute. reflexivity. Qed.

(** No replaced spelling is left in a normalized expression. *)
Lemma _normalize_removes expr step :
  In step normalize_steps ->
  contains (fst step) (BooleanExpression._normalize expr) = false.
Proof.
  intros Hin. rewrite _normalize_steps.
  by apply run_steps_removes; [apply normalize_steps_ok|].
Qed.

(** Steps whose patterns are absent change nothing. *)
Lemma run_steps_absent steps s :
  (forall step, In step steps -> fst step <> [] /\ contains (fst step) s = false) ->
  run_steps steps s = s.
Proof.
  induction steps as [|st steps IH]; intros H; [done|].
  destruct (H st) as [Hne Habs]; [by left|].
  simpl. rewrite replace_nonempty, replace_from_absent by done.
  apply IH. intros step Hin. apply H. by right.
Qed.

Lemma normalize_steps_nonempty step : In step normalize_steps -> fst step <> [].
Proof.
  intros Hin.
  assert (H : forallb (fun st => negb (eqb (fst st) [])) normalize_steps = true)
    by (vm_compute; reflexivity).
  eapply forallb_forall in H; [|done].
  apply negb_true_iff, eqb_neq in H. done.
Qed.

End NormFacts.

(** [_extract_variables]: distinct names, factors of the normalized text. *)
Module VarFacts.
Import PyStr BooleanAlgebra Canonical StrFacts DictFacts.

(** ** The order on [str] *)

Lemma ltb_irrefl a : ltb a a = false.
Proof. induction a as [|x a IH]; [done|]. simpl. by rewrite N.ltb_irrefl. Qed.

Lemma ltb_trans a b c : ltb a b = true -> ltb b c = true -> ltb a c = true.
Proof.
  revert b c. induction a as [|x a IH]; intros [|y b] [|z c]; simpl; try done.
  destruct (N.ltb_spec x y), (N.ltb_spec y x), (N.ltb_spec y z), (N.ltb_spec z y),
           (N.ltb_spec x z), (N.ltb_spec z x); try done; try lia.
  apply IH.
Qed.

Lemma ltb_total a b : eqb a b = false -> ltb a b = false -> ltb b a = true.
Proof.
  rewrite eqb_neq. revert b. induction a as [|x a IH]; intros [|y b]; simpl; try done.
  intros Hne. destruct (N.ltb_spec x y), (N.ltb_spec y x); try done; try lia.
  assert (x = y) as -> by lia. apply IH. congruence.
Qed.

(** ** [sorted(list(set(...)))] *)

Lemma insert_sorted_elem x l y :
  y ∈ BooleanExpression.insert_sorted x l <-> y = x \/ y ∈ l.
Proof.
  induction l as [|z l IH]; simpl.
  - rewrite list_elem_of_singleton. split; [by left|]. intros [?|?%elem_of_nil]; done.
  - destruct (eqb x z) eqn:E.
    + apply eqb_eq in E as ->. rewrite elem_of_cons. naive_solver.
    + destruct (ltb x z); rewrite !elem_of_cons; [done|]. rewrite IH. naive_solver.
Qed.

Lemma insert_sorted_increasing x l :
  increasing l -> increasing (BooleanExpression.insert_sorted x l).
Proof.
  induction l as [|z l IH]; simpl; [done|].
  intros [Hz Hl]. destruct (eqb x z) eqn:E; [done|].
  destruct (ltb x z) eqn:Hlt; simpl.
  - split_and!; [|done..]. constructor; [done|].
    eapply Forall_impl; [exact Hz|]. intros y Hy. by apply (ltb_trans x z y).
  - split; [|by apply IH]. apply Forall_forall.
    intros y [->|Hy]%insert_sorted_elem.
    + apply ltb_total; [|done]. rewrite eqb_neq in *. congruence.
    + by eapply Forall_forall in Hz.
Qed.

Lemma sorted_set_elem l y : y ∈ BooleanExpression.sorted_set l <-> y ∈ l.
Proof.
  induction l as [|x l IH]; simpl; [done|].
  rewrite insert_sorted_elem, IH, elem_of_cons. done.
Qed.

Lemma sorted_set_increasing l : increasing (BooleanExpression.sorted_set l).
Proof. induction l as [|x l IH]; simpl; [done|]. by apply insert_sorted_increasing. Qed.

Lemma increasing_NoDup l : increasing l -> NoDup l.
Proof.
  induction l as [|x l IH]; simpl; [constructor|].
  intros [Hx Hl]. constructor; [|by apply IH].
  intros Hin. eapply Forall_forall in Hx; [|done]. by rewrite ltb_irrefl in Hx.
Qed.

(** ** [str.split()] *)

Lemma split_ws_go_factor cur s t :
  t ∈ split_ws_go cur s ->
  forallb (fun c => negb (isspace c)) cur = true ->
  exists pre post,
    rev cur ++ s = pre ++ t ++ post
    /\ forallb (fun c => negb (isspace c)) t = true.
Proof.
  revert cur. induction s as [|c s IH]; intros cur; simpl.
  - destruct cur as [|x cur]; [by intros ?%elem_of_nil|].
    intros ->%list_elem_of_singleton Hcur. exists [], [].
    split; [by rewrite app_nil_r|].
    rewrite forallb_forall in *. intros y Hy%in_rev. by apply Hcur.
  - destruct (isspace c) eqn:Hc.
    + assert (Hrest : t ∈ split_ws_go [] s ->
                      exists pre post, rev cur ++ c :: s = pre ++ t ++ post
                        /\ forallb (fun c => negb (isspace c)) t = true).
      { intros (pre & post & Heq & Ht)%IH; [|done]. simpl in Heq.
        exists (rev cur ++ c :: pre), post. split; [|done].
        rewrite Heq, <- !app_assoc. done. }
      destruct cur as [|x cur]; [by intros; apply Hrest|].
      intros [->|Hin]%elem_of_cons Hcur; [|by apply Hrest].
      exists [], (c :: s). split; [done|].
      rewrite forallb_forall in *. intros y Hy%in_rev. by apply Hcur.
    + intros Hin Hcur. apply IH in Hin as (pre & post & Heq & Ht).
      * exists pre, post. split; [|done]. rewrite <- Heq. simpl.
        by rewrite <- app_assoc.
      * simpl. by rewrite Hc.
Qed.

Lemma split_ws_factor s t :
  t ∈ split_ws s ->
  exists pre post,
    s = pre ++ t ++ post /\ forallb (fun c => negb (isspace c)) t = true.
Proof. intros H. by apply split_ws_go_factor in H. Qed.

(** ** The delimiters turned into spaces *)

Lemma blanked_refl s : blanked s s.
Proof. apply Forall2_same_length_lookup. split; [done|]. intros i a b ? ?. left. congruence. Qed.

Lemma blanked_trans s1 s2 s3 : blanked s1 s2 -> blanked s2 s3 -> blanked s1 s3.
Proof.
  unfold blanked. intros H. revert s3. induction H as [|a b s1 s2 Hab H IH]; intros s3 H3.
  - by apply Forall2_nil_inv_l in H3 as ->.
  - apply Forall2_cons_inv_l in H3 as (c & s3' & Hbc & H3 & ->).
    constructor; [|by apply IH]. naive_solver.
Qed.

Lemma blanked_replace d s : blanked s (replace [d] (py " ") s).
Proof.
  unfold replace. rewrite replace_from_char.
  induction s as [|x s IH]; [constructor|].
  simpl. destruct (x =? d)%N; simpl; (constructor; [|exact IH]); [by right|by left].
Qed.

Lemma blanked_delimiters s :
  blanked s (fold_left (fun c op => replace op (py " ") c) BooleanExpression.delimiters s).
Proof.
  assert (H : Forall (fun op => exists d, op = [d]) BooleanExpression.delimiters).
  { repeat (constructor; [by eexists|]). constructor. }
  revert s. induction H as [|op ops [d ->] _ IH]; intros s; [apply blanked_refl|].
  simpl. eapply blanked_trans; [apply blanked_replace|apply IH].
Qed.

Lemma blanked_nonspace s t :
  blanked s t -> forallb (fun c => negb (isspace c)) t = true -> s = t.
Proof.
  induction 1 as [|a b s t Hab H IH]; [done|].
  simpl. intros [Hb Ht]%andb_true_iff. rewrite IH by done.
  destruct Hab as [->| ->]; [done|]. done.
Qed.

Lemma blanked_factor s pre t post :
  blanked s (pre ++ t ++ post) ->
  forallb (fun c => negb (isspace c)) t = true ->
  exists pre' post', s = pre' ++ t ++ post'.
Proof.
  intros (s1 & s23 & H1 & H23 & ->)%Forall2_app_inv_r Ht.
  apply Forall2_app_inv_r in H23 as (s2 & s3 & H2 & H3 & ->).
  exists s1, s3. by rewrite (blanked_nonspace s2 t).
Qed.

(** ** [_extract_variables] *)

Section Variables.
Variable uni_isalpha : char -> bool.

Lemma _extract_variables_NoDup normalized :
  NoDup (BooleanExpression._extract_variables uni_isalpha normalized).
Proof. apply increasing_NoDup, sorted_set_increasing. Qed.

(** A variable starts with a letter and is a factor of the normalized
    expression. *)
Lemma _extract_variables_elem normalized var :
  var ∈ BooleanExpression._extract_variables uni_isalpha normalized ->
  BooleanExpression.starts_alpha uni_isalpha var = true
  /\ exists pre post, normalized = pre ++ var ++ post.
Proof.
  unfold BooleanExpression._extract_variables.
  intros [Hin Halpha]%sorted_set_elem%list_elem_of_In%filter_In.
  split; [done|].
  apply list_elem_of_In, split_ws_factor in Hin as (pre & post & Heq & Hns).
  eapply blanked_factor; [|done]. rewrite <- Heq. apply blanked_delimiters.
Qed.

End Variables.

End VarFacts.

(** The canonical forms as rendered pieces. *)
Module PieceFacts.
Import PyStr BooleanAlgebra FormsSpec Canonical StrFacts DictFacts NormFacts.

(** ** Joins *)

Lemma join_joinl sep parts : join sep parts = joinl sep parts.
Proof. induction parts as [|p [|q parts] IH]; simpl in *; [done..|]. by rewrite IH. Qed.

Lemma flat_map_joinl {A B} (f : A -> list B) sep parts :
  flat_map f (joinl sep parts) = joinl (flat_map f sep) (map (flat_map f) parts).
Proof.
  induction parts as [|p [|q parts] IH]; [done..|].
  change (joinl sep (p :: q :: parts)) with (p ++ sep ++ joinl sep (q :: parts)).
  rewrite !flat_map_app, IH. done.
Qed.

Lemma map_joinl {A B} (f : A -> B) sep parts :
  map f (joinl sep parts) = joinl (map f sep) (map (map f) parts).
Proof.
  induction parts as [|p [|q parts] IH]; [done..|].
  change (joinl sep (p :: q :: parts)) with (p ++ sep ++ joinl sep (q :: parts)).
  rewrite !map_app, IH. done.
Qed.

Lemma forallb_joinl {A} (f : A -> bool) sep parts :
  forallb f sep = true -> Forall (fun p => forallb f p = true) parts ->
  forallb f (joinl sep parts) = true.
Proof.
  intros Hsep. induction 1 as [|p parts Hp Hparts IH]; [done|].
  destruct parts as [|q parts]; [done|].
  change (joinl sep (p :: q :: parts)) with (p ++ sep ++ joinl sep (q :: parts)).
  by rewrite !forallb_app, Hp, Hsep, IH.
Qed.

Lemma In_joinl {A} (x : A) sep parts :
  In x (joinl sep parts) -> In x sep \/ exists p, In p parts /\ In x p.
Proof.
  induction parts as [|p [|q parts] IH]; [done| |].
  - intros H. right. exists p. split; [by left|done].
  - change (joinl sep (p :: q :: parts)) with (p ++ sep ++ joinl sep (q :: parts)).
    intros [H|[H|H]%in_app_or]%in_app_or.
    + right. exists p. split; [by left|done].
    + by left.
    + destruct (IH H) as [?|(p' & Hp' & Hx)]; [by left|].
      right. exists p'. split; [by right|done].
Qed.

Lemma length_joinl {A} k (sep : list A) parts :
  parts <> [] -> Forall (fun p => S k <= length p) parts ->
  k + length parts <= length (joinl sep parts).
Proof.
  intros Hne H. induction H as [|p parts Hp Hparts IH]; [done|].
  destruct parts as [|q parts]; [simpl; lia|].
  change (joinl sep (p :: q :: parts)) with (p ++ sep ++ joinl sep (q :: parts)).
  rewrite !length_app. specialize (IH ltac:(done)). simpl in *. lia.
Qed.

(** A join of parts that start with [x] and end with [y] does so too. *)
Lemma joinl_ends {A} (x y : A) sep parts :
  parts <> [] -> Forall (fun p => exists m, p = x :: m ++ [y]) parts ->
  exists m, joinl sep parts = x :: m ++ [y].
Proof.
  intros Hne H. induction H as [|p parts [m ->] Hparts IH]; [done|].
  destruct parts as [|q parts]; [by exists m|].
  destruct (IH ltac:(done)) as [m' Hm'].
  change (joinl sep ((x :: m ++ [y]) :: q :: parts))
    with ((x :: m ++ [y]) ++ sep ++ joinl sep (q :: parts)).
  rewrite Hm'. exists (m ++ [y] ++ sep ++ x :: m').
  simpl. f_equal. rewrite <- !app_assoc. simpl. by rewrite <- !app_assoc.
Qed.

Lemma render_app a b : render (a ++ b) = render a ++ render b.
Proof. apply flat_map_app. Qed.

(** ** The canonical forms are the rendered pieces *)

Lemma render_literal negated var :
  render (literal_pieces negated var) = if negated then py "!" ++ var else var.
Proof. destruct negated; simpl; by rewrite app_nil_r. Qed.

Lemma render_term variables row :
  render (term_pieces variables row) = and_term variables row.
Proof.
  unfold term_pieces, and_term.
  change (render (?p :: ?l)) with (render1 p ++ render l).
  rewrite render_app. unfold render at 1. rewrite flat_map_joinl, join_joinl, map_map.
  f_equal. f_equal. f_equal. apply map_ext. intros var.
  fold (render (literal_pieces (negb (value row var)) var)).
  rewrite render_literal. by destruct (value row var).
Qed.

Lemma render_clause variables row :
  render (clause_pieces variables row) = or_clause variables row.
Proof.
  unfold clause_pieces, or_clause.
  change (render (?p :: ?l)) with (render1 p ++ render l).
  rewrite render_app. unfold render at 1. rewrite flat_map_joinl, join_joinl, map_map.
  f_equal. f_equal. f_equal. apply map_ext. intros var.
  fold (render (literal_pieces (value row var) var)).
  rewrite render_literal. by destruct (value row var).
Qed.

Lemma render_pdnf tt : render (pdnf_pieces tt) = pdnf_spec tt.
Proof.
  unfold pdnf_pieces, pdnf_spec. destruct (List.filter _ _) as [|r rs]; [done|].
  unfold render. rewrite flat_map_joinl, join_joinl, map_map.
  f_equal. apply map_ext. intros row. apply render_term.
Qed.

Lemma render_pcnf tt : render (pcnf_pieces tt) = pcnf_spec tt.
Proof.
  unfold pcnf_pieces, pcnf_spec. destruct (List.filter _ _) as [|r rs]; [done|].
  unfold render. rewrite flat_map_joinl, join_joinl, map_map.
  f_equal. apply map_ext. intros row. apply render_clause.
Qed.

Section Wf.
Variable uni_isalnum : char -> bool.
Local Abbreviation W := (isword uni_isalnum).
Local Abbreviation wf := (Canonical.wf W).
Local Abbreviation head_isword := (PyRe.head_isword uni_isalnum).
Local Abbreviation word_ok := (Canonical.word_ok W).
Local Abbreviation foreign := (Canonical.foreign W).

(** ** Well-formed pieces *)

Lemma wf_app a b : wf a = true -> wf b = true -> starts_sep b = true -> wf (a ++ b) = true.
Proof.
  intros Ha Hb Hs. induction a as [|[w|c] a IH]; simpl in *; [done| |].
  - apply andb_true_iff in Ha as [Ha Hwf]. apply andb_true_iff in Ha as [Hw Hnext].
    rewrite Hw, IH by done. simpl. rewrite andb_true_r.
    destruct a; [done|]. done.
  - apply andb_true_iff in Ha as [-> Hwf]. by apply IH.
Qed.

Lemma wf_sep_cons c l : W c = false -> wf l = true -> wf (Sep c :: l) = true.
Proof. simpl. by intros -> ->. Qed.

Lemma wf_literal negated var :
  word_ok var = true -> wf (literal_pieces negated var) = true.
Proof.
  unfold Canonical.word_ok. intros H. destruct negated; simpl; rewrite H; done.
Qed.

Lemma wf_literals c (negated : str -> bool) variables :
  W c = false -> forallb word_ok variables = true ->
  wf (joinl [Sep c] (map (fun var => literal_pieces (negated var) var) variables)) = true.
Proof.
  intros Hc. induction variables as [|v [|v' vs] IH]; [done| |].
  - simpl. rewrite andb_true_r. apply wf_literal.
  - intros [Hv Hvs]%andb_true_iff.
    change (map ?f (v :: ?l)) with (f v :: map f l).
    change (joinl ?s (?p :: map ?f (v' :: vs)))
      with (p ++ s ++ joinl s (map f (v' :: vs))).
    apply wf_app; [by apply wf_literal| |done].
    apply wf_sep_cons; [done|]. by apply IH.
Qed.

Lemma wf_parens l :
  wf l = true -> wf (Sep (sym "(") :: l ++ [Sep (sym ")")]) = true.
Proof. intros H. apply wf_sep_cons; [done|]. by apply wf_app. Qed.

Lemma wf_joinl_parens (c : char) (parts : list (list piece)) :
  W c = false ->
  Forall (fun p => wf p = true /\ starts_sep p = true) parts ->
  wf (joinl [Sep (sym " "); Sep c; Sep (sym " ")] parts) = true
  /\ starts_sep (joinl [Sep (sym " "); Sep c; Sep (sym " ")] parts) = true.
Proof.
  intros Hc. induction 1 as [|p parts [Hp Hs] Hparts IH]; [done|].
  destruct parts as [|q parts]; [done|].
  change (joinl ?s (p :: q :: parts)) with (p ++ s ++ joinl s (q :: parts)).
  destruct IH as [IH1 IH2]. split.
  - apply wf_app; [done| |done].
    simpl app. repeat (apply wf_sep_cons; [done|]). done.
  - destruct p as [|[w|c'] p]; done.
Qed.

Lemma wf_pdnf tt :
  forallb word_ok (TruthTable.variables tt) = true -> wf (pdnf_pieces tt) = true.
Proof.
  intros Hv. unfold pdnf_pieces. destruct (List.filter _ _) as [|r rs]; [done|].
  apply wf_joinl_parens; [done|]. apply Forall_forall. intros p Hp.
  apply list_elem_of_fmap in Hp as (row & -> & _). split; [|done].
  apply wf_parens. by apply wf_literals.
Qed.

Lemma wf_pcnf tt :
  forallb word_ok (TruthTable.variables tt) = true -> wf (pcnf_pieces tt) = true.
Proof.
  intros Hv. unfold pcnf_pieces. destruct (List.filter _ _) as [|r rs]; [done|].
  apply wf_joinl_parens; [done|]. apply Forall_forall. intros p Hp.
  apply list_elem_of_fmap in Hp as (row & -> & _). split; [|done].
  apply wf_parens. by apply wf_literals.
Qed.

(** What follows a word is not a word character. *)
Lemma head_isword_render l :
  wf l = true -> starts_sep l = true -> head_isword (render l) = false.
Proof.
  destruct l as [|[w|c] l]; [done..|]. simpl.
  by intros [->%negb_true_iff _]%andb_true_iff.
Qed.

(** ** Patterns in rendered pieces *)

Lemma startswith_word p a r :
  forallb W p = true -> head_isword r = false ->
  startswith p (a ++ r) = true -> startswith p a = true.
Proof.
  intros Hp Hr. revert p Hp. induction a as [|x a IH]; intros [|y p] Hp; try done.
  - simpl in *. destruct r as [|z r]; [done|]. simpl in Hr.
    apply andb_true_iff in Hp as [Hy _].
    intros [->%N.eqb_eq _]%andb_true_iff. congruence.
  - simpl in *. apply andb_true_iff in Hp as [_ Hp].
    intros [-> H]%andb_true_iff. by apply IH.
Qed.

Lemma contains_word p w r :
  forallb W p = true -> head_isword r = false ->
  contains p (w ++ r) = true -> contains p w = true \/ contains p r = true.
Proof.
  intros Hp Hr. induction w as [|x w IH]; [by right|].
  rewrite <- app_comm_cons, !contains_cons.
  intros [H|H]%orb_true_iff.
  - left. apply orb_true_intro. left.
    by apply (startswith_word p (x :: w) r).
  - destruct (IH H) as [Hw|Hr']; [|by right].
    left. rewrite Hw. apply orb_true_r.
Qed.

Lemma startswith_sep p c s :
  p <> [] -> forallb W p = true -> W c = false -> startswith p (c :: s) = false.
Proof.
  destruct p as [|y p]; [done|]. simpl.
  intros _ [Hy _]%andb_true_iff Hc.
  destruct (N.eqb_spec y c) as [->|]; [congruence|done].
Qed.

(** A pattern of word characters found in the rendered pieces lies
    within one of the words. *)
Lemma contains_render p l :
  p <> [] -> forallb W p = true -> wf l = true ->
  contains p (render l) = true ->
  exists w, In w (words l) /\ contains p w = true.
Proof.
  intros Hne Hp. induction l as [|[w|c] l IH]; cbn [render flat_map render1 words app Canonical.wf].
  - by rewrite contains_nil.
  - intros Hwf. apply andb_true_iff in Hwf as [Hwf Hl].
    apply andb_true_iff in Hwf as [_ Hs].
    intros [H|H]%contains_word; [..|done|].
    + exists w. split; [by left|done].
    + destruct (IH Hl H) as (w' & Hin & Hc). exists w'. split; [by right|done].
    + by apply head_isword_render.
  - intros [Hc Hl]%andb_true_iff. apply negb_true_iff in Hc.
    rewrite contains_cons, startswith_sep, orb_false_l by done.
    apply IH. done.
Qed.

(** The characters of the rendered pieces. *)
Lemma In_render x l :
  wf l = true -> structural_seps l = true -> In x (render l) ->
  W x = true \/ structural x = true.
Proof.
  induction l as [|[w|c] l IH]; simpl; [done| |].
  - intros Hwf Hst [Hx|Hx]%in_app_or.
    + left. apply andb_true_iff in Hwf as [Hwf _].
      apply andb_true_iff in Hwf as [Hwf _]. apply andb_true_iff in Hwf as [_ Hw].
      by eapply forallb_forall in Hw.
    + apply IH; [|done..]. by apply andb_true_iff in Hwf as [_ ?].
  - intros [_ Hl]%andb_true_iff [Hc Hst]%andb_true_iff [->|Hx]; [by right|].
    by apply IH.
Qed.

(** Each replaced spelling has a character that is neither a word
    character nor structural, or is made of word characters only. *)
Lemma normalize_steps_patterns step :
  In step normalize_steps ->
  foreign (fst step) = true \/ forallb W (fst step) = true.
Proof.
  intros Hin.
  assert (H : forallb (fun st => foreign (fst st) || forallb W (fst st))
                      normalize_steps = true) by (vm_compute; reflexivity).
  eapply forallb_forall in H; [|done]. by apply orb_true_iff.
Qed.

(** Pieces whose words have none of the replaced spellings render to a
    string that the replacements leave as it is. *)
Lemma run_steps_render l :
  wf l = true -> structural_seps l = true ->
  (forall w step, In w (words l) -> In step normalize_steps ->
                  contains (fst step) w = false) ->
  run_steps normalize_steps (render l) = render l.
Proof.
  intros Hwf Hst Hwords. apply run_steps_absent. intros step Hin.
  pose proof (normalize_steps_nonempty step Hin) as Hne. split; [done|].
  destruct (normalize_steps_patterns step Hin) as [Hf|Hw].
  - apply existsb_exists in Hf as (x & Hx & Hfx).
    apply andb_true_iff in Hfx as [HW Hstr].
    apply (contains_foreign _ _ x); [done|].
    intros [H|H]%In_render; [| |done..].
    + by rewrite H in HW.
    + by rewrite H in Hstr.
  - destruct (contains (fst step) (render l)) eqn:E; [|done].
    apply contains_render in E as (w & Hw' & Hc); [|done..].
    exact (eq_trans (eq_sym Hc) (Hwords w step Hw' Hin)).
Qed.

End Wf.

End PieceFacts.

(** [re.sub] with word boundaries on rendered pieces. *)
Module SubstFacts.
Import PyStr BooleanAlgebra FormsSpec Canonical StrFacts DictFacts NormFacts PieceFacts.

Section Subst.
Variable uni_isalnum : char -> bool.
Local Abbreviation W := (isword uni_isalnum).
Local Abbreviation wf := (Canonical.wf W).
Local Abbreviation word_ok := (Canonical.word_ok W).
Local Abbreviation head_isword := (PyRe.head_isword uni_isalnum).
Local Abbreviation key_ok := (Canonical.key_ok W).
Local Abbreviation word_match_at := (PyRe.word_match_at uni_isalnum).
Local Abbreviation sub_word_from := (PyRe.sub_word_from uni_isalnum).
Local Abbreviation sub_word := (PyRe.sub_word uni_isalnum).

Implicit Types (w r var lit : str) (l : list piece).

Lemma word_ok_inv w : word_ok w = true -> w <> [] /\ forallb W w = true.
Proof.
  unfold Canonical.word_ok. intros [H1 H2]%andb_true_iff.
  by apply negb_true_iff, eqb_neq in H1.
Qed.

Lemma head_isword_word w r : word_ok w = true -> head_isword (w ++ r) = true.
Proof.
  intros [Hne Hw]%word_ok_inv. destruct w as [|x w]; [done|].
  simpl in *. by apply andb_true_iff in Hw as [? _].
Qed.

Lemma head_isword_rev w : word_ok w = true -> head_isword (rev w) = true.
Proof.
  intros [Hne Hw]%word_ok_inv. destruct (rev w) as [|x t] eqn:E.
  - apply (f_equal (@rev _)) in E. rewrite rev_involutive in E. done.
  - simpl. eapply forallb_forall in Hw; [done|]. apply in_rev. rewrite E. by left.
Qed.

Lemma startswith_self p s : startswith p (p ++ s) = true.
Proof. induction p as [|x p IH]; simpl; [by destruct s|]. by rewrite N.eqb_refl. Qed.

Lemma startswith_split p s : startswith p s = true -> s = p ++ drop (length p) s.
Proof.
  revert s. induction p as [|x p IH]; intros [|y s]; simpl; try done.
  intros [->%N.eqb_eq H]%andb_true_iff. f_equal. by apply IH.
Qed.

(** [\bvar\b] matches at the start of the word [w] exactly when [w] is
    [var]. *)
Lemma word_match_at_word var w r :
  word_ok var = true -> word_ok w = true -> head_isword r = false ->
  word_match_at false var (w ++ r) = eqb w var.
Proof.
  intros Hvar Hw Hr. unfold PyRe.word_match_at.
  rewrite head_isword_word, head_isword_rev by done. simpl.
  destruct (eqb w var) eqn:E.
  - apply eqb_eq in E as ->. rewrite startswith_self. simpl.
    rewrite drop_app_length. by rewrite Hr.
  - apply eqb_neq in E.
    destruct (startswith var (w ++ r)) eqn:S; [|done]. simpl.
    apply word_ok_inv in Hvar as [_ Hvar].
    apply (startswith_word uni_isalnum) in S; [|done..].
    apply startswith_split in S.
    destruct (drop (length var) w) as [|x t] eqn:D.
    { rewrite app_nil_r in S. congruence. }
    assert (Hlen : length var <= length w).
    { rewrite S, length_app. lia. }
    rewrite drop_app_le, D by done. simpl.
    apply word_ok_inv in Hw as [_ Hw].
    eapply forallb_forall in Hw; [by rewrite Hw|].
    rewrite S. apply in_or_app. right. by left.
Qed.

Lemma sub_word_from_inner var lit w r :
  forallb W w = true ->
  sub_word_from var lit true 0 (w ++ r) = w ++ sub_word_from var lit true 0 r.
Proof.
  induction w as [|x w IH]; [done|].
  simpl forallb. intros [Hx Hw]%andb_true_iff.
  rewrite <- app_comm_cons. simpl PyRe.sub_word_from at 1.
  unfold PyRe.word_match_at at 1. simpl PyRe.head_isword at 1.
  rewrite Hx. simpl. by rewrite IH.
Qed.

Lemma sub_word_from_skip var lit w r :
  forallb W w = true ->
  sub_word_from var lit true (length w) (w ++ r) = sub_word_from var lit true 0 r.
Proof.
  induction w as [|x w IH]; [done|].
  simpl forallb. intros [Hx Hw]%andb_true_iff.
  simpl. rewrite Hx. by apply IH.
Qed.

Lemma sub_word_from_word var lit w r :
  word_ok var = true -> word_ok w = true -> head_isword r = false ->
  sub_word_from var lit false 0 (w ++ r)
  = (if eqb w var then lit else w) ++ sub_word_from var lit true 0 r.
Proof.
  intros Hvar Hw Hr.
  pose proof (word_match_at_word var w r Hvar Hw Hr) as Hm.
  pose proof Hw as [Hne Hall]%word_ok_inv.
  destruct w as [|x w]; [done|].
  simpl in Hall. apply andb_true_iff in Hall as [Hx Hall].
  rewrite <- app_comm_cons in *. simpl PyRe.sub_word_from at 1.
  rewrite Hm, Hx. destruct (eqb (x :: w) var) eqn:E.
  - apply eqb_eq in E as <-.
    replace (length (x :: w) - 1) with (length w) by (simpl; lia).
    by rewrite sub_word_from_skip.
  - by rewrite sub_word_from_inner.
Qed.

Lemma sub_word_from_sep var lit prevw c r :
  word_ok var = true -> W c = false ->
  sub_word_from var lit prevw 0 (c :: r) = c :: sub_word_from var lit false 0 r.
Proof.
  intros [Hne Hvar]%word_ok_inv Hc. simpl PyRe.sub_word_from at 1.
  unfold PyRe.word_match_at. rewrite (startswith_sep uni_isalnum) by done.
  rewrite andb_false_r. simpl. by rewrite Hc.
Qed.

Lemma sub_word_from_render var lit l prevw :
  word_ok var = true -> wf l = true ->
  (prevw = true -> starts_sep l = true) ->
  sub_word_from var lit prevw 0 (render l) = render (map (subst1 var lit) l).
Proof.
  intros Hvar. revert prevw.
  induction l as [|[w|c] l IH]; intros prevw Hwf Hprev;
    cbn [render flat_map render1 map subst1].
  - done.
  - destruct prevw; [by discriminate Hprev|].
    cbn [Canonical.wf] in Hwf.
    apply andb_true_iff in Hwf as [Hwf Hl]. apply andb_true_iff in Hwf as [Hw Hs].
    fold (render l). fold (render (map (subst1 var lit) l)).
    rewrite sub_word_from_word; [|done..|by apply head_isword_render].
    by rewrite IH.
  - cbn [Canonical.wf] in Hwf. apply andb_true_iff in Hwf as [Hc Hl].
    apply negb_true_iff in Hc.
    fold (render l). fold (render (map (subst1 var lit) l)).
    simpl app. rewrite sub_word_from_sep by done. by rewrite IH.
Qed.

Lemma sub_word_render var lit l :
  word_ok var = true -> wf l = true ->
  sub_word var lit (render l) = render (map (subst1 var lit) l).
Proof. intros. by apply sub_word_from_render. Qed.

Lemma starts_sep_subst1 var lit l :
  starts_sep (map (subst1 var lit) l) = starts_sep l.
Proof. by destruct l as [|[w|c] l]. Qed.

Lemma wf_subst1 var lit l :
  word_ok lit = true -> wf l = true -> wf (map (subst1 var lit) l) = true.
Proof.
  intros Hlit. induction l as [|[w|c] l IH]; cbn [map subst1 Canonical.wf]; [done| |].
  - intros [Hwf Hl]%andb_true_iff. apply andb_true_iff in Hwf as [Hw Hs].
    rewrite starts_sep_subst1, Hs, IH by done. rewrite !andb_true_r.
    destruct (eqb w var); [exact Hlit|exact Hw].
  - intros [-> Hl]%andb_true_iff. by apply IH.
Qed.

Lemma word_ok_bool_word b : word_ok (BooleanExpression.bool_word b) = true.
Proof. destruct b; vm_compute; reflexivity. Qed.

Lemma get_absent {V} k (d : PyDict.dict V) :
  forallb (fun kv => negb (eqb k (fst kv))) d = true -> PyDict.get k d = None.
Proof.
  induction d as [|[k' v] d IH]; [done|]. simpl.
  intros [->%negb_true_iff H]%andb_true_iff. by apply IH.
Qed.

(** The substitutions of [evaluate], one variable after the other. *)
Lemma fold_sub_word_render (values : PyDict.dict bool) l :
  forallb key_ok values = true -> wf l = true ->
  fold_left (fun e kv => sub_word (fst kv) (BooleanExpression.bool_word (snd kv)) e)
            values (render l)
  = render (map (assign values) l).
Proof.
  revert l. induction values as [|[var b] values IH]; intros l Hkeys Hwf.
  - simpl. f_equal. rewrite <- (map_id l) at 1. apply map_ext. by intros [w|c].
  - simpl in Hkeys. apply andb_true_iff in Hkeys as [Hkey Hkeys].
    unfold Canonical.key_ok in Hkey. simpl in Hkey.
    apply andb_true_iff in Hkey as [Hkey _]. apply andb_true_iff in Hkey as [Hvar _].
    simpl fold_left. rewrite sub_word_render by done.
    rewrite IH; [|done|by apply wf_subst1; [apply word_ok_bool_word|]].
    rewrite map_map. f_equal. apply map_ext. intros [w|c]; [|done].
    simpl. destruct (eqb w var) eqn:E; [|done].
    rewrite get_absent; [done|].
    apply forallb_forall. intros kv Hin.
    pose proof (proj1 (forallb_forall _ _) Hkeys kv Hin) as Hkv.
    unfold Canonical.key_ok in Hkv.
    apply andb_true_iff in Hkv as [Hkv HF]. apply andb_true_iff in Hkv as [_ HT].
    by destruct b.
Qed.

End Subst.

End SubstFacts.

(** The operators written out, and the tokenizer. *)
Module LexFacts.
Import PyStr PyEval BooleanAlgebra FormsSpec Canonical StrFacts DictFacts NormFacts.
Import PieceFacts SubstFacts.

Lemma constants_cases w :
  existsb (eqb w) constants = true ->
  w = py "True" \/ w = py "False" \/ w = py "0" \/ w = py "1".
Proof.
  simpl. rewrite !orb_true_iff, !eqb_eq. intros [?|[?|[?|[?|?]]]]; auto. done.
Qed.

Lemma structural_cases c :
  structural c = true ->
  c = sym "(" \/ c = sym ")" \/ c = sym "&" \/ c = sym "|" \/ c = sym "!" \/ c = sym " ".
Proof.
  unfold structural. simpl. rewrite !orb_true_iff, !N.eqb_eq.
  intros [?|[?|[?|[?|[?|[?|?]]]]]]; auto 10. done.
Qed.

(** ** The operators written out *)

Lemma flat_map_flat_map {A B C} (f : A -> list B) (g : B -> list C) (l : list A) :
  flat_map g (flat_map f l) = flat_map (fun x => flat_map g (f x)) l.
Proof. induction l as [|x l IH]; [done|]. simpl. by rewrite flat_map_app, IH. Qed.

Lemma python_operator_replace s :
  replace (py "^") (py " != ")
    (replace (py "!") (py " not ")
       (replace (py "|") (py " or ")
          (replace (py "&") (py " and ") s)))
  = flat_map python_operator s.
Proof.
  change (py "^") with [94%N]. change (py "!") with [33%N].
  change (py "|") with [124%N]. change (py "&") with [38%N].
  unfold replace. rewrite !replace_from_char, !flat_map_flat_map.
  apply flat_map_ext. intros x. unfold python_operator.
  change (sym "&") with 38%N. change (sym "|") with 124%N.
  change (sym "!") with 33%N. change (sym "^") with 94%N.
  destruct (N.eqb_spec x 38) as [->|H38]; [done|].
  destruct (N.eqb_spec x 124) as [->|H124]; [done|].
  destruct (N.eqb_spec x 33) as [->|H33]; [done|].
  destruct (N.eqb_spec x 94) as [->|H94]; [done|].
  apply N.eqb_neq in H124, H33, H94.
  simpl. rewrite ?H124. simpl. rewrite ?H33. simpl. rewrite ?H94. done.
Qed.

Lemma python_operator_const w :
  existsb (eqb w) constants = true -> flat_map python_operator w = w.
Proof. intros [->|[->|[->| ->]]]%constants_cases; reflexivity. Qed.

Lemma rewrite_binop_absent uni_isalnum fuel op mk expr :
  existsb (N.eqb op) expr = false ->
  BooleanExpression.rewrite_binop uni_isalnum fuel op mk expr = expr.
Proof. intros H. destruct fuel; simpl; [done|]. by rewrite H. Qed.

(** After the substitutions and the operators, every character is an
    ASCII one. *)
Lemma render_cons p l : render (p :: l) = render1 p ++ render l.
Proof. done. Qed.

Lemma const_pieces_cons p l :
  const_pieces (p :: l)
  = match p with
    | Word w => existsb (eqb w) constants
    | Sep c => structural c
    end && const_pieces l.
Proof. done. Qed.

Lemma python_operator_ascii l :
  const_pieces l = true ->
  forallb (fun x => x <? 128)%N (flat_map python_operator (render l)) = true.
Proof.
  induction l as [|[w|c] l IH]; [done| |];
    rewrite const_pieces_cons, render_cons;
    intros [Hp Hl]%andb_true_iff;
    rewrite flat_map_app, forallb_app;
    (apply andb_true_intro; split; [|exact (IH Hl)]).
  - by apply constants_cases in Hp as [->|[->|[->| ->]]].
  - by apply structural_cases in Hp as [->|[->|[->|[->|[->| ->]]]]].
Qed.

Lemma existsb_above op s :
  (128 <= op)%N -> forallb (fun x => x <? 128)%N s = true ->
  existsb (N.eqb op) s = false.
Proof.
  intros Hop. induction s as [|x s IH]; [done|]. simpl.
  intros [Hx Hs]%andb_true_iff. rewrite IH by done.
  apply N.ltb_lt in Hx. destruct (N.eqb_spec op x); [lia|done].
Qed.

(** ** The tokenizer *)

Lemma lex_word cur w s :
  forallb ascii_isword w = true -> lex cur (w ++ s) = lex (rev w ++ cur) s.
Proof.
  revert cur. induction w as [|x w IH]; intros cur; [done|].
  simpl forallb. intros [Hx Hw]%andb_true_iff.
  simpl. rewrite Hx, IH by done. by rewrite <- app_assoc.
Qed.

Lemma lex_boundary cur s : boundary s = true -> lex cur s = flush cur (lex [] s).
Proof.
  destruct s as [|c s]; simpl; [done|]. by intros ->%negb_true_iff.
Qed.

Lemma lex_const w s ts :
  existsb (eqb w) constants = true -> boundary s = true -> lex [] s = Some ts ->
  lex [] (w ++ s) = Some (piece_tokens (Word w) ++ ts).
Proof.
  intros Hw Hs Hts.
  rewrite lex_word, app_nil_r, lex_boundary, Hts by
    (try done; by apply constants_cases in Hw as [->|[->|[->| ->]]]).
  by apply constants_cases in Hw as [->|[->|[->| ->]]].
Qed.

Lemma lex_structural c s ts :
  structural c = true -> lex [] s = Some ts ->
  lex [] (python_operator c ++ s) = Some (piece_tokens (Sep c) ++ ts).
Proof.
  intros Hc Hts.
  apply structural_cases in Hc as [->|[->|[->|[->|[->| ->]]]]];
    simpl; by rewrite ?Hts.
Qed.

Lemma boundary_pieces l :
  const_pieces l = true -> starts_sep l = true ->
  boundary (flat_map python_operator (render l)) = true.
Proof.
  destruct l as [|[w|c] l]; [done..|]. rewrite const_pieces_cons.
  intros [Hc _]%andb_true_iff _.
  by apply structural_cases in Hc as [->|[->|[->|[->|[->| ->]]]]].
Qed.

Lemma lex_pieces (isword : char -> bool) l :
  wf isword l = true -> const_pieces l = true ->
  lex [] (flat_map python_operator (render l)) = Some (flat_map piece_tokens l).
Proof.
  induction l as [|[w|c] l IH]; [done| |];
    rewrite const_pieces_cons, render_cons; cbn [wf];
    intros Hwf [Hp Hl]%andb_true_iff;
    rewrite flat_map_app;
    change (flat_map piece_tokens (?p :: l)) with (piece_tokens p ++ flat_map piece_tokens l).
  - apply andb_true_iff in Hwf as [Hwf Hwfl]. apply andb_true_iff in Hwf as [_ Hs].
    cbn [render1]. rewrite python_operator_const by done.
    apply lex_const; [done|by apply boundary_pieces|by apply IH].
  - apply andb_true_iff in Hwf as [_ Hwfl].
    change (flat_map python_operator (render1 (Sep c))) with (python_operator c ++ []).
    rewrite app_nil_r. apply lex_structural; [done|by apply IH].
Qed.

Lemma eval_bool_tokens s ts : tokenize s = Some ts -> eval_bool s = eval_tokens ts.
Proof. unfold eval_bool, eval_tokens. by intros ->. Qed.

End LexFacts.

(** The parser on chains of literals and of parenthesised chains. *)
Module ParseFacts.
Import PyStr PyEval BooleanAlgebra FormsSpec Canonical PieceFacts.

Implicit Types (ts rest : list token) (e : expr).

Lemma parse_chain_none fuel rest :
  no_cmp rest = true -> parse_chain (S fuel) rest = POk [] rest.
Proof. destruct rest as [|[] rest]; done. Qed.

(** ** From one level of the grammar to the next *)

Lemma literal_not_parses negated b :
  not_parses 3 (literal_tokens negated b) (literal_expr negated b).
Proof.
  intros fuel rest Hf Hrest.
  destruct fuel as [|[|[|fuel]]]; [lia..|].
  pose proof (parse_chain_none fuel rest Hrest) as H1.
  pose proof (parse_chain_none (S fuel) rest Hrest) as H2.
  destruct negated; cbn [literal_tokens literal_expr app].
  - cbn [parse_not]. cbn [parse_atom pbind]. rewrite H1. done.
  - cbn [parse_not]. cbn [parse_atom pbind]. rewrite H2. done.
Qed.

Lemma not_and_parses k ts e : not_parses k ts e -> and_parses (S k) ts e.
Proof.
  intros H fuel rest Hf Hc Ha. destruct fuel as [|fuel]; [lia|].
  cbn [parse_and]. rewrite H by (done || lia). cbn [pbind].
  destruct rest as [|[] rest]; done.
Qed.

Lemma and_or_parses k ts e : and_parses k ts e -> or_parses (S k) ts e.
Proof.
  intros H fuel rest Hf Hc Ha Ho. destruct fuel as [|fuel]; [lia|].
  cbn [parse_or]. rewrite H by (done || lia). cbn [pbind].
  destruct rest as [|[] rest]; done.
Qed.

Lemma paren_not_parses k ts e : or_parses k ts e -> not_parses (S (S k)) (parens ts) e.
Proof.
  intros H fuel rest Hf Hc. destruct fuel as [|[|fuel]]; [lia..|].
  unfold parens. rewrite <- app_comm_cons, <- app_assoc.
  cbn [parse_not]. cbn [parse_atom]. cbn [app].
  rewrite H by (done || lia). cbn [pbind].
  by rewrite parse_chain_none.
Qed.

(** ** Chains *)

Lemma and_chain_parses k (parts : list (list token * expr)) :
  parts <> [] ->
  Forall (fun p => not_parses k (fst p) (snd p)) parts ->
  and_parses (k + length parts) (joinl [TAnd] (map fst parts)) (and_chain (map snd parts)).
Proof.
  intros Hne H. induction H as [|[ts e] parts Hp Hparts IH]; [done|].
  destruct parts as [|q parts].
  - intros fuel rest Hf Hc Ha.
    apply (not_and_parses k ts e Hp); [simpl in Hf; lia|done..].
  - intros fuel rest Hf Hc Ha. destruct fuel as [|fuel]; [simpl in Hf; lia|].
    change (joinl [TAnd] (map fst ((ts, e) :: q :: parts)))
      with (ts ++ [TAnd] ++ joinl [TAnd] (map fst (q :: parts))).
    change (and_chain (map snd ((ts, e) :: q :: parts)))
      with (EAnd e (and_chain (map snd (q :: parts)))).
    rewrite <- !app_assoc. cbn [parse_and].
    rewrite Hp by (done || simpl in Hf; lia). cbn [pbind app].
    rewrite IH; [done|done|simpl in *; lia|done..].
Qed.

Lemma or_chain_parses k (parts : list (list token * expr)) :
  parts <> [] ->
  Forall (fun p => and_parses k (fst p) (snd p)) parts ->
  or_parses (k + length parts) (joinl [TOr] (map fst parts)) (or_chain (map snd parts)).
Proof.
  intros Hne H. induction H as [|[ts e] parts Hp Hparts IH]; [done|].
  destruct parts as [|q parts].
  - intros fuel rest Hf Hc Ha Ho.
    apply (and_or_parses k ts e Hp); [simpl in Hf; lia|done..].
  - intros fuel rest Hf Hc Ha Ho. destruct fuel as [|fuel]; [simpl in Hf; lia|].
    change (joinl [TOr] (map fst ((ts, e) :: q :: parts)))
      with (ts ++ [TOr] ++ joinl [TOr] (map fst (q :: parts))).
    change (or_chain (map snd ((ts, e) :: q :: parts)))
      with (EOr e (or_chain (map snd (q :: parts)))).
    rewrite <- !app_assoc. cbn [parse_or].
    rewrite Hp by (done || simpl in Hf; lia). cbn [pbind app].
    rewrite IH; [done|done|simpl in *; lia|done..].
Qed.

(** ** Values *)

Lemma truthy_literal negated b :
  truthy (eval_expr (literal_expr negated b)) = xorb negated b.
Proof. by destruct negated, b. Qed.

Lemma truthy_and_chain es :
  truthy (eval_expr (and_chain es)) = forallb (fun e => truthy (eval_expr e)) es.
Proof.
  induction es as [|e [|e' es] IH]; [done| |].
  - simpl. by rewrite andb_true_r.
  - change (and_chain (e :: e' :: es)) with (EAnd e (and_chain (e' :: es))).
    cbn [eval_expr forallb]. cbn [forallb] in IH. rewrite <- IH.
    by destruct (truthy (eval_expr e)) eqn:E.
Qed.

Lemma truthy_or_chain es :
  truthy (eval_expr (or_chain es)) = existsb (fun e => truthy (eval_expr e)) es.
Proof.
  induction es as [|e [|e' es] IH]; [done| |].
  - simpl. by rewrite orb_false_r.
  - change (or_chain (e :: e' :: es)) with (EOr e (or_chain (e' :: es))).
    cbn [eval_expr existsb]. cbn [existsb] in IH. rewrite <- IH.
    by destruct (truthy (eval_expr e)) eqn:E.
Qed.

(** ** No call and no empty tuple *)

Lemma may_call_flat ts rest :
  forallb flat ts = true -> ts <> [] ->
  may_call (ts ++ TRPar :: rest) = may_call (TRPar :: rest).
Proof.
  induction ts as [|x [|y ts] IH]; [done| |].
  - intros [Hx _]%andb_true_iff _. by destruct x.
  - intros [Hx Hts]%andb_true_iff _.
    rewrite <- IH by done.
    cbn [forallb] in Hts. apply andb_true_iff in Hts as [Hy _].
    by destruct x, y.
Qed.

Lemma may_call_parens ts rest :
  forallb flat ts = true -> ts <> [] ->
  may_call (parens ts ++ rest) = may_call (TRPar :: rest).
Proof.
  intros Hts Hne. unfold parens. rewrite <- app_comm_cons, <- app_assoc.
  rewrite <- (may_call_flat ts rest) by done.
  destruct ts as [|x ts]; [done|].
  cbn [forallb] in Hts. apply andb_true_iff in Hts as [Hx _].
  by destruct x.
Qed.

Lemma may_call_joinl_parens op (parts : list (list token)) :
  flat op = true -> ends_atom op = false ->
  Forall (fun ts => forallb flat ts = true /\ ts <> []) parts ->
  may_call (joinl [op] (map parens parts)) = false.
Proof.
  intros Hop Hatom. induction 1 as [|ts parts [Hts Hne] Hparts IH]; [done|].
  destruct parts as [|q parts].
  - cbn [map joinl]. rewrite <- (app_nil_r (parens ts)).
    by rewrite may_call_parens.
  - change (joinl [op] (map parens (ts :: q :: parts)))
      with (parens ts ++ [op] ++ joinl [op] (map parens (q :: parts))).
    rewrite may_call_parens by done.
    assert (Hj : exists j, joinl [op] (map parens (q :: parts)) = TLPar :: j).
    { destruct parts; by eexists. }
    destruct Hj as [j Hj]. rewrite Hj in *. cbn [app].
    destruct op; try done; exact IH.
Qed.

Lemma chain_tokens_flat op literals :
  flat op = true -> literals <> [] ->
  forallb flat (chain_tokens op literals) = true /\ chain_tokens op literals <> [].
Proof.
  intros Hop Hne. split.
  - apply forallb_joinl; [by rewrite forallb_forall; intros ? [<-|[]]|].
    apply Forall_forall. intros p (l & -> & _)%list_elem_of_fmap.
    by destruct (fst l).
  - destruct literals as [|[[] b] [|l ls]]; done.
Qed.

End ParseFacts.

(** [evaluate] on an expression given by its pieces. *)
Module FormFacts.
Import PyStr PyEval BooleanAlgebra FormsSpec Canonical.
Import StrFacts DictFacts NormFacts PieceFacts SubstFacts LexFacts ParseFacts.

(** ** The pieces of the canonical forms *)

Lemma words_app a b : words (a ++ b) = words a ++ words b.
Proof. apply flat_map_app. Qed.

Lemma words_literals c (negated : str -> bool) variables w :
  In w (words (Sep (sym "(")
               :: joinl [Sep c] (map (fun var => literal_pieces (negated var) var) variables)
               ++ [Sep (sym ")")])) ->
  In w variables.
Proof.
  change (words (Sep ?x :: ?l)) with (words l).
  rewrite words_app, app_nil_r. unfold words. rewrite flat_map_joinl.
  intros [[]|(p & Hp & Hw)]%In_joinl.
  apply in_map_iff in Hp as (q & <- & Hq).
  apply in_map_iff in Hq as (var & <- & Hvar).
  destruct (negated var); simpl in Hw; by destruct Hw as [<-|[]].
Qed.

Lemma words_pdnf tt w :
  In w (words (pdnf_pieces tt)) -> In w (TruthTable.variables tt) \/ w = py "0".
Proof.
  unfold pdnf_pieces. destruct (List.filter _ _) as [|r rs].
  - intros [<-|[]]. by right.
  - unfold words. rewrite flat_map_joinl. intros [[]|(p & Hp & Hw)]%In_joinl.
    apply in_map_iff in Hp as (q & <- & Hq).
    apply in_map_iff in Hq as (row & <- & _).
    left. apply (words_literals (sym "&") (fun var => negb (value row var))).
    exact Hw.
Qed.

Lemma words_pcnf tt w :
  In w (words (pcnf_pieces tt)) -> In w (TruthTable.variables tt) \/ w = py "1".
Proof.
  unfold pcnf_pieces. destruct (List.filter _ _) as [|r rs].
  - intros [<-|[]]. by right.
  - unfold words. rewrite flat_map_joinl. intros [[]|(p & Hp & Hw)]%In_joinl.
    apply in_map_iff in Hp as (q & <- & Hq).
    apply in_map_iff in Hq as (row & <- & _).
    left. apply (words_literals (sym "|") (fun var => value row var)).
    exact Hw.
Qed.

Lemma structural_literals c (negated : str -> bool) variables :
  structural c = true ->
  structural_seps
    (Sep (sym "(")
     :: joinl [Sep c] (map (fun var => literal_pieces (negated var) var) variables)
     ++ [Sep (sym ")")]) = true.
Proof.
  intros Hc. unfold structural_seps. cbn [forallb]. rewrite forallb_app.
  rewrite forallb_joinl; [done|by cbn [forallb]; rewrite Hc|].
  apply Forall_forall. intros p (var & -> & _)%list_elem_of_fmap.
  by destruct (negated var).
Qed.

Lemma structural_pdnf tt : structural_seps (pdnf_pieces tt) = true.
Proof.
  unfold pdnf_pieces. destruct (List.filter _ _) as [|r rs]; [done|].
  apply forallb_joinl; [done|].
  apply Forall_forall. intros p (row & -> & _)%list_elem_of_fmap.
  by apply structural_literals.
Qed.

Lemma structural_pcnf tt : structural_seps (pcnf_pieces tt) = true.
Proof.
  unfold pcnf_pieces. destruct (List.filter _ _) as [|r rs]; [done|].
  apply forallb_joinl; [done|].
  apply Forall_forall. intros p (row & -> & _)%list_elem_of_fmap.
  by apply structural_literals.
Qed.

(** ** [strip] leaves the canonical forms as they are *)

Lemma strip_parenthesised parts sep :
  Forall (fun p : str => exists m, p = sym "(" :: m ++ [sym ")"]) parts ->
  parts <> [] -> strip (join sep parts) = join sep parts.
Proof.
  intros H Hne. rewrite join_joinl.
  destruct (joinl_ends _ _ sep parts Hne H) as [m ->].
  by apply strip_by_ends.
Qed.

Lemma strip_pdnf tt : strip (pdnf_spec tt) = pdnf_spec tt.
Proof.
  unfold pdnf_spec. destruct (List.filter _ _) as [|r rs]; [done|].
  apply strip_parenthesised; [|done].
  apply Forall_forall. intros p (row & -> & _)%list_elem_of_fmap. by eexists.
Qed.

Lemma strip_pcnf tt : strip (pcnf_spec tt) = pcnf_spec tt.
Proof.
  unfold pcnf_spec. destruct (List.filter _ _) as [|r rs]; [done|].
  apply strip_parenthesised; [|done].
  apply Forall_forall. intros p (row & -> & _)%list_elem_of_fmap. by eexists.
Qed.

Section Evaluate.
Variable uni_isalpha : char -> bool.
Variable uni_isalnum : char -> bool.
Local Abbreviation W := (isword uni_isalnum).
Local Abbreviation wf := (Canonical.wf W).
Local Abbreviation word_ok := (Canonical.word_ok W).
Local Abbreviation key_ok := (Canonical.key_ok W).

Lemma wf_assign values l : wf l = true -> wf (map (assign values) l) = true.
Proof.
  induction l as [|[w|c] l IH]; cbn [map assign Canonical.wf]; [done| |].
  - intros [Hwf Hl]%andb_true_iff. apply andb_true_iff in Hwf as [Hw Hs].
    rewrite IH by done. rewrite andb_true_r.
    apply andb_true_intro. split; [|by destruct l as [|[] l]].
    destruct (PyDict.get w values) as [b|]; [|exact Hw].
    apply (word_ok_bool_word uni_isalnum).
  - intros [-> Hl]%andb_true_iff. by apply IH.
Qed.

Lemma const_assign values l :
  structural_seps l = true ->
  (forall w, In w (words l) ->
             PyDict.mem w values = true \/ existsb (eqb w) constants = true) ->
  const_pieces (map (assign values) l) = true.
Proof.
  induction l as [|[w|c] l IH]; [done| |];
    cbn [map assign]; rewrite const_pieces_cons;
    unfold structural_seps; cbn [forallb words flat_map];
    intros [Hp Hl]%andb_true_iff Hwords.
  - rewrite IH; [|done|by intros; apply Hwords; right].
    rewrite andb_true_r. destruct (Hwords w) as [H|H]; [by left| |].
    + unfold PyDict.mem in H. destruct (PyDict.get w values) as [[]|]; done.
    + destruct (PyDict.get w values) as [[]|]; done.
  - rewrite Hp. by apply IH.
Qed.

Lemma no_empty_key (values : PyDict.dict bool) :
  forallb key_ok values = true ->
  existsb (fun kv => eqb (fst kv) []) values = false.
Proof.
  induction values as [|kv values IH]; [done|]. simpl.
  intros [Hkv H]%andb_true_iff. rewrite IH by done.
  unfold Canonical.key_ok, Canonical.word_ok in Hkv.
  destruct (eqb (fst kv) []); done.
Qed.

(** [evaluate] on an expression given by its pieces: the outcome is the
    one of the tokens of the pieces after the substitutions. *)
Lemma evaluate_pieces (values : PyDict.dict bool) l :
  strip (render l) = render l ->
  wf l = true -> structural_seps l = true ->
  forallb key_ok values = true ->
  (forall w, In w (words l) ->
     (PyDict.mem w values = true \/ existsb (eqb w) constants = true)
     /\ forall step, In step normalize_steps -> contains (fst step) w = false) ->
  BooleanExpression.evaluate uni_isalnum
    (BooleanExpression.new uni_isalpha (render l)) values
  = eval_tokens (flat_map piece_tokens (map (assign values) l)).
Proof.
  intros Hstrip Hwf Hst Hkeys Hwords.
  unfold BooleanExpression.evaluate, BooleanExpression.new.
  cbn [BooleanExpression.normalized].
  rewrite no_empty_key by done.
  rewrite _normalize_steps, Hstrip.
  rewrite (run_steps_render uni_isalnum) by (try done; intros; by apply Hwords).
  rewrite (fold_sub_word_render uni_isalnum) by done.
  rewrite python_operator_replace.
  set (l' := map (assign values) l).
  assert (Hc : const_pieces l' = true).
  { apply const_assign; [done|]. intros w Hw. by apply Hwords. }
  pose proof (python_operator_ascii l' Hc) as Hascii.
  set (s := flat_map python_operator (render l')) in *.
  assert (Habs : forall op, (128 <= op)%N -> existsb (N.eqb op) s = false).
  { intros op Hop. by apply existsb_above. }
  rewrite (rewrite_binop_absent uni_isalnum _ (sym "→") _ s) by (by apply Habs).
  rewrite (rewrite_binop_absent uni_isalnum _ (sym "≡") _ s) by (by apply Habs).
  rewrite (rewrite_binop_absent uni_isalnum _ (sym "↑") _ s) by (by apply Habs).
  rewrite (rewrite_binop_absent uni_isalnum _ (sym "↓") _ s) by (by apply Habs).
  apply eval_bool_tokens. unfold tokenize.
  apply (lex_pieces W); [by apply wf_assign|done].
Qed.

End Evaluate.

End FormFacts.

(** The tokens, the syntax tree and the value of PDNF and PCNF. *)
Module RoundTrip.
Import PyStr PyEval BooleanAlgebra FormsSpec Canonical.
Import StrFacts DictFacts NormFacts VarFacts PieceFacts SubstFacts LexFacts ParseFacts.
Import ResultFacts TableFacts FormFacts.

(** ** The tokens of the forms after the substitutions *)

Lemma tokens_literal (values : PyDict.dict bool) negated var b :
  PyDict.get var values = Some b ->
  flat_map piece_tokens (map (assign values) (literal_pieces negated var))
  = literal_tokens negated b.
Proof. intros H. destruct negated; simpl; rewrite H; by destruct b. Qed.

Lemma tokens_parens c op (negated val : str -> bool) variables
    (values : PyDict.dict bool) :
  piece_tokens (Sep c) = [op] ->
  (forall var, In var variables -> PyDict.get var values = Some (val var)) ->
  flat_map piece_tokens
    (map (assign values)
       (Sep (sym "(")
        :: joinl [Sep c] (map (fun var => literal_pieces (negated var) var) variables)
        ++ [Sep (sym ")")]))
  = parens (chain_tokens op (map (fun var => (negated var, val var)) variables)).
Proof.
  intros Hop Hget. unfold parens, chain_tokens.
  cbn [map flat_map]. change (piece_tokens (assign values (Sep (sym "(")))) with [TLPar].
  cbn [app]. f_equal. rewrite map_app, flat_map_app. f_equal.
  rewrite map_joinl, flat_map_joinl. f_equal.
  - simpl. change (Sep c) with (assign values (Sep c)) in Hop.
    by rewrite app_nil_r.
  - rewrite !map_map. apply map_ext_in. intros var Hvar. cbn [fst snd].
    by apply tokens_literal, Hget.
Qed.

Lemma tokens_pdnf tt at_row :
  PyDict.get (py "0") (inputs at_row) = None ->
  (forall var, In var (TruthTable.variables tt) ->
               PyDict.get var (inputs at_row) = Some (value at_row var)) ->
  flat_map piece_tokens (map (assign (inputs at_row)) (pdnf_pieces tt))
  = pdnf_tokens tt at_row.
Proof.
  intros H0 Hget. unfold pdnf_pieces, pdnf_tokens.
  destruct (List.filter _ _) as [|r rs].
  - simpl. by rewrite H0.
  - rewrite map_joinl, flat_map_joinl. f_equal.
    rewrite !map_map. apply map_ext. intros row.
    by apply (tokens_parens (sym "&") TAnd).
Qed.

Lemma tokens_pcnf tt at_row :
  PyDict.get (py "1") (inputs at_row) = None ->
  (forall var, In var (TruthTable.variables tt) ->
               PyDict.get var (inputs at_row) = Some (value at_row var)) ->
  flat_map piece_tokens (map (assign (inputs at_row)) (pcnf_pieces tt))
  = pcnf_tokens tt at_row.
Proof.
  intros H1 Hget. unfold pcnf_pieces, pcnf_tokens.
  destruct (List.filter _ _) as [|r rs].
  - simpl. by rewrite H1.
  - rewrite map_joinl, flat_map_joinl. f_equal.
    rewrite !map_map. apply map_ext. intros row.
    by apply (tokens_parens (sym "|") TOr).
Qed.

(** ** Their evaluation *)

Lemma length_chain_tokens op literals :
  length literals <= length (chain_tokens op literals).
Proof.
  destruct literals as [|l ls]; [simpl; lia|].
  unfold chain_tokens.
  etrans; [|apply (length_joinl 0); [done|]].
  - by rewrite length_map.
  - apply Forall_forall. intros p (q & -> & _)%list_elem_of_fmap.
    destruct (fst q); simpl; lia.
Qed.

Lemma chain_and_parses literals :
  literals <> [] ->
  and_parses (3 + length literals) (chain_tokens TAnd literals)
             (and_chain (chain_exprs literals)).
Proof.
  intros Hne.
  pose proof (and_chain_parses 3
    (map (fun l => (literal_tokens (fst l) (snd l), literal_expr (fst l) (snd l)))
         literals)) as H.
  rewrite !map_map, length_map in H. apply H.
  - by destruct literals.
  - apply Forall_forall. intros p (l & -> & _)%list_elem_of_fmap.
    apply literal_not_parses.
Qed.

Lemma chain_or_parses literals :
  literals <> [] ->
  or_parses (4 + length literals) (chain_tokens TOr literals)
            (or_chain (chain_exprs literals)).
Proof.
  intros Hne.
  pose proof (or_chain_parses 4
    (map (fun l => (literal_tokens (fst l) (snd l), literal_expr (fst l) (snd l)))
         literals)) as H.
  rewrite !map_map, length_map in H. apply H.
  - by destruct literals.
  - apply Forall_forall. intros p (l & -> & _)%list_elem_of_fmap.
    apply not_and_parses, literal_not_parses.
Qed.

(** [eval_tokens] on a chain of parenthesised chains, parsed as [e]. *)
Lemma eval_tokens_parsed k ts e :
  may_call ts = false -> or_parses k ts e -> k <= 6 * length ts + 6 ->
  eval_tokens ts = Ret (truthy (eval_expr e)).
Proof.
  intros Hcall Hparse Hk. unfold eval_tokens. rewrite Hcall.
  specialize (Hparse (6 * length ts + 6) [] Hk eq_refl eq_refl eq_refl).
  rewrite app_nil_r in Hparse. by rewrite Hparse.
Qed.

Lemma eval_pdnf_tokens tt at_row :
  TruthTable.variables tt <> [] ->
  eval_tokens (pdnf_tokens tt at_row) = Ret (truthy (eval_expr (pdnf_expr tt at_row))).
Proof.
  intros Hvars. unfold pdnf_tokens, pdnf_expr.
  set (variables := TruthTable.variables tt) in *.
  set (n := length variables).
  destruct (List.filter _ _) as [|r rs]; [reflexivity|].
  set (rows := r :: rs).
  set (lits := fun row => term_literals variables at_row row).
  assert (Hlits : forall row, lits row <> [] /\ length (lits row) = n).
  { intros row. unfold lits, term_literals. rewrite length_map. split; [|done].
    by destruct variables. }
  set (parts := map (fun row => (parens (chain_tokens TAnd (lits row)),
                                 and_chain (chain_exprs (lits row)))) rows).
  assert (Hfst : map (fun row => parens (chain_tokens TAnd (lits row))) rows
                 = map fst parts) by (unfold parts; by rewrite map_map).
  assert (Hsnd : map (fun row => and_chain (chain_exprs (lits row))) rows
                 = map snd parts) by (unfold parts; by rewrite map_map).
  change (eval_tokens (joinl [TOr] (map (fun row => parens (chain_tokens TAnd (lits row))) rows))
          = Ret (truthy (eval_expr (or_chain
              (map (fun row => and_chain (chain_exprs (lits row))) rows))))).
  rewrite Hsnd. apply (eval_tokens_parsed (7 + n + length parts)).
  - rewrite <- (map_map (fun row => chain_tokens TAnd (lits row)) parens).
    apply may_call_joinl_parens; [done..|].
    apply Forall_forall. intros p (row & -> & _)%list_elem_of_fmap.
    apply chain_tokens_flat; [done|apply Hlits].
  - rewrite Hfst. apply or_chain_parses; [done|].
    apply Forall_forall. intros p (row & -> & _)%list_elem_of_fmap. cbn [fst snd].
    destruct (Hlits row) as [Hne <-].
    by apply not_and_parses, paren_not_parses, and_or_parses, chain_and_parses.
  - rewrite Hfst.
    assert (n + 1 + length (map fst parts) <= length (joinl [TOr] (map fst parts))).
    { apply length_joinl; [done|].
      apply Forall_forall. intros p (q & -> & Hq)%list_elem_of_fmap.
      apply list_elem_of_fmap in Hq as (row & -> & _). cbn [fst].
      unfold parens. simpl. rewrite length_app. simpl.
      pose proof (length_chain_tokens TAnd (lits row)).
      destruct (Hlits row) as [_ Hn]. lia. }
    rewrite length_map in H. lia.
Qed.

Lemma eval_pcnf_tokens tt at_row :
  TruthTable.variables tt <> [] ->
  eval_tokens (pcnf_tokens tt at_row) = Ret (truthy (eval_expr (pcnf_expr tt at_row))).
Proof.
  intros Hvars. unfold pcnf_tokens, pcnf_expr.
  set (variables := TruthTable.variables tt) in *.
  set (n := length variables).
  destruct (List.filter _ _) as [|r rs]; [reflexivity|].
  set (rows := r :: rs).
  set (lits := fun row => clause_literals variables at_row row).
  assert (Hlits : forall row, lits row <> [] /\ length (lits row) = n).
  { intros row. unfold lits, clause_literals. rewrite length_map. split; [|done].
    by destruct variables. }
  set (parts := map (fun row => (parens (chain_tokens TOr (lits row)),
                                 or_chain (chain_exprs (lits row)))) rows).
  assert (Hfst : map (fun row => parens (chain_tokens TOr (lits row))) rows
                 = map fst parts) by (unfold parts; by rewrite map_map).
  assert (Hsnd : map (fun row => or_chain (chain_exprs (lits row))) rows
                 = map snd parts) by (unfold parts; by rewrite map_map).
  change (eval_tokens (joinl [TAnd] (map (fun row => parens (chain_tokens TOr (lits row))) rows))
          = Ret (truthy (eval_expr (and_chain
              (map (fun row => or_chain (chain_exprs (lits row))) rows))))).
  rewrite Hsnd. apply (eval_tokens_parsed (7 + n + length parts)).
  - rewrite <- (map_map (fun row => chain_tokens TOr (lits row)) parens).
    apply may_call_joinl_parens; [done..|].
    apply Forall_forall. intros p (row & -> & _)%list_elem_of_fmap.
    apply chain_tokens_flat; [done|apply Hlits].
  - rewrite Hfst. apply and_or_parses.
    apply (and_chain_parses (6 + n)); [done|].
    apply Forall_forall. intros p (row & -> & _)%list_elem_of_fmap. cbn [fst snd].
    destruct (Hlits row) as [Hne <-].
    by apply paren_not_parses, chain_or_parses.
  - rewrite Hfst.
    assert (n + 1 + length (map fst parts) <= length (joinl [TAnd] (map fst parts))).
    { apply length_joinl; [done|].
      apply Forall_forall. intros p (q & -> & Hq)%list_elem_of_fmap.
      apply list_elem_of_fmap in Hq as (row & -> & _). cbn [fst].
      unfold parens. simpl. rewrite length_app. simpl.
      pose proof (length_chain_tokens TOr (lits row)).
      destruct (Hlits row) as [_ Hn]. lia. }
    rewrite length_map in H. lia.
Qed.

(** ** Their value *)

Lemma forallb_map {A B} (f : B -> bool) (g : A -> B) l :
  forallb f (map g l) = forallb (fun x => f (g x)) l.
Proof. induction l as [|x l IH]; [done|]. simpl. by rewrite IH. Qed.

Lemma existsb_map {A B} (f : B -> bool) (g : A -> B) l :
  existsb f (map g l) = existsb (fun x => f (g x)) l.
Proof. induction l as [|x l IH]; [done|]. simpl. by rewrite IH. Qed.

Lemma forallb_ext {A} (f g : A -> bool) l :
  (forall x, f x = g x) -> forallb f l = forallb g l.
Proof. intros H. induction l as [|x l IH]; [done|]. simpl. by rewrite H, IH. Qed.

Lemma existsb_ext {A} (f g : A -> bool) l :
  (forall x, f x = g x) -> existsb f l = existsb g l.
Proof. intros H. induction l as [|x l IH]; [done|]. simpl. by rewrite H, IH. Qed.

Lemma existsb_xorb {A} (f g : A -> bool) l :
  existsb (fun x => xorb (f x) (g x)) l
  = negb (forallb (fun x => Bool.eqb (f x) (g x)) l).
Proof.
  induction l as [|x l IH]; [done|]. simpl. rewrite IH.
  by destruct (f x), (g x), (forallb _ l).
Qed.

Lemma truthy_pdnf_expr tt at_row :
  truthy (eval_expr (pdnf_expr tt at_row))
  = existsb (agrees (TruthTable.variables tt) at_row)
            (List.filter (fun row => output row) (TruthTable.rows tt)).
Proof.
  unfold pdnf_expr. rewrite truthy_or_chain, existsb_map.
  apply existsb_ext. intros row.
  rewrite truthy_and_chain. unfold chain_exprs, term_literals, agrees.
  rewrite !forallb_map. apply forallb_ext. intros var. cbn [fst snd].
  rewrite truthy_literal. by destruct (value row var), (value at_row var).
Qed.

Lemma truthy_pcnf_expr tt at_row :
  truthy (eval_expr (pcnf_expr tt at_row))
  = forallb (fun row => negb (agrees (TruthTable.variables tt) at_row row))
            (List.filter (fun row => negb (output row)) (TruthTable.rows tt)).
Proof.
  unfold pcnf_expr. rewrite truthy_and_chain, forallb_map.
  apply forallb_ext. intros row.
  rewrite truthy_or_chain. unfold chain_exprs, clause_literals, agrees.
  rewrite !existsb_map. cbn [fst snd].
  rewrite <- existsb_xorb. apply existsb_ext. intros var.
  by rewrite truthy_literal.
Qed.

End RoundTrip.

(** Generated tables, and the round trip. *)
Module RoundTripFacts.
Import PyStr PyEval BooleanAlgebra FormsSpec Canonical.
Import StrFacts DictFacts NormFacts VarFacts PieceFacts SubstFacts LexFacts ParseFacts.
Import ResultFacts TableFacts FormFacts RoundTrip.

(** ** Dictionaries made by [dict(zip(...))] *)

Lemma fold_set_NoDup {V} (l d : list (str * V)) :
  NoDup (PyDict.keys d ++ map fst l) ->
  fold_left (fun d kv => PyDict.set (fst kv) (snd kv) d) l d = d ++ l.
Proof.
  revert d. induction l as [|[k v] l IH]; intros d Hnd; simpl.
  - by rewrite app_nil_r.
  - simpl in Hnd. rewrite set_absent.
    + rewrite IH; [by rewrite <- app_assoc|].
      unfold PyDict.keys in *. rewrite map_app, <- app_assoc. done.
    + apply get_None_keys. apply NoDup_app in Hnd as (_ & Hd & _).
      intros Hk. apply (Hd k Hk). by left.
Qed.

Lemma of_pairs_NoDup {V} (l : list (str * V)) :
  NoDup (map fst l) -> PyDict.of_pairs l = l.
Proof. intros H. unfold PyDict.of_pairs. by rewrite fold_set_NoDup. Qed.

Lemma get_cons_ne {V} k k' (v : V) d :
  k <> k' -> PyDict.get k ((k', v) :: d) = PyDict.get k d.
Proof. intros H%eqb_neq. simpl. by rewrite H. Qed.

Lemma get_cons_eq {V} k (v : V) d : PyDict.get k ((k, v) :: d) = Some v.
Proof. simpl. by rewrite eqb_refl. Qed.

(** Two assignments of the same distinct variables that agree on every
    variable are the same. *)
Lemma combine_agree (variables : list str) (c c' : list bool) :
  NoDup variables -> length c = length variables -> length c' = length variables ->
  forallb (fun var => Bool.eqb (default false (PyDict.get var (combine variables c')))
                               (default false (PyDict.get var (combine variables c))))
          variables = true ->
  c = c'.
Proof.
  revert c c'. induction variables as [|v vs IH]; intros [|b c] [|b' c'] Hnd Hc Hc';
    simpl in Hc, Hc'; try done.
  apply NoDup_cons in Hnd as [Hv Hnd].
  cbn [forallb combine]. intros [Hb Hrest]%andb_true_iff.
  rewrite !get_cons_eq in Hb. simpl in Hb. apply eqb_prop in Hb as ->.
  f_equal. apply IH; [done|lia|lia|].
  apply forallb_forall. intros u Hu.
  eapply forallb_forall in Hrest; [|exact Hu].
  assert (u <> v) by (intros ->; by apply Hv, list_elem_of_In).
  by rewrite !get_cons_ne in Hrest.
Qed.

Lemma forallb_false {A} (f : A -> bool) l x :
  In x l -> f x = false -> forallb f l = false.
Proof.
  intros Hin Hx. destruct (forallb f l) eqn:E; [|done].
  eapply forallb_forall in E; [|done]. congruence.
Qed.

Lemma agrees_refl variables row : agrees variables row row = true.
Proof. unfold agrees. apply forallb_forall. intros. apply eqb_reflx. Qed.

(** The spellings of the operators are absent from the constants. *)
Lemma constants_clean w step :
  existsb (eqb w) constants = true -> In step normalize_steps ->
  contains (fst step) w = false.
Proof.
  intros Hw Hin.
  assert (H : forallb (fun c => forallb (fun st => negb (contains (fst st) c))
                                        normalize_steps) constants = true)
    by (vm_compute; reflexivity).
  apply existsb_exists in Hw as (c & Hc & ->%eqb_eq).
  eapply forallb_forall in H; [|exact Hc].
  eapply forallb_forall in H; [|exact Hin]. by apply negb_true_iff in H.
Qed.

Section Generated.
Variable uni_isalpha : char -> bool.
Variable uni_isalnum : char -> bool.
Local Abbreviation W := (isword uni_isalnum).
Local Abbreviation generate_truth_table :=
  (BooleanAlgebra.generate_truth_table uni_isalpha uni_isalnum).
Local Abbreviation evaluate_form := (fun form values =>
  BooleanExpression.evaluate uni_isalnum (BooleanExpression.new uni_isalpha form) values).

(** What is known of a generated table. *)
Lemma generated_table expression tt :
  generate_truth_table expression = Ret tt ->
  let variables := TruthTable.variables tt in
  variables <> []
  /\ NoDup variables
  /\ (forall var, In var variables ->
        BooleanExpression.starts_alpha uni_isalpha var = true
        /\ forall step, In step normalize_steps -> contains (fst step) var = false)
  /\ (forall row, In row (TruthTable.rows tt) ->
        exists combination,
          length combination = length variables
          /\ inputs row = combine variables combination)
  /\ (forall row row', In row (TruthTable.rows tt) -> In row' (TruthTable.rows tt) ->
        inputs row = inputs row' -> output row = output row').
Proof.
  intros Hgen variables.
  pose proof (generate_truth_table_inv _ _ _ _ Hgen) as (Hvars & Hne & Hrows).
  fold variables in Hvars, Hne, Hrows.
  assert (Hnd : NoDup variables).
  { rewrite Hvars. apply _extract_variables_NoDup. }
  assert (Hrow : forall row, In row (TruthTable.rows tt) ->
            exists combination,
              length combination = length variables
              /\ inputs row = combine variables combination
              /\ BooleanExpression.evaluate uni_isalnum
                   (BooleanExpression.new uni_isalpha expression) (inputs row)
                 = Ret (output row)).
  { intros row [i Hi]%list_elem_of_In%list_elem_of_lookup.
    destruct (Forall2_lookup_r _ _ _ _ _ Hrows Hi) as (comb & Hc & Hin & Hev).
    apply list_elem_of_lookup_2, product_length in Hc.
    exists comb. split_and!; [done| |done].
    rewrite Hin. apply of_pairs_NoDup. rewrite fst_combine by lia. done. }
  split_and!; [done|done| | |].
  - intros var Hvar. rewrite Hvars in Hvar.
    apply list_elem_of_In, _extract_variables_elem in Hvar as [Ha (pre & post & Hf)].
    split; [done|]. intros step Hstep.
    pose proof (_normalize_removes expression step Hstep) as Habs.
    change (BooleanExpression._normalize expression = pre ++ var ++ post) in Hf.
    destruct (contains (fst step) var) eqn:E; [|done].
    by rewrite Hf, contains_factor in Habs.
  - intros row Hin. destruct (Hrow row Hin) as (comb & ? & ? & _). by exists comb.
  - intros row row' Hin Hin' Heq.
    destruct (Hrow row Hin) as (_ & _ & _ & H1).
    destruct (Hrow row' Hin') as (_ & _ & _ & H2).
    rewrite Heq in H1. congruence.
Qed.

Section Table.
Variable expression : str.
Variable tt : TruthTable.t.
Hypothesis Hgen : generate_truth_table expression = Ret tt.
Hypothesis Hplain : forallb (plain_name W) (TruthTable.variables tt) = true.

Local Abbreviation variables := (TruthTable.variables tt).

Lemma variables_word_ok : forallb (word_ok W) variables = true.
Proof using All.
  destruct (generated_table _ _ Hgen) as (_ & _ & Hvar & _).
  apply forallb_forall. intros var Hin.
  eapply forallb_forall in Hplain; [|exact Hin].
  unfold plain_name in Hplain. apply andb_true_iff in Hplain as [Hp _].
  apply andb_true_iff in Hp as [Hw _].
  destruct (Hvar var Hin) as [Ha _].
  unfold word_ok. rewrite Hw, andb_true_r. by destruct var.
Qed.

Lemma row_keys_ok row :
  In row (TruthTable.rows tt) -> forallb (key_ok W) (inputs row) = true.
Proof using All.
  intros Hrow. destruct (generated_table _ _ Hgen) as (_ & _ & _ & Hrows & _).
  destruct (Hrows row Hrow) as (comb & Hlen & ->).
  apply forallb_forall. intros [var b] Hin%in_combine_l.
  pose proof variables_word_ok as Hw.
  eapply forallb_forall in Hw; [|exact Hin].
  eapply forallb_forall in Hplain; [|exact Hin].
  unfold plain_name in Hplain. apply andb_true_iff in Hplain as [Hp HF].
  apply andb_true_iff in Hp as [_ HT].
  unfold key_ok. cbn [fst]. by rewrite Hw, HT, HF.
Qed.

Lemma row_defined row var :
  In row (TruthTable.rows tt) -> In var variables ->
  PyDict.get var (inputs row) = Some (value row var).
Proof using All.
  intros Hrow Hvar.
  pose proof (generated_rows_defined _ _ _ _ Hgen) as Hdef.
  unfold defined_rows in Hdef.
  eapply forallb_forall in Hdef; [|exact Hrow].
  eapply forallb_forall in Hdef; [|exact Hvar].
  unfold PyDict.mem in Hdef. unfold value.
  by destruct (PyDict.get var (inputs row)).
Qed.

Lemma row_no_digit row (digit : str) :
  In row (TruthTable.rows tt) ->
  BooleanExpression.starts_alpha uni_isalpha digit = false ->
  PyDict.get digit (inputs row) = None.
Proof using All.
  intros Hrow Hd. destruct (generated_table _ _ Hgen) as (_ & _ & Hvar & Hrows & _).
  destruct (Hrows row Hrow) as (comb & Hlen & ->).
  apply get_None_keys. unfold PyDict.keys. rewrite fst_combine by lia.
  intros Hin%list_elem_of_In. destruct (Hvar _ Hin) as [Ha _]. congruence.
Qed.

(** Rows that agree on the variables have the same output. *)
Lemma agrees_output row row' :
  In row (TruthTable.rows tt) -> In row' (TruthTable.rows tt) ->
  agrees variables row row' = true -> output row' = output row.
Proof using All.
  intros Hrow Hrow' Hag.
  destruct (generated_table _ _ Hgen) as (_ & Hnd & _ & Hrows & Hsame).
  destruct (Hrows row Hrow) as (c & Hc & Hi).
  destruct (Hrows row' Hrow') as (c' & Hc' & Hi').
  apply Hsame; [done..|]. rewrite Hi, Hi'. f_equal. symmetry.
  apply (combine_agree variables); [done..|].
  unfold agrees, value in Hag. by rewrite Hi, Hi' in Hag.
Qed.

Lemma existsb_agrees row :
  In row (TruthTable.rows tt) ->
  existsb (agrees variables row)
          (List.filter (fun row => output row) (TruthTable.rows tt))
  = output row.
Proof using All.
  intros Hrow. destruct (output row) eqn:Ho.
  - apply existsb_exists. exists row. split; [|apply agrees_refl].
    by apply filter_In.
  - destruct (existsb _ _) eqn:E; [|done].
    apply existsb_exists in E as (row' & [Hin' Ho']%filter_In & Hag).
    rewrite (agrees_output row row') in Ho' by done. congruence.
Qed.

Lemma forallb_agrees row :
  In row (TruthTable.rows tt) ->
  forallb (fun row' => negb (agrees variables row row'))
          (List.filter (fun row => negb (output row)) (TruthTable.rows tt))
  = output row.
Proof using All.
  intros Hrow. destruct (output row) eqn:Ho.
  - apply forallb_forall. intros row' [Hin' Ho']%filter_In.
    destruct (agrees variables row row') eqn:Hag; [|done].
    rewrite (agrees_output row row'), Ho in Ho' by done. done.
  - apply (forallb_false _ _ row).
    + apply filter_In. by rewrite Ho.
    + by rewrite agrees_refl.
Qed.

Lemma pieces_words_ok l row (digit : str) :
  In row (TruthTable.rows tt) ->
  existsb (eqb digit) constants = true ->
  (forall w, In w (words l) -> In w variables \/ w = digit) ->
  forall w, In w (words l) ->
    (PyDict.mem w (inputs row) = true \/ existsb (eqb w) constants = true)
    /\ forall step, In step normalize_steps -> contains (fst step) w = false.
Proof using All.
  intros Hrow Hdigit Hwords w Hw.
  destruct (generated_table _ _ Hgen) as (_ & _ & Hvar & _).
  destruct (Hwords w Hw) as [Hin| ->].
  - split; [|by apply Hvar]. left. unfold PyDict.mem.
    by rewrite (row_defined row w).
  - split; [by right|]. intros step Hstep. by apply constants_clean.
Qed.

Lemma round_trip_pdnf row :
  In row (TruthTable.rows tt) ->
  evaluate_form (pdnf_spec tt) (inputs row) = Ret (output row).
Proof using All.
  intros Hrow. destruct (generated_table _ _ Hgen) as (Hne & _).
  cbv beta. rewrite <- render_pdnf.
  rewrite evaluate_pieces.
  - rewrite tokens_pdnf, eval_pdnf_tokens, truthy_pdnf_expr, existsb_agrees; try done.
    + by apply row_no_digit.
    + intros var Hvar. by apply row_defined.
  - rewrite render_pdnf. apply strip_pdnf.
  - apply wf_pdnf, variables_word_ok.
  - apply structural_pdnf.
  - by apply row_keys_ok.
  - apply (pieces_words_ok _ row (py "0")); [done|done|]. apply words_pdnf.
Qed.

Lemma round_trip_pcnf row :
  In row (TruthTable.rows tt) ->
  evaluate_form (pcnf_spec tt) (inputs row) = Ret (output row).
Proof using All.
  intros Hrow. destruct (generated_table _ _ Hgen) as (Hne & _).
  cbv beta. rewrite <- render_pcnf.
  rewrite evaluate_pieces.
  - rewrite tokens_pcnf, eval_pcnf_tokens, truthy_pcnf_expr, forallb_agrees; try done.
    + by apply row_no_digit.
    + intros var Hvar. by apply row_defined.
  - rewrite render_pcnf. apply strip_pcnf.
  - apply wf_pcnf, variables_word_ok.
  - apply structural_pcnf.
  - by apply row_keys_ok.
  - apply (pieces_words_ok _ row (py "1")); [done|done|]. apply words_pcnf.
Qed.

End Table.

(** C5 (amended). For every expression whose truth table is generated
    and whose variables are names made of word characters other than
    [True] and [False], the PDNF and the PCNF strings are produced, and
    re-evaluating each of them as a fresh expression over the values of
    a row of the table returns the output of that row, for every row. *)
Theorem normal_forms_round_trip (expression : str) (tt : TruthTable.t) :
  generate_truth_table expression = Ret tt ->
  forallb (plain_name W) (TruthTable.variables tt) = true ->
  exists pdnf pcnf,
    calculate_pdnf tt = Ret pdnf
    /\ calculate_pcnf tt = Ret pcnf
    /\ forall row, In row (TruthTable.rows tt) ->
         BooleanExpression.evaluate uni_isalnum
           (BooleanExpression.new uni_isalpha pdnf) (inputs row) = Ret (output row)
         /\ BooleanExpression.evaluate uni_isalnum
              (BooleanExpression.new uni_isalpha pcnf) (inputs row) = Ret (output row).
Proof.
  intros Hgen Hplain. exists (pdnf_spec tt), (pcnf_spec tt).
  pose proof (generated_rows_defined _ _ _ _ Hgen) as Hdef.
  split_and!.
  - by apply calculate_pdnf_spec.
  - by apply calculate_pcnf_spec.
  - intros row Hrow. split.
    + by apply (round_trip_pdnf expression).
    + by apply (round_trip_pcnf expression).
Qed.

End Generated.

End RoundTripFacts.

Module RoundTripExamples.
Import PyStr BooleanAlgebra FormsSpec Canonical.

(** C5 as stated fails. [A< A] has the variables [A] and [A<]; its table
    is generated (every row is false, [x < x]), its PCNF is produced,
    and re-evaluating the PCNF over the first row raises: after the
    substitution of [A] the text is [(False or False<) and ...]. *)
Lemma round_trip_fails_on_odd_name :
  let uni := fun _ : char => false in
  let pcnf := py "(A|A<) & (A|!A<) & (!A|A<) & (!A|!A<)" in
  let row := {| inputs := [(py "A", false); (py "A<", false)]; output := false |} in
  generate_truth_table uni uni (py "A< A") = Ret odd_table
  /\ calculate_pdnf odd_table = Ret (py "0")
  /\ calculate_pcnf odd_table = Ret pcnf
  /\ In row (TruthTable.rows odd_table)
  /\ BooleanExpression.evaluate uni (BooleanExpression.new uni pcnf) (inputs row)
     = Raises
  /\ ~ (forall (uni_isalpha uni_isalnum : char -> bool) expression tt pcnf row,
          generate_truth_table uni_isalpha uni_isalnum expression = Ret tt ->
          calculate_pcnf tt = Ret pcnf ->
          In row (TruthTable.rows tt) ->
          BooleanExpression.evaluate uni_isalnum
            (BooleanExpression.new uni_isalpha pcnf) (inputs row) = Ret (output row)).
Proof.
  intros uni pcnf row.
  assert (Hgen : generate_truth_table uni uni (py "A< A") = Ret odd_table)
    by (vm_compute; reflexivity).
  assert (Hpcnf : calculate_pcnf odd_table = Ret pcnf) by (vm_compute; reflexivity).
  assert (Hrow : In row (TruthTable.rows odd_table)) by (by left).
  assert (Hev : BooleanExpression.evaluate uni (BooleanExpression.new uni pcnf)
                  (inputs row) = Raises) by (vm_compute; reflexivity).
  split_and!; [done|vm_compute; reflexivity|done..|].
  intros H. specialize (H uni uni _ _ _ _ Hgen Hpcnf Hrow). congruence.
Qed.

Lemma normal_forms_round_trip_witness :
  let uni := fun _ : char => false in
  let tt := table_AB false false false true in
  generate_truth_table uni uni (py "A&B") = Ret tt
  /\ forallb (plain_name (isword uni)) (TruthTable.variables tt) = true
  /\ exists pdnf pcnf,
       calculate_pdnf tt = Ret pdnf
       /\ calculate_pcnf tt = Ret pcnf
       /\ forall row, In row (TruthTable.rows tt) ->
            BooleanExpression.evaluate uni (BooleanExpression.new uni pdnf)
              (inputs row) = Ret (output row)
            /\ BooleanExpression.evaluate uni (BooleanExpression.new uni pcnf)
                 (inputs row) = Ret (output row).
Proof.
  intros uni tt.
  assert (Hgen : generate_truth_table uni uni (py "A&B") = Ret tt)
    by (vm_compute; reflexivity).
  assert (Hplain : forallb (plain_name (isword uni)) (TruthTable.variables tt) = true)
    by (vm_compute; reflexivity).
  split; [exact Hgen|]. split; [exact Hplain|].
  exact (RoundTripFacts.normal_forms_round_trip uni uni (py "A&B") tt Hgen Hplain).
Defined.

End RoundTripExamples.

(** The shape of generated truth tables, the constant forms, the
    Zhegalkin triangle. *)
Module TableShape.
Import PyStr BooleanAlgebra FormsSpec Canonical TableSpec.
Import StrFacts NormFacts VarFacts ResultFacts TableFacts RoundTripFacts.

Lemma product_len n : length (product n) = 2 ^ n.
Proof. induction n as [|n IH]; simpl; [done|]. rewrite length_app, !length_map, IH. lia. Qed.

Lemma assignment_S k i :
  assignment (S k) i = Nat.odd (i / 2 ^ k) :: assignment k i.
Proof.
  unfold assignment. cbn [seq map]. f_equal.
  - unfold row_bit. by replace (S k - 1 - 0) with k by lia.
  - rewrite <- seq_shift, map_map. apply map_ext. intros j.
    unfold row_bit. by replace (S k - 1 - S j) with (k - 1 - j) by lia.
Qed.

Lemma row_bit_high k i j : j < k -> row_bit k (i + 2 ^ k) j = row_bit k i j.
Proof.
  intros Hj. unfold row_bit.
  replace (2 ^ k) with (2 * 2 ^ j * 2 ^ (k - 1 - j)).
  2: { rewrite <- Nat.pow_succ_r', <- Nat.pow_add_r. f_equal. lia. }
  rewrite Nat.div_add by (apply Nat.pow_nonzero; lia).
  apply Nat.odd_add_mul_2.
Qed.

Lemma assignment_high k i : assignment k (i + 2 ^ k) = assignment k i.
Proof.
  unfold assignment. apply map_ext_in. intros j Hj%in_seq. apply row_bit_high. lia.
Qed.

Lemma product_lookup n i : i < 2 ^ n -> product n !! i = Some (assignment n i).
Proof.
  revert i. induction n as [|n IH]; intros i Hi; simpl in Hi.
  - by assert (i = 0) as -> by lia.
  - cbn [product]. rewrite assignment_S.
    destruct (decide (i < 2 ^ n)) as [Hlt|Hge].
    + rewrite lookup_app_l by (rewrite length_map, product_len; lia).
      rewrite list_lookup_fmap, IH by done. simpl. by rewrite Nat.div_small.
    + destruct (Nat.le_exists_sub (2 ^ n) i) as (a & -> & _); [lia|].
      rewrite lookup_app_r by (rewrite length_map, product_len; lia).
      rewrite length_map, product_len, Nat.add_sub, list_lookup_fmap, IH by lia.
      simpl. rewrite assignment_high. do 2 f_equal.
      replace (a + 2 ^ n) with (a + 1 * 2 ^ n) by lia.
      rewrite Nat.div_add by (apply Nat.pow_nonzero; lia).
      by rewrite Nat.div_small by lia.
Qed.

Section Generated.
Variable uni_isalpha : char -> bool.
Variable uni_isalnum : char -> bool.

(** X1. A generated truth table has at least one variable, its
    variables strictly increasing in the order of [str]; over [n]
    variables it has [2 ^ n] rows, and row number [i] pairs the
    variables, in that order, with the binary digits of [i], the first
    variable being the most significant. *)
Theorem generated_table_shape expression tt :
  generate_truth_table uni_isalpha uni_isalnum expression = Ret tt ->
  let variables := TruthTable.variables tt in
  let n := length variables in
  variables <> []
  /\ increasing variables
  /\ length (TruthTable.rows tt) = 2 ^ n
  /\ forall i row, TruthTable.rows tt !! i = Some row ->
       inputs row = combine variables (assignment n i).
Proof.
  intros Hgen variables n.
  pose proof (generate_truth_table_inv _ _ _ _ Hgen) as (Hvars & Hne & Hrows).
  fold variables in Hvars, Hne, Hrows. fold n in Hrows.
  assert (Hlen : length (TruthTable.rows tt) = 2 ^ n).
  { rewrite <- (Forall2_length _ _ _ Hrows). apply product_len. }
  split_and!; [done| |done|].
  - rewrite Hvars. apply sorted_set_increasing.
  - intros i row Hi.
    destruct (Forall2_lookup_r _ _ _ _ _ Hrows Hi) as (comb & Hc & Hin & _).
    rewrite product_lookup in Hc.
    2: { rewrite <- Hlen. by eapply lookup_lt_Some. }
    injection Hc as <-. rewrite Hin. apply of_pairs_NoDup.
    rewrite fst_combine.
    + rewrite Hvars. apply _extract_variables_NoDup.
    + unfold assignment. rewrite length_map, length_seq. done.
Qed.

End Generated.

Lemma generated_table_shape_witness :
  let uni := fun _ : char => false in
  let tt := table_AB false false false true in
  generate_truth_table uni uni (py "A&B") = Ret tt
  /\ TruthTable.variables tt <> []
  /\ increasing (TruthTable.variables tt)
  /\ length (TruthTable.rows tt) = 2 ^ length (TruthTable.variables tt)
  /\ forall i row, TruthTable.rows tt !! i = Some row ->
       inputs row = combine (TruthTable.variables tt)
                            (assignment (length (TruthTable.variables tt)) i).
Proof.
  intros uni tt.
  assert (Hgen : generate_truth_table uni uni (py "A&B") = Ret tt)
    by (vm_compute; reflexivity).
  split; [exact Hgen|].
  exact (generated_table_shape uni uni (py "A&B") tt Hgen).
Defined.

(** ** The constant forms *)

Lemma join_cons_head sep x p rest :
  exists t, join sep ((x :: p) :: rest) = x :: t.
Proof. destruct rest; simpl; by eexists. Qed.

(** X2. The PDNF is the constant [0] exactly when no row of the table
    is true, and the PCNF is the constant [1] exactly when no row is
    false, whatever the rows hold. *)
Theorem constant_forms tt :
  (calculate_pdnf tt = Ret (py "0")
   <-> Forall (fun row => output row = false) (TruthTable.rows tt))
  /\ (calculate_pcnf tt = Ret (py "1")
      <-> Forall (fun row => output row = true) (TruthTable.rows tt)).
Proof.
  split.
  - unfold calculate_pdnf, TruthTable.get_minterms.
    destruct (List.filter _ _) as [|r rs] eqn:Hf.
    + split; [intros _|done]. apply Forall_forall. intros row Hrow%list_elem_of_In.
      destruct (output row) eqn:Ho; [|done].
      assert (Hin : In row (List.filter (fun row => output row) (TruthTable.rows tt)))
        by (by apply filter_In).
      by rewrite Hf in Hin.
    + split.
      * match goal with
        | |- bind ?m _ = _ -> _ => destruct m as [terms| |] eqn:Hm; simpl; [|done..]
        end.
        apply mapM_inv in Hm. apply Forall2_cons_inv_l in Hm as (t & ts & Ht & _ & ->).
        destruct (mapM _ _) as [lits| |]; simpl in Ht; [|done..].
        injection Ht as <-. change (py "(") with [40%N]. simpl.
        destruct ts; simpl; [destruct (_ ++ _)|]; done.
      * intros Hall. assert (Hin : In r (r :: rs)) by (by left).
        rewrite <- Hf in Hin. apply filter_In in Hin as [Hin Ho].
        eapply Forall_forall in Hall; [|by apply list_elem_of_In]. congruence.
  - unfold calculate_pcnf, TruthTable.get_maxterms.
    destruct (List.filter _ _) as [|r rs] eqn:Hf.
    + split; [intros _|done]. apply Forall_forall. intros row Hrow%list_elem_of_In.
      destruct (output row) eqn:Ho; [done|].
      assert (Hin : In row (List.filter (fun row => negb (output row)) (TruthTable.rows tt)))
        by (apply filter_In; by rewrite Ho).
      by rewrite Hf in Hin.
    + split.
      * match goal with
        | |- bind ?m _ = _ -> _ => destruct m as [terms| |] eqn:Hm; simpl; [|done..]
        end.
        apply mapM_inv in Hm. apply Forall2_cons_inv_l in Hm as (t & ts & Ht & _ & ->).
        destruct (mapM _ _) as [lits| |]; simpl in Ht; [|done..].
        injection Ht as <-. change (py "(") with [40%N]. simpl.
        destruct ts; simpl; [destruct (_ ++ _)|]; done.
      * intros Hall. assert (Hin : In r (r :: rs)) by (by left).
        rewrite <- Hf in Hin. apply filter_In in Hin as [Hin Ho].
        eapply Forall_forall in Hall; [|by apply list_elem_of_In].
        rewrite Hall in Ho. done.
Qed.

(** ** The Zhegalkin triangle *)

Lemma xor_adjacent_length l : length (xor_adjacent l) = length l - 1.
Proof.
  induction l as [|a [|b l] IH]; [done..|].
  cbn [xor_adjacent length] in *. rewrite IH. lia.
Qed.

Lemma triangle_entries n l :
  (n < length l -> exists cs, mapM first_entry (build_triangle n l) = Ret cs)
  /\ (length l <= n -> mapM first_entry (build_triangle n l) = Raises).
Proof.
  revert l. induction n as [|n IH]; intros l.
  - destruct l as [|x l]; simpl; split; try lia; try done. intros _. by eexists.
  - destruct l as [|x l]; [split; [simpl; lia|done]|].
    change (mapM first_entry (build_triangle (S n) (x :: l)))
      with (do bs <- mapM first_entry (build_triangle n (xor_adjacent (x :: l)));
            Ret (x :: bs)).
    destruct (IH (xor_adjacent (x :: l))) as [Hret Hraise].
    rewrite xor_adjacent_length in Hret, Hraise. simpl length in *.
    split; intros Hlen.
    + destruct Hret as [cs Hcs]; [lia|]. rewrite Hcs. simpl. by eexists.
    + rewrite Hraise by lia. done.
Qed.

Lemma calculate_zhegalkin_cases tt :
  (length (TruthTable.variables tt) < length (TruthTable.rows tt) ->
   exists s, calculate_zhegalkin tt = Ret s)
  /\ (length (TruthTable.rows tt) <= length (TruthTable.variables tt) ->
      calculate_zhegalkin tt = Raises).
Proof.
  unfold calculate_zhegalkin. cbv zeta.
  set (outputs := map _ (TruthTable.rows tt)).
  set (n := length (TruthTable.variables tt)).
  assert (Hlen : length outputs = length (TruthTable.rows tt))
    by apply length_map.
  rewrite <- Hlen.
  destruct (triangle_entries n outputs) as [Hret Hraise].
  split; intros H.
  - destruct (Hret H) as [cs ->]. unfold bind, result_bind.
    match goal with |- context [match ?t with [] => _ | _ :: _ => _ end] =>
      destruct t end; by eexists.
  - by rewrite Hraise.
Qed.

(** X3. [calculate_zhegalkin] returns a polynomial exactly when the
    table has more rows than variables, and raises (the [IndexError] of
    an exhausted row of the triangle) exactly when it has not. *)
Theorem calculate_zhegalkin_returns tt :
  ((exists s, calculate_zhegalkin tt = Ret s)
   <-> length (TruthTable.variables tt) < length (TruthTable.rows tt))
  /\ (calculate_zhegalkin tt = Raises
      <-> length (TruthTable.rows tt) <= length (TruthTable.variables tt)).
Proof.
  destruct (calculate_zhegalkin_cases tt) as [Hret Hraise].
  destruct (decide (length (TruthTable.variables tt) < length (TruthTable.rows tt)))
    as [Hlt|Hge].
  - destruct (Hret Hlt) as [s Hs]. rewrite Hs. split; split; try done; try lia.
    intros _. by exists s.
  - rewrite Hraise by lia. split; split; try done; try lia. by intros [s Hs].
Qed.

Lemma generated_rows_length uni_isalpha uni_isalnum expression tt :
  generate_truth_table uni_isalpha uni_isalnum expression = Ret tt ->
  length (TruthTable.rows tt) = 2 ^ length (TruthTable.variables tt).
Proof.
  intros (_ & _ & Hrows)%generate_truth_table_inv.
  rewrite <- (Forall2_length _ _ _ Hrows). apply product_len.
Qed.

Section Analyze.
Variable uni_isalpha : char -> bool.
Variable uni_isalnum : char -> bool.

(** X4. [analyze_boolean_function] fails only where the truth table
    cannot be generated: once [generate_truth_table] returns a table,
    the three forms are computed without an exception, the PDNF and the
    PCNF are the strings described above, and the result lists the rows
    of that table. *)
Theorem analyze_after_generate expression :
  match generate_truth_table uni_isalpha uni_isalnum expression with
  | Ret table =>
      exists z,
        calculate_zhegalkin table = Ret z
        /\ analyze_boolean_function uni_isalpha uni_isalnum expression
           = Ret {| BooleanAlgebra.expression := expression;
                    BooleanAlgebra.variables := TruthTable.variables table;
                    truth_table := map to_dict (TruthTable.rows table);
                    pdnf := pdnf_spec table; pcnf := pcnf_spec table; zhegalkin := z |}
  | Raises => analyze_boolean_function uni_isalpha uni_isalnum expression = Raises
  | Unmodelled =>
      analyze_boolean_function uni_isalpha uni_isalnum expression = Unmodelled
  end.
Proof.
  unfold analyze_boolean_function.
  destruct (generate_truth_table _ _ _) as [tt| |] eqn:Hgen; [|done..].
  pose proof (generated_rows_defined _ _ _ _ Hgen) as Hdef.
  destruct (calculate_zhegalkin_cases tt) as [[z Hz] _].
  { rewrite (generated_rows_length _ _ _ _ Hgen). apply Nat.pow_gt_lin_r. lia. }
  exists z. split; [done|]. unfold bind, result_bind.
  rewrite calculate_pdnf_spec, calculate_pcnf_spec, Hz by done. done.
Qed.

End Analyze.

End TableShape.

(** [_normalize] on an expression that is already normalized. *)
Module NormIdem.
Import PyStr BooleanAlgebra Canonical TableSpec StrFacts NormFacts.

Implicit Types (s t old : str) (c x : char) (f : char -> bool).

Lemma head_rev {A} (l : list A) : head (rev l) = last l.
Proof. rewrite rev_alt. apply (head_reverse l). Qed.

Lemma lstrip_by_fix f s :
  lstrip_by f s = s <-> forall x, head s = Some x -> f x = false.
Proof.
  destruct s as [|c s]; simpl; [done|].
  destruct (f c) eqn:Hc.
  - split.
    + intros H. assert (Hlen : length (lstrip_by f s) = S (length s)) by (by rewrite H).
      assert (length (lstrip_by f s) <= length s); [|lia].
      clear. induction s as [|y s IH]; simpl; [done|]. destruct (f y); simpl; lia.
    + intros H. specialize (H c eq_refl). congruence.
  - split; [|done]. by intros _ x [= <-].
Qed.

Lemma lstrip_by_idem f s : lstrip_by f (lstrip_by f s) = lstrip_by f s.
Proof.
  induction s as [|c s IH]; [done|]. simpl.
  destruct (f c) eqn:Hc; [done|]. simpl. by rewrite Hc.
Qed.

Lemma lstrip_by_suffix f s : exists pre, s = pre ++ lstrip_by f s.
Proof.
  induction s as [|c s [pre IH]]; [by exists []|]. simpl.
  destruct (f c); [|by exists []]. exists (c :: pre). simpl. by rewrite <- IH.
Qed.

Lemma strip_trimmed s : trimmed (strip s).
Proof.
  unfold trimmed, strip, strip_by, rstrip_by.
  set (a := lstrip_by isspace s). set (b := lstrip_by isspace (rev a)).
  rewrite rev_involutive. split; [|apply lstrip_by_idem].
  apply lstrip_by_fix. intros x Hx.
  destruct (lstrip_by_suffix isspace (rev a)) as [pre Hpre]. fold b in Hpre.
  assert (Ha : a = rev b ++ rev pre).
  { rewrite <- rev_app_distr, <- Hpre. by rewrite rev_involutive. }
  assert (Hfix : lstrip_by isspace a = a) by apply lstrip_by_idem.
  apply (proj1 (lstrip_by_fix _ _) Hfix). rewrite Ha.
  destruct (rev b); [done|]. done.
Qed.

Lemma trimmed_strip s : trimmed s -> strip s = s.
Proof.
  intros [H1 H2]. unfold strip, strip_by, rstrip_by.
  by rewrite H1, H2, rev_involutive.
Qed.

Lemma replace_from_nil old c s :
  replace_from old [c] 0 s = [] -> s = [].
Proof. destruct s as [|x s]; [done|]. simpl. by destruct (startswith old (x :: s)). Qed.

Lemma last_replace_from old c k s x :
  last (replace_from old [c] k s) = Some x -> x = c \/ last s = Some x.
Proof.
  revert k. induction s as [|y s IH]; intros k; [done|].
  assert (Hkeep : last s = Some x -> last (y :: s) = Some x).
  { intros H. rewrite last_cons, H. done. }
  destruct k as [|k]; cbn [replace_from].
  - destruct (startswith old (y :: s)).
    + cbn [app]. rewrite last_cons.
      destruct (last (replace_from old [c] (length old - 1) s)) as [z|] eqn:Hz.
      * intros [= ->]. destruct (IH _ Hz) as [?|?]; [by left|right; by apply Hkeep].
      * intros [= ->]. by left.
    + rewrite last_cons.
      destruct (last (replace_from old [c] 0 s)) as [z|] eqn:Hz.
      * intros [= ->]. destruct (IH _ Hz) as [?|?]; [by left|right; by apply Hkeep].
      * intros [= ->]. right. apply last_None in Hz.
        apply replace_from_nil in Hz as ->. done.
  - intros H. destruct (IH _ H) as [?|?]; [by left|right; by apply Hkeep].
Qed.

Lemma head_replace_from old c s x :
  head (replace_from old [c] 0 s) = Some x -> x = c \/ head s = Some x.
Proof.
  destruct s as [|y s]; [done|]. cbn [replace_from].
  destruct (startswith old (y :: s)); simpl; intros [= ->]; [by left|by right].
Qed.

Lemma replace_trimmed old c s :
  old <> [] -> isspace c = false -> trimmed s -> trimmed (replace old [c] s).
Proof.
  intros Hold Hc [H1 H2]. rewrite replace_nonempty by done.
  rewrite lstrip_by_fix in H1. rewrite lstrip_by_fix in H2.
  split; apply lstrip_by_fix; intros x Hx.
  - apply head_replace_from in Hx as [->|Hx]; [done|by apply H1].
  - rewrite head_rev in Hx. apply last_replace_from in Hx as [->|Hx]; [done|].
    apply H2. by rewrite head_rev.
Qed.

Lemma run_steps_trimmed steps s :
  forallb (fun step => match fst step, snd step with
                       | _ :: _, [c] => negb (isspace c)
                       | _, _ => false
                       end) steps = true ->
  trimmed s -> trimmed (run_steps steps s).
Proof.
  revert s. induction steps as [|[old new] steps IH]; intros s Hsteps Hs; [done|].
  cbn [forallb fst snd] in Hsteps. apply andb_true_iff in Hsteps as [Hstep Hsteps].
  change (run_steps ((old, new) :: steps) s) with (run_steps steps (replace old new s)).
  apply IH; [done|].
  destruct old as [|o old]; [done|]. destruct new as [|c [|? ?]]; [done| |done].
  apply replace_trimmed; [done| |done]. by apply negb_true_iff.
Qed.

(** X5. Normalizing is idempotent: the normalized text of an
    expression has no white space left at its ends and none of the
    operator spellings that are replaced, so normalizing it again
    gives it back unchanged. *)
Theorem _normalize_idempotent (expr : str) :
  BooleanExpression._normalize (BooleanExpression._normalize expr)
  = BooleanExpression._normalize expr.
Proof.
  rewrite (_normalize_steps (BooleanExpression._normalize expr)).
  rewrite trimmed_strip.
  - apply run_steps_absent. intros step Hstep. split.
    + by apply normalize_steps_nonempty.
    + by apply _normalize_removes.
  - rewrite _normalize_steps. apply run_steps_trimmed; [|apply strip_trimmed].
    vm_compute. reflexivity.
Qed.

End NormIdem.

(** Reading and writing the store. *)
Module HeapFacts.
Import PyStr CircuitModel Components StoreFacts FrameFacts DictFacts.

Lemma signal_of_set_signal_eq p s st :
  p < length (pin_heap st) -> signal_of (set_signal p s st) p = s.
Proof.
  intros Hp. unfold signal_of, set_signal. rewrite pin_at_update_pin.
  destruct (lookup_lt_is_Some_2 _ _ Hp) as [x ->]. by rewrite decide_True.
Qed.

Lemma pin_at_set_signal_ne p s st q :
  p <> q -> pin_at (set_signal p s st) q = pin_at st q.
Proof.
  intros Hne. unfold set_signal. rewrite pin_at_update_pin, pin_at_alt.
  destruct (pin_heap st !! q); [|done]. by rewrite decide_False.
Qed.

Lemma signal_of_set_signal_ne p s st q :
  p <> q -> signal_of (set_signal p s st) q = signal_of st q.
Proof. intros Hne. unfold signal_of. by rewrite pin_at_set_signal_ne. Qed.

Lemma pin_type_set_signal p s st q :
  Pin.pin_type (pin_at (set_signal p s st) q) = Pin.pin_type (pin_at st q).
Proof.
  unfold set_signal. rewrite pin_at_update_pin, pin_at_alt.
  destruct (pin_heap st !! q); [|done]. by case_decide.
Qed.

Lemma length_set_signal p s st :
  length (pin_heap (set_signal p s st)) = length (pin_heap st).
Proof. simpl. apply length_alter. Qed.

Lemma comp_at_update_comp_eq c f st :
  c < length (comp_heap st) -> comp_at (update_comp c f st) c = f (comp_at st c).
Proof.
  intros Hc. rewrite comp_at_update_comp, comp_at_alt.
  destruct (lookup_lt_is_Some_2 _ _ Hc) as [x ->]. by rewrite decide_True.
Qed.

Lemma get_set_eq {V} k (v : V) d : PyDict.get k (PyDict.set k v d) = Some v.
Proof.
  induction d as [|[k0 v0] d IH]; simpl; [by rewrite eqb_refl|].
  destruct (eqb k k0) eqn:E; simpl; [by rewrite eqb_refl|]. by rewrite E.
Qed.

Lemma get_set_ne {V} k k' (v : V) d :
  k' <> k -> PyDict.get k' (PyDict.set k v d) = PyDict.get k' d.
Proof.
  intros Hne%eqb_neq. induction d as [|[k0 v0] d IH]; simpl; [by rewrite Hne|].
  destruct (eqb k k0) eqn:E; simpl.
  - apply eqb_eq in E as ->. by rewrite Hne.
  - by rewrite IH.
Qed.

End HeapFacts.

(** The engine's access to single pins, the circuit's registry of
    components, and the conversions of [Signal]. *)
Module AccessFacts.
Import PyStr CircuitModel Components SimulationEngine.
Import StoreFacts FrameFacts DictFacts HeapFacts.

Lemma input_pin_inv circuit st component_id pin_name pin :
  input_pin circuit st component_id pin_name = Some pin ->
  exists component,
    get_component circuit component_id = Some component
    /\ Component.get_pin (comp_at st component) pin_name = Some pin
    /\ Pin.pin_type (pin_at st pin) = INPUT.
Proof.
  unfold input_pin. destruct (get_component _ _) as [component|] eqn:Hc; [|done].
  destruct (Component.get_pin _ _) as [p|] eqn:Hp; [|done].
  case_decide; [|done]. intros [= ->]. by exists component.
Qed.

Lemma input_pin_set_signal circuit st component_id pin_name p s :
  input_pin circuit (set_signal p s st) component_id pin_name
  = input_pin circuit st component_id pin_name.
Proof.
  unfold input_pin. destruct (get_component _ _) as [component|]; [|done].
  change (comp_at (set_signal p s st) component) with (comp_at st component).
  destruct (Component.get_pin _ _) as [q|]; [|done].
  by rewrite pin_type_set_signal.
Qed.

Lemma get_output_input_pin circuit st component_id pin_name pin :
  input_pin circuit st component_id pin_name = Some pin ->
  get_output circuit component_id pin_name st = signal_of st pin.
Proof.
  intros (component & Hc & Hp & _)%input_pin_inv.
  unfold get_output. by rewrite Hc, Hp.
Qed.

Lemma get_output_set_signal circuit st component_id pin_name pin s :
  input_pin circuit st component_id pin_name = Some pin ->
  pin < length (pin_heap st) ->
  get_output circuit component_id pin_name (set_signal pin s st) = s.
Proof.
  intros Hin Hlt.
  rewrite (get_output_input_pin circuit (set_signal pin s st) component_id pin_name pin).
  - by apply signal_of_set_signal_eq.
  - rewrite input_pin_set_signal. exact Hin.
Qed.

(** X6. When [component_id] names a component of the circuit with an
    input pin [pin_name], [get_output] after [set_input] reads the
    value just set; [toggle_input] sets the pin to LOW when it was
    HIGH and to HIGH otherwise, so that two toggles leave a pin that
    was UNKNOWN at LOW; and none of them changes another pin. *)
Theorem set_input_get_output circuit component_id pin_name value st pin :
  input_pin circuit st component_id pin_name = Some pin ->
  pin < length (pin_heap st) ->
  let get := get_output circuit component_id pin_name in
  let toggle := toggle_input circuit component_id pin_name in
  get (set_input circuit component_id pin_name value st) = Signal.from_bool value
  /\ get (toggle st) = Signal.from_bool (negb (Signal.__bool__ (get st)))
  /\ get (toggle (toggle st)) = Signal.from_bool (Signal.__bool__ (get st))
  /\ forall q, q <> pin ->
       pin_at (set_input circuit component_id pin_name value st) q = pin_at st q
       /\ pin_at (toggle st) q = pin_at st q.
Proof.
  intros Hin Hlt get toggle. unfold get, toggle, set_input, toggle_input.
  rewrite Hin, input_pin_set_signal, Hin.
  rewrite !get_output_set_signal; [|by rewrite ?input_pin_set_signal|by rewrite ?length_set_signal..].
  rewrite (get_output_input_pin _ _ _ _ pin Hin).
  rewrite signal_of_set_signal_eq by done.
  split_and!; [done|done| |].
  - f_equal. unfold is_high, Signal.__bool__, Signal.from_bool.
    destruct (decide (Signal.state (signal_of st pin) = HIGH)); done.
  - intros q Hq. by rewrite !pin_at_set_signal_ne.
Qed.

Lemma set_input_get_output_witness :
  let st := snd (Components.new (LED false) (py "led") (py "LED") empty_store) in
  let circuit := Circuit.mk (py "Untitled") [(py "led", 0)] [] 0 0 in
  input_pin circuit st (py "led") (py "in") = Some 0
  /\ 0 < length (pin_heap st)
  /\ get_output circuit (py "led") (py "in")
       (set_input circuit (py "led") (py "in") true st) = Signal.from_bool true
  /\ get_output circuit (py "led") (py "in")
       (toggle_input circuit (py "led") (py "in")
          (toggle_input circuit (py "led") (py "in") st)) = Signal.from_bool false.
Proof.
  intros st circuit.
  assert (H1 : input_pin circuit st (py "led") (py "in") = Some 0)
    by (vm_compute; reflexivity).
  assert (H2 : 0 < length (pin_heap st)) by (vm_compute; lia).
  destruct (set_input_get_output circuit (py "led") (py "in") true st 0 H1 H2)
    as (Hset & _ & Htoggle & _).
  split; [exact H1|]. split; [exact H2|]. split; [exact Hset|exact Htoggle].
Defined.

(** X7. [set_input] and [toggle_input] write to INPUT-typed pins only:
    every pin of another type, every component and every wire is as it
    was, whatever the arguments. The only pin of a switch, a button, an
    input pin or a clock is an OUTPUT pin, so these calls never drive
    them. *)
Theorem set_input_only_inputs circuit component_id pin_name value st :
  let st1 := set_input circuit component_id pin_name value st in
  let st2 := toggle_input circuit component_id pin_name st in
  (forall q, Pin.pin_type (pin_at st q) <> INPUT ->
     pin_at st1 q = pin_at st q /\ pin_at st2 q = pin_at st q)
  /\ comp_heap st1 = comp_heap st /\ wire_heap st1 = wire_heap st
  /\ comp_heap st2 = comp_heap st /\ wire_heap st2 = wire_heap st
  /\ (forall state tick_count frequency,
        Forall (fun k => Forall (fun spec => snd spec = OUTPUT) (_setup_pins k))
               [Switch state; Button state; InputPin state;
                Clock state tick_count frequency]).
Proof.
  cbv zeta. unfold set_input, toggle_input.
  split_and!.
  - intros q Hq.
    destruct (input_pin _ _ _ _) as [pin|] eqn:Hin; [|done].
    apply input_pin_inv in Hin as (_ & _ & _ & Hty).
    assert (pin <> q) by congruence.
    by rewrite !pin_at_set_signal_ne.
  - by destruct (input_pin _ _ _ _).
  - by destruct (input_pin _ _ _ _).
  - by destruct (input_pin _ _ _ _).
  - by destruct (input_pin _ _ _ _).
  - intros state tick_count frequency. by repeat constructor.
Qed.

(** ** [Circuit.add_component], [Circuit.get_component] *)

(** X8. After [add_component], [get_component] finds the component
    under the identifier that was returned; this is the component's own
    identifier when it has one, and [comp_N] otherwise, [N] being the
    circuit's counter, which is then advanced; the component carries
    that identifier, and the entries under all other identifiers are
    as they were (an entry already under this identifier is replaced). *)
Theorem add_component_get_component circuit component st c id circuit' st' :
  comp_heap st !! component = Some c ->
  add_component circuit component st = (id, circuit', st') ->
  get_component circuit' id = Some component
  /\ Component.id (comp_at st' component) = id
  /\ id = (match Component.id c with
           | [] => py "comp_" ++ of_nat (Circuit._next_component_id circuit)
           | _ :: _ => Component.id c
           end)
  /\ Circuit._next_component_id circuit'
     = (match Component.id c with
        | [] => S (Circuit._next_component_id circuit)
        | _ :: _ => Circuit._next_component_id circuit
        end)
  /\ (forall k, k <> id -> get_component circuit' k = get_component circuit k)
  /\ Circuit.wires circuit' = Circuit.wires circuit
  /\ pin_heap st' = pin_heap st.
Proof.
  intros Hc. unfold add_component, get_component.
  assert (Hlt : component < length (comp_heap st)) by (by eapply lookup_lt_Some).
  rewrite (comp_at_alt st component), Hc. simpl.
  destruct (Component.id c) as [|x i] eqn:Hid.
  - rewrite comp_at_update_comp_eq by done. simpl.
    intros [= <- <- <-]. simpl.
    rewrite comp_at_update_comp_eq by done. simpl.
    split_and!; try done; [apply get_set_eq|].
    intros k Hk. by apply get_set_ne.
  - rewrite (comp_at_alt st component), Hc. simpl. rewrite Hid.
    intros [= <- <- <-]. simpl.
    rewrite (comp_at_alt st component), Hc. simpl.
    split_and!; try done; [apply get_set_eq|].
    intros k Hk. by apply get_set_ne.
Qed.

Lemma add_component_get_component_witness :
  let c := Component.mk [] (py "A") [] (Switch false) in
  let st := mkStore [] [] [c] in
  comp_heap st !! 0 = Some c
  /\ add_component (Circuit.new (py "Untitled")) 0 st
     = (py "comp_0",
        Circuit.mk (py "Untitled") [(py "comp_0", 0)] [] 1 0,
        mkStore [] [] [Component.with_id (py "comp_0") c])
  /\ get_component (Circuit.mk (py "Untitled") [(py "comp_0", 0)] [] 1 0) (py "comp_0")
     = Some 0.
Proof.
  intros c st.
  assert (H1 : comp_heap st !! 0 = Some c) by reflexivity.
  assert (H2 : add_component (Circuit.new (py "Untitled")) 0 st
     = (py "comp_0",
        Circuit.mk (py "Untitled") [(py "comp_0", 0)] [] 1 0,
        mkStore [] [] [Component.with_id (py "comp_0") c])) by (vm_compute; reflexivity).
  split; [exact H1|]. split; [exact H2|].
  exact (proj1 (add_component_get_component _ 0 st c _ _ _ H1 H2)).
Defined.

(** ** [Signal] *)

(** X9. The conversions of [Signal]: [bool] and [int] of
    [Signal.from_bool(b)] give [b] back, as [1] or [0]; of
    [Signal.from_int(v, w)] they give whether [v] is not zero, so the
    integer read back is [1] for every non-zero [v]; and a signal that
    is neither HIGH nor LOW reads as false and as [-1]. *)
Theorem signal_conversions :
  (forall b, Signal.__bool__ (Signal.from_bool b) = b
             /\ Signal.__int__ (Signal.from_bool b) = (if b then 1 else 0)%Z)
  /\ (forall v w, Signal.__bool__ (Signal.from_int v w) = negb (v =? 0)%Z
                  /\ Signal.__int__ (Signal.from_int v w) = (if (v =? 0)%Z then 0 else 1)%Z
                  /\ Signal.bit_width (Signal.from_int v w) = w
                  /\ Signal.value (Signal.from_int v w) = v)
  /\ (forall s, Signal.state s <> HIGH -> Signal.state s <> LOW ->
                Signal.__bool__ s = false /\ Signal.__int__ s = (-1)%Z).
Proof.
  split_and!.
  - by intros [].
  - intros v w. unfold Signal.from_int.
    destruct (Z.eqb_spec v 0) as [->|Hv]; done.
  - intros s H1 H2. unfold Signal.__bool__, Signal.__int__.
    rewrite decide_False by done. by destruct (Signal.state s).
Qed.

(** ** The input components *)

Lemma evaluate_out st self p state :
  self < length (comp_heap st) ->
  get_pin (comp_at st self) "out" = Some p ->
  forall k, k ∈ [Switch state; Button state; InputPin state] ->
  evaluate self (update_comp self (Component.with_kind k) st)
  = (Some tt, set_signal p (Signal.from_bool state)
                         (update_comp self (Component.with_kind k) st)).
Proof.
  intros Hself Hp k Hk. unfold evaluate.
  rewrite comp_at_update_comp_eq by done.
  assert (Hp' : get_pin (Component.with_kind k (comp_at st self)) "out" = Some p)
    by exact Hp.
  repeat (apply elem_of_cons in Hk as [->|Hk];
          [cbn [Component.kind Component.with_kind]; by rewrite Hp'|]).
  by apply elem_of_nil in Hk.
Qed.

(** X10. The methods by which the user drives an input component
    store the new state and write it to the [out] pin at once:
    [Switch.set_state(b)] and [InputPin.set_value(b)] leave the pin at
    [b], [Button.press] at HIGH, [Button.release] at LOW, and
    [Switch.toggle] at the negation of the state the switch had, so
    that two toggles give that state back. *)
Theorem input_component_methods st self p :
  self < length (comp_heap st) ->
  get_pin (comp_at st self) "out" = Some p ->
  p < length (pin_heap st) ->
  let after (m : Exec unit) (k : Kind) (b : bool) :=
    fst (m st) = Some tt
    /\ Component.kind (comp_at (snd (m st)) self) = k
    /\ signal_of (snd (m st)) p = Signal.from_bool b in
  (forall b, after (set_state self b) (Switch b) b)
  /\ (forall b, after (InputComponents.set_value self b) (InputPin b) b)
  /\ after (InputComponents.press self) (Button true) true
  /\ after (InputComponents.release self) (Button false) false
  /\ (forall state, Component.kind (comp_at st self) = Switch state ->
        after (toggle self) (Switch (negb state)) (negb state)
        /\ after (do _ <- toggle self; toggle self) (Switch state) state).
Proof.
  intros Hself Hp Hlt after.
  assert (Hgen : forall k b st0,
             self < length (comp_heap st0) ->
             get_pin (comp_at st0 self) "out" = Some p ->
             p < length (pin_heap st0) ->
             k ∈ [Switch b; Button b; InputPin b] ->
             let r := evaluate self (update_comp self (Component.with_kind k) st0) in
             fst r = Some tt
             /\ Component.kind (comp_at (snd r) self) = k
             /\ signal_of (snd r) p = Signal.from_bool b
             /\ self < length (comp_heap (snd r))
             /\ get_pin (comp_at (snd r) self) "out" = Some p
             /\ p < length (pin_heap (snd r))).
  { intros k b st0 H1 H2 H3 Hk. cbv zeta. rewrite (evaluate_out st0 self p b H1 H2 k Hk).
    cbn [fst snd].
    change (comp_at (set_signal p (Signal.from_bool b)
                       (update_comp self (Component.with_kind k) st0)) self)
      with (comp_at (update_comp self (Component.with_kind k) st0) self).
    rewrite comp_at_update_comp_eq by done.
    rewrite signal_of_set_signal_eq by done.
    split_and!; try done.
    - simpl. by rewrite length_alter.
    - simpl. by rewrite length_alter. }
  assert (Hset : forall b, after (set_state self b) (Switch b) b).
  { intros b. destruct (Hgen (Switch b) b st Hself Hp Hlt) as (? & ? & ? & _); [left|].
    done. }
  split_and!.
  - exact Hset.
  - intros b. destruct (Hgen (InputPin b) b st Hself Hp Hlt) as (? & ? & ? & _).
    { right; right; left. }
    done.
  - destruct (Hgen (Button true) true st Hself Hp Hlt) as (? & ? & ? & _).
    { right; left. }
    done.
  - destruct (Hgen (Button false) false st Hself Hp Hlt) as (? & ? & ? & _).
    { right; left. }
    done.
  - intros state Hk.
    assert (Ht : toggle self st = set_state self (negb state) st).
    { unfold toggle. by rewrite Hk. }
    destruct (Hgen (Switch (negb state)) (negb state) st Hself Hp Hlt)
      as (H1 & H2 & H3 & H4 & H5 & H6); [left|].
    split.
    + unfold after. rewrite Ht. done.
    + unfold after.
      change ((do _ <- toggle self; toggle self) st)
        with (match toggle self st with
              | (Some _, st') => toggle self st'
              | (None, st') => (None, st')
              end).
      rewrite Ht.
      change (set_state self (negb state) st)
        with (evaluate self (update_comp self (Component.with_kind (Switch (negb state))) st))
        in *.
      destruct (evaluate self _) as [[[]|] st1]; [|done].
      cbn [fst snd] in *.
      assert (Ht1 : toggle self st1 = set_state self state st1).
      { unfold toggle. rewrite H2. by rewrite negb_involutive. }
      rewrite Ht1.
      destruct (Hgen (Switch state) state st1 H4 H5 H6) as (? & ? & ? & _); [left|].
      done.
Qed.

Lemma input_component_methods_witness :
  let st := snd (Components.new (Switch false) (py "sw") (py "Switch") empty_store) in
  0 < length (comp_heap st)
  /\ get_pin (comp_at st 0) "out" = Some 0
  /\ 0 < length (pin_heap st)
  /\ signal_of (snd (set_state 0 true st)) 0 = Signal.from_bool true.
Proof.
  intros st.
  assert (H1 : 0 < length (comp_heap st)) by (vm_compute; lia).
  assert (H2 : get_pin (comp_at st 0) "out" = Some 0) by (vm_compute; reflexivity).
  assert (H3 : 0 < length (pin_heap st)) by (vm_compute; lia).
  destruct (input_component_methods st 0 0 H1 H2 H3) as (Hset & _).
  split; [exact H1|]. split; [exact H2|]. split; [exact H3|].
  exact (proj2 (proj2 (Hset true))).
Defined.

End AccessFacts.

(** The combinational components. *)
Module EvalFacts.
Import PyStr CircuitModel Components ComponentSpec.
Import StoreFacts FrameFacts DictFacts HeapFacts.

Lemma has_pin (c : Component.t) name ty :
  has_pins c = true -> In (name, ty) (_setup_pins (Component.kind c)) ->
  exists p, Component.get_pin c name = Some p.
Proof.
  intros H Hin. unfold has_pins in H.
  eapply forallb_forall in H; [|exact Hin]. unfold PyDict.mem in H. simpl in H.
  unfold Component.get_pin. destruct (PyDict.get name _) as [p|]; [by exists p|done].
Qed.

Lemma In_numbered prefix ty n i :
  i < n -> In (indexed prefix i, ty) (numbered prefix ty n).
Proof.
  intros Hi. unfold numbered. apply in_map_iff. exists i. split; [done|].
  apply in_seq. lia.
Qed.

Lemma bind_eq {A B} (m : Exec A) (k : A -> Exec B) st :
  bind m k st = match m st with
                | (Some a, st') => k a st'
                | (None, st') => (None, st')
                end.
Proof. done. Qed.

Lemma read_high_some p st :
  read_high (Some p) st = (Some (is_high (signal_of st p)), st).
Proof. done. Qed.

Lemma read_high_pin c name p st :
  Component.get_pin c name = Some p ->
  read_high (Component.get_pin c name) st = (Some (pin_high st c name), st).
Proof. intros H. unfold pin_high. by rewrite H. Qed.

(** ** Reading a binary number *)

Lemma lor_bit v k :
  (0 <= v < 2 ^ Z.of_nat k)%Z ->
  Z.lor v (Z.shiftl 1 (Z.of_nat k)) = (v + 2 ^ Z.of_nat k)%Z.
Proof.
  intros Hv. rewrite Z.shiftl_1_l. symmetry. apply Z.add_nocarry_lor.
  apply Z.bits_inj'. intros n Hn. rewrite Z.land_spec, Z.bits_0.
  rewrite Z.pow2_bits_eqb by lia.
  destruct (Z.eqb_spec (Z.of_nat k) n) as [<-|Hne]; [|apply andb_false_r].
  rewrite andb_true_r.
  destruct (decide (v = 0%Z)) as [->|Hv0]; [apply Z.bits_0|].
  apply Z.bits_above_log2; [lia|]. apply Z.log2_lt_pow2; lia.
Qed.

Lemma weights_bounds st c prefix k m :
  (0 <= weights st c prefix (seq k m))%Z
  /\ (forall v, (0 <= v < 2 ^ Z.of_nat k)%Z ->
                (v + weights st c prefix (seq k m) < 2 ^ Z.of_nat (k + m))%Z).
Proof.
  revert k. induction m as [|m IH]; intros k.
  - simpl. split; [lia|]. intros v Hv. rewrite Nat.add_0_r. lia.
  - cbn [seq weights fold_right]. fold (weights st c prefix (seq (S k) m)).
    destruct (IH (S k)) as [H0 Hlt].
    assert (Hpow : (0 < 2 ^ Z.of_nat k)%Z) by (apply Z.pow_pos_nonneg; lia).
    assert (HS : (2 ^ Z.of_nat (S k) = 2 * 2 ^ Z.of_nat k)%Z).
    { rewrite Nat2Z.inj_succ, Z.pow_succ_r by lia. done. }
    split.
    + destruct (pin_high _ _ _); lia.
    + intros v Hv. replace (k + S m) with (S k + m) by lia.
      destruct (pin_high _ _ _).
      * specialize (Hlt (v + 2 ^ Z.of_nat k)%Z). lia.
      * specialize (Hlt v). lia.
Qed.

Lemma unsigned_bounds st c prefix n :
  (0 <= unsigned st c prefix n < 2 ^ Z.of_nat n)%Z.
Proof.
  destruct (weights_bounds st c prefix 0 n) as [H0 Hlt]. split; [done|].
  specialize (Hlt 0%Z). simpl in Hlt. apply Hlt. lia.
Qed.

Lemma read_bits_value (c : Component.t) prefix k m v st :
  (forall i, k <= i < k + m -> is_Some (Component.get_pin c (indexed prefix i))) ->
  (0 <= v < 2 ^ Z.of_nat k)%Z ->
  read_bits c prefix (fun _ => ret tt) (seq k m) v st
  = (Some (v + weights st c prefix (seq k m))%Z, st).
Proof.
  revert k v. induction m as [|m IH]; intros k v Hpins Hv.
  - simpl. by rewrite Z.add_0_r.
  - cbn [seq read_bits]. rewrite bind_eq.
    destruct (Hpins k) as [p Hp]; [lia|].
    rewrite (read_high_pin c _ p) by done.
    cbn [weights fold_right]. fold (weights st c prefix (seq (S k) m)).
    assert (Hpow : (0 < 2 ^ Z.of_nat k)%Z) by (apply Z.pow_pos_nonneg; lia).
    assert (HS : (2 ^ Z.of_nat (S k) = 2 * 2 ^ Z.of_nat k)%Z).
    { rewrite Nat2Z.inj_succ, Z.pow_succ_r by lia. done. }
    destruct (pin_high st c (indexed prefix k)); rewrite bind_eq; cbn [ret].
    + rewrite lor_bit by done. rewrite IH; [f_equal; f_equal; lia| |lia].
      intros i Hi. apply Hpins. lia.
    + rewrite IH; [f_equal; f_equal; lia| |lia].
      intros i Hi. apply Hpins. lia.
Qed.

Lemma read_bits_unsigned (c : Component.t) prefix ty n st :
  has_pins c = true ->
  (forall i, i < n -> In (indexed prefix i, ty) (_setup_pins (Component.kind c))) ->
  read_bits c prefix (fun _ => ret tt) (seq 0 n) 0 st
  = (Some (unsigned st c prefix n), st).
Proof.
  intros Hpins Hin. rewrite read_bits_value; [done| |simpl; lia].
  intros i Hi. eapply has_pin; [done|]. apply Hin. lia.
Qed.

(** ** Writing a series of pins *)

Lemma for_each_write {A} (c : Component.t) (name : A -> str) (pin : A -> pin_ref)
    (s : A -> Signal.t) (l : list A) st :
  (forall a, In a l -> Component.get_pin c (name a) = Some (pin a)) ->
  for_each (fun a => write_signal (Component.get_pin c (name a)) (s a)) l st
  = (Some tt, write_all (map (fun a => (pin a, s a)) l) st).
Proof.
  revert st. induction l as [|a l IH]; intros st Hpins; [done|].
  cbn [for_each]. rewrite bind_eq, (Hpins a) by (by left). cbn [write_signal].
  rewrite IH by (intros; apply Hpins; by right). done.
Qed.

Lemma write_all_cons p s l st :
  write_all ((p, s) :: l) st = write_all l (set_signal p s st).
Proof. done. Qed.

Lemma write_all_length l st :
  length (pin_heap (write_all l st)) = length (pin_heap st).
Proof.
  revert st. induction l as [|[p s] l IH]; intros st; [done|].
  rewrite write_all_cons.
  by rewrite IH, length_set_signal.
Qed.

Lemma write_all_other l st q :
  ~ In q (map fst l) -> pin_at (write_all l st) q = pin_at st q.
Proof.
  revert st. induction l as [|[p s] l IH]; intros st Hq; [done|].
  rewrite write_all_cons.
  rewrite IH by (intros H; apply Hq; by right).
  apply pin_at_set_signal_ne. intros ->. apply Hq. by left.
Qed.

Lemma write_all_signal l st p s :
  NoDup (map fst l) -> In (p, s) l -> p < length (pin_heap st) ->
  signal_of (write_all l st) p = s.
Proof.
  revert st. induction l as [|[p0 s0] l IH]; intros st Hnd Hin Hlt; [done|].
  rewrite write_all_cons.
  cbn [map fst] in Hnd. apply NoDup_cons in Hnd as [Hp0 Hnd].
  destruct Hin as [[= -> ->]|Hin].
  - unfold signal_of. rewrite write_all_other.
    + by apply signal_of_set_signal_eq.
    + intros H. apply Hp0. by apply list_elem_of_In.
  - apply IH; [done..|]. by rewrite length_set_signal.
Qed.

(** ** Decimal numerals *)

Lemma decimal_value_from (a : N) (s : str) :
  fold_left (fun a d => (10 * a + (d - 48))%N) s a
  = (a * 10 ^ N.of_nat (length s) + decimal_value s)%N.
Proof.
  unfold decimal_value. revert a. induction s as [|d s IH]; intros a.
  - simpl. lia.
  - cbn [fold_left length]. rewrite IH, (IH (10 * 0 + (d - 48))%N).
    rewrite Nat2N.inj_succ, N.pow_succ_r'. lia.
Qed.

Lemma digits_go_value fuel n acc :
  (n < 2 ^ N.of_nat fuel)%N ->
  decimal_value (digits_go fuel n acc)
  = (n * 10 ^ N.of_nat (length acc) + decimal_value acc)%N.
Proof.
  revert n acc. induction fuel as [|fuel IH]; intros n acc Hn.
  - simpl in *. assert (n = 0%N) as -> by lia. lia.
  - cbn [digits_go].
    assert (Hacc : decimal_value ((48 + n mod 10)%N :: acc)
                   = ((n mod 10) * 10 ^ N.of_nat (length acc) + decimal_value acc)%N).
    { unfold decimal_value at 1. cbn [fold_left]. rewrite decimal_value_from.
      generalize (n mod 10)%N. intros m. f_equal. f_equal. lia. }
    pose proof (N.div_mod n 10 ltac:(lia)) as Hdm.
    destruct (N.ltb_spec n 10) as [Hlt|Hge].
    + rewrite Hacc. rewrite N.mod_small by done. done.
    + rewrite IH.
      * rewrite Hacc. cbn [length]. rewrite Nat2N.inj_succ, N.pow_succ_r'.
        revert Hdm. generalize (n mod 10)%N (n / 10)%N (10 ^ N.of_nat (length acc))%N.
        intros m q w ->. lia.
      * rewrite Nat2N.inj_succ, N.pow_succ_r' in Hn.
        assert (n / 10 <= n / 2)%N; [|apply N.Div0.div_lt_upper_bound; lia].
        apply N.div_le_compat_l. lia.
Qed.

Lemma decimal_value_of_nat n : decimal_value (of_nat n) = N.of_nat n.
Proof.
  unfold of_nat, of_N. rewrite digits_go_value.
  { cbn [length decimal_value fold_left N.of_nat]. rewrite N.pow_0_r. lia. }
  rewrite Nat2N.inj_succ, N2Nat.id.
  destruct (N.of_nat n) as [|p] eqn:E; [done|].
  apply N.log2_lt_pow2; [done|]. lia.
Qed.

Lemma indexed_inj prefix i j : indexed prefix i = indexed prefix j -> i = j.
Proof.
  unfold indexed. intros H%app_inv_head.
  apply (f_equal decimal_value) in H. rewrite !decimal_value_of_nat in H. lia.
Qed.

(** ** Well-formed components *)

Lemma well_formed_inv st c :
  well_formed st c = true ->
  has_pins c = true
  /\ NoDup (PyDict.values (Component.pins c))
  /\ forall p, p ∈ PyDict.values (Component.pins c) -> p < length (pin_heap st).
Proof.
  unfold well_formed. intros [[H1 H2]%andb_true_iff H3]%andb_true_iff.
  split_and!; [done|by apply bool_decide_eq_true in H2|].
  intros p Hp%list_elem_of_In. eapply forallb_forall in H3; [|done].
  by apply Nat.ltb_lt in H3.
Qed.

Lemma well_formed_range st c name p :
  well_formed st c = true -> Component.get_pin c name = Some p ->
  p < length (pin_heap st).
Proof.
  intros (_ & _ & H)%well_formed_inv Hp. apply H. by eapply get_in_values.
Qed.

Lemma get_values_inj {V} (d : PyDict.dict V) k1 k2 v :
  NoDup (PyDict.values d) -> PyDict.get k1 d = Some v -> PyDict.get k2 d = Some v ->
  k1 = k2.
Proof.
  induction d as [|[k v0] d IH]; [done|]. cbn [PyDict.values map snd PyDict.get].
  intros [Hv Hnd]%NoDup_cons.
  destruct (eqb k1 k) eqn:E1, (eqb k2 k) eqn:E2.
  - apply eqb_eq in E1, E2. congruence.
  - intros [= ->] H2%get_in_values. done.
  - intros H1%get_in_values [= ->]. done.
  - by apply IH.
Qed.

Lemma well_formed_ne st c n1 n2 p1 p2 :
  well_formed st c = true -> n1 <> n2 ->
  Component.get_pin c n1 = Some p1 -> Component.get_pin c n2 = Some p2 -> p1 <> p2.
Proof.
  intros (_ & Hnd & _)%well_formed_inv Hne H1 H2 ->.
  apply Hne. by eapply get_values_inj.
Qed.

Lemma pin_signal_some st c name p :
  Component.get_pin c name = Some p -> pin_signal st c name = signal_of st p.
Proof. intros H. unfold pin_signal. by rewrite H. Qed.

End EvalFacts.

(** What the combinational components put on their outputs. *)
Module ComponentFacts.
Import PyStr CircuitModel Components ComponentSpec.
Import StoreFacts FrameFacts DictFacts HeapFacts EvalFacts.

Ltac in_list_go := first [reflexivity | left; in_list_go | right; in_list_go].
Ltac in_list := cbn [_setup_pins]; rewrite ?in_app_iff; in_list_go.

Ltac pin_of Hwf Hk name ty p Hp :=
  destruct (has_pin _ name ty (proj1 (well_formed_inv _ _ Hwf))) as [p Hp];
  [rewrite Hk; in_list|].

Lemma py_ne (a b : string) :
  (if decide (py a = py b) then true else false) = false -> py a <> py b.
Proof. by destruct (decide (py a = py b)). Qed.

(** Two pins written one after the other. *)
Lemma write_two st c n1 n2 p1 p2 s1 s2 :
  well_formed st c = true -> n1 <> n2 ->
  Component.get_pin c n1 = Some p1 -> Component.get_pin c n2 = Some p2 ->
  let st' := set_signal p2 s2 (set_signal p1 s1 st) in
  pin_signal st' c n1 = s1 /\ pin_signal st' c n2 = s2.
Proof.
  intros Hwf Hne H1 H2 st'.
  pose proof (well_formed_ne _ _ _ _ _ _ Hwf Hne H1 H2) as Hp.
  pose proof (well_formed_range _ _ _ _ Hwf H1) as Hr1.
  pose proof (well_formed_range _ _ _ _ Hwf H2) as Hr2.
  rewrite (pin_signal_some _ _ _ _ H1), (pin_signal_some _ _ _ _ H2). unfold st'.
  rewrite signal_of_set_signal_ne by done.
  rewrite !signal_of_set_signal_eq; [done|by rewrite length_set_signal|done].
Qed.

(** X11. A half adder and a full adder with their pins add: after
    [evaluate], the SUM output plus twice the carry output is the
    number of HIGH inputs among A, B (and CIN), an input that is
    UNKNOWN counting as LOW. *)
Theorem adders_add st self :
  let c := comp_at st self in
  let bit name := Z.b2z (pin_high st c (py name)) in
  let out name := Signal.__int__ (pin_signal (snd (evaluate self st)) c (py name)) in
  well_formed st c = true ->
  Component.kind c = HalfAdder \/ Component.kind c = FullAdder ->
  fst (evaluate self st) = Some tt
  /\ (Component.kind c = HalfAdder ->
      (out "SUM"%string + 2 * out "CARRY"%string = bit "A"%string + bit "B"%string)%Z)
  /\ (Component.kind c = FullAdder ->
      (out "SUM"%string + 2 * out "COUT"%string = bit "A"%string + bit "B"%string + bit "CIN"%string)%Z).
Proof.
  intros c bit out Hwf [Hk|Hk]; unfold out, bit; unfold evaluate; fold c; rewrite Hk.
  - pin_of Hwf Hk (py "A") INPUT a Ha. pin_of Hwf Hk (py "B") INPUT b Hb.
    pin_of Hwf Hk (py "SUM") OUTPUT s Hs. pin_of Hwf Hk (py "CARRY") OUTPUT co Hco.
    unfold get_pin.
    rewrite bind_eq, (read_high_pin c _ a) by done.
    rewrite bind_eq, (read_high_pin c _ b) by done.
    rewrite bind_eq, Hs, Hco. cbn [write_signal fst snd].
    split; [done|]. split; [|done]. intros _.
    destruct (write_two st c (py "SUM") (py "CARRY") s co
                (Signal.from_bool (xorb (pin_high st c (py "A")) (pin_high st c (py "B"))))
                (Signal.from_bool (pin_high st c (py "A") && pin_high st c (py "B")))
                Hwf) as [-> ->]; [by apply py_ne|done..|].
    by destruct (pin_high st c (py "A")), (pin_high st c (py "B")).
  - pin_of Hwf Hk (py "A") INPUT a Ha. pin_of Hwf Hk (py "B") INPUT b Hb.
    pin_of Hwf Hk (py "CIN") INPUT ci Hci.
    pin_of Hwf Hk (py "SUM") OUTPUT s Hs. pin_of Hwf Hk (py "COUT") OUTPUT co Hco.
    unfold get_pin.
    rewrite bind_eq, (read_high_pin c _ a) by done.
    rewrite bind_eq, (read_high_pin c _ b) by done.
    rewrite bind_eq, (read_high_pin c _ ci) by done.
    rewrite bind_eq, Hs, Hco. cbn [write_signal fst snd].
    split; [done|]. split; [done|]. intros _.
    destruct (write_two st c (py "SUM") (py "COUT") s co
                (Signal.from_bool (xorb (xorb (pin_high st c (py "A")) (pin_high st c (py "B")))
                                        (pin_high st c (py "CIN"))))
                (Signal.from_bool ((pin_high st c (py "A") && pin_high st c (py "B"))
                                   || (pin_high st c (py "CIN")
                                       && xorb (pin_high st c (py "A")) (pin_high st c (py "B")))))
                Hwf) as [-> ->]; [by apply py_ne|done..|].
    by destruct (pin_high st c (py "A")), (pin_high st c (py "B")), (pin_high st c (py "CIN")).
Qed.

Lemma NoDup_map_inj {A B} (f : A -> B) (l : list A) :
  (forall x y, In x l -> In y l -> f x = f y -> x = y) -> NoDup l -> NoDup (map f l).
Proof.
  induction l as [|a l IH]; intros Hinj Hnd; [constructor|].
  apply NoDup_cons in Hnd as [Ha Hnd]. cbn [map]. apply NoDup_cons. split.
  - intros (b & Hb & Hin)%list_elem_of_In%in_map_iff.
    apply Ha, list_elem_of_In. rewrite <- (Hinj b a); [done|by right|by left|done].
  - apply IH; [|done]. intros x y Hx Hy. apply Hinj; by right.
Qed.

Lemma pin_signal_write_all st c l name p s :
  well_formed st c = true -> Component.get_pin c name = Some p ->
  NoDup (map fst l) -> In (p, s) l ->
  pin_signal (write_all l st) c name = s.
Proof.
  intros Hwf Hp Hnd Hin. rewrite (pin_signal_some _ _ _ _ Hp).
  apply write_all_signal; [done..|]. by eapply well_formed_range.
Qed.

(** X12. A comparator with its pins compares the unsigned numbers on
    its inputs, pin [A0] and pin [B0] being the least significant
    digits and an UNKNOWN input counting as LOW: after [evaluate], EQ
    is HIGH exactly when they are equal, GT when the first is the
    larger and LT when it is the smaller; the other two are LOW. *)
Theorem comparator_compares st self bit_width :
  let c := comp_at st self in
  let a := unsigned st c "A" bit_width in
  let b := unsigned st c "B" bit_width in
  let out name := pin_signal (snd (evaluate self st)) c (py name) in
  Component.kind c = Comparator bit_width ->
  well_formed st c = true ->
  fst (evaluate self st) = Some tt
  /\ out "EQ"%string = Signal.from_bool (a =? b)%Z
  /\ out "GT"%string = Signal.from_bool (b <? a)%Z
  /\ out "LT"%string = Signal.from_bool (a <? b)%Z
  /\ (0 <= a < 2 ^ Z.of_nat bit_width)%Z
  /\ (0 <= b < 2 ^ Z.of_nat bit_width)%Z.
Proof.
  intros c a b out Hk Hwf. unfold out. unfold evaluate. fold c. rewrite Hk.
  pose proof (proj1 (well_formed_inv _ _ Hwf)) as Hhas.
  pin_of Hwf Hk (py "EQ") OUTPUT e He. pin_of Hwf Hk (py "GT") OUTPUT g Hg.
  pin_of Hwf Hk (py "LT") OUTPUT l Hl.
  rewrite bind_eq, (read_bits_unsigned c "A" INPUT) by
    (try done; intros i Hi; rewrite Hk; cbn [_setup_pins]; rewrite !in_app_iff;
     left; by apply In_numbered).
  rewrite bind_eq, (read_bits_unsigned c "B" INPUT) by
    (try done; intros i Hi; rewrite Hk; cbn [_setup_pins]; rewrite !in_app_iff;
     right; left; by apply In_numbered).
  fold a b. unfold get_pin. rewrite He, Hg, Hl.
  change ((do _ <- write_signal (Some e) (Signal.from_bool (a =? b)%Z);
           do _ <- write_signal (Some g) (Signal.from_bool (b <? a)%Z);
           write_signal (Some l) (Signal.from_bool (a <? b)%Z)) st)
    with (Some tt, write_all [(e, Signal.from_bool (a =? b)%Z);
                              (g, Signal.from_bool (b <? a)%Z);
                              (l, Signal.from_bool (a <? b)%Z)] st).
  cbn [fst snd].
  assert (Hnd : NoDup [e; g; l]).
  { pose proof (well_formed_ne _ _ _ _ _ _ Hwf (py_ne "EQ" "GT" eq_refl) He Hg).
    pose proof (well_formed_ne _ _ _ _ _ _ Hwf (py_ne "EQ" "LT" eq_refl) He Hl).
    pose proof (well_formed_ne _ _ _ _ _ _ Hwf (py_ne "GT" "LT" eq_refl) Hg Hl).
    repeat (apply NoDup_cons; split); [set_solver..|constructor]. }
  split_and!; [done| | | |apply unsigned_bounds..].
  - eapply pin_signal_write_all; [done..|in_list].
  - eapply pin_signal_write_all; [done..|in_list].
  - eapply pin_signal_write_all; [done..|in_list].
Qed.

(** X13. A decoder with its pins drives exactly the output whose
    number is the unsigned number on its inputs: after [evaluate],
    output [Oj] is HIGH when [j] is that number and LOW otherwise, for
    every one of its outputs. *)
Theorem decoder_one_hot st self num_inputs num_outputs :
  let c := comp_at st self in
  let value := unsigned st c "I" num_inputs in
  Component.kind c = Decoder num_inputs num_outputs ->
  well_formed st c = true ->
  fst (evaluate self st) = Some tt
  /\ (forall j, j < num_outputs ->
        pin_signal (snd (evaluate self st)) c (indexed "O" j)
        = Signal.from_bool (Z.of_nat j =? value)%Z)
  /\ (0 <= value < 2 ^ Z.of_nat num_inputs)%Z.
Proof.
  intros c value Hk Hwf. unfold evaluate. fold c. rewrite Hk.
  pose proof (well_formed_inv _ _ Hwf) as (Hhas & Hnd & _).
  rewrite bind_eq, (read_bits_unsigned c "I" INPUT) by
    (try done; intros i Hi; rewrite Hk; cbn [_setup_pins]; rewrite !in_app_iff;
     left; by apply In_numbered).
  fold value.
  set (pin := fun i => default 0 (Component.get_pin c (indexed "O" i))).
  assert (Hpin : forall i, i < num_outputs ->
                   Component.get_pin c (indexed "O" i) = Some (pin i)).
  { intros i Hi. destruct (has_pin c (indexed "O" i) OUTPUT Hhas) as [p Hp].
    - rewrite Hk. cbn [_setup_pins]. rewrite in_app_iff. right. by apply In_numbered.
    - unfold pin. by rewrite Hp. }
  rewrite (for_each_write c (indexed "O") pin) by (intros i Hi%in_seq; apply Hpin; lia).
  cbn [fst snd]. split; [done|]. split; [|apply unsigned_bounds].
  intros j Hj.
  apply (pin_signal_write_all st c _ (indexed "O" j) (pin j) _ Hwf (Hpin j Hj)).
  - rewrite map_map. cbn [fst]. apply NoDup_map_inj; [|apply NoDup_ListNoDup, seq_NoDup].
    intros x y Hx%in_seq Hy%in_seq Hxy. apply (indexed_inj "O").
    eapply get_values_inj; [exact Hnd|apply Hpin; lia|].
    rewrite Hxy. apply Hpin. lia.
  - apply in_map_iff. exists j. split; [done|]. apply in_seq. lia.
Qed.

(** X14. A multiplexer with its pins passes on the signal of the data
    input whose number is the unsigned number on its select inputs,
    as it is (also when UNKNOWN), and drives LOW when that number is
    not the number of a data input. *)
Theorem multiplexer_selects st self num_inputs num_select :
  let c := comp_at st self in
  let select_value := unsigned st c "S" num_select in
  Component.kind c = Multiplexer num_inputs num_select ->
  well_formed st c = true ->
  fst (evaluate self st) = Some tt
  /\ pin_signal (snd (evaluate self st)) c (py "OUT")
     = (if (select_value <? Z.of_nat num_inputs)%Z
        then pin_signal st c (indexed "D" (Z.to_nat select_value))
        else Signal.from_bool false)
  /\ (0 <= select_value < 2 ^ Z.of_nat num_select)%Z.
Proof.
  intros c select_value Hk Hwf. unfold evaluate. fold c. rewrite Hk.
  pose proof (well_formed_inv _ _ Hwf) as (Hhas & Hnd & _).
  pin_of Hwf Hk (py "OUT") OUTPUT o Ho.
  pose proof (well_formed_range _ _ _ _ Hwf Ho) as Hr.
  pose proof (unsigned_bounds st c "S" num_select) as Hb. fold select_value in Hb.
  rewrite bind_eq, (read_bits_unsigned c "S" INPUT) by
    (try done; intros i Hi; rewrite Hk; cbn [_setup_pins]; rewrite !in_app_iff;
     right; left; by apply In_numbered).
  fold select_value. unfold get_pin. rewrite Ho.
  destruct (Z.ltb_spec select_value (Z.of_nat num_inputs)) as [Hlt|Hge].
  - destruct (has_pin c (indexed "D" (Z.to_nat select_value)) INPUT Hhas) as [d Hd].
    { rewrite Hk. cbn [_setup_pins]. rewrite in_app_iff. left. apply In_numbered. lia. }
    rewrite Hd, (pin_signal_some _ _ _ _ Hd). cbn.
    rewrite (pin_signal_some _ _ _ _ Ho), signal_of_set_signal_eq by done. done.
  - cbn. rewrite (pin_signal_some _ _ _ _ Ho), signal_of_set_signal_eq by done. done.
Qed.

(** ** The gates *)

Lemma sum_parity (l : list bool) :
  ((sum l mod 2 =? 1)%Z = fold_right xorb false l)
  /\ ((sum l mod 2 =? 0)%Z = negb (fold_right xorb false l)).
Proof.
  induction l as [|b l [IH1 IH0]]; [done|].
  cbn [sum fold_right]. fold (sum l).
  assert (Hcases : (sum l mod 2 = 0 \/ sum l mod 2 = 1)%Z)
    by (pose proof (Z.mod_pos_bound (sum l) 2); lia).
  assert (Hadd : ((1 + sum l) mod 2 = (1 + sum l mod 2) mod 2)%Z)
    by (by rewrite Z.add_mod_idemp_r).
  destruct b; cbn [xorb Z.b2z].
  - rewrite Hadd. destruct Hcases as [H|H]; rewrite H in *;
      destruct (fold_right xorb false l); done.
  - rewrite Z.add_0_l. split; [done|]. rewrite IH0. by destruct (fold_right xorb false l).
Qed.

(** X15. The eight gate classes on the same pins: with [n] inputs, of
    which an UNKNOWN or missing one counts as LOW, AND drives HIGH when
    [n] is not zero and every input is HIGH, OR when some input is
    HIGH, XOR when the number of HIGH inputs is odd, NOT when the first
    input is not HIGH (or there is none); NAND, NOR, XNOR and Buffer
    drive the opposite of AND, OR, XOR and NOT, also when [n] is zero. *)
Theorem gate_outputs st self n o :
  let c := comp_at st self in
  let inputs := map (fun i => pin_high st c (indexed "in" i)) (seq 0 n) in
  let out k :=
    pin_signal (snd (evaluate self (update_comp self (Component.with_kind k) st)))
               c (py "out") in
  let opposite k := Signal.from_bool (negb (Signal.__bool__ (out k))) in
  self < length (comp_heap st) ->
  Component.get_pin c (py "out") = Some o ->
  o < length (pin_heap st) ->
  out (ANDGate n) = Signal.from_bool (negb (n =? 0) && forallb id inputs)
  /\ out (ORGate n) = Signal.from_bool (existsb id inputs)
  /\ out (XORGate n) = Signal.from_bool (fold_right xorb false inputs)
  /\ out (NOTGate n) = Signal.from_bool (negb (hd false inputs))
  /\ out (NANDGate n) = opposite (ANDGate n)
  /\ out (NORGate n) = opposite (ORGate n)
  /\ out (XNORGate n) = opposite (XORGate n)
  /\ out (BufferGate n) = opposite (NOTGate n).
Proof.
  intros c inputs out opposite Hself Ho Hr.
  assert (Hout : forall k,
             k ∈ [ANDGate n; ORGate n; XORGate n; NOTGate n;
                  NANDGate n; NORGate n; XNORGate n; BufferGate n] ->
             out k = Signal.from_bool (gate_result k inputs)).
  { intros k Hk. unfold out, evaluate.
    rewrite comp_at_update_comp_eq by done. fold c.
    change (get_pin (Component.with_kind k c) "out") with (Component.get_pin c (py "out")).
    rewrite Ho.
    assert (Hin : forall st', pin_heap st' = pin_heap st ->
                    get_input_values st' (Component.with_kind k c) n = inputs).
    { intros st' Hst'. unfold get_input_values, inputs. apply map_ext. intros i.
      unfold pin_high, signal_of, pin_at. by rewrite Hst'. }
    repeat (apply elem_of_cons in Hk as [->|Hk];
            [cbn [Component.kind Component.with_kind write_signal snd];
             rewrite (pin_signal_some _ _ _ _ Ho), signal_of_set_signal_eq by done;
             by rewrite Hin|]).
    by apply elem_of_nil in Hk. }
  assert (Hb : forall b, Signal.__bool__ (Signal.from_bool b) = b) by (by intros []).
  unfold opposite.
  rewrite !Hout by (repeat (first [by left | right])).
  rewrite !Hb.
  assert (Hn : (n =? 0) = match inputs with [] => true | _ :: _ => false end)
    by (unfold inputs; by destruct n).
  rewrite Hn. clear Hout Hn. clearbody inputs.
  destruct (sum_parity inputs) as [Hodd Heven].
  destruct inputs as [|x l]; [done|].
  cbn [gate_result hd negb andb]. rewrite Hodd, Heven, negb_involutive. done.
Qed.

(** ** [evaluate] returns *)

Lemma returns_ret {A} (a : A) : returns (ret a).
Proof. intros st. by eexists. Qed.

Lemma returns_bind {A B} (m : Exec A) (k : A -> Exec B) :
  returns m -> (forall a, returns (k a)) -> returns (bind m k).
Proof.
  intros Hm Hk st. rewrite bind_eq. destruct (Hm st) as [a Ha].
  destruct (m st) as [[a'|] st']; [|done]. apply Hk.
Qed.

Lemma returns_read_signal (c : Component.t) name ty :
  has_pins c = true -> In (name, ty) (_setup_pins (Component.kind c)) ->
  returns (read_signal (Component.get_pin c name)).
Proof. intros H Hin st. destruct (has_pin c name ty H Hin) as [p ->]. by eexists. Qed.

Lemma returns_read_high (c : Component.t) name ty :
  has_pins c = true -> In (name, ty) (_setup_pins (Component.kind c)) ->
  returns (read_high (Component.get_pin c name)).
Proof.
  intros H Hin. apply returns_bind; [by eapply returns_read_signal|].
  intros. apply returns_ret.
Qed.

Lemma returns_write_signal (c : Component.t) name ty s :
  has_pins c = true -> In (name, ty) (_setup_pins (Component.kind c)) ->
  returns (write_signal (Component.get_pin c name) s).
Proof. intros H Hin st. destruct (has_pin c name ty H Hin) as [p ->]. by eexists. Qed.

Lemma returns_set_kind self k : returns (set_kind self k).
Proof. intros st. by eexists. Qed.

Lemma returns_read_bits (c : Component.t) prefix ty assign n v :
  has_pins c = true ->
  (forall i, i < n -> In (indexed prefix i, ty) (_setup_pins (Component.kind c))) ->
  (forall v, returns (assign v)) ->
  returns (read_bits c prefix assign (seq 0 n) v).
Proof.
  intros H Hin Hassign.
  assert (Hgen : forall l, (forall i, In i l -> i < n) ->
                   forall v, returns (read_bits c prefix assign l v)).
  { induction l as [|i l IH]; intros Hl v0; [apply returns_ret|].
    cbn [read_bits]. apply returns_bind.
    - eapply returns_read_high; [done|]. apply Hin, Hl. by left.
    - intros b. apply returns_bind.
      + destruct b; [apply Hassign|apply returns_ret].
      + intros _. apply IH. intros j Hj. apply Hl. by right. }
  apply Hgen. intros i Hi%in_seq. lia.
Qed.

Lemma returns_for_each {A} (f : A -> Exec unit) (l : list A) :
  (forall a, In a l -> returns (f a)) -> returns (for_each f l).
Proof.
  induction l as [|a l IH]; intros Hf; [apply returns_ret|].
  cbn [for_each]. apply returns_bind; [apply Hf; by left|].
  intros _. apply IH. intros b Hb. apply Hf. by right.
Qed.

Ltac returns_step Hhas Hk :=
  first
    [ apply returns_ret
    | apply returns_set_kind
    | eapply returns_read_high; [exact Hhas|rewrite Hk; in_list]
    | eapply returns_write_signal; [exact Hhas|rewrite Hk; in_list]
    | apply returns_bind; [|intros ?]
    | match goal with |- returns (match ?x with _ => _ end) => destruct x end ].

(** X16. [evaluate] raises on no component that has the pins of its
    class: it returns for every class of [components], whatever the
    signals and the attributes, and raises only on a bare [Component]
    (its [NotImplementedError]). *)
Theorem evaluate_returns st self :
  let c := comp_at st self in
  has_pins c = true ->
  fst (evaluate self st)
  = match Component.kind c with BaseComponent => None | _ => Some tt end.
Proof.
  intros c Hhas.
  assert (Hret : forall m : Exec unit, returns m -> fst (m st) = Some tt).
  { intros m Hm. destruct (Hm st) as [[] H]. done. }
  unfold evaluate. fold c.
  destruct (Component.kind c) eqn:Hk; [done|..];
    try (apply Hret; unfold write_q, get_pin; repeat returns_step Hhas Hk; fail).
  - (* Register *)
    apply Hret. unfold get_pin. repeat returns_step Hhas Hk.
    + eapply returns_read_bits; [done| |intros; apply returns_set_kind].
      intros i Hi. rewrite Hk. cbn [_setup_pins]. rewrite !in_app_iff. left.
      by apply In_numbered.
    + apply returns_for_each. intros i Hi%in_seq.
      eapply returns_write_signal; [done|]. rewrite Hk. cbn [_setup_pins].
      rewrite !in_app_iff. right. right. apply In_numbered. lia.
  - (* Multiplexer *)
    rewrite bind_eq, (read_bits_unsigned c "S" INPUT) by
      (try done; intros i Hi; rewrite Hk; cbn [_setup_pins]; rewrite !in_app_iff;
       right; left; by apply In_numbered).
    pose proof (unsigned_bounds st c "S" num_select) as Hb.
    destruct (has_pin c (py "OUT") OUTPUT Hhas) as [o Ho]; [rewrite Hk; in_list|].
    unfold get_pin. rewrite Ho.
    destruct (Z.ltb_spec (unsigned st c "S" num_select) (Z.of_nat num_inputs)); [|done].
    destruct (has_pin c (indexed "D" (Z.to_nat (unsigned st c "S" num_select))) INPUT Hhas)
      as [d Hd].
    { rewrite Hk. cbn [_setup_pins]. rewrite in_app_iff. left. apply In_numbered. lia. }
    by rewrite Hd.
  - (* Decoder *)
    apply Hret. apply returns_bind.
    + eapply returns_read_bits; [done| |intros; apply returns_ret].
      intros i Hi. rewrite Hk. cbn [_setup_pins]. rewrite !in_app_iff. left.
      by apply In_numbered.
    + intros v. apply returns_for_each. intros i Hi%in_seq.
      eapply returns_write_signal; [done|]. rewrite Hk. cbn [_setup_pins].
      rewrite !in_app_iff. right. apply In_numbered. lia.
  - (* Comparator *)
    apply Hret. unfold get_pin.
    apply returns_bind; [|intros a; apply returns_bind; [|intros b]].
    + eapply returns_read_bits; [done| |intros; apply returns_ret].
      intros i Hi. rewrite Hk. cbn [_setup_pins]. rewrite !in_app_iff. left.
      by apply In_numbered.
    + eapply returns_read_bits; [done| |intros; apply returns_ret].
      intros i Hi. rewrite Hk. cbn [_setup_pins]. rewrite !in_app_iff. right. left.
      by apply In_numbered.
    + repeat returns_step Hhas Hk.
Qed.

End ComponentFacts.

(** The constructors. *)
Module NewFacts.
Import PyStr CircuitModel Components ComponentSpec.
Import StoreFacts FrameFacts DictFacts HeapFacts TableFacts EvalFacts.

Lemma new_step P W C component_id label k spec d :
  (let '(pin, st) := alloc_pin (Pin.new (fst spec) (snd spec))
                       (mkStore P W (C ++ [Component.mk component_id label d k])) in
   add_pin (length C) pin st)
  = mkStore (P ++ [Pin.new (fst spec) (snd spec)]) W
            (C ++ [Component.mk component_id label
                                (PyDict.set (fst spec) (length P) d) k]).
Proof.
  cbn [alloc_pin pin_heap wire_heap comp_heap].
  unfold add_pin, update_comp, pin_at. cbn [pin_heap wire_heap comp_heap].
  rewrite (list_lookup_total_middle P [] _ (length P)) by done.
  replace (length C) with (length C + 0) at 1 by lia.
  rewrite alter_app_r. done.
Qed.

Lemma new_fold P W C component_id label k specs d :
  fold_left (fun st spec =>
               let '(pin, st) := alloc_pin (Pin.new (fst spec) (snd spec)) st in
               add_pin (length C) pin st)
            specs (mkStore P W (C ++ [Component.mk component_id label d k]))
  = mkStore (P ++ map (fun spec => Pin.new (fst spec) (snd spec)) specs) W
            (C ++ [Component.mk component_id label (pins_dict (length P) specs d) k]).
Proof.
  revert P d. induction specs as [|spec specs IH]; intros P d.
  - simpl. by rewrite app_nil_r.
  - cbn [fold_left map pins_dict].
    match goal with
    | |- fold_left ?f specs ?s = _ =>
        replace s with
          (mkStore (P ++ [Pin.new (fst spec) (snd spec)]) W
             (C ++ [Component.mk component_id label
                                 (PyDict.set (fst spec) (length P) d) k]))
          by (symmetry; apply new_step)
    end.
    rewrite IH, length_app, <- app_assoc. cbn [length app]. by rewrite Nat.add_1_r.
Qed.

Lemma pins_dict_mem base specs d name :
  PyDict.mem name d = true \/ In name (map fst specs) ->
  PyDict.mem name (pins_dict base specs d) = true.
Proof.
  revert base d. induction specs as [|spec specs IH]; intros base d.
  - intros [H|[]]. done.
  - cbn [pins_dict map]. intros [H|[H|H]]; apply IH.
    + left. rewrite mem_set, H. apply orb_true_r.
    + left. rewrite mem_set, <- H, eqb_refl. done.
    + by right.
Qed.

Lemma pins_dict_elem base specs d name p :
  (name, p) ∈ pins_dict base specs d ->
  (name, p) ∈ d
  \/ (base <= p /\ exists ty, specs !! (p - base) = Some (name, ty)).
Proof.
  revert base d. induction specs as [|spec specs IH]; intros base d; [by left|].
  cbn [pins_dict]. intros [H|(Hle & ty & Hty)]%IH.
  - apply set_elem in H as [[-> ->]|H]; [right|by left].
    split; [done|]. exists (snd spec). rewrite Nat.sub_diag. by destruct spec.
  - right. split; [lia|]. exists ty.
    replace (p - base) with (S (p - S base)) by lia. done.
Qed.

Lemma set_values_NoDup {V} k (v : V) d :
  NoDup (PyDict.values d) -> v ∉ PyDict.values d ->
  NoDup (PyDict.values (PyDict.set k v d)).
Proof.
  induction d as [|[k0 v0] d IH]; cbn [PyDict.set PyDict.values map snd].
  - intros _ _. apply NoDup_singleton.
  - intros [Hv0 Hnd]%NoDup_cons Hv%not_elem_of_cons.
    destruct Hv as [Hne Hv].
    destruct (eqb k k0); cbn [map snd]; apply NoDup_cons; split; try done.
    + intros ([k' v'] & Heq & [[_ ->]|H]%set_elem)%list_elem_of_fmap;
        simpl in Heq; subst; [done|].
      apply Hv0. by eapply elem_values.
    + by apply IH.
Qed.

Lemma pins_dict_NoDup base specs d :
  NoDup (PyDict.values d) -> (forall v, v ∈ PyDict.values d -> v < base) ->
  NoDup (PyDict.values (pins_dict base specs d)).
Proof.
  revert base d. induction specs as [|spec specs IH]; intros base d Hnd Hlt; [done|].
  cbn [pins_dict]. apply IH.
  - apply set_values_NoDup; [done|]. intros H%Hlt. lia.
  - intros v ([k' v'] & -> & [[_ ->]|H]%set_elem)%list_elem_of_fmap; simpl; [lia|].
    assert (v' < base); [|lia]. apply Hlt. by eapply elem_values.
Qed.

(** X17. A constructor adds one component and the pins of its class to
    the store and changes nothing that was there: the component has
    the identifier, label and attributes given, the new pins carry the
    names and types of the class with the signal UNKNOWN and no wire,
    every pin name of the class is bound to one of them, and distinct
    names are bound to distinct pins. *)
Theorem new_component k component_id label st :
  let self := fst (new k component_id label st) in
  let st' := snd (new k component_id label st) in
  let c := comp_at st' self in
  self = length (comp_heap st)
  /\ comp_heap st' = comp_heap st ++ [c]
  /\ pin_heap st'
     = pin_heap st ++ map (fun spec => Pin.new (fst spec) (snd spec)) (_setup_pins k)
  /\ wire_heap st' = wire_heap st
  /\ Component.id c = component_id /\ Component.label c = label /\ Component.kind c = k
  /\ well_formed st' c = true
  /\ forall name p, Component.get_pin c name = Some p ->
       length (pin_heap st) <= p
       /\ exists ty, In (name, ty) (_setup_pins k)
                     /\ pin_heap st' !! p = Some (Pin.new name ty).
Proof.
  destruct st as [P W C]. unfold new, alloc_comp.
  cbn [pin_heap wire_heap comp_heap].
  rewrite new_fold. cbn [fst snd].
  set (d := pins_dict (length P) (_setup_pins k) []).
  assert (Hc : comp_at (mkStore (P ++ map (fun spec => Pin.new (fst spec) (snd spec))
                                             (_setup_pins k)) W
                                (C ++ [Component.mk component_id label d k]))
                       (length C)
               = Component.mk component_id label d k).
  { unfold comp_at. cbn [comp_heap]. by apply list_lookup_total_middle. }
  rewrite Hc. cbn [pin_heap wire_heap comp_heap Component.id Component.label Component.kind].
  assert (Helem : forall name p, PyDict.get name d = Some p ->
            length P <= p
            /\ exists ty, (_setup_pins k) !! (p - length P) = Some (name, ty)).
  { intros name p H%get_Some_elem%pins_dict_elem.
    destruct H as [H|H]; [by apply elem_of_nil in H|done]. }
  split_and!; try done.
  - unfold well_formed, has_pins. cbn [Component.pins Component.kind pin_heap].
    apply andb_true_intro. split; [apply andb_true_intro; split|].
    + apply forallb_forall. intros spec Hin. apply pins_dict_mem. right.
      by apply in_map.
    + apply bool_decide_eq_true. apply pins_dict_NoDup; [constructor|].
      by intros v ?%elem_of_nil.
    + apply forallb_forall. intros p (name & Hin)%list_elem_of_In%values_elem.
      apply pins_dict_elem in Hin as [Hin|(Hle & ty & Hty)];
        [by apply elem_of_nil in Hin|].
      apply Nat.ltb_lt. rewrite length_app, length_map.
      apply lookup_lt_Some in Hty. lia.
  - intros name p Hp. destruct (Helem name p Hp) as (Hle & ty & Hty).
    split; [done|]. exists ty. split.
    + eapply list_elem_of_In, list_elem_of_lookup_2, Hty.
    + rewrite lookup_app_r by done.
      change (map ?f ?l) with (f <$> l). by rewrite list_lookup_fmap, Hty.
Qed.

End NewFacts.

(** The components of the registry, freshly constructed. *)
Module ComponentExamples.
Import PyStr CircuitModel Components ComponentSpec.

Lemma adders_add_witness :
  let st := set_signal 0 (Signal.from_bool true)
              (snd (new FullAdder (py "fa") (py "Full Adder") empty_store)) in
  let c := comp_at st 0 in
  well_formed st c = true
  /\ (Component.kind c = HalfAdder \/ Component.kind c = FullAdder)
  /\ fst (evaluate 0 st) = Some tt
  /\ (Component.kind c = FullAdder ->
      (Signal.__int__ (pin_signal (snd (evaluate 0 st)) c (py "SUM"))
       + 2 * Signal.__int__ (pin_signal (snd (evaluate 0 st)) c (py "COUT"))
       = Z.b2z (pin_high st c (py "A")) + Z.b2z (pin_high st c (py "B"))
         + Z.b2z (pin_high st c (py "CIN")))%Z).
Proof.
  intros st c.
  assert (H1 : well_formed st c = true) by (vm_compute; reflexivity).
  assert (H2 : Component.kind c = HalfAdder \/ Component.kind c = FullAdder)
    by (right; vm_compute; reflexivity).
  destruct (ComponentFacts.adders_add st 0 H1 H2) as (Hret & _ & Hfull).
  split; [exact H1|]. split; [exact H2|]. split; [exact Hret|exact Hfull].
Defined.

Lemma comparator_compares_witness :
  let st := set_signal 1 (Signal.from_bool true)
              (snd (new (Comparator 4) (py "cmp") (py "Comparator") empty_store)) in
  let c := comp_at st 0 in
  Component.kind c = Comparator 4
  /\ well_formed st c = true
  /\ fst (evaluate 0 st) = Some tt
  /\ pin_signal (snd (evaluate 0 st)) c (py "GT")
     = Signal.from_bool (unsigned st c "B" 4 <? unsigned st c "A" 4)%Z.
Proof.
  intros st c.
  assert (H1 : Component.kind c = Comparator 4) by (vm_compute; reflexivity).
  assert (H2 : well_formed st c = true) by (vm_compute; reflexivity).
  destruct (ComponentFacts.comparator_compares st 0 4 H1 H2) as (Hret & _ & Hgt & _).
  split; [exact H1|]. split; [exact H2|]. split; [exact Hret|exact Hgt].
Defined.

Lemma decoder_one_hot_witness :
  let st := set_signal 0 (Signal.from_bool true)
              (snd (new (Decoder 2 4) (py "dec") (py "Decoder") empty_store)) in
  let c := comp_at st 0 in
  Component.kind c = Decoder 2 4
  /\ well_formed st c = true
  /\ fst (evaluate 0 st) = Some tt
  /\ forall j, j < 4 ->
       pin_signal (snd (evaluate 0 st)) c (indexed "O" j)
       = Signal.from_bool (Z.of_nat j =? unsigned st c "I" 2)%Z.
Proof.
  intros st c.
  assert (H1 : Component.kind c = Decoder 2 4) by (vm_compute; reflexivity).
  assert (H2 : well_formed st c = true) by (vm_compute; reflexivity).
  destruct (ComponentFacts.decoder_one_hot st 0 2 4 H1 H2) as (Hret & Hout & _).
  split; [exact H1|]. split; [exact H2|]. split; [exact Hret|exact Hout].
Defined.

Lemma multiplexer_selects_witness :
  let st := set_signal 4 (Signal.from_bool true)
              (snd (new (Multiplexer 4 2) (py "mux") (py "MUX") empty_store)) in
  let c := comp_at st 0 in
  Component.kind c = Multiplexer 4 2
  /\ well_formed st c = true
  /\ fst (evaluate 0 st) = Some tt
  /\ pin_signal (snd (evaluate 0 st)) c (py "OUT")
     = (if (unsigned st c "S" 2 <? Z.of_nat 4)%Z
        then pin_signal st c (indexed "D" (Z.to_nat (unsigned st c "S" 2)))
        else Signal.from_bool false).
Proof.
  intros st c.
  assert (H1 : Component.kind c = Multiplexer 4 2) by (vm_compute; reflexivity).
  assert (H2 : well_formed st c = true) by (vm_compute; reflexivity).
  destruct (ComponentFacts.multiplexer_selects st 0 4 2 H1 H2) as (Hret & Hout & _).
  split; [exact H1|]. split; [exact H2|]. split; [exact Hret|exact Hout].
Defined.

Lemma gate_outputs_witness :
  let st := set_signal 0 (Signal.from_bool true)
              (snd (new (ANDGate 2) (py "g") (py "AND") empty_store)) in
  let c := comp_at st 0 in
  0 < length (comp_heap st)
  /\ Component.get_pin c (py "out") = Some 2
  /\ 2 < length (pin_heap st)
  /\ pin_signal (snd (evaluate 0 (update_comp 0 (Component.with_kind (NANDGate 2)) st)))
                c (py "out")
     = Signal.from_bool
         (negb (Signal.__bool__
                  (pin_signal
                     (snd (evaluate 0 (update_comp 0 (Component.with_kind (ANDGate 2)) st)))
                     c (py "out")))).
Proof.
  intros st c.
  assert (H1 : 0 < length (comp_heap st)) by (vm_compute; lia).
  assert (H2 : Component.get_pin c (py "out") = Some 2) by (vm_compute; reflexivity).
  assert (H3 : 2 < length (pin_heap st)) by (vm_compute; lia).
  destruct (ComponentFacts.gate_outputs st 0 2 2 H1 H2 H3) as (_ & _ & _ & _ & Hnand & _).
  split; [exact H1|]. split; [exact H2|]. split; [exact H3|exact Hnand].
Defined.

Lemma evaluate_returns_witness :
  let st := snd (new (Register 4 0 false) (py "r") (py "Register") empty_store) in
  has_pins (comp_at st 0) = true
  /\ fst (evaluate 0 st) = Some tt.
Proof.
  intros st.
  assert (H1 : has_pins (comp_at st 0) = true) by (vm_compute; reflexivity).
  split; [exact H1|]. exact (ComponentFacts.evaluate_returns st 0 H1).
Defined.

End ComponentExamples.

(** The memory components. *)
Module MemoryFacts.
Import PyStr CircuitModel Components ComponentSpec.
Import StoreFacts FrameFacts DictFacts HeapFacts EvalFacts ComponentFacts.

Lemma kind_in_range st self :
  Component.kind (comp_at st self) <> BaseComponent -> self < length (comp_heap st).
Proof.
  intros H. destruct (decide (self < length (comp_heap st))) as [|Hge]; [done|].
  exfalso. apply H. rewrite comp_at_alt.
  rewrite (lookup_ge_None_2 (comp_heap st) self) by lia. done.
Qed.

Lemma well_formed_same st st' c :
  pin_heap st' = pin_heap st -> well_formed st' c = well_formed st c.
Proof. intros H. unfold well_formed. by rewrite H. Qed.

Lemma pin_high_same st st' c name :
  pin_heap st' = pin_heap st -> pin_high st' c name = pin_high st c name.
Proof. intros H. unfold pin_high, signal_of, pin_at. by rewrite H. Qed.

Lemma write_q_spec st c q qn b :
  well_formed st c = true ->
  Component.get_pin c (py "Q") = Some q -> Component.get_pin c (py "Q'") = Some qn ->
  let st' := set_signal qn (Signal.from_bool (negb b)) (set_signal q (Signal.from_bool b) st) in
  write_q c b st = (Some tt, st')
  /\ pin_signal st' c (py "Q") = Signal.from_bool b
  /\ pin_signal st' c (py "Q'") = Signal.from_bool (negb b).
Proof.
  intros Hwf Hq Hqn st'. split.
  - unfold write_q, get_pin. by rewrite bind_eq, Hq, Hqn.
  - by apply (write_two st c (py "Q") (py "Q'") q qn _ _ Hwf (py_ne "Q" "Q'" eq_refl)).
Qed.

(** The state is stored and shown on the outputs. *)
Lemma store_and_show st self c k b :
  c = comp_at st self -> self < length (comp_heap st) ->
  well_formed st c = true ->
  In (py "Q", OUTPUT) (_setup_pins (Component.kind c)) ->
  In (py "Q'", OUTPUT) (_setup_pins (Component.kind c)) ->
  forall st1, pin_heap st1 = pin_heap st ->
    comp_at st1 self = Component.with_kind k c ->
    let r := write_q c b st1 in
    fst r = Some tt
    /\ Component.kind (comp_at (snd r) self) = k
    /\ pin_signal (snd r) c (py "Q") = Signal.from_bool b
    /\ pin_signal (snd r) c (py "Q'") = Signal.from_bool (negb b).
Proof.
  intros -> Hself Hwf HQ HQn st1 Hpins Hc.
  pose proof (proj1 (well_formed_inv _ _ Hwf)) as Hhas.
  destruct (has_pin _ _ _ Hhas HQ) as [q Hq].
  destruct (has_pin _ _ _ Hhas HQn) as [qn Hqn].
  assert (Hwf1 : well_formed st1 (comp_at st self) = true)
    by (by rewrite (well_formed_same st st1)).
  destruct (write_q_spec st1 _ q qn b Hwf1 Hq Hqn) as (-> & H1 & H2).
  cbn [fst snd]. split_and!; try done.
  change (comp_at (set_signal qn (Signal.from_bool (negb b))
                     (set_signal q (Signal.from_bool b) st1)) self)
    with (comp_at st1 self).
  by rewrite Hc.
Qed.

Lemma comp_at_set_kind st self k :
  self < length (comp_heap st) ->
  comp_at (update_comp self (Component.with_kind k) st) self
  = Component.with_kind k (comp_at st self).
Proof. apply comp_at_update_comp_eq. Qed.

Lemma comp_at_set_kind_twice st self k1 k2 :
  self < length (comp_heap st) ->
  comp_at (update_comp self (Component.with_kind k2)
             (update_comp self (Component.with_kind k1) st)) self
  = Component.with_kind k2 (comp_at st self).
Proof.
  intros H. rewrite comp_at_update_comp_eq by (simpl; by rewrite length_alter).
  by rewrite comp_at_update_comp_eq.
Qed.

(** X18. A D flip-flop with its pins is edge-triggered: [evaluate]
    takes the level of D as the new state exactly when CLK is HIGH and
    was not HIGH at the previous evaluation, and keeps the state
    otherwise, whatever D is; it records the level of CLK, drives Q
    with the state and Q' with its negation. *)
Theorem d_flip_flop st self state last_clock :
  let c := comp_at st self in
  let clock := pin_high st c (py "CLK") in
  let state' := if negb last_clock && clock then pin_high st c (py "D") else state in
  let st' := snd (evaluate self st) in
  Component.kind c = DFlipFlop state last_clock ->
  well_formed st c = true ->
  fst (evaluate self st) = Some tt
  /\ Component.kind (comp_at st' self) = DFlipFlop state' clock
  /\ pin_signal st' c (py "Q") = Signal.from_bool state'
  /\ pin_signal st' c (py "Q'") = Signal.from_bool (negb state').
Proof.
  intros c clock state' st' Hk Hwf. unfold st', evaluate. fold c. rewrite Hk.
  assert (Hself : self < length (comp_heap st)) by (apply kind_in_range; fold c; by rewrite Hk).
  pin_of Hwf Hk (py "CLK") INPUT clk Hclk. pin_of Hwf Hk (py "D") INPUT d Hd.
  unfold get_pin.
  rewrite bind_eq, (read_high_pin c _ clk) by done. fold clock.
  rewrite bind_eq. cbn [set_kind].
  unfold state'. destruct (negb last_clock && clock).
  - rewrite !bind_eq, (read_high_pin c _ d) by done. cbn [set_kind ret].
    rewrite (pin_high_same st) by done.
    apply (store_and_show st self c); try done; try (rewrite Hk; in_list).
    by apply comp_at_set_kind_twice.
  - rewrite bind_eq. cbn [ret].
    apply (store_and_show st self c); try done; try (rewrite Hk; in_list).
    by apply comp_at_set_kind.
Qed.

(** X19. A JK flip-flop with its pins is edge-triggered: when CLK is
    HIGH and was not HIGH at the previous evaluation, [evaluate]
    toggles the state if J and K are HIGH, sets it if only J is,
    resets it if only K is and keeps it if neither is; without such an
    edge it keeps the state whatever J and K are; it records the level
    of CLK, drives Q with the state and Q' with its negation. *)
Theorem jk_flip_flop st self state last_clock :
  let c := comp_at st self in
  let j := pin_high st c (py "J") in
  let k := pin_high st c (py "K") in
  let clock := pin_high st c (py "CLK") in
  let state' :=
    if negb last_clock && clock
    then (if j && k then negb state
          else if j then true
          else if k then false
          else state)
    else state in
  let st' := snd (evaluate self st) in
  Component.kind c = JKFlipFlop state last_clock ->
  well_formed st c = true ->
  fst (evaluate self st) = Some tt
  /\ Component.kind (comp_at st' self) = JKFlipFlop state' clock
  /\ pin_signal st' c (py "Q") = Signal.from_bool state'
  /\ pin_signal st' c (py "Q'") = Signal.from_bool (negb state').
Proof.
  intros c j k clock state' st' Hk Hwf. unfold st', evaluate. fold c. rewrite Hk.
  assert (Hself : self < length (comp_heap st)) by (apply kind_in_range; fold c; by rewrite Hk).
  pin_of Hwf Hk (py "CLK") INPUT pclk Hclk. pin_of Hwf Hk (py "J") INPUT pj Hj.
  pin_of Hwf Hk (py "K") INPUT pk Hpk.
  unfold get_pin.
  rewrite bind_eq, (read_high_pin c _ pj) by done. fold j.
  rewrite bind_eq, (read_high_pin c _ pk) by done. fold k.
  rewrite bind_eq, (read_high_pin c _ pclk) by done. fold clock.
  rewrite bind_eq. cbn [set_kind].
  fold state'.
  apply (store_and_show st self c); try done; try (rewrite Hk; in_list).
  by apply comp_at_set_kind.
Qed.

(** X20. An SR latch with its pins follows the levels of S and R at
    every evaluation: S alone sets the state, R alone resets it, and
    with both or neither HIGH the state is kept; Q is driven with the
    state and Q' with its negation. *)
Theorem sr_latch st self state :
  let c := comp_at st self in
  let s := pin_high st c (py "S") in
  let r := pin_high st c (py "R") in
  let state' := if xorb s r then s else state in
  let st' := snd (evaluate self st) in
  Component.kind c = SRLatch state ->
  well_formed st c = true ->
  fst (evaluate self st) = Some tt
  /\ Component.kind (comp_at st' self) = SRLatch state'
  /\ pin_signal st' c (py "Q") = Signal.from_bool state'
  /\ pin_signal st' c (py "Q'") = Signal.from_bool (negb state').
Proof.
  intros c s r state' st' Hk Hwf. unfold st', evaluate. fold c. rewrite Hk.
  assert (Hself : self < length (comp_heap st)) by (apply kind_in_range; fold c; by rewrite Hk).
  pin_of Hwf Hk (py "S") INPUT ps Hs. pin_of Hwf Hk (py "R") INPUT pr Hr.
  unfold get_pin.
  rewrite bind_eq, (read_high_pin c _ ps) by done. fold s.
  rewrite bind_eq, (read_high_pin c _ pr) by done. fold r.
  rewrite bind_eq. cbn [set_kind].
  assert (Hst : (if s && negb r then true else if r && negb s then false else state) = state').
  { unfold state'. by destruct s, r. }
  rewrite Hst.
  apply (store_and_show st self c); try done; try (rewrite Hk; in_list).
  by apply comp_at_set_kind.
Qed.

(** ** The register *)

Lemma weights_same st st' c prefix l :
  pin_heap st' = pin_heap st -> weights st' c prefix l = weights st c prefix l.
Proof.
  intros H. induction l as [|i l IH]; [done|].
  cbn [weights fold_right]. fold (weights st' c prefix l) (weights st c prefix l).
  by rewrite IH, (pin_high_same st st').
Qed.

Lemma with_kind_twice k1 k2 (c : Component.t) :
  Component.with_kind k2 (Component.with_kind k1 c) = Component.with_kind k2 c.
Proof. done. Qed.

Lemma read_bits_assign (c : Component.t) prefix self (K : Z -> Kind) k m v st :
  (forall i, k <= i < k + m -> is_Some (Component.get_pin c (indexed prefix i))) ->
  (0 <= v < 2 ^ Z.of_nat k)%Z ->
  self < length (comp_heap st) ->
  Component.kind (comp_at st self) = K v ->
  exists st',
    read_bits c prefix (fun v => set_kind self (K v)) (seq k m) v st
    = (Some (v + weights st c prefix (seq k m))%Z, st')
    /\ pin_heap st' = pin_heap st
    /\ comp_at st' self
       = Component.with_kind (K (v + weights st c prefix (seq k m))%Z) (comp_at st self).
Proof.
  revert k v st. induction m as [|m IH]; intros k v st Hpins Hv Hself Hkind.
  - exists st. cbn [seq read_bits weights fold_right ret]. rewrite Z.add_0_r.
    split_and!; [done..|]. by rewrite <- Hkind, with_kind_eta.
  - cbn [seq read_bits]. rewrite bind_eq.
    destruct (Hpins k) as [p Hp]; [lia|].
    rewrite (read_high_pin c _ p) by done.
    cbn [weights fold_right]. fold (weights st c prefix (seq (S k) m)).
    assert (Hpow : (0 < 2 ^ Z.of_nat k)%Z) by (apply Z.pow_pos_nonneg; lia).
    assert (HS : (2 ^ Z.of_nat (S k) = 2 * 2 ^ Z.of_nat k)%Z).
    { rewrite Nat2Z.inj_succ, Z.pow_succ_r by lia. done. }
    destruct (pin_high st c (indexed prefix k)); rewrite bind_eq; cbn [ret set_kind].
    + rewrite lor_bit by done.
      set (st1 := update_comp self (Component.with_kind (K (v + 2 ^ Z.of_nat k)%Z)) st).
      destruct (IH (S k) (v + 2 ^ Z.of_nat k)%Z st1) as (st' & Hrun & Hheap & Hcomp).
      * intros i Hi. apply Hpins. lia.
      * lia.
      * unfold st1. simpl. by rewrite length_alter.
      * unfold st1. by rewrite comp_at_set_kind.
      * assert (Hc1 : comp_at st1 self
                      = Component.with_kind (K (v + 2 ^ Z.of_nat k)%Z) (comp_at st self))
          by (by apply comp_at_set_kind).
        assert (Hw : weights st1 c prefix (seq (S k) m)
                     = weights st c prefix (seq (S k) m)) by (by apply weights_same).
        rewrite Hw in Hrun, Hcomp. rewrite Hc1, with_kind_twice in Hcomp.
        replace (v + (2 ^ Z.of_nat k + weights st c prefix (seq (S k) m)))%Z
          with (v + 2 ^ Z.of_nat k + weights st c prefix (seq (S k) m))%Z by lia.
        exists st'. split_and!; [done| |done]. by rewrite Hheap.
    + destruct (IH (S k) v st) as (st' & Hrun & Hheap & Hcomp); [|lia|done..|].
      * intros i Hi. apply Hpins. lia.
      * exists st'. rewrite Hrun, Z.add_0_l. done.
Qed.

Lemma weights_testbit st c prefix k m i :
  Z.testbit (weights st c prefix (seq k m)) (Z.of_nat i)
  = (k <=? i) && (i <? k + m) && pin_high st c (indexed prefix i).
Proof.
  revert k i. induction m as [|m IH]; intros k i.
  - cbn [seq weights fold_right]. rewrite Z.bits_0.
    destruct (Nat.leb_spec k i), (Nat.ltb_spec i (k + 0)); try done. lia.
  - cbn [seq weights fold_right]. fold (weights st c prefix (seq (S k) m)).
    set (b := pin_high st c (indexed prefix k)).
    assert (Hbit : forall n, (0 <= n)%Z ->
              Z.testbit (if b then 2 ^ Z.of_nat k else 0)%Z n
              = b && (Z.of_nat k =? n)%Z).
    { intros n Hn. destruct b; [|apply Z.bits_0]. by rewrite Z.pow2_bits_eqb by lia. }
    rewrite Z.add_nocarry_lor.
    + rewrite Z.lor_spec, Hbit, IH by lia.
      destruct (Nat.leb_spec k i), (Nat.leb_spec (S k) i), (Nat.ltb_spec i (S k + m)),
               (Nat.ltb_spec i (k + S m)), (Z.eqb_spec (Z.of_nat k) (Z.of_nat i));
        try lia; rewrite ?andb_false_r, ?andb_true_r, ?orb_false_r; try done.
      assert (k = i) as <- by lia. done.
    + apply Z.bits_inj'. intros n Hn. rewrite Z.land_spec, Z.bits_0, Hbit by done.
      destruct (Z.eqb_spec (Z.of_nat k) n) as [<-|]; [|by rewrite andb_false_r].
      rewrite IH. destruct (Nat.leb_spec (S k) k); [lia|].
      by rewrite andb_false_r.
Qed.

(** X21. A register with its pins is edge-triggered: when CLK is HIGH
    and was not HIGH at the previous evaluation, [evaluate] stores the
    unsigned number on the D inputs and every output [Qi] takes the
    level of [Di]; otherwise the stored number is kept and [Qi] shows
    its binary digit [i], whatever the D inputs are. *)
Theorem register_captures st self bit_width value last_clock :
  let c := comp_at st self in
  let clock := pin_high st c (py "CLK") in
  let rising := negb last_clock && clock in
  let value' := if rising then unsigned st c "D" bit_width else value in
  let st' := snd (evaluate self st) in
  Component.kind c = Register bit_width value last_clock ->
  well_formed st c = true ->
  fst (evaluate self st) = Some tt
  /\ Component.kind (comp_at st' self) = Register bit_width value' clock
  /\ forall i, i < bit_width ->
       pin_signal st' c (indexed "Q" i)
       = Signal.from_bool (if rising then pin_high st c (indexed "D" i)
                           else Z.testbit value (Z.of_nat i)).
Proof.
  intros c clock rising value' st' Hk Hwf. unfold st', evaluate. fold c. rewrite Hk.
  assert (Hself : self < length (comp_heap st)) by (apply kind_in_range; fold c; by rewrite Hk).
  pose proof (well_formed_inv _ _ Hwf) as (Hhas & Hnd & _).
  pin_of Hwf Hk (py "CLK") INPUT clk Hclk.
  unfold get_pin.
  rewrite bind_eq, (read_high_pin c _ clk) by done. fold clock.
  rewrite bind_eq. cbn [set_kind]. fold rising.
  set (pin := fun i => default 0 (Component.get_pin c (indexed "Q" i))).
  assert (Hpin : forall i, i < bit_width ->
                   Component.get_pin c (indexed "Q" i) = Some (pin i)).
  { intros i Hi. destruct (has_pin c (indexed "Q" i) OUTPUT Hhas) as [p Hp].
    - rewrite Hk. cbn [_setup_pins]. rewrite !in_app_iff. right. right.
      by apply In_numbered.
    - unfold pin. by rewrite Hp. }
  assert (Hshow : forall st1 v,
            pin_heap st1 = pin_heap st ->
            comp_at st1 self = Component.with_kind (Register bit_width v clock) c ->
            let r := for_each (fun i =>
                       write_signal (Component.get_pin c (indexed "Q" i))
                         (Signal.from_bool (Z.testbit v (Z.of_nat i))))
                       (seq 0 bit_width) st1 in
            fst r = Some tt
            /\ Component.kind (comp_at (snd r) self) = Register bit_width v clock
            /\ forall i, i < bit_width ->
                 pin_signal (snd r) c (indexed "Q" i)
                 = Signal.from_bool (Z.testbit v (Z.of_nat i))).
  { intros st1 v Hheap Hcomp.
    rewrite (for_each_write c (indexed "Q") pin)
      by (intros i Hi%in_seq; apply Hpin; lia).
    cbn [fst snd]. split; [done|]. split.
    - assert (Hsame : forall l st0, comp_at (write_all l st0) self = comp_at st0 self).
      { induction l as [|[p s] l IH]; intros st0; [done|]. rewrite write_all_cons.
        by rewrite IH. }
      by rewrite Hsame, Hcomp.
    - intros j Hj.
      assert (Hwf1 : well_formed st1 c = true) by (by rewrite (well_formed_same st st1)).
      apply (pin_signal_write_all st1 c _ (indexed "Q" j) (pin j) _ Hwf1 (Hpin j Hj)).
      + rewrite map_map. cbn [fst]. apply NoDup_map_inj; [|apply NoDup_ListNoDup, seq_NoDup].
        intros x y Hx%in_seq Hy%in_seq Hxy. apply (indexed_inj "Q").
        eapply get_values_inj; [exact Hnd|apply Hpin; lia|].
        rewrite Hxy. apply Hpin. lia.
      + apply in_map_iff. exists j. split; [done|]. apply in_seq. lia. }
  unfold value'. destruct rising.
  - rewrite !bind_eq. cbn [set_kind].
    set (st1 := update_comp self (Component.with_kind (Register bit_width 0 clock))
                  (update_comp self (Component.with_kind (Register bit_width value clock)) st)).
    destruct (read_bits_assign c "D" self (fun v => Register bit_width v clock)
                0 bit_width 0%Z st1) as (st2 & Hrun & Hheap & Hcomp).
    + intros i Hi. eapply has_pin; [done|]. rewrite Hk. cbn [_setup_pins].
      rewrite !in_app_iff. left. apply In_numbered. lia.
    + simpl. lia.
    + unfold st1. simpl. by rewrite !length_alter.
    + unfold st1. by rewrite comp_at_set_kind_twice.
    + rewrite Hrun. rewrite Z.add_0_l in *.
      rewrite (weights_same st st1) in * by done.
      fold (unsigned st c "D" bit_width) in *.
      destruct (Hshow st2 (unsigned st c "D" bit_width)) as (H1 & H2 & H3).
      * by rewrite Hheap.
      * rewrite Hcomp. unfold st1. by rewrite comp_at_set_kind_twice.
      * split_and!; [done..|]. intros i Hi. rewrite H3 by done.
        unfold unsigned. rewrite weights_testbit.
        destruct (Nat.ltb_spec i (0 + bit_width)); [done|lia].
  - rewrite bind_eq. cbn [ret].
    apply Hshow; [done|]. by apply comp_at_set_kind.
Qed.

End MemoryFacts.

(** The memory components, freshly constructed and clocked. *)
Module MemoryExamples.
Import PyStr CircuitModel Components ComponentSpec.

Lemma d_flip_flop_witness :
  let high := Signal.from_bool true in
  let st := set_signal 1 high (set_signal 0 high
              (snd (new (DFlipFlop false false) (py "ff") (py "D-FF") empty_store))) in
  Component.kind (comp_at st 0) = DFlipFlop false false
  /\ well_formed st (comp_at st 0) = true
  /\ fst (evaluate 0 st) = Some tt
  /\ Component.kind (comp_at (snd (evaluate 0 st)) 0) = DFlipFlop true true.
Proof.
  intros high st.
  assert (H1 : Component.kind (comp_at st 0) = DFlipFlop false false)
    by (vm_compute; reflexivity).
  assert (H2 : well_formed st (comp_at st 0) = true) by (vm_compute; reflexivity).
  destruct (MemoryFacts.d_flip_flop st 0 false false H1 H2) as (Hret & Hkind & _).
  split; [exact H1|]. split; [exact H2|]. split; [exact Hret|exact Hkind].
Defined.

Lemma jk_flip_flop_witness :
  let high := Signal.from_bool true in
  let st := set_signal 2 high (set_signal 1 high (set_signal 0 high
              (snd (new (JKFlipFlop false false) (py "ff") (py "JK-FF") empty_store)))) in
  Component.kind (comp_at st 0) = JKFlipFlop false false
  /\ well_formed st (comp_at st 0) = true
  /\ fst (evaluate 0 st) = Some tt
  /\ Component.kind (comp_at (snd (evaluate 0 st)) 0) = JKFlipFlop true true.
Proof.
  intros high st.
  assert (H1 : Component.kind (comp_at st 0) = JKFlipFlop false false)
    by (vm_compute; reflexivity).
  assert (H2 : well_formed st (comp_at st 0) = true) by (vm_compute; reflexivity).
  destruct (MemoryFacts.jk_flip_flop st 0 false false H1 H2) as (Hret & Hkind & _).
  split; [exact H1|]. split; [exact H2|]. split; [exact Hret|exact Hkind].
Defined.

Lemma sr_latch_witness :
  let st := set_signal 0 (Signal.from_bool true)
              (snd (new (SRLatch false) (py "sr") (py "SR Latch") empty_store)) in
  Component.kind (comp_at st 0) = SRLatch false
  /\ well_formed st (comp_at st 0) = true
  /\ fst (evaluate 0 st) = Some tt
  /\ Component.kind (comp_at (snd (evaluate 0 st)) 0) = SRLatch true.
Proof.
  intros st.
  assert (H1 : Component.kind (comp_at st 0) = SRLatch false)
    by (vm_compute; reflexivity).
  assert (H2 : well_formed st (comp_at st 0) = true) by (vm_compute; reflexivity).
  destruct (MemoryFacts.sr_latch st 0 false H1 H2) as (Hret & Hkind & _).
  split; [exact H1|]. split; [exact H2|]. split; [exact Hret|exact Hkind].
Defined.

Lemma register_captures_witness :
  let high := Signal.from_bool true in
  let st := set_signal 4 high (set_signal 1 high
              (snd (new (Register 4 0 false) (py "r") (py "Register") empty_store))) in
  Component.kind (comp_at st 0) = Register 4 0 false
  /\ well_formed st (comp_at st 0) = true
  /\ fst (evaluate 0 st) = Some tt
  /\ Component.kind (comp_at (snd (evaluate 0 st)) 0) = Register 4 2 true.
Proof.
  intros high st.
  assert (H1 : Component.kind (comp_at st 0) = Register 4 0 false)
    by (vm_compute; reflexivity).
  assert (H2 : well_formed st (comp_at st 0) = true) by (vm_compute; reflexivity).
  destruct (MemoryFacts.register_captures st 0 4 0 false H1 H2) as (Hret & Hkind & _).
  split; [exact H1|]. split; [exact H2|]. split; [exact Hret|exact Hkind].
Defined.

End MemoryExamples.

(** Reading the canonical forms back. *)
Module ParseForm.
Import PyStr PyRe BooleanAlgebra CircuitModel CircuitFromForm FormsSpec Canonical FromTable.
Import StrFacts DictFacts NormFacts VarFacts PieceFacts ResultFacts TableFacts FormFacts.
Import NormIdem RoundTripFacts.

(** ** [re.split] *)

Lemma split_sep_go_length sep skip cur ws s :
  length (split_sep_go sep skip cur ws s) = S (count sep s).
Proof.
  revert skip cur ws. induction s as [|c s IH]; intros skip cur ws; [done|].
  cbn [split_sep_go]. unfold count. cbn [List.filter].
  rewrite (N.eqb_sym sep c). destruct (c =? sep)%N.
  - cbn [length]. by rewrite IH.
  - destruct (isspace c); [destruct skip|]; by rewrite IH.
Qed.

Section Split.
Variable sep : char.
Hypothesis sep_nonspace : isspace sep = false.

Local Abbreviation clean := (forallb (fun c => negb (c =? sep)%N && negb (isspace c))).

Lemma split_sep_go_space skip cur ws W Y :
  forallb isspace W = true ->
  split_sep_go sep skip cur ws (W ++ sep :: Y)
  = rev cur :: split_sep_go sep true [] [] Y.
Proof using sep_nonspace.
  revert skip ws. induction W as [|c W IH]; intros skip ws HW.
  - cbn [app split_sep_go]. by rewrite N.eqb_refl.
  - cbn [forallb] in HW. apply andb_true_iff in HW as [Hc HW].
    cbn [app split_sep_go].
    destruct (N.eqb_spec c sep) as [->|_]; [congruence|].
    rewrite Hc. destruct skip; by apply IH.
Qed.

Lemma split_sep_go_skip W Y :
  forallb isspace W = true ->
  split_sep_go sep true [] [] (W ++ Y) = split_sep_go sep true [] [] Y.
Proof using sep_nonspace.
  induction W as [|c W IH]; intros HW; [done|].
  cbn [forallb] in HW. apply andb_true_iff in HW as [Hc HW].
  cbn [app split_sep_go].
  destruct (N.eqb_spec c sep) as [->|_]; [congruence|].
  rewrite Hc. by apply IH.
Qed.

Lemma split_sep_go_clean skip cur p X :
  clean p = true ->
  split_sep_go sep skip cur [] (p ++ X)
  = split_sep_go sep (match p with [] => skip | _ :: _ => false end) (rev p ++ cur) [] X.
Proof.
  revert skip cur. induction p as [|c p IH]; intros skip cur Hp; [done|].
  cbn [forallb] in Hp. apply andb_true_iff in Hp as [[Hc Hs]%andb_true_iff Hp].
  apply negb_true_iff in Hc, Hs.
  cbn [app split_sep_go]. rewrite Hc, Hs. cbn [app]. rewrite IH by done.
  cbn [rev]. rewrite <- app_assoc. cbn [app]. by destruct p.
Qed.

Lemma split_sep_go_join W1 W2 skip cur p rest :
  forallb isspace W1 = true -> forallb isspace W2 = true ->
  clean p = true -> Forall (fun q => clean q = true) rest ->
  split_sep_go sep skip cur [] (joinl (W1 ++ sep :: W2) (p :: rest))
  = (rev cur ++ p) :: rest.
Proof using sep_nonspace.
  intros H1 H2 Hp Hrest. revert skip cur p Hp.
  induction Hrest as [|q rest Hq Hrest IH]; intros skip cur p Hp.
  - cbn [joinl]. rewrite <- (app_nil_r p) at 1. rewrite split_sep_go_clean by done.
    cbn [split_sep_go app]. by rewrite rev_app_distr, rev_involutive.
  - change (joinl (W1 ++ sep :: W2) (p :: q :: rest))
      with (p ++ (W1 ++ sep :: W2) ++ joinl (W1 ++ sep :: W2) (q :: rest)).
    rewrite split_sep_go_clean by done. rewrite <- app_assoc. cbn [app].
    rewrite split_sep_go_space by done.
    rewrite split_sep_go_skip by done.
    rewrite IH by done. by rewrite rev_app_distr, rev_involutive.
Qed.

Lemma split_sep_join W1 W2 parts :
  forallb isspace W1 = true -> forallb isspace W2 = true ->
  parts <> [] -> Forall (fun q => clean q = true) parts ->
  split_sep sep (joinl (W1 ++ sep :: W2) parts) = parts.
Proof using sep_nonspace.
  intros H1 H2 Hne Hparts. destruct Hparts as [|p rest Hp Hrest]; [done|].
  unfold split_sep. by rewrite split_sep_go_join.
Qed.

End Split.

Lemma parsed_literals_nonempty sep s : map parse_literal (split_sep sep s) <> [].
Proof.
  intros H. apply (f_equal (@length _)) in H.
  unfold split_sep in H. rewrite length_map, split_sep_go_length in H. done.
Qed.

Lemma filter_terms sep (l : list str) :
  List.filter (fun term : list literal =>
                 negb (match term with [] => true | _ => false end))
    (map (fun term_str =>
            map parse_literal
              (split_sep sep (strip_chars (py "()") (strip term_str)))) l)
  = map (fun term_str =>
           map parse_literal
             (split_sep sep (strip_chars (py "()") (strip term_str)))) l.
Proof.
  induction l as [|x l IH]; [done|]. cbn [map List.filter].
  destruct (map parse_literal _) eqn:E; [by apply parsed_literals_nonempty in E|].
  cbn [negb]. by rewrite IH.
Qed.

Lemma _parse_dnf_terms_eq dnf :
  _parse_dnf_terms dnf
  = map (fun term_str =>
           map parse_literal
             (split_sep (sym "&") (strip_chars (py "()") (strip term_str))))
        (split_sep (sym "|") dnf).
Proof. unfold _parse_dnf_terms. cbv zeta. apply filter_terms. Qed.

Lemma _parse_cnf_clauses_eq cnf :
  _parse_cnf_clauses cnf
  = map (fun clause_str =>
           map parse_literal
             (split_sep (sym "|") (strip_chars (py "()") (strip clause_str))))
        (split_sep (sym "&") cnf).
Proof. unfold _parse_cnf_clauses. cbv zeta. apply filter_terms. Qed.

(** X22. The parsers of the builder never return an empty list: a
    string with [n] separators gives [n + 1] terms (the empty string
    gives one), and no term is empty, so neither emptiness test of the
    builder ever succeeds. *)
Theorem parsed_terms_nonempty (form : str) :
  length (_parse_dnf_terms form) = S (count (sym "|") form)
  /\ Forall (fun term => term <> []) (_parse_dnf_terms form)
  /\ length (_parse_cnf_clauses form) = S (count (sym "&") form)
  /\ Forall (fun clause => clause <> []) (_parse_cnf_clauses form)
  /\ _parse_dnf_terms [] = [[([], true)]]
  /\ _parse_cnf_clauses [] = [[([], true)]].
Proof.
  rewrite _parse_dnf_terms_eq, _parse_cnf_clauses_eq.
  split_and!.
  - unfold split_sep. by rewrite length_map, split_sep_go_length.
  - apply Forall_forall. intros term (x & -> & _)%list_elem_of_fmap.
    apply parsed_literals_nonempty.
  - unfold split_sep. by rewrite length_map, split_sep_go_length.
  - apply Forall_forall. intros term (x & -> & _)%list_elem_of_fmap.
    apply parsed_literals_nonempty.
  - vm_compute. reflexivity.
  - vm_compute. reflexivity.
Qed.

(** ** The names of generated tables *)

Lemma replace_char_map d s :
  replace [d] (py " ") s = map (fun x => if (x =? d)%N then 32%N else x) s.
Proof.
  unfold replace. rewrite replace_from_char.
  induction s as [|x s IH]; [done|]. cbn [flat_map map]. rewrite IH.
  by destruct (x =? d)%N.
Qed.

Lemma blank_chars_map (ds : list char) s :
  fold_left (fun c op => replace op (py " ") c) (map (fun d => [d]) ds) s
  = map (fun y => fold_left (fun x d => if (x =? d)%N then 32%N else x) ds y) s.
Proof.
  revert s. induction ds as [|d ds IH]; intros s.
  - cbn [map fold_left]. by rewrite map_id.
  - cbn [map fold_left]. rewrite replace_char_map, IH, map_map. done.
Qed.

Lemma cleaned_chars s x :
  In x (fold_left (fun c op => replace op (py " ") c) BooleanExpression.delimiters s) ->
  existsb (N.eqb x) (py "|&()") = false.
Proof.
  change BooleanExpression.delimiters
    with (map (fun d : char => [d])
              [38; 124; 33; 94; 8594; 8801; 8593; 8595; 40; 41; 32]%N).
  rewrite blank_chars_map. intros (y & <- & _)%in_map_iff.
  cbn [fold_left].
  repeat (match goal with
          | |- context [(y =? ?b)%N] =>
              destruct (N.eqb_spec y b) as [->|?]; [vm_compute; reflexivity|cbv iota]
          end).
  change (py "|&()") with [124; 38; 40; 41]%N. cbn [existsb].
  repeat (match goal with
          | |- context [(y =? ?b)%N] => destruct (N.eqb_spec y b); [done|]
          end).
  done.
Qed.

Section Names.
Variable uni_isalpha : char -> bool.
Variable uni_isalnum : char -> bool.

Lemma starts_alpha_unmarked var :
  BooleanExpression.starts_alpha uni_isalpha var = true ->
  existsb (fun m => startswith m var) negation_marks = false.
Proof.
  destruct var as [|c var]; [done|]. cbn [BooleanExpression.starts_alpha].
  intros Hc. unfold negation_marks. cbn [map existsb].
  change (py "!") with [33%N]. change (py "~") with [126%N]. change (py "¬") with [172%N].
  cbn [startswith]. rewrite !andb_true_r.
  destruct (N.eqb_spec 33 c) as [<-|_]; [by vm_compute in Hc|].
  destruct (N.eqb_spec 126 c) as [<-|_]; [by vm_compute in Hc|].
  destruct (N.eqb_spec 172 c) as [<-|_]; [by vm_compute in Hc|].
  done.
Qed.

Lemma extracted_form_name normalized var :
  var ∈ BooleanExpression._extract_variables uni_isalpha normalized ->
  form_name var = true.
Proof.
  unfold BooleanExpression._extract_variables.
  intros [Hin Halpha]%sorted_set_elem%list_elem_of_In%filter_In.
  apply list_elem_of_In, split_ws_factor in Hin as (pre & post & Heq & Hns).
  unfold form_name. apply andb_true_intro. split.
  - destruct var as [|c var]; [done|]. by rewrite starts_alpha_unmarked.
  - apply forallb_forall. intros x Hx. apply andb_true_intro. split.
    + eapply forallb_forall in Hns; [|exact Hx]. done.
    + apply negb_true_iff, (cleaned_chars normalized). rewrite Heq.
      apply in_or_app. right. apply in_or_app. by left.
Qed.

Lemma generated_form_names expression tt :
  generate_truth_table uni_isalpha uni_isalnum expression = Ret tt ->
  Forall (fun var => form_name var = true) (TruthTable.variables tt).
Proof.
  intros (Hvars & _ & _)%generate_truth_table_inv. rewrite Hvars.
  apply Forall_forall. intros var Hvar.
  apply (extracted_form_name (BooleanExpression._normalize expression)). exact Hvar.
Qed.

End Names.

(** ** The terms of a form *)

Lemma strip_nonspace s :
  forallb (fun c => negb (isspace c)) s = true -> strip s = s.
Proof.
  intros H. apply trimmed_strip. split; apply lstrip_by_fix; intros x Hx.
  - destruct s as [|c s]; [done|]. injection Hx as <-.
    cbn [forallb] in H. apply andb_true_iff in H as [H _]. by apply negb_true_iff.
  - rewrite head_rev in Hx. apply last_Some in Hx as [l' ->].
    rewrite forallb_app in H. apply andb_true_iff in H as [_ H].
    cbn [forallb] in H. apply andb_true_iff in H as [H _]. by apply negb_true_iff.
Qed.

Lemma strip_by_inner (f : char -> bool) x y inner :
  f x = true -> f y = true -> forallb (fun c => negb (f c)) inner = true ->
  strip_by f (x :: inner ++ [y]) = inner.
Proof.
  intros Hx Hy Hin. unfold strip_by, rstrip_by. cbn [lstrip_by]. rewrite Hx.
  destruct inner as [|a m].
  - cbn [app lstrip_by]. by rewrite Hy.
  - cbn [forallb] in Hin. apply andb_true_iff in Hin as [Ha Hm].
    apply negb_true_iff in Ha. cbn [app lstrip_by]. rewrite Ha.
    change (a :: m ++ [y]) with ((a :: m) ++ [y]). rewrite rev_app_distr.
    cbn [rev app lstrip_by]. rewrite Hy.
    change (rev m ++ [a]) with (rev (a :: m)).
    assert (Hfix : lstrip_by f (rev (a :: m)) = rev (a :: m)).
    { apply lstrip_by_fix. intros c Hc. rewrite head_rev in Hc.
      apply last_Some in Hc as [l' Hl'].
      assert (Hall : forallb (fun c => negb (f c)) (a :: m) = true)
        by (cbn [forallb]; by rewrite Ha, Hm).
      rewrite Hl', forallb_app in Hall. apply andb_true_iff in Hall as [_ Hall].
      cbn [forallb] in Hall. apply andb_true_iff in Hall as [Hall _].
      by apply negb_true_iff. }
    by rewrite Hfix, rev_involutive.
Qed.

(** The text of a literal. *)
Local Abbreviation lit_text b var := (if b : bool then var%list else py "!" ++ var).

Lemma parse_literal_text b var :
  form_name var = true -> parse_literal (lit_text b var) = (var, b).
Proof.
  unfold form_name. intros [Hm Hc]%andb_true_iff.
  assert (Hns : forallb (fun c => negb (isspace c)) var = true).
  { apply forallb_forall. intros x Hx. eapply forallb_forall in Hc; [|exact Hx].
    by apply andb_true_iff in Hc as [Hc _]. }
  unfold parse_literal. cbv zeta. destruct b.
  - rewrite (strip_nonspace var) by done.
    destruct var as [|c var]; [done|]. apply negb_true_iff in Hm. by rewrite Hm.
  - change (py "!" ++ var) with (33%N :: var).
    rewrite (strip_nonspace (33%N :: var)) by (cbn [forallb]; by rewrite Hns).
    change (existsb (fun m => startswith m (33%N :: var)) negation_marks) with true.
    cbn [drop]. by rewrite strip_nonspace.
Qed.

Section Terms.
Variables outer inner : char.
Hypothesis separators :
  (outer = sym "|" /\ inner = sym "&") \/ (outer = sym "&" /\ inner = sym "|").
Variable negated : bool.
Variable variables : list str.
Hypothesis names : Forall (fun var => form_name var = true) variables.

Local Abbreviation literal_texts row :=
  (map (fun var => lit_text (xorb negated (value row var)) var) variables).
Local Abbreviation term_text row :=
  (py "(" ++ joinl [inner] (literal_texts row) ++ py ")").

Lemma name_chars var x :
  form_name var = true -> In x var ->
  isspace x = false /\ x <> sym "|" /\ x <> sym "&" /\ x <> sym "(" /\ x <> sym ")".
Proof.
  unfold form_name. intros [_ Hc]%andb_true_iff Hx.
  eapply forallb_forall in Hc; [|exact Hx].
  apply andb_true_iff in Hc as [Hs He]. apply negb_true_iff in Hs, He.
  change (py "|&()") with [sym "|"; sym "&"; sym "("; sym ")"] in He.
  cbn [existsb] in He.
  repeat (apply orb_false_iff in He as [?%N.eqb_neq He]). done.
Qed.

Lemma literal_chars row x :
  In x (joinl [inner] (literal_texts row)) ->
  x = inner \/ x = sym "!" \/ exists var, In var variables /\ In x var.
Proof using Type.
  intros [[<-|[]]|(p & (var & <- & Hvar)%in_map_iff & Hx)]%In_joinl; [by left|].
  right. destruct (xorb negated (value row var)); [right; by exists var|].
  destruct Hx as [<-|Hx]; [by left|right; by exists var].
Qed.

Lemma separators_cases :
  isspace outer = false /\ isspace inner = false /\ outer <> inner
  /\ (outer = sym "|" \/ outer = sym "&") /\ (inner = sym "|" \/ inner = sym "&").
Proof using separators.
  destruct separators as [[-> ->]|[-> ->]]; split_and!; try done;
    first [by left | by right].
Qed.

Lemma inner_chars row x :
  In x (joinl [inner] (literal_texts row)) ->
  isspace x = false /\ x <> outer /\ x <> sym "(" /\ x <> sym ")".
Proof using separators names.
  destruct separators_cases as (Ho & Hi & Hne & Hoc & Hic).
  intros [->|[->|(var & Hvar & Hx)]]%literal_chars.
  - split_and!; [done|done|destruct Hic as [-> | ->]; done..].
  - split_and!; [done|destruct Hoc as [-> | ->]; done|done..].
  - eapply Forall_forall in names; [|by apply list_elem_of_In].
    destruct (name_chars var x names Hx) as (? & ? & ? & ? & ?).
    split_and!; [done|destruct Hoc as [-> | ->]; done|done..].
Qed.

Lemma term_clean row :
  forallb (fun c => negb (c =? outer)%N && negb (isspace c)) (term_text row) = true.
Proof using separators names.
  destruct separators_cases as (Ho & Hi & Hne & Hoc & Hic).
  apply forallb_forall. intros x [Hx|[Hx|Hx]%in_app_or]%in_app_or.
  - destruct Hx as [<-|[]]. destruct Hoc as [-> | ->]; done.
  - destruct (inner_chars row x Hx) as (-> & ?%N.eqb_neq & _). by rewrite H.
  - destruct Hx as [<-|[]]. destruct Hoc as [-> | ->]; done.
Qed.

Lemma literal_clean row p :
  In p (literal_texts row) ->
  forallb (fun c => negb (c =? inner)%N && negb (isspace c)) p = true.
Proof using separators names.
  destruct separators_cases as (Ho & Hi & Hne & Hoc & Hic).
  intros (var & <- & Hvar)%in_map_iff.
  eapply Forall_forall in names; [|by apply list_elem_of_In].
  assert (Hv : forallb (fun c => negb (c =? inner)%N && negb (isspace c)) var = true).
  { apply forallb_forall. intros x Hx.
    destruct (name_chars var x names Hx) as (-> & ? & ? & _).
    rewrite andb_true_r. apply negb_true_iff, N.eqb_neq.
    destruct Hic as [-> | ->]; done. }
  destruct (xorb negated (value row var)); [done|].
  change (py "!" ++ var) with (33%N :: var). cbn [forallb]. rewrite Hv.
  destruct Hic as [-> | ->]; done.
Qed.

Lemma parse_term row :
  variables <> [] ->
  map parse_literal
    (split_sep inner (strip_chars (py "()") (strip (term_text row))))
  = row_literals negated variables row.
Proof using separators names.
  intros Hne. destruct separators_cases as (Ho & Hi & _).
  change (py "(" ++ joinl [inner] (literal_texts row) ++ py ")")
    with (sym "(" :: joinl [inner] (literal_texts row) ++ [sym ")"]).
  unfold strip. rewrite strip_by_ends by done.
  unfold strip_chars. rewrite strip_by_inner; [|done|done|].
  2: { apply forallb_forall. intros x Hx.
       destruct (inner_chars row x Hx) as (_ & _ & H1%N.eqb_neq & H2%N.eqb_neq).
       change (py "()") with [sym "("; sym ")"]. cbn [existsb]. by rewrite H1, H2. }
  rewrite (split_sep_join inner Hi [] []); [|done|done| |].
  - unfold row_literals. rewrite map_map. apply map_ext_in. intros var Hvar.
    apply parse_literal_text.
    eapply Forall_forall in names; [done|by apply list_elem_of_In].
  - by destruct variables.
  - apply Forall_forall. intros p Hp%list_elem_of_In. by apply (literal_clean row).
Qed.

Lemma parse_form rows :
  variables <> [] -> rows <> [] ->
  map (fun term_str =>
         map parse_literal
           (split_sep inner (strip_chars (py "()") (strip term_str))))
      (split_sep outer (joinl (py " " ++ outer :: py " ")
                              (map (fun row => term_text row) rows)))
  = map (row_literals negated variables) rows.
Proof using separators names.
  intros Hv Hr. destruct separators_cases as (Ho & _).
  rewrite (split_sep_join outer Ho); [|done|done| |].
  - rewrite map_map. apply map_ext. intros row. by apply parse_term.
  - by destruct rows.
  - apply Forall_forall. intros p (row & -> & _)%list_elem_of_fmap. apply term_clean.
Qed.

End Terms.

(** ** The forms of a table *)

Lemma parse_pdnf_spec tt :
  TruthTable.variables tt <> [] ->
  Forall (fun var => form_name var = true) (TruthTable.variables tt) ->
  _parse_dnf_terms (pdnf_spec tt)
  = match TruthTable.get_minterms tt with
    | [] => [[(py "0", true)]]
    | rows => map (row_literals false (TruthTable.variables tt)) rows
    end.
Proof.
  intros Hne Hnames. rewrite _parse_dnf_terms_eq.
  unfold pdnf_spec, TruthTable.get_minterms.
  destruct (List.filter _ _) as [|r rs]; [vm_compute; reflexivity|].
  rewrite join_joinl.
  rewrite <- (parse_form (sym "|") (sym "&") (or_introl (conj eq_refl eq_refl)) false
                (TruthTable.variables tt) Hnames (r :: rs)) by done.
  f_equal. f_equal. f_equal. apply map_ext. intros row. unfold and_term.
  rewrite join_joinl.
  apply (f_equal (fun l => py "(" ++ joinl [sym "&"] l ++ py ")")).
  apply map_ext. intros var. by destruct (value row var).
Qed.

Lemma parse_pcnf_spec tt :
  TruthTable.variables tt <> [] ->
  Forall (fun var => form_name var = true) (TruthTable.variables tt) ->
  _parse_cnf_clauses (pcnf_spec tt)
  = match TruthTable.get_maxterms tt with
    | [] => [[(py "1", true)]]
    | rows => map (row_literals true (TruthTable.variables tt)) rows
    end.
Proof.
  intros Hne Hnames. rewrite _parse_cnf_clauses_eq.
  unfold pcnf_spec, TruthTable.get_maxterms.
  destruct (List.filter _ _) as [|r rs]; [vm_compute; reflexivity|].
  rewrite join_joinl.
  rewrite <- (parse_form (sym "&") (sym "|") (or_intror (conj eq_refl eq_refl)) true
                (TruthTable.variables tt) Hnames (r :: rs)) by done.
  f_equal. f_equal. f_equal. apply map_ext. intros row. unfold or_clause.
  rewrite join_joinl.
  apply (f_equal (fun l => py "(" ++ joinl [sym "|"] l ++ py ")")).
  apply map_ext. intros var. by destruct (value row var).
Qed.

Section Generated.
Variable uni_isalpha : char -> bool.
Variable uni_isalnum : char -> bool.

(** X23. The builder reads the forms of a generated table back as they
    were printed: the PDNF parses into one term per true row, in order,
    each the list of the variables with their values in that row, and
    the PCNF into one clause per false row, each the list of the
    variables with the negations of their values; the constants [0]
    and [1] parse as one term holding a variable of that name. *)
Theorem parse_normal_forms expression tt :
  generate_truth_table uni_isalpha uni_isalnum expression = Ret tt ->
  calculate_pdnf tt = Ret (pdnf_spec tt)
  /\ calculate_pcnf tt = Ret (pcnf_spec tt)
  /\ _parse_dnf_terms (pdnf_spec tt)
     = match TruthTable.get_minterms tt with
       | [] => [[(py "0", true)]]
       | rows => map (row_literals false (TruthTable.variables tt)) rows
       end
  /\ _parse_cnf_clauses (pcnf_spec tt)
     = match TruthTable.get_maxterms tt with
       | [] => [[(py "1", true)]]
       | rows => map (row_literals true (TruthTable.variables tt)) rows
       end.
Proof.
  intros Hgen.
  pose proof (generated_rows_defined _ _ _ _ Hgen) as Hdef.
  pose proof (generated_form_names _ _ _ _ Hgen) as Hnames.
  destruct (generate_truth_table_inv _ _ _ _ Hgen) as (_ & Hne & _).
  split_and!.
  - by apply calculate_pdnf_spec.
  - by apply calculate_pcnf_spec.
  - by apply parse_pdnf_spec.
  - by apply parse_pcnf_spec.
Qed.

End Generated.

Lemma parse_normal_forms_witness :
  let uni := fun _ : char => false in
  let tt := table_AB false false false true in
  generate_truth_table uni uni (py "A&B") = Ret tt
  /\ _parse_dnf_terms (pdnf_spec tt) = [[(py "A", true); (py "B", true)]]
  /\ _parse_cnf_clauses (pcnf_spec tt)
     = [[(py "A", true); (py "B", true)]; [(py "A", true); (py "B", false)];
        [(py "A", false); (py "B", true)]].
Proof.
  intros uni tt.
  assert (Hgen : generate_truth_table uni uni (py "A&B") = Ret tt)
    by (vm_compute; reflexivity).
  destruct (parse_normal_forms uni uni (py "A&B") tt Hgen) as (_ & _ & Hd & Hc).
  split; [exact Hgen|]. split; [exact Hd|exact Hc].
Defined.

End ParseForm.

(** The builder on the forms of a generated table. *)
Module BuildFacts.
Import PyStr PyRe BooleanAlgebra CircuitModel Components CircuitFromForm.
Import FormsSpec Canonical ComponentSpec FromTable.
Import StoreFacts FrameFacts DictFacts HeapFacts EvalFacts NewFacts.
Import ResultFacts TableFacts ParseForm.

(** The pin of that name of component [c] exists. *)
Local Abbreviation bound st c name :=
  (is_Some (Component.get_pin (comp_at st c) name)).

(** The components keep the pins they have. *)
Local Abbreviation kept st st' :=
  (forall c name p, Component.get_pin (comp_at st c) name = Some p ->
                    Component.get_pin (comp_at st' c) name = Some p).

Lemma build_bind_eq {A B} (m : Build A) (k : A -> Build B) s :
  bind m k s = match m s with
               | (Some a, s') => k a s'
               | (None, s') => (None, s')
               end.
Proof. done. Qed.

Lemma bound_in_range st c name :
  bound st c name -> c < length (comp_heap st).
Proof.
  intros [p Hp]. destruct (decide (c < length (comp_heap st))) as [|Hge]; [done|].
  rewrite comp_at_alt, (lookup_ge_None_2 (comp_heap st) c) in Hp by lia. done.
Qed.

Lemma new_pins k component_id label st :
  let c := fst (new k component_id label st) in
  let st' := snd (new k component_id label st) in
  kept st st'
  /\ forall name ty, In (name, ty) (_setup_pins k) -> bound st' c name.
Proof.
  destruct st as [P W C]. unfold new, alloc_comp.
  cbn [pin_heap wire_heap comp_heap]. rewrite new_fold. cbn [fst snd]. split.
  - intros c name p Hp.
    assert (Hc : c < length C) by (eapply (bound_in_range (mkStore P W C)); by eexists).
    unfold comp_at in *. cbn [comp_heap] in *. by rewrite lookup_total_app_l.
  - intros name ty Hin. unfold comp_at. cbn [comp_heap].
    rewrite (list_lookup_total_middle C [] _ (length C)) by done.
    unfold Component.get_pin. cbn [Component.pins].
    assert (Hmem : PyDict.mem name (pins_dict (length P) (_setup_pins k) []) = true).
    { apply pins_dict_mem. right. apply in_map_iff. by exists (name, ty). }
    unfold PyDict.mem in Hmem.
    destruct (PyDict.get name (pins_dict (length P) (_setup_pins k) [])) as [p|];
      [by exists p|done].
Qed.

Lemma add_component_pins circuit c st :
  let st' := snd (add_component circuit c st) in
  forall c' name, Component.get_pin (comp_at st' c') name
                  = Component.get_pin (comp_at st c') name.
Proof.
  unfold add_component. intros c' name.
  destruct (Component.id (comp_at st c)); [|done]. cbn [snd].
  rewrite comp_at_update_comp, comp_at_alt.
  destruct (comp_heap st !! c'); [|done]. by case_decide.
Qed.

Lemma create_and_add_spec component_type k label s :
  PyDict.get (lower (py component_type)) _registry = Some k ->
  exists c s',
    create_and_add component_type label s = (Some c, s')
    /\ kept (snd s) (snd s')
    /\ forall name ty, In (name, ty) (_setup_pins k) -> bound (snd s') c name.
Proof.
  intros Hreg. unfold create_and_add, create. rewrite Hreg.
  set (label' := match label with [] => py component_type | _ :: _ => label end).
  destruct (new_pins k [] label' (snd s)) as [Hkept Hbound].
  destruct (new k [] label' (snd s)) as [c st1]. cbn [fst snd] in *.
  pose proof (add_component_pins (fst s) c st1) as Hadd.
  destruct (add_component (fst s) c st1) as [[id circuit] st2]. cbn [snd] in *.
  exists c, (circuit, st2). split_and!; [done| |].
  - intros c' name p Hp. rewrite Hadd. by apply Hkept.
  - intros name ty Hin. rewrite Hadd. by eapply Hbound.
Qed.

Lemma connect_spec a b s :
  exists s', connect a b s = (Some tt, s')
             /\ comp_heap (snd s') = comp_heap (snd s).
Proof.
  unfold connect, alloc_wire, add_wire. cbn [wire_heap pin_heap comp_heap snd fst].
  match goal with
  | |- context [match ?x with [] => _ | _ :: _ => _ end] => destruct x
  end; eexists; split; reflexivity.
Qed.

Lemma kept_heap st st' : comp_heap st' = comp_heap st -> kept st st'.
Proof. intros H c name p. unfold comp_at. by rewrite H. Qed.

Ltac run := repeat (rewrite build_bind_eq; cbn [pin_of]).

Lemma comp_at_heap st st' c :
  comp_heap st' = comp_heap st -> comp_at st' c = comp_at st c.
Proof. intros H. unfold comp_at. by rewrite H. Qed.

(** The component that the dictionary gives for [v] has an [out] pin. *)
Local Abbreviation ready st d v :=
  (exists c, PyDict.get v d = Some c /\ bound st c (py "out")).

Lemma ready_kept st st' (d : PyDict.dict comp_ref) v :
  kept st st' -> ready st d v -> ready st' d v.
Proof.
  intros Hk (c & Hc & p & Hp). exists c. split; [done|]. exists p. by apply Hk.
Qed.

Lemma switches_spec variables switches s :
  exists switches' s',
    _create_input_switches_from variables switches s = (Some switches', s')
    /\ kept (snd s) (snd s')
    /\ (forall v, ready (snd s) switches v \/ In v variables ->
                  ready (snd s') switches' v)
    /\ (forall v, PyDict.get v switches' <> None ->
                  PyDict.get v switches <> None \/ In v variables).
Proof.
  revert switches s. induction variables as [|var rest IH]; intros switches s.
  - exists switches, s. split_and!; [done|done| |by left].
    by intros v [H|[]].
  - cbn [_create_input_switches_from]. rewrite build_bind_eq.
    destruct (create_and_add_spec "switch" (Switch false) var s eq_refl)
      as (c & s1 & -> & Hk1 & Hb1).
    destruct (IH (PyDict.set var c switches) s1) as (sw' & s' & -> & Hk & Hready & Hkeys).
    exists sw', s'. split_and!; [done| | |].
    + intros c' name p Hp. by apply Hk, Hk1.
    + intros v Hv. apply Hready.
      destruct (decide (v = var)) as [->|Hne].
      * left. exists c. split; [apply get_set_eq|]. apply (Hb1 _ OUTPUT). by left.
      * destruct Hv as [Hv|[<-|Hv]]; [|done|by right].
        left. eapply ready_kept in Hv; [|exact Hk1].
        destruct Hv as (c0 & Hc0 & Hb0). exists c0. by rewrite get_set_ne.
    + intros v Hv. destruct (Hkeys v Hv) as [H|H]; [|right; by right].
      destruct (decide (v = var)) as [->|Hne]; [right; by left|].
      left. by rewrite get_set_ne in H.
Qed.

Lemma guarded_connect_spec (a b : option pin_ref) s :
  exists s',
    match a, b with
    | Some a, Some b => connect a b
    | _, _ => ret tt
    end s = (Some tt, s')
    /\ comp_heap (snd s') = comp_heap (snd s).
Proof.
  destruct a as [a|], b as [b|]; try (by exists s). apply connect_spec.
Qed.

Lemma not_gates_spec variables switches not_gates s :
  (forall v, In v variables -> ready (snd s) switches v) ->
  exists not_gates' s',
    _create_not_gates_from variables switches not_gates s = (Some not_gates', s')
    /\ kept (snd s) (snd s')
    /\ (forall v, ready (snd s) not_gates v \/ In v variables ->
                  ready (snd s') not_gates' v).
Proof.
  revert not_gates s. induction variables as [|var rest IH]; intros not_gates s Hsw.
  - exists not_gates, s. split_and!; [done|done|]. by intros v [H|[]].
  - cbn [_create_not_gates_from]. rewrite build_bind_eq.
    destruct (create_and_add_spec "not" (NOTGate 1) (py "NOT_" ++ var) s eq_refl)
      as (c & s1 & -> & Hk1 & Hb1).
    destruct (Hsw var) as (sc & Hsc & _); [by left|].
    rewrite build_bind_eq. unfold item at 1. rewrite Hsc. cbn [ret].
    run.
    destruct (guarded_connect_spec
                (Component.get_pin (comp_at (snd s1) sc) (py "out"))
                (Component.get_pin (comp_at (snd s1) c) (py "in0")) s1)
      as (s2 & -> & Hh2).
    assert (Hk2 : kept (snd s) (snd s2)).
    { intros c' name p Hp. rewrite (comp_at_heap _ _ _ Hh2). by apply Hk1. }
    destruct (IH (PyDict.set var c not_gates) s2) as (ng' & s' & -> & Hk & Hready).
    { intros v Hv. eapply ready_kept; [exact Hk2|]. apply Hsw. by right. }
    exists ng', s'. split_and!; [done| |].
    + intros c' name p Hp. by apply Hk, Hk2.
    + intros v Hv. apply Hready.
      destruct (decide (v = var)) as [->|Hne].
      * left. exists c. split; [apply get_set_eq|].
        rewrite (comp_at_heap _ _ _ Hh2). apply (Hb1 _ OUTPUT). right. by left.
      * destruct Hv as [Hv|[<-|Hv]]; [|done|by right].
        left. eapply ready_kept in Hv; [|exact Hk2].
        destruct Hv as (c0 & Hc0 & Hb0). exists c0. by rewrite get_set_ne.
Qed.

Lemma wire_inputs_spec gate switches not_gates guarded i (term : list literal) s :
  (forall var b, In (var, b) term ->
     ready (snd s) switches var /\ ready (snd s) not_gates var) ->
  (guarded = false -> forall j, j < 2 -> bound (snd s) gate (indexed "in" j)) ->
  exists s',
    wire_term_inputs gate switches not_gates guarded i term s = (Some tt, s')
    /\ comp_heap (snd s') = comp_heap (snd s).
Proof.
  revert i s. induction term as [|[var b] rest IH]; intros i s Hterm Hgate.
  - by exists s.
  - cbn [wire_term_inputs]. destruct (Nat.leb_spec 2 i) as [|Hi]; [by exists s|].
    destruct (Hterm var b) as [Hsw Hng]; [by left|].
    assert (Hsrc : ready (snd s) (if b then switches else not_gates) var)
      by (by destruct b).
    destruct Hsrc as (src & Hsrc & p & Hp).
    rewrite build_bind_eq. unfold item at 1. rewrite Hsrc. cbn [ret].
    run. rewrite Hp.
    assert (Hstep : exists s1,
              (if guarded
               then match Component.get_pin (comp_at (snd s) gate) (indexed "in" i) with
                    | Some b0 => connect p b0
                    | None => ret tt
                    end
               else connect_pins (Some p)
                      (Component.get_pin (comp_at (snd s) gate) (indexed "in" i))) s
              = (Some tt, s1)
              /\ comp_heap (snd s1) = comp_heap (snd s)).
    { destruct guarded.
      - destruct (Component.get_pin (comp_at (snd s) gate) (indexed "in" i));
          [apply connect_spec|by exists s].
      - destruct (Hgate eq_refl i Hi) as [q ->]. cbn [connect_pins]. apply connect_spec. }
    destruct Hstep as (s1 & -> & Hh1).
    destruct (IH (S i) s1) as (s' & -> & Hh').
    + intros v b' Hin. destruct (Hterm v b') as [H1 H2]; [by right|].
      split; (eapply ready_kept; [apply kept_heap; exact Hh1|done]).
    + intros Hg j Hj. rewrite (comp_at_heap _ _ _ Hh1). by apply Hgate.
    + exists s'. split; [done|]. by rewrite Hh', Hh1.
Qed.

Lemma gate_pins k name :
  k = ANDGate 2 \/ k = ORGate 2 ->
  In name [py "in0"; py "in1"; py "out"] -> exists ty, In (name, ty) (_setup_pins k).
Proof.
  intros [-> | ->] [<-|[<-|[<-|[]]]];
    first [exists INPUT; by left | exists INPUT; right; by left
          | exists OUTPUT; right; right; by left].
Qed.

Lemma term_gate_spec component_type k label guarded (term : list literal)
    switches not_gates s :
  PyDict.get (lower (py component_type)) _registry = Some k ->
  k = ANDGate 2 \/ k = ORGate 2 ->
  (forall var b, In (var, b) term ->
     ready (snd s) switches var /\ ready (snd s) not_gates var) ->
  exists gate s',
    (do gate <- create_and_add component_type label;
     do _ <- wire_term_inputs gate switches not_gates guarded 0 term;
     ret gate) s = (Some gate, s')
    /\ kept (snd s) (snd s')
    /\ bound (snd s') gate (py "out").
Proof.
  intros Hreg Hk Hterm. rewrite build_bind_eq.
  destruct (create_and_add_spec component_type k label s Hreg)
    as (gate & s1 & -> & Hk1 & Hb1).
  assert (Hpin : forall name, In name [py "in0"; py "in1"; py "out"] ->
                   bound (snd s1) gate name).
  { intros name Hname. destruct (gate_pins k name Hk Hname) as [ty Hty].
    by eapply Hb1. }
  rewrite build_bind_eq.
  destruct (wire_inputs_spec gate switches not_gates guarded 0 term s1)
    as (s' & -> & Hh').
  - intros var b Hin. destruct (Hterm var b Hin) as [H1 H2].
    split; eapply ready_kept; done.
  - intros _ j Hj. apply Hpin.
    destruct j as [|[|j]]; [by left|right; by left|lia].
  - exists gate, s'. split_and!; [done| |].
    + intros c name p Hp. rewrite (comp_at_heap _ _ _ Hh'). by apply Hk1.
    + rewrite (comp_at_heap _ _ _ Hh'). apply Hpin. right. right. by left.
Qed.

Lemma create_gates_spec (create : list literal -> nat -> Build comp_ref) i terms s :
  (forall term, In term terms -> forall i s0, kept (snd s) (snd s0) ->
     exists gate s1, create term i s0 = (Some gate, s1)
                     /\ kept (snd s0) (snd s1)
                     /\ bound (snd s1) gate (py "out")) ->
  exists gates s',
    create_gates create i terms s = (Some gates, s')
    /\ length gates = length terms
    /\ kept (snd s) (snd s')
    /\ forall gate, In gate gates -> bound (snd s') gate (py "out").
Proof.
  revert i s. induction terms as [|term rest IH]; intros i s Hcreate.
  - exists [], s. split_and!; done.
  - cbn [create_gates]. rewrite build_bind_eq.
    destruct (Hcreate term (or_introl eq_refl) i s) as (gate & s1 & -> & Hk1 & Hb1);
      [done|].
    rewrite build_bind_eq.
    destruct (IH (S i) s1) as (gates & s' & -> & Hlen & Hk & Hb).
    { intros t Ht j s0 Hs0. apply Hcreate; [by right|].
      intros c name p Hp. by apply Hs0, Hk1. }
    exists (gate :: gates), s'. split_and!; [done|cbn [length]; by rewrite Hlen| |].
    + intros c name p Hp. by apply Hk, Hk1.
    + intros g [<-|Hg]; [|by apply Hb]. destruct Hb1 as [p Hp]. exists p. by apply Hk.
Qed.

Lemma wire_final_spec final i gates s :
  i + length gates <= 2 ->
  (forall gate, In gate gates -> bound (snd s) gate (py "out")) ->
  (forall j, j < 2 -> bound (snd s) final (indexed "in" j)) ->
  exists s',
    wire_final_inputs final i gates s = (Some tt, s')
    /\ comp_heap (snd s') = comp_heap (snd s).
Proof.
  revert i s. induction gates as [|gate rest IH]; intros i s Hlen Hgates Hfinal.
  - by exists s.
  - cbn [wire_final_inputs length] in *. run.
    destruct (Hgates gate) as [a ->]; [by left|].
    destruct (Hfinal i) as [b ->]; [lia|].
    destruct (connect_spec a b s) as (s1 & Hc & Hh1). cbn [connect_pins]. rewrite Hc.
    destruct (IH (S i) s1) as (s' & -> & Hh'); [lia| | |].
    + intros g Hg. rewrite (comp_at_heap _ _ _ Hh1). apply Hgates. by right.
    + intros j Hj. rewrite (comp_at_heap _ _ _ Hh1). by apply Hfinal.
    + exists s'. split; [done|]. by rewrite Hh', Hh1.
Qed.

Lemma final_gate_spec component_type k label gates s :
  PyDict.get (lower (py component_type)) _registry = Some k ->
  k = ANDGate 2 \/ k = ORGate 2 ->
  (forall gate, In gate gates -> bound (snd s) gate (py "out")) ->
  exists final s',
    (do final <- create_and_add component_type label;
     do _ <- wire_final_inputs final 0 (take 2 gates);
     ret final) s = (Some final, s')
    /\ kept (snd s) (snd s')
    /\ bound (snd s') final (py "out").
Proof.
  intros Hreg Hk Hgates. rewrite build_bind_eq.
  destruct (create_and_add_spec component_type k label s Hreg)
    as (final & s1 & -> & Hk1 & Hb1).
  assert (Hpin : forall name, In name [py "in0"; py "in1"; py "out"] ->
                   bound (snd s1) final name).
  { intros name Hname. destruct (gate_pins k name Hk Hname) as [ty Hty].
    by eapply Hb1. }
  rewrite build_bind_eq.
  destruct (wire_final_spec final 0 (take 2 gates) s1) as (s' & -> & Hh').
  - rewrite length_take. lia.
  - intros g (j & Hj & _)%list_elem_of_In%elem_of_take.
    apply list_elem_of_lookup_2, list_elem_of_In in Hj.
    destruct (Hgates g Hj) as [p Hp]. exists p. by apply Hk1.
  - intros j Hj. apply Hpin. destruct j as [|[|j]]; [by left|right; by left|lia].
  - exists final, s'. split_and!; [done| |].
    + intros c name p Hp. rewrite (comp_at_heap _ _ _ Hh'). by apply Hk1.
    + rewrite (comp_at_heap _ _ _ Hh'). apply Hpin. right. right. by left.
Qed.

Lemma output_led_spec final_gate s :
  bound (snd s) final_gate (py "out") ->
  exists s', _create_output_led final_gate s = (Some tt, s').
Proof.
  intros [a Ha]. unfold _create_output_led. rewrite build_bind_eq.
  destruct (create_and_add_spec "led" (LED false) (py "Output") s eq_refl)
    as (led & s1 & -> & Hk1 & Hb1).
  run. rewrite (Hk1 _ _ _ Ha).
  destruct (Hb1 (py "in") INPUT) as [b ->]; [by left|].
  destruct (connect_spec a b s1) as (s' & Hc & _). exists s'. exact Hc.
Qed.

(** ** The whole build *)

Lemma row_literals_names negated variables row var b :
  In (var, b) (row_literals negated variables row) -> In var variables.
Proof. unfold row_literals. by intros (v & [= <- _] & Hv)%in_map_iff. Qed.

Section Build.
Variable variables : list str.
Variable s : Circuit.t * Store.

(** Switches and NOT gates are made for every variable. *)
Lemma inputs_spec :
  exists switches s1 not_gates s2,
    _create_input_switches variables s = (Some switches, s1)
    /\ _create_not_gates variables switches s1 = (Some not_gates, s2)
    /\ (forall v, In v variables ->
          ready (snd s2) switches v /\ ready (snd s2) not_gates v)
    /\ (forall v, PyDict.get v switches <> None -> In v variables).
Proof.
  destruct (switches_spec variables [] s) as (sw & s1 & H1 & _ & Hsw & Hkeys).
  destruct (not_gates_spec variables sw [] s1) as (ng & s2 & H2 & Hk2 & Hng).
  { intros v Hv. apply Hsw. by right. }
  exists sw, s1, ng, s2. split_and!; [done..| |].
  - intros v Hv. split.
    + eapply ready_kept; [exact Hk2|]. apply Hsw. by right.
    + apply Hng. by right.
  - intros v Hv. by destruct (Hkeys v Hv).
Qed.

Lemma build_succeeds (component_type final_type : string) k kf label_final guarded
    (label : nat -> str) (terms : list (list literal)) switches not_gates s2 :
  PyDict.get (lower (py component_type)) _registry = Some k ->
  k = ANDGate 2 \/ k = ORGate 2 ->
  PyDict.get (lower (py final_type)) _registry = Some kf ->
  kf = ANDGate 2 \/ kf = ORGate 2 ->
  terms <> [] ->
  (forall term var b, In term terms -> In (var, b) term -> In var variables) ->
  (forall v, In v variables ->
     ready (snd s2) switches v /\ ready (snd s2) not_gates v) ->
  exists s',
    (do gates <-
       create_gates (fun term i =>
                       do gate <- create_and_add component_type (label i);
                       do _ <- wire_term_inputs gate switches not_gates guarded 0 term;
                       ret gate)
                    0 terms;
     match gates with
     | [] => ret false
     | [g] => do _ <- _create_output_led g; ret true
     | _ :: _ :: _ =>
       do final <- (do final <- create_and_add final_type label_final;
                    do _ <- wire_final_inputs final 0 (take 2 gates);
                    ret final);
       do _ <- _create_output_led final;
       ret true
     end) s2 = (Some true, s').
Proof.
  intros Hreg Hk Hregf Hkf Hne Hnames Hready. rewrite build_bind_eq.
  destruct (create_gates_spec
              (fun term i =>
                 do gate <- create_and_add component_type (label i);
                 do _ <- wire_term_inputs gate switches not_gates guarded 0 term;
                 ret gate) 0 terms s2) as (gates & s3 & -> & Hlen & Hk3 & Hb3).
  { intros term Hterm i s0 Hs0.
    apply (term_gate_spec component_type k (label i) guarded term switches not_gates s0
             Hreg Hk).
    intros var b Hin. destruct (Hready var) as [H1 H2]; [by eapply Hnames|].
    split; eapply ready_kept; done. }
  destruct gates as [|g [|g2 gates]].
  - destruct terms; done.
  - rewrite build_bind_eq. destruct (output_led_spec g s3) as (s' & ->); [apply Hb3; by left|].
    by exists s'.
  - rewrite build_bind_eq.
    destruct (final_gate_spec final_type kf label_final (g :: g2 :: gates) s3 Hregf Hkf Hb3)
      as (final & s4 & -> & _ & Hb4).
    rewrite build_bind_eq. destruct (output_led_spec final s4 Hb4) as (s' & ->).
    by exists s'.
Qed.

Lemma build_fails (component_type : string) k guarded (label : nat -> str)
    name (K : list comp_ref -> Build bool) switches not_gates s2 :
  PyDict.get (lower (py component_type)) _registry = Some k ->
  PyDict.get name switches = None ->
  exists s',
    (do gates <-
       create_gates (fun term i =>
                       do gate <- create_and_add component_type (label i);
                       do _ <- wire_term_inputs gate switches not_gates guarded 0 term;
                       ret gate)
                    0 [[(name, true)]];
     K gates) s2 = (None, s').
Proof.
  intros Hreg Hname. rewrite build_bind_eq. cbn [create_gates]. rewrite !build_bind_eq.
  destruct (create_and_add_spec component_type k (label 0) s2 Hreg)
    as (gate & s3 & -> & _).
  cbn [wire_term_inputs Nat.leb]. rewrite build_bind_eq. unfold item. rewrite Hname.
  by eexists.
Qed.

End Build.

Lemma exists_output b rows :
  existsb (fun row => Bool.eqb (output row) b) rows
  = negb (match List.filter (fun row => if b then output row else negb (output row)) rows
          with [] => true | _ :: _ => false end).
Proof.
  induction rows as [|row rows IH]; [done|]. cbn [existsb List.filter].
  destruct b, (output row); cbn [Bool.eqb negb orb]; done.
Qed.

Section Generated.
Variable uni_isalpha : char -> bool.
Variable uni_isalnum : char -> bool.

Lemma generated_not_constant expression tt name :
  generate_truth_table uni_isalpha uni_isalnum expression = Ret tt ->
  name = py "0" \/ name = py "1" -> ~ In name (TruthTable.variables tt).
Proof.
  intros (Hvars & _)%generate_truth_table_inv Hname Hin.
  rewrite Hvars in Hin.
  apply list_elem_of_In, VarFacts._extract_variables_elem in Hin as [Halpha _].
  destruct Hname as [-> | ->]; by vm_compute in Halpha.
Qed.

(** X24. Building a circuit from a generated truth table never raises,
    and it reports success exactly when the table has a row whose
    output is the form's own: from the PDNF when some row is true, from
    the PCNF when some row is false. For a constant function the form
    is [0] or [1], which the builder reads as a variable that has no
    switch, and it reports failure. *)
Theorem build_from_generated_table expression tt use_pdnf s :
  generate_truth_table uni_isalpha uni_isalnum expression = Ret tt ->
  exists s',
    build_circuit_from_truth_table tt use_pdnf s
    = Ret (existsb (fun row => Bool.eqb (output row) use_pdnf) (TruthTable.rows tt), s').
Proof.
  intros Hgen.
  pose proof (generated_rows_defined _ _ _ _ Hgen) as Hdef.
  pose proof (generated_form_names _ _ _ _ Hgen) as Hnames.
  destruct (generate_truth_table_inv _ _ _ _ Hgen) as (_ & Hne & _).
  set (variables := TruthTable.variables tt) in *.
  destruct (inputs_spec variables s) as (sw & s1 & ng & s2 & Hsw & Hng & Hready & Hkeys).
  assert (Habsent : forall name, name = py "0" \/ name = py "1" ->
                      PyDict.get name sw = None).
  { intros name Hname. destruct (PyDict.get name sw) eqn:E; [|done].
    exfalso. apply (generated_not_constant expression tt name Hgen Hname).
    apply Hkeys. by rewrite E. }
  rewrite exists_output.
  unfold build_circuit_from_truth_table. destruct use_pdnf.
  - rewrite calculate_pdnf_spec by done. unfold bind, result_bind.
    unfold build_from_pdnf, try_build.
    rewrite (parse_pdnf_spec tt Hne Hnames). fold variables.
    unfold TruthTable.get_minterms.
    destruct (List.filter _ _) as [|r rs].
    + cbv zeta. rewrite build_bind_eq, Hsw, build_bind_eq, Hng.
      destruct (build_fails "and" (ANDGate 2) true
                  (fun i => py "AND" ++ of_nat (i + 1)) (py "0")
                  (fun and_gates =>
                     match and_gates with
                     | [] => ret false
                     | [g] => do _ <- _create_output_led g; ret true
                     | _ :: _ :: _ =>
                       do final_or <- _create_final_or_gate and_gates;
                       do _ <- _create_output_led final_or;
                       ret true
                     end) sw ng s2 eq_refl) as (s' & Hs'); [apply Habsent; by left|].
      unfold _create_term_and_gate. rewrite Hs'. by exists s'.
    + cbv zeta. cbn [map]. rewrite build_bind_eq, Hsw, build_bind_eq, Hng.
      destruct (build_succeeds variables "and" "or" (ANDGate 2) (ORGate 2) (py "OR_FINAL") true
                  (fun i => py "AND" ++ of_nat (i + 1))
                  (map (row_literals false variables) (r :: rs)) sw ng s2
                  eq_refl (or_introl eq_refl) eq_refl (or_intror eq_refl))
        as (s' & Hs'); [done| |done|].
      { intros term var b (row & <- & _)%in_map_iff Hin.
        by eapply row_literals_names. }
      unfold _create_term_and_gate, _create_final_or_gate. cbn [map] in Hs'.
      rewrite Hs'. by exists s'.
  - rewrite calculate_pcnf_spec by done. unfold bind, result_bind.
    unfold build_from_pcnf, try_build.
    rewrite (parse_pcnf_spec tt Hne Hnames). fold variables.
    unfold TruthTable.get_maxterms.
    destruct (List.filter _ _) as [|r rs].
    + cbv zeta. rewrite build_bind_eq, Hsw, build_bind_eq, Hng.
      destruct (build_fails "or" (ORGate 2) false
                  (fun i => py "OR" ++ of_nat (i + 1)) (py "1")
                  (fun or_gates =>
                     match or_gates with
                     | [] => ret false
                     | [g] => do _ <- _create_output_led g; ret true
                     | _ :: _ :: _ =>
                       do final_and <- _create_final_and_gate or_gates;
                       do _ <- _create_output_led final_and;
                       ret true
                     end) sw ng s2 eq_refl) as (s' & Hs'); [apply Habsent; by right|].
      unfold _create_clause_or_gate. rewrite Hs'. by exists s'.
    + cbv zeta. cbn [map]. rewrite build_bind_eq, Hsw, build_bind_eq, Hng.
      destruct (build_succeeds variables "or" "and" (ORGate 2) (ANDGate 2) (py "AND_FINAL") false
                  (fun i => py "OR" ++ of_nat (i + 1))
                  (map (row_literals true variables) (r :: rs)) sw ng s2
                  eq_refl (or_intror eq_refl) eq_refl (or_introl eq_refl))
        as (s' & Hs'); [done| |done|].
      { intros term var b (row & <- & _)%in_map_iff Hin.
        by eapply row_literals_names. }
      unfold _create_clause_or_gate, _create_final_and_gate. cbn [map] in Hs'.
      rewrite Hs'. by exists s'.
Qed.

End Generated.

Lemma build_from_generated_table_witness :
  let uni := fun _ : char => false in
  let tt := table_AB false false false true in
  let s := (Circuit.new (py "Untitled"), empty_store) in
  generate_truth_table uni uni (py "A&B") = Ret tt
  /\ exists s', build_circuit_from_truth_table tt true s = Ret (true, s').
Proof.
  intros uni tt s.
  assert (Hgen : generate_truth_table uni uni (py "A&B") = Ret tt)
    by (vm_compute; reflexivity).
  split; [exact Hgen|].
  exact (build_from_generated_table uni uni (py "A&B") tt true s Hgen).
Defined.

End BuildFacts.

(** What [evaluate] writes to. *)
Module OutputFacts.
Import PyStr CircuitModel Components ComponentSpec PinTypes FrameSpec.
Import StoreFacts FrameFacts DictFacts HeapFacts EvalFacts ComponentFacts.

Lemma output_pin st self name :
  typed st (comp_at st self) = true ->
  In (name, OUTPUT) (_setup_pins (Component.kind (comp_at st self))) ->
  exists p, Component.get_pin (comp_at st self) name = Some p
            /\ p ∈ get_output_pins st self.
Proof.
  intros Ht Hin. unfold typed in Ht.
  eapply forallb_forall in Ht; [|exact Hin]. cbn [fst snd] in Ht.
  destruct (Component.get_pin (comp_at st self) name) as [p|] eqn:Hp; [|done].
  apply bool_decide_eq_true in Ht. exists p. split; [done|].
  unfold get_output_pins, pins_of_type. apply list_elem_of_In, filter_In. split.
  - apply list_elem_of_In. by eapply get_in_values.
  - by rewrite decide_True.
Qed.

Lemma preserves_write_output st self name s :
  typed st (comp_at st self) = true ->
  In (name, OUTPUT) (_setup_pins (Component.kind (comp_at st self))) ->
  preserves self (get_output_pins st self)
            (write_signal (Component.get_pin (comp_at st self) name) s).
Proof.
  intros Ht Hin. destruct (output_pin st self name Ht Hin) as (p & -> & Hp).
  intros st0. by apply touches_only_set_signal.
Qed.

Lemma preserves_for_each_in {A} self P (f : A -> Exec unit) l :
  (forall a, In a l -> preserves self P (f a)) -> preserves self P (for_each f l).
Proof.
  induction l as [|a l IH]; intros Hf; cbn [for_each]; [apply preserves_ret|].
  apply preserves_bind; [apply Hf; by left|].
  intros _. apply IH. intros b Hb. apply Hf. by right.
Qed.

Ltac frame_out Ht Hk :=
  repeat first
    [ apply preserves_ret | apply preserves_raise
    | apply preserves_read_high | apply preserves_read_signal
    | apply preserves_set_kind
    | apply preserves_read_bits; intros
    | apply preserves_bind; [|intros]
    | apply preserves_write_output; [exact Ht|rewrite Hk; in_list]
    | match goal with
      | |- preserves _ _ (match ?o with Some _ => _ | None => _ end) => destruct o eqn:?
      | |- preserves _ _ (if ?b then _ else _) => destruct b
      | |- preserves _ _ (let '(_, _) := ?x in _) => destruct x
      end ].

(** X25. [evaluate] writes to output pins only: on a component whose
    pins have the types of its class, it changes nothing in the store
    but the attributes of the component itself and the signals of the
    pins that [get_output_pins] lists; every input pin, every other
    component and every wire is as it was. *)
Theorem evaluate_writes_outputs (self : comp_ref) (st : Store) :
  typed st (comp_at st self) = true ->
  touches_only self (get_output_pins st self) st (snd (evaluate self st)).
Proof.
  intros Ht. unfold evaluate.
  destruct (Component.kind (comp_at st self)) eqn:Hk;
    lazymatch goal with
    | |- touches_only _ ?P _ (snd (?m _)) =>
        let H := fresh in
        assert (H : preserves self P m); [unfold write_q, get_pin|apply H]
    end;
    try (frame_out Ht Hk; fail).
  - (* Register *)
    frame_out Ht Hk. apply preserves_for_each_in. intros i Hi%in_seq.
    apply preserves_write_output; [done|]. rewrite Hk. cbn [_setup_pins].
    rewrite !in_app_iff. right. right. apply In_numbered. lia.
  - (* Multiplexer *)
    frame_out Ht Hk.
    match goal with
    | H : Component.get_pin _ _ = Some _ |- _ => rewrite <- H
    end.
    apply preserves_write_output; [done|rewrite Hk; in_list].
  - (* Decoder *)
    frame_out Ht Hk. apply preserves_for_each_in. intros i Hi%in_seq.
    apply preserves_write_output; [done|]. rewrite Hk. cbn [_setup_pins].
    rewrite !in_app_iff. right. apply In_numbered. lia.
Qed.

Lemma evaluate_writes_outputs_witness :
  let st := set_signal 0 (Signal.from_bool true)
              (snd (new FullAdder (py "fa") (py "Full Adder") empty_store)) in
  typed st (comp_at st 0) = true
  /\ get_output_pins st 0 = [3; 4]
  /\ touches_only 0 [3; 4] st (snd (evaluate 0 st)).
Proof.
  intros st.
  assert (H1 : typed st (comp_at st 0) = true) by (vm_compute; reflexivity).
  split; [exact H1|]. split; [vm_compute; reflexivity|].
  exact (evaluate_writes_outputs 0 st H1).
Defined.

End OutputFacts.

(** The rows of a table as dictionaries. *)
Module RowFacts.
Import PyStr BooleanAlgebra FormsSpec.
Import DictFacts HeapFacts TableFacts.

Lemma set_keys {V} k (v : V) d :
  PyDict.keys (PyDict.set k v d)
  = if PyDict.mem k d then PyDict.keys d else PyDict.keys d ++ [k].
Proof.
  unfold PyDict.keys, PyDict.mem. induction d as [|[k0 v0] d IH]; [done|].
  cbn [PyDict.set PyDict.get]. destruct (eqb k k0) eqn:E.
  - apply eqb_eq in E as ->. done.
  - cbn [map fst]. rewrite IH. by destruct (PyDict.get k d).
Qed.

(** X26. [TruthTableRow.to_dict] puts the output under the key [F]: the
    other variables keep their values, and a variable that is itself
    named [F] is shadowed, its input value being replaced by the output
    at the place the variable has among the keys. The rows that
    [analyze_boolean_function] returns for [F&G] show the output in the
    column of the variable [F]. *)
Theorem to_dict_shadows (uni_isalpha uni_isalnum : char -> bool) :
  (forall row var,
     PyDict.get var (to_dict row)
     = if eqb var (py "F") then Some (output row) else PyDict.get var (inputs row))
  /\ (forall row,
        PyDict.keys (to_dict row)
        = if PyDict.mem (py "F") (inputs row) then PyDict.keys (inputs row)
          else PyDict.keys (inputs row) ++ [py "F"])
  /\ (exists a,
        analyze_boolean_function uni_isalpha uni_isalnum (py "F&G") = Ret a
        /\ variables a = [py "F"; py "G"]
        /\ truth_table a
           = [[(py "F", false); (py "G", false)]; [(py "F", false); (py "G", true)];
              [(py "F", false); (py "G", false)]; [(py "F", true); (py "G", true)]]).
Proof.
  split_and!.
  - intros row var. unfold to_dict. destruct (eqb var (py "F")) eqn:E.
    + apply eqb_eq in E as ->. apply get_set_eq.
    + apply eqb_neq in E. by apply get_set_ne.
  - intros row. apply set_keys.
  - eexists. split_and!; vm_compute; reflexivity.
Qed.

End RowFacts.

(** The fan-in of the gates the builder makes. *)
Module FanInFacts.
Import PyStr CircuitModel Components CircuitFromForm.
Import SynthFacts.

Lemma create_gates_take (create : list literal -> nat -> Build comp_ref) i terms s :
  (forall term i s, create term i s = create (take 2 term) i s) ->
  create_gates create i terms s = create_gates create i (map (take 2) terms) s.
Proof.
  intros Hcreate. revert i s. induction terms as [|term rest IH]; intros i s; [done|].
  cbn [create_gates map]. unfold bind, Build_bind. rewrite <- Hcreate.
  destruct (create term i s) as [[gate|] s1]; [|done].
  rewrite IH. done.
Qed.

Lemma _create_term_and_gate_take term variables switches not_gates i s :
  _create_term_and_gate term variables switches not_gates i s
  = _create_term_and_gate (take 2 term) variables switches not_gates i s.
Proof.
  unfold _create_term_and_gate, bind, Build_bind.
  destruct (create_and_add _ _ s) as [[gate|] s1]; [|done].
  by rewrite wire_term_inputs_take.
Qed.

Lemma _create_clause_or_gate_take clause variables switches not_gates i s :
  _create_clause_or_gate clause variables switches not_gates i s
  = _create_clause_or_gate (take 2 clause) variables switches not_gates i s.
Proof.
  unfold _create_clause_or_gate, bind, Build_bind.
  destruct (create_and_add _ _ s) as [[gate|] s1]; [|done].
  by rewrite wire_term_inputs_take.
Qed.

(** X27. The builder wires two inputs per gate at most: what
    [build_from_pdnf] and [build_from_pcnf] do depends on the first two
    literals of each term only. Two forms whose terms agree on their
    first two literals give the same result, the same circuit and the
    same store; so do the PDNFs [(A&B&C)] and [(A&B&!C)]. *)
Theorem build_two_literals dnf1 dnf2 cnf1 cnf2 variables s :
  map (take 2) (_parse_dnf_terms dnf1) = map (take 2) (_parse_dnf_terms dnf2) ->
  map (take 2) (_parse_cnf_clauses cnf1) = map (take 2) (_parse_cnf_clauses cnf2) ->
  build_from_pdnf dnf1 variables s = build_from_pdnf dnf2 variables s
  /\ build_from_pcnf cnf1 variables s = build_from_pcnf cnf2 variables s.
Proof.
  intros Hd Hc. split.
  - unfold build_from_pdnf, try_build. cbv zeta.
    destruct (_parse_dnf_terms dnf1) as [|t1 r1] eqn:E1,
             (_parse_dnf_terms dnf2) as [|t2 r2] eqn:E2; try done.
    unfold bind, Build_bind.
    destruct (_create_input_switches variables s) as [[sw|] s1]; [|done].
    destruct (_create_not_gates variables sw s1) as [[ng|] s2]; [|done].
    rewrite (create_gates_take _ 0 (t1 :: r1))
      by (intros; apply _create_term_and_gate_take).
    rewrite (create_gates_take _ 0 (t2 :: r2))
      by (intros; apply _create_term_and_gate_take).
    by rewrite Hd.
  - unfold build_from_pcnf, try_build. cbv zeta.
    destruct (_parse_cnf_clauses cnf1) as [|t1 r1] eqn:E1,
             (_parse_cnf_clauses cnf2) as [|t2 r2] eqn:E2; try done.
    unfold bind, Build_bind.
    destruct (_create_input_switches variables s) as [[sw|] s1]; [|done].
    destruct (_create_not_gates variables sw s1) as [[ng|] s2]; [|done].
    rewrite (create_gates_take _ 0 (t1 :: r1))
      by (intros; apply _create_clause_or_gate_take).
    rewrite (create_gates_take _ 0 (t2 :: r2))
      by (intros; apply _create_clause_or_gate_take).
    by rewrite Hc.
Qed.

Lemma build_two_literals_witness :
  let dnf1 := py "(A&B&C)" in
  let dnf2 := py "(A&B&!C)" in
  let cnf1 := py "(A|B|C)" in
  let cnf2 := py "(A|B|!C)" in
  let variables := [py "A"; py "B"; py "C"] in
  let s := (Circuit.new (py "Untitled"), empty_store) in
  map (take 2) (_parse_dnf_terms dnf1) = map (take 2) (_parse_dnf_terms dnf2)
  /\ map (take 2) (_parse_cnf_clauses cnf1) = map (take 2) (_parse_cnf_clauses cnf2)
  /\ _parse_dnf_terms dnf1 <> _parse_dnf_terms dnf2
  /\ build_from_pdnf dnf1 variables s = build_from_pdnf dnf2 variables s
  /\ build_from_pcnf cnf1 variables s = build_from_pcnf cnf2 variables s
  /\ fst (build_from_pdnf dnf1 variables s) = true.
Proof.
  intros dnf1 dnf2 cnf1 cnf2 variables s.
  assert (H1 : map (take 2) (_parse_dnf_terms dnf1)
               = map (take 2) (_parse_dnf_terms dnf2)) by (vm_compute; reflexivity).
  assert (H2 : map (take 2) (_parse_cnf_clauses cnf1)
               = map (take 2) (_parse_cnf_clauses cnf2)) by (vm_compute; reflexivity).
  destruct (build_two_literals dnf1 dnf2 cnf1 cnf2 variables s H1 H2) as [Hd Hc].
  split; [exact H1|]. split; [exact H2|].
  split; [by vm_compute|].
  split; [exact Hd|]. split; [exact Hc|].
  vm_compute. reflexivity.
Defined.

End FanInFacts.

(** Adding a wire and removing it again. *)
Module WireRoundTrip.
Import PyStr CircuitModel DictFacts StoreFacts ClockFacts.

Section Methods.
Variable wire_eq : Store -> wire_ref -> wire_ref -> bool.

Local Abbreviation remove_wire := (CircuitModel.remove_wire wire_eq).
Local Abbreviation detach := (CircuitModel.detach wire_eq).
Local Abbreviation wire_in := (CircuitModel.wire_in wire_eq).
Local Abbreviation list_remove := (CircuitModel.list_remove wire_eq).
Local Abbreviation append wire :=
  (fun p => Pin.with_connected_wires (Pin.connected_wires p ++ [wire]) p).

Lemma list_remove_absent st x l : wire_in st x l = false -> list_remove st x l = l.
Proof.
  induction l as [|v l IH]; simpl; [done|].
  intros [-> Hl]%orb_false_elim. by rewrite IH.
Qed.

Lemma list_remove_app st x l r :
  wire_in st x l = false -> list_remove st x (l ++ x :: r) = l ++ r.
Proof.
  induction l as [|v l IH]; simpl.
  - by rewrite Nat.eqb_refl.
  - intros [-> Hl]%orb_false_elim. by rewrite IH.
Qed.

Lemma with_connected_wires_id p : Pin.with_connected_wires (Pin.connected_wires p) p = p.
Proof. by destruct p. Qed.

(** On the pins, [detach] removes the first wire that is [wire] or
    equal to it from the list of [pin], if there is one. *)
Lemma detach_pin_heap wire pin st i :
  pin_heap (detach wire pin st) !! i
  = if decide (pin = i)
    then (fun p => Pin.with_connected_wires
                     (list_remove st wire (Pin.connected_wires p)) p) <$> pin_heap st !! i
    else pin_heap st !! i.
Proof.
  unfold CircuitModel.detach.
  destruct (wire_in st wire _) eqn:Hin.
  - unfold update_pin; simpl. rewrite list_lookup_alter. case_decide; by subst.
  - case_decide as Hp; [subst i|done].
    destruct (pin_heap st !! pin) as [p|] eqn:Hp; [|done]. simpl.
    rewrite (pin_at_lookup _ _ _ Hp) in Hin.
    by rewrite list_remove_absent, with_connected_wires_id.
Qed.

Lemma detach_other_heaps wire pin st :
  comp_heap (detach wire pin st) = comp_heap st
  /\ wire_heap (detach wire pin st) = wire_heap st.
Proof. unfold CircuitModel.detach. by case_match. Qed.

Lemma del_set {V} k (v : V) d : PyDict.get k d = None -> PyDict.del k (PyDict.set k v d) = d.
Proof.
  induction d as [|[k0 v0] d IH]; simpl.
  - by rewrite eqb_refl.
  - destruct (eqb k k0) eqn:E; [done|]. intros H. simpl. by rewrite E, IH.
Qed.

Lemma get_set {V} k (v : V) d : PyDict.get k (PyDict.set k v d) = Some v.
Proof.
  induction d as [|[k0 v0] d IH]; simpl.
  - by rewrite eqb_refl.
  - destruct (eqb k k0) eqn:E; simpl; [by rewrite eqb_refl|by rewrite E].
Qed.

(** X28. [add_wire] followed by [remove_wire] of the identifier it
    returned restores the circuit's wires and every pin, when no wire
    was stored under that identifier and the wire was not yet connected
    to its two pins: each pin's [connected_wires] is the list it was.
    The components are untouched. Two things are not rolled back: the
    wire keeps the identifier it was given, and the counter stays
    incremented when the identifier was generated. *)
Theorem add_wire_remove_wire (self : Circuit.t) (wire : wire_ref) (st : Store) :
  let w := wire_at st wire in
  (forall st' pin, pin = Wire.start_pin w \/ pin = Wire.end_pin w ->
     wire_in st' wire (Pin.connected_wires (pin_at st pin)) = false) ->
  let r1 := add_wire self wire st in
  let id := fst (fst r1) in
  PyDict.get id (Circuit.wires self) = None ->
  let r2 := remove_wire (snd (fst r1)) id (snd r1) in
  pin_heap (snd r2) = pin_heap st
  /\ comp_heap (snd r2) = comp_heap st
  /\ Circuit.wires (fst r2) = Circuit.wires self
  /\ Circuit.components (fst r2) = Circuit.components self
  /\ Wire.wire_id (wire_at (snd r2) wire) = id
  /\ Circuit._next_wire_id (fst r2)
     = match Wire.wire_id w with
       | [] => S (Circuit._next_wire_id self)
       | _ :: _ => Circuit._next_wire_id self
       end.
Proof.
  intros w Hnew r1 id Hfresh r2. subst r1 id r2. revert Hfresh. unfold add_wire.
  set (r0 := match Wire.wire_id (wire_at st wire) with [] => _ | _ :: _ => _ end).
  assert (H0 : Circuit.components (fst r0) = Circuit.components self
               /\ Circuit.wires (fst r0) = Circuit.wires self
               /\ Circuit._next_wire_id (fst r0)
                  = match Wire.wire_id w with
                    | [] => S (Circuit._next_wire_id self)
                    | _ :: _ => Circuit._next_wire_id self
                    end
               /\ comp_heap (snd r0) = comp_heap st
               /\ pin_heap (snd r0) = pin_heap st
               /\ Wire.start_pin (wire_at (snd r0) wire) = Wire.start_pin w
               /\ Wire.end_pin (wire_at (snd r0) wire) = Wire.end_pin w).
  { subst r0 w. destruct (Wire.wire_id (wire_at st wire)); simpl; [|done].
    split_and!; try done; rewrite wire_at_update_wire, wire_at_alt;
      (destruct (wire_heap st !! wire); [|done]); by case_decide. }
  destruct r0 as [self0 st0]. simpl in H0.
  destruct H0 as (Hc & Hw & Hn & Hch & Hph & Hstart & Hend).
  cbv zeta. simpl fst. simpl snd. intros Hfresh.
  set (a := Wire.start_pin (wire_at st0 wire)) in *.
  set (b := Wire.end_pin (wire_at st0 wire)) in *.
  set (st1 := update_pin b (append wire) (update_pin a (append wire) st0)).
  assert (Hwh1 : wire_heap st1 = wire_heap st0) by done.
  assert (Hat1 : wire_at st1 wire = wire_at st0 wire) by (unfold wire_at; by rewrite Hwh1).
  unfold CircuitModel.remove_wire. simpl Circuit.wires. rewrite get_set.
  rewrite Hat1. fold a.
  set (st2 := detach wire a st1).
  assert (Hat2 : wire_at st2 wire = wire_at st0 wire).
  { unfold wire_at. destruct (detach_other_heaps wire a st1) as [_ Hx].
    fold st2 in Hx. by rewrite Hx, Hwh1. }
  rewrite Hat2. fold b.
  set (st3 := detach wire b st2).
  simpl.
  destruct (detach_other_heaps wire a st1) as [Hc2 Hw2]. fold st2 in Hc2, Hw2.
  destruct (detach_other_heaps wire b st2) as [Hc3 Hw3]. fold st3 in Hc3, Hw3.
  split_and!.
  - apply list_eq. intros i. subst st3 st2.
    rewrite !detach_pin_heap. subst st1. unfold update_pin; simpl.
    rewrite !list_lookup_alter, Hph.
    clear Hat1 Hat2 Hwh1 Hc2 Hw2 Hc3 Hw3 Hfresh. clearbody a b.
    assert (Hin : forall st' p, b = i \/ a = i -> pin_heap st !! i = Some p ->
              wire_in st' wire (Pin.connected_wires p) = false).
    { intros st' p Hi Hp. rewrite <- (pin_at_lookup _ _ _ Hp).
      apply Hnew. rewrite <- Hstart, <- Hend. destruct Hi as [<-|<-]; auto. }
    destruct (decide (b = i)) as [->|Hb], (decide (a = i)) as [->|Ha];
      rewrite ?decide_True by done; rewrite ?decide_False by congruence;
      (destruct (pin_heap st !! i) as [p|] eqn:Hp; [|done]); simpl; f_equal.
    + rewrite <- app_assoc. simpl.
      rewrite list_remove_app by eauto.
      rewrite (list_remove_app _ _ _ []) by eauto.
      rewrite app_nil_r. by destruct p.
    + rewrite (list_remove_app _ _ _ []) by eauto.
      rewrite app_nil_r. by destruct p.
    + rewrite (list_remove_app _ _ _ []) by eauto.
      rewrite app_nil_r. by destruct p.
  - by rewrite Hc3, Hc2.
  - rewrite Hw in *. by apply del_set.
  - done.
  - unfold wire_at. by rewrite Hw3, Hw2, Hwh1.
  - done.
Qed.

End Methods.

Lemma add_wire_remove_wire_witness :
  let wire_eq := fun (_ : Store) (_ _ : wire_ref) => false in
  let st := mkStore [Pin.new (py "out") OUTPUT; Pin.new (py "in0") INPUT]
                    [Wire.new [] 0 1] [] in
  let self := Circuit.new (py "Untitled") in
  let r1 := add_wire self 0 st in
  let r2 := CircuitModel.remove_wire wire_eq (snd (fst r1)) (fst (fst r1)) (snd r1) in
  fst (fst r1) = py "wire_0"
  /\ Pin.connected_wires (pin_at (snd r1) 0) = [0]
  /\ pin_heap (snd r2) = pin_heap st
  /\ Circuit.wires (fst r2) = []
  /\ Wire.wire_id (wire_at (snd r2) 0) = py "wire_0"
  /\ Circuit._next_wire_id (fst r2) = 1.
Proof.
  intros wire_eq st self r1 r2.
  assert (Hnew : forall st' pin,
            pin = Wire.start_pin (wire_at st 0) \/ pin = Wire.end_pin (wire_at st 0) ->
            CircuitModel.wire_in wire_eq st' 0 (Pin.connected_wires (pin_at st pin)) = false)
    by (intros st' pin [->| ->]; vm_compute; reflexivity).
  assert (Hfresh : PyDict.get (fst (fst (add_wire self 0 st))) (Circuit.wires self) = None)
    by (vm_compute; reflexivity).
  destruct (add_wire_remove_wire wire_eq self 0 st Hnew Hfresh)
    as (Hp & _ & Hw & _ & Hid & Hn).
  split; [vm_compute; reflexivity|].
  split; [vm_compute; reflexivity|].
  split; [exact Hp|]. split; [exact Hw|]. split; [exact Hid|]. exact Hn.
Defined.

End WireRoundTrip.

(** What [reset] leaves in the store. *)
Module ResetFacts.
Import PyStr CircuitModel StoreFacts CircuitSpec SimulationEngine EngineFacts.

(** C9. After [reset] the tick count is zero and the queue and the set
    of evaluated components are empty. The signal of every pin of every
    component of the circuit, and of every wire of the circuit, reads
    UNKNOWN (with the default width 1 and value 0); the other fields of
    these pins and wires are as before, and so is every pin and wire
    outside the circuit. No component object changes: every stored bit,
    clock level or register value is the one it was. *)
Theorem reset_spec (self : t) (circuit : Circuit.t) (st : Store) :
  let self' := fst (reset self circuit st) in
  let st' := snd (reset self circuit st) in
  tick_count self' = 0%Z
  /\ propagation_queue self' = [] /\ evaluated_components self' = []
  /\ running self' = running self
  /\ (forall p x, p ∈ circuit_pins circuit st -> pin_heap st !! p = Some x ->
        exists x', pin_heap st' !! p = Some x'
          /\ Signal.state (Pin.signal x') = UNKNOWN
          /\ Pin.signal x' = Signal.mk UNKNOWN 1 0
          /\ Pin.name x' = Pin.name x /\ Pin.pin_type x' = Pin.pin_type x
          /\ Pin.bit_width x' = Pin.bit_width x
          /\ Pin.connected_wires x' = Pin.connected_wires x)
  /\ (forall p, p ∉ circuit_pins circuit st -> pin_heap st' !! p = pin_heap st !! p)
  /\ (forall w x, w ∈ circuit_wires circuit -> wire_heap st !! w = Some x ->
        exists x', wire_heap st' !! w = Some x'
          /\ Signal.state (Wire.signal x') = UNKNOWN
          /\ Wire.signal x' = Signal.mk UNKNOWN 1 0
          /\ Wire.wire_id x' = Wire.wire_id x
          /\ Wire.start_pin x' = Wire.start_pin x /\ Wire.end_pin x' = Wire.end_pin x)
  /\ (forall w, w ∉ circuit_wires circuit -> wire_heap st' !! w = wire_heap st !! w)
  /\ length (pin_heap st') = length (pin_heap st)
  /\ length (wire_heap st') = length (wire_heap st)
  /\ comp_heap st' = comp_heap st
  /\ (forall c, Component.kind (comp_at st' c) = Component.kind (comp_at st c)).
Proof.
  intros self' st'.
  destruct (reset_heaps self circuit st) as (Ht & Hq & He & Hr & Hp & Hw & Hc).
  fold self' in Ht, Hq, He, Hr. fold st' in Hp, Hw, Hc.
  split_and!; try done.
  - intros p x Hin Hx. rewrite Hp, decide_True, Hx by done.
    eexists. split; [reflexivity|]. by split_and!.
  - intros p Hin. by rewrite Hp, decide_False.
  - intros w x Hin Hx. rewrite Hw, decide_True, Hx by done.
    eexists. split; [reflexivity|]. by split_and!.
  - intros w Hin. by rewrite Hw, decide_False.
  - apply Nat.le_antisymm.
    + destruct (decide (length (pin_heap st') <= length (pin_heap st))) as [|Hgt]; [done|].
      exfalso. assert (Hl : length (pin_heap st) < length (pin_heap st')) by lia.
      apply lookup_lt_is_Some in Hl as [y Hy]. rewrite Hp in Hy.
      rewrite (lookup_ge_None_2 (pin_heap st) (length (pin_heap st))) in Hy by lia.
      by case_decide.
    + destruct (decide (length (pin_heap st) <= length (pin_heap st'))) as [|Hgt]; [done|].
      exfalso. assert (Hl : length (pin_heap st') < length (pin_heap st)) by lia.
      apply lookup_lt_is_Some in Hl as [y Hy].
      pose proof (Hp (length (pin_heap st'))) as Hq'.
      rewrite (lookup_ge_None_2 (pin_heap st') (length (pin_heap st'))) in Hq' by lia.
      rewrite Hy in Hq'. by case_decide.
  - apply Nat.le_antisymm.
    + destruct (decide (length (wire_heap st') <= length (wire_heap st))) as [|Hgt]; [done|].
      exfalso. assert (Hl : length (wire_heap st) < length (wire_heap st')) by lia.
      apply lookup_lt_is_Some in Hl as [y Hy]. rewrite Hw in Hy.
      rewrite (lookup_ge_None_2 (wire_heap st) (length (wire_heap st))) in Hy by lia.
      by case_decide.
    + destruct (decide (length (wire_heap st) <= length (wire_heap st'))) as [|Hgt]; [done|].
      exfalso. assert (Hl : length (wire_heap st') < length (wire_heap st)) by lia.
      apply lookup_lt_is_Some in Hl as [y Hy].
      pose proof (Hw (length (wire_heap st'))) as Hq'.
      rewrite (lookup_ge_None_2 (wire_heap st') (length (wire_heap st'))) in Hq' by lia.
      rewrite Hy in Hq'. by case_decide.
  - intros c. unfold comp_at. by rewrite Hc.
Qed.

(** [reset] on a flip-flop that holds a bit and drives an LED: the
    signals are forgotten, the bit is not. *)
Lemma reset_spec_witness :
  let circuit := fst ResetScenarios.latched in
  let st := snd ResetScenarios.latched in
  let self := mk true 7 [] [py "ff"] in
  let st' := snd (reset self circuit st) in
  Component.kind (comp_at st 0) = DFlipFlop true true
  /\ Signal.state (Pin.signal (pin_at st 2)) = HIGH
  /\ Signal.state (Pin.signal (pin_at st 4)) = HIGH
  /\ Signal.state (Wire.signal (wire_at st 0)) = HIGH
  /\ tick_count (fst (reset self circuit st)) = 0%Z
  /\ evaluated_components (fst (reset self circuit st)) = []
  /\ Component.kind (comp_at st' 0) = DFlipFlop true true
  /\ (forall p, p < 5 -> Signal.state (Pin.signal (pin_at st' p)) = UNKNOWN)
  /\ Signal.state (Wire.signal (wire_at st' 0)) = UNKNOWN.
Proof.
  intros circuit st self st'.
  destruct (reset_spec self circuit st)
    as (Ht & _ & He & _ & Hp & _ & Hw & _ & _ & _ & _ & Hk).
  split; [vm_compute; reflexivity|]. split; [vm_compute; reflexivity|].
  split; [vm_compute; reflexivity|]. split; [vm_compute; reflexivity|].
  split; [exact Ht|]. split; [exact He|].
  split; [rewrite Hk; vm_compute; reflexivity|].
  split.
  - intros p Hlt.
    assert (Hin : p ∈ circuit_pins circuit st).
    { assert (Hp5 : p ∈ [0; 1; 2; 3; 4]).
      { do 5 (destruct p as [|p]; [set_solver|]). lia. }
      exact Hp5. }
    assert (Hx : pin_heap st !! p = Some (pin_at st p)).
    { do 5 (destruct p as [|p]; [reflexivity|]). lia. }
    destruct (Hp p _ Hin Hx) as (x' & Hx' & Hs & _).
    subst st'. rewrite (pin_at_lookup _ _ _ Hx'). exact Hs.
  - assert (Hin : 0 ∈ circuit_wires circuit) by (vm_compute; left).
    assert (Hx : wire_heap st !! 0 = Some (wire_at st 0)) by reflexivity.
    destruct (Hw 0 _ Hin Hx) as (x' & Hx' & Hs & _).
    subst st'. rewrite (wire_at_lookup _ _ _ Hx'). exact Hs.
Defined.

End ResetFacts.

(** [step] against the specification's wording of a step. *)
Module StepRefinement.
Import PyStr CircuitModel StoreFacts SimulationEngine EngineSpec StepSpec FrameSpec.
Import DictFacts StepFacts FrameFacts RoundTripFacts.

Lemma alter_insert_total {A} `{Inhabited A} (f : A -> A) (i : nat) (l : list A) :
  alter f i l = <[i := f (l !!! i)]> l.
Proof.
  apply list_eq. intros j. rewrite list_lookup_alter, list_lookup_insert.
  destruct (decide (i = j)) as [->|Hne].
  - destruct (l !! j) as [x|] eqn:Hx.
    + rewrite decide_True by (split; [done|by eapply lookup_lt_Some]).
      simpl. by rewrite (list_lookup_total_correct _ _ _ Hx).
    + rewrite decide_False; [done|]. intros [_ Hlt].
      apply lookup_lt_is_Some in Hlt as [? ?]. congruence.
  - rewrite decide_False by (intros [? _]; done). done.
Qed.

(** [Wire.propagate] is the propagation of the specification. *)
Lemma propagate_eq wire st : propagate wire st = propagate_wire wire st.
Proof.
  unfold propagate, propagate_wire, copy_signal, set_signal, update_pin, update_wire,
    signal_of, pin_at, wire_at. cbv zeta. simpl.
  repeat case_decide; try done; by rewrite !alter_insert_total.
Qed.

Lemma propagation_eq circuit st : _propagate_signals circuit st = propagation circuit st.
Proof.
  unfold _propagate_signals, propagation.
  generalize (PyDict.values (Circuit.wires circuit)). intros ws. revert st.
  induction ws as [|w ws IH]; intros st; simpl; [done|]. by rewrite propagate_eq, IH.
Qed.

Lemma same_shape_refl st : same_shape st st.
Proof. by split. Qed.

Lemma same_shape_trans st1 st2 st3 :
  same_shape st1 st2 -> same_shape st2 st3 -> same_shape st1 st3.
Proof.
  intros [Hc Hp] [Hc' Hp']. split.
  - intros c. by rewrite Hc', Hc.
  - intros q. destruct (Hp q) as [<- <-]. apply Hp'.
Qed.

Lemma evaluate_same_shape c st : same_shape st (snd (Components.evaluate c st)).
Proof.
  destruct (evaluate_touches_only c st) as (_ & _ & _ & Hoth & [k Hk] & _ & Hsig).
  split.
  - intros c'. destruct (decide (c' = c)) as [->|Hne]; [by rewrite Hk|by rewrite Hoth].
  - intros q. destruct (Hsig q) as [s ->]. done.
Qed.

Lemma fold_evaluate_same_shape cs st :
  same_shape st (fold_left (fun st c => snd (Components.evaluate c st)) cs st).
Proof.
  revert st. induction cs as [|c cs IH]; intros st; simpl; [apply same_shape_refl|].
  eapply same_shape_trans; [apply evaluate_same_shape|apply IH].
Qed.

Lemma full_pass_same_shape circuit st : same_shape st (full_pass circuit st).
Proof. apply fold_evaluate_same_shape. Qed.

Lemma propagate_same_shape w st : same_shape st (propagate w st).
Proof.
  assert (Hw : forall p s v,
            same_shape st (set_signal p s (update_wire v (Wire.with_signal s) st))).
  { intros p s v. split; [done|]. intros q. unfold set_signal.
    rewrite pin_at_update_pin, pin_at_alt. simpl.
    destruct (pin_heap st !! q); [|done]. by case_decide. }
  unfold propagate. repeat case_decide; [by apply Hw|by apply Hw|apply same_shape_refl].
Qed.

Lemma _propagate_signals_same_shape circuit st :
  same_shape st (_propagate_signals circuit st).
Proof.
  unfold _propagate_signals. generalize (PyDict.values (Circuit.wires circuit)).
  intros ws. revert st. induction ws as [|w ws IH]; intros st; simpl;
    [apply same_shape_refl|].
  eapply same_shape_trans; [apply propagate_same_shape|apply IH].
Qed.

Lemma named_pins_same_shape st st' c :
  same_shape st st' -> named_pins st' c = named_pins st c.
Proof.
  intros [Hc Hp]. unfold named_pins. rewrite Hc. f_equal.
  apply RoundTrip.forallb_ext. intros kp. by destruct (Hp (snd kp)) as [-> _].
Qed.

Lemma named_same_shape circuit st st' :
  same_shape st st' -> named circuit st' = named circuit st.
Proof.
  intros H. unfold named. apply RoundTrip.forallb_ext. intros c. by apply named_pins_same_shape.
Qed.

Lemma existsb_filter {A} (t f : A -> bool) l :
  existsb f (List.filter t l) = existsb (fun x => t x && f x) l.
Proof.
  induction l as [|x l IH]; simpl; [done|].
  destruct (t x); simpl; by rewrite IH.
Qed.

Lemma existsb_ext_in {A} (f g : A -> bool) l :
  (forall x, x ∈ l -> f x = g x) -> existsb f l = existsb g l.
Proof.
  induction l as [|x l IH]; intros H; simpl; [done|].
  rewrite (H x) by left. rewrite IH; [done|]. intros y Hy. apply H. by right.
Qed.

Lemma NoDup_map_filter {A B} (f : A -> B) (t : A -> bool) l :
  NoDup (map f l) -> NoDup (map f (List.filter t l)).
Proof.
  induction l as [|a l IH]; simpl; [done|].
  intros [Hn Hd]%NoDup_cons. destruct (t a); simpl; [|auto].
  apply NoDup_cons. split; [|auto].
  intros (y & Hy & Hin)%list_elem_of_fmap. apply Hn. rewrite Hy.
  apply list_elem_of_fmap_2. apply list_elem_of_In in Hin.
  apply filter_In in Hin as [Hin _]. by apply list_elem_of_In.
Qed.

(** The names of the pins of a component are those it stores them
    under. *)
Lemma named_pins_names st c :
  named_pins st c = true ->
  map (fun p => Pin.name (pin_at st p)) (PyDict.values (Component.pins (comp_at st c)))
  = PyDict.keys (Component.pins (comp_at st c))
  /\ NoDup (PyDict.keys (Component.pins (comp_at st c))).
Proof.
  unfold named_pins. intros [Hnd Hn]%andb_true_iff. apply bool_decide_eq_true in Hnd.
  split; [|done]. unfold PyDict.values, PyDict.keys. rewrite map_map.
  apply map_ext_in. intros kp Hin.
  rewrite forallb_forall in Hn. specialize (Hn kp Hin).
  by apply bool_decide_eq_true in Hn.
Qed.

(** The comparison the engine makes, through the dictionary of the old
    states keyed by pin name, is the comparison of each output pin with
    itself. *)
Lemma outputs_changed_spec c st st' :
  same_shape st st' -> named_pins st c = true ->
  outputs_changed (output_states st c) st' c = output_state_differs c st st'.
Proof.
  intros [Hc Hp] Hnamed. destruct (named_pins_names st c Hnamed) as [Hnames Hnd].
  unfold outputs_changed, output_states, output_state_differs, get_output_pins,
    pins_of_type. rewrite Hc.
  set (l := PyDict.values (Component.pins (comp_at st c))) in *.
  set (t := fun p => if decide (Pin.pin_type (pin_at st p) = OUTPUT) then true else false).
  rewrite (filter_ext
             (fun p => if decide (Pin.pin_type (pin_at st' p) = OUTPUT) then true else false)
             t) by (intros p; unfold t; by destruct (Hp p) as [_ ->]).
  change (List.filter _ (PyDict.values (Component.pins (comp_at st c))))
    with (List.filter t l).
  set (g := fun pin => (Pin.name (pin_at st pin), Signal.state (signal_of st pin))).
  assert (Hnd' : NoDup (map fst (map g (List.filter t l)))).
  { rewrite map_map. simpl. apply NoDup_map_filter. by rewrite Hnames. }
  rewrite of_pairs_NoDup by done.
  rewrite existsb_filter. apply existsb_ext_in. intros p Hin.
  unfold t at 1. destruct (decide (Pin.pin_type (pin_at st p) = OUTPUT)) as [Hty|Hty].
  - rewrite bool_decide_eq_true_2 by done. simpl.
    destruct (Hp p) as [-> _].
    rewrite (elem_get _ (Signal.state (signal_of st p))); [| exact Hnd' |].
    + unfold signal_of. case_decide as Heq.
      * injection Heq as Heq. by rewrite bool_decide_eq_true_2.
      * rewrite bool_decide_eq_false_2; [done|]. intros Heq'. apply Heq. by rewrite Heq'.
    + change (g p ∈ map g (List.filter t l)). apply list_elem_of_fmap_2.
      apply list_elem_of_In, filter_In. split; [by apply list_elem_of_In|].
      unfold t. by rewrite decide_True.
  - by rewrite bool_decide_eq_false_2.
Qed.

Lemma some_changed_spec cs st :
  (forall c, c ∈ cs -> named_pins st c = true) -> some_changed cs st = changes cs st.
Proof.
  revert st. induction cs as [|c cs IH]; intros st Hn; simpl; [done|].
  pose proof (evaluate_same_shape c st) as Hs.
  unfold component_changed.
  rewrite IH by (intros c' Hc'; rewrite (named_pins_same_shape _ _ _ Hs); apply Hn; by right).
  destruct (Components.evaluate c st) as [[u|] st'] eqn:E; simpl in *; [|done].
  rewrite outputs_changed_spec; [done|done|]. apply Hn. by left.
Qed.

Lemma pass_changed_spec circuit st :
  named circuit st = true -> pass_changed circuit st = pass_changes circuit st.
Proof.
  intros H. unfold pass_changed, pass_changes. apply some_changed_spec.
  intros c Hc. unfold named in H. rewrite forallb_forall in H. apply H.
  by apply list_elem_of_In.
Qed.

Lemma passes_run_spec n circuit st :
  named circuit st = true -> passes_run n circuit st = passes_until_stable n circuit st.
Proof.
  revert st. induction n as [|n IH]; intros st H; simpl; [done|].
  rewrite pass_changed_spec by done. destruct (pass_changes circuit st); [|done].
  rewrite IH; [done|]. by rewrite (named_same_shape _ _ _ (full_pass_same_shape circuit st)).
Qed.

Lemma passes_until_stable_le n circuit st : passes_until_stable n circuit st <= n.
Proof.
  revert st. induction n as [|n IH]; intros st; simpl; [lia|].
  destruct (pass_changes circuit st); [|lia]. specialize (IH (full_pass circuit st)). lia.
Qed.

Lemma passes_until_stable_changed n circuit st i :
  S i < passes_until_stable n circuit st ->
  pass_changes circuit (passes i circuit st) = true.
Proof.
  revert st i. induction n as [|n IH]; intros st i; simpl; [lia|].
  destruct (pass_changes circuit st) eqn:Hc; [|lia].
  destruct i as [|i]; simpl; [done|]. intros H. apply IH. lia.
Qed.

Lemma passes_until_stable_last n circuit st :
  passes_until_stable n circuit st < n ->
  exists j, passes_until_stable n circuit st = S j
            /\ pass_changes circuit (passes j circuit st) = false.
Proof.
  revert st. induction n as [|n IH]; intros st; simpl; [lia|].
  destruct (pass_changes circuit st) eqn:Hc.
  - intros H. destruct (IH (full_pass circuit st)) as (j & Hj & Hs); [lia|].
    exists (S j). by rewrite Hj.
  - intros _. by exists 0.
Qed.

(** C3. In a circuit whose components store their pins under the pins'
    names, [step] increments the tick count and empties the set of
    evaluated components, and the store it leaves is reached in three
    stages. One propagation over all wires, in the order of the wire
    map: each wire copies the signal of its OUTPUT-typed end to itself
    and to its other end. Then [k] full passes, each evaluating every
    component in the order of the component map, where every pass but
    the last left some output pin in another state than it found it, and
    the last one either left every output pin in its state or is pass
    number [max]: [k] never exceeds the bound. Then one more propagation
    over all wires. What is printed is the errors of the passes followed
    by the convergence warning exactly when [k] is the bound; the store
    of the last pass is kept in that case too. *)
Theorem step_structure (max : Z) (self : t) (circuit : Circuit.t) (st : Store) :
  named circuit st = true ->
  let st1 := propagation circuit st in
  let n := Z.to_nat max in
  let k := passes_until_stable n circuit st1 in
  step max self circuit st
  = (mk (running self) (tick_count self + 1) (propagation_queue self) [],
     passes_log k circuit st1
     ++ (if decide (k = n) then [WarningNotConverged max] else []),
     propagation circuit (passes k circuit st1))
  /\ k <= n
  /\ (forall i, S i < k -> pass_changes circuit (passes i circuit st1) = true)
  /\ (k < n -> exists j, k = S j /\ pass_changes circuit (passes j circuit st1) = false).
Proof.
  intros Hnamed st1 n k.
  assert (Hnamed1 : named circuit (_propagate_signals circuit st) = true)
    by (by rewrite (named_same_shape _ _ _ (_propagate_signals_same_shape circuit st))).
  split_and!.
  - rewrite step_eq. rewrite (passes_run_spec _ _ _ Hnamed1).
    rewrite !propagation_eq. done.
  - apply passes_until_stable_le.
  - intros i. apply passes_until_stable_changed.
  - apply passes_until_stable_last.
Qed.

(** The synthesised AND circuit with both switches closed: two passes
    are run under the bound 10, the first changes output pins, the
    second none; no warning. *)
Lemma step_structure_witness :
  let circuit := SynthSpec.and_net in
  let st := SynthSpec.and_circuit_on in
  let st1 := propagation circuit st in
  named circuit st = true
  /\ passes_until_stable 10 circuit st1 = 2
  /\ pass_changes circuit st1 = true
  /\ pass_changes circuit (full_pass circuit st1) = false
  /\ step 10 SimulationEngine.new circuit st
     = (mk false 1 [] [], [], propagation circuit (passes 2 circuit st1)).
Proof.
  intros circuit st st1.
  assert (Hnamed : named circuit st = true) by (vm_compute; reflexivity).
  assert (Hk : passes_until_stable 10 circuit st1 = 2) by (vm_compute; reflexivity).
  destruct (step_structure 10 SimulationEngine.new circuit st Hnamed)
    as (Heq & _ & Hch & Hlast).
  cbv zeta in Heq, Hch, Hlast. fold st1 in Heq, Hch, Hlast.
  change (Z.to_nat 10) with 10 in Heq, Hch, Hlast.
  rewrite Hk in Heq, Hch, Hlast.
  split; [exact Hnamed|]. split; [exact Hk|].
  split; [apply (Hch 0); lia|].
  split.
  - destruct Hlast as (j & Hj & Hs); [lia|].
    injection Hj as <-. exact Hs.
  - rewrite Heq. f_equal.
Defined.

End StepRefinement.
